(* ===== verification/_CoqProject ===== *)
-Q . S2P
Prelude.v
Memory.v
Region.v
Machine.v
Directory.v
Alloc.v
Slack.v
Dealloc.v
Realloc.v
Abstract.v
Absorb.v
Release.v
Limits.v
Move.v
Resize.v
Invariants.v
Scenarios.v
Stack.v
Clients.v
