(* ===== verification/Prelude.v ===== *)
(** * A verification development for [dynalloc.c]

    The program is a user-space dynamic memory allocator written in C
    ([src/dynalloc.c]): [malloc], [free], [free_with_caution] and [realloc]
    over one growable heap segment managed with [sbrk] and [brk].  Every
    block of the heap starts with a [Header] ([next], [prev], [size],
    [free]); the headers form a doubly linked list whose head is the global
    [first].

    ** Parts of the program and where they are modelled

    The files are listed in the order in which they depend on each other.

    - [Prelude.v] (this file): machine integers and the execution monad.
      [size_t] and pointers are 64-bit: [wrap] is arithmetic modulo [2^64],
      [signed] the [intptr_t] reading of a word.  C code that reads and
      writes memory is a computation [M S A := S -> res (A * S)]; a run
      returns [Ok], or [Fault a] when it touches address [a] outside the
      heap segment, or [OutOfFuel] when a loop runs out of fuel.  [keeps P c]
      says that [c] preserves the invariant [P] and [hoare P c Q] that a
      run of [c] from [P] that returns ends in [Q]; the tactics [keeps_tac]
      and [hoare_tac] and the database [keeps] prove them for a sequence
      from its parts.
    - [Memory.v]: the flat, byte addressed memory ([gmap Z Z]) with
      little-endian loads and stores of [n] bytes.  Headers and user data
      live in the same bytes, so overlapping blocks alias as they do in C.
      [bytes] says that every cell holds a value below 256.
    - [Region.v]: the Heap Region Manager, that is the system calls [sbrk]
      and [brk].  They are not code of the repository; the class
      [HeapRegion] states what the allocator relies on (operations and
      laws) and the simulated segment [sim_region] implements it.  The
      allocator's theorems are proved against the class; the witnesses run
      on [sim_region].  The class [Bounded] adds a limit [heap_max] below
      which [sbrk] grants every request: the theorems that say a call
      extends the heap and returns are proved against it.
    - [Machine.v]: the state of the allocator ([s_mem], [s_reg], and
      [s_first] for the global [first]), the layout of [struct Header]
      (offsets 0, 8, 16, 24; [SIZEOF_HEADER = 32], [SIZEOF_PTR = 8],
      [MIN_BLOCK_SIZE = 32]), one checked accessor per field access of the
      C code ([get_next], [set_size], ...), the two system call sites
      ([sys_sbrk], [sys_brk]), [hdr_at] (a header in memory), [frame] (what
      a run may change) and the tactics that run a sequence of accesses
      symbolically ([mstep], [mem_simpl], [solve_hdr], [solve_frame]).  A
      predicate on states is [Stable] when stores, [sbrk] and [brk] keep it.
    - [Directory.v]: the Block Directory.  [merge_blocks] and [split_block]
      are the C functions statement by statement.  A [block] is the address,
      size and flag of a header; [repr s bs] says that the list [bs] is in
      memory from [first], each header holding the links the list
      prescribes; [walk] reads a list back; [sorted], [tiled] and [within]
      are the geometry of a list.
    - [Alloc.v]: [malloc], with the coalescing loop [merge_run], the
      first-fit scan [malloc_scan], [take_block] and the heap extension
      [malloc_extend].  [coalesce], [first_fit] and [find_fit] are what the
      loops compute on a list of blocks.
    - [Slack.v]: the stores of [split_block] when the new header overlaps
      the header of the next block, as the memory they leave
      ([straddle_mem]) and the two headers read from it ([phantom],
      [straddled]).
    - [Dealloc.v]: [free] and [free_with_caution], with the walk back over
      the trailing free blocks [free_walk], the shared [release_tail] and
      the scan [caution_scan].
    - [Realloc.v]: [realloc] with its paths ([size_diff], [absorb_run],
      [realloc_absorb], [realloc_move]) and [copy_data], statement by
      statement.
    - [Abstract.v]: [malloc] as a function on the list of blocks.
      [malloc_abs] is the scan [find_fit] followed by what [take_block] or
      [malloc_extend] do, with an [answer] for each way out of the C
      function; [malloc_meets] says that a run of the code ends as an
      answer says and which bytes it wrote; [ordered] collects the
      invariants of a directory and [inside] is the data of a block.
    - [Absorb.v]: the block [if((header->next)->free)] of [realloc];
      [absorb] is what its loop computes on the blocks behind the
      successor.
    - [Release.v]: [free] and [free_with_caution] as functions on the list
      of blocks.  [free_abs] is the search for the block ([locate]), the
      mark, and the walk back over free blocks ([trailing]), with a
      [release] for each way out; [free_meets] says that a run of the code
      ends as a release says, and [chain] that the headers from [first]
      end at a given address.
    - [Limits.v]: [request] and [regrow], the increments [malloc] and
      [realloc] pass to [sbrk], a [size_t] read as an [intptr_t], and what
      the functions do when the increment leaves the lower half of the
      range.
    - [Move.v]: the last lines of [realloc], [malloc], [copy_data] and
      [free], whatever [malloc] does; [vacate] is the list with the old
      block free.
    - [Resize.v]: [realloc] as a function on the list of blocks and the
      segment.  [realloc_abs] is the search for the block ([locate]) and
      then one of the paths of the C function: the last block ([regrow],
      [resized]), the absorption ([absorb_abs]) or the fall back
      ([move_abs], that is [malloc_abs] and [vacate]), with a [regrown]
      for each way out; [realloc_meets] says that a run of the code ends
      as it says and that the bytes of the block are at the address
      returned.
    - [Invariants.v]: the interface between the four functions and what is
      proved of all their runs.  The only assignments to [first] are in
      [malloc_extend] and [release_tail]: a [Stable] predicate that these
      two keep is an [Invariant], and every [Invariant] is [Kept] by
      [malloc], [free], [free_with_caution] and [realloc].  Instances:
      [based] (the segment), [typed] (values fit their C types), [anchored]
      (where the list starts).
    - [Scenarios.v]: programs, that is sequences of public calls and of
      stores of the client through the pointers returned ([call], [run]),
      whose pointer arguments are results of earlier calls, the step
      relation of one call and the states [reachable] from the initial one.
    - [Stack.v]: what the functions make of the heap when they are called
      from the initial state.  [malloc] does not link the block it creates,
      so the heap is a pile of blocks with [next = NULL]: [top], [headers]
      and [in_data] describe it, [cut] is what [free] releases, [track] is
      the abstract machine of a program, with the bytes the client stored
      in the blocks it [owns]; [stacked] relates a state of the allocator
      to a stack of sizes and [holds] says that the bytes are in memory.
    - [Clients.v]: programs of a client on the stack machine, for all
      sizes: [lifo] allocates and frees in the reverse order, [reuse]
      allocates again after it freed its first block; [blocks] are the
      data regions of a stack and [apart] says that two of them are
      disjoint; [aligned] says that an address is a multiple of the word.

    ** What the theorems show

    - Prelude, Memory, Region: the algebra the rest relies on (wrap-around,
      monad laws with [Proper] instances for the pointwise equality of
      computations, load after store, observational equality of memories,
      the laws of [sbrk] and [brk] discharged by [sim_region]).
    - Directory: [merge_blocks] and [split_block] refine [merge_abs] and
      [split_abs] on lists in address order, with the bytes they write;
      [split_block] does nothing below the floor, faults on the last block,
      leaves the size of the block it splits unchanged and sizes the
      remainder with [sizeof(header)], a pointer, so that a split breaks
      the tiling by 24 bytes; [lay] writes any list in address order into
      memory and [walk] reads back the list [repr] describes.
    - Alloc: the coalescing loop computes [coalesce], which keeps a tiled
      list tiled, and the scan computes [find_fit], with the fuel that is
      enough; every way out of [malloc]:
      the first block of an empty directory, a fit handed out whole, a fit
      that is split, a fit on the last block (fault), an exact fit (the
      next header is overwritten and every later [malloc] diverges), no fit
      (the new block is not linked to the list), a refused [sbrk] (fault).
    - Slack: a fit that leaves from one to seven bytes.  The remainder
      wraps around as on an exact fit and the new header is written that
      many bytes before the next one.  [malloc] returns the block and
      leaves the two headers as [phantom] and [straddled] compute them from
      the addresses, byte for byte ([malloc_slack_fit_straddles]): the
      next block, in use or not, has lost its [next] and its size, and the
      list continues at a free header of almost [2^64] bytes.  The next
      request is served from that header: it faults when the request ends
      above the break ([malloc_after_slack_faults]) and is given memory of
      the next block otherwise ([slack_overlaps], by evaluation).
    - Dealloc: [free] on an inner block, on the last block when all blocks
      are free and when a block in use stays (the list is left pointing
      above the break); [free_with_caution] is a no-op on an untracked
      address and equal to [free] on a tracked one.
    - Abstract: [malloc] implements [malloc_abs] on every way out, faults
      included, and writes to headers only ([malloc_refines]), so that on
      a directory that meets the invariants the data of the blocks in use
      is unchanged ([malloc_keeps_data]).  Of the invariants [malloc_abs]
      keeps the address order always ([after_sorted], a lemma the later
      files use); it keeps tiling, floor and bounds when it takes a block whole or extends the
      heap, and a split leaves a list that is sorted and not tiled, with a
      remainder that ends 24 bytes inside the next header
      ([malloc_abs_split]).  [malloc_abs] is defined on every directory
      that meets the invariants unless the block found exceeds the request
      by less than a pointer ([malloc_abs_defined]); Alloc and Slack say
      what the code does then.
    - Release: [free] implements [free_abs] ([free_refines]) and
      [free_with_caution] is [free] behind [locate]
      ([free_with_caution_refines]).  After a release that leaves blocks,
      the chain from [first] ends at the break and [free_with_caution]
      faults there on every address that is not in the chain.
    - Absorb: the absorption loop computes [absorb] and writes nothing
      below the successor; growing into a free successor too small to be
      split merges it whole, which is the path that works, and growing into
      a larger one merges it whole after splitting it, so that the
      remainder lies inside the grown block ([realloc_absorb_grows]); when
      no block in use follows, the loop reads through [NULL].
    - Move: for a block in use that has a successor, on a directory that
      meets the invariants, the last lines of [realloc] do what
      [malloc_abs] says and then free the old block: the data arrives in
      the block first fit found ([realloc_moves_into_fit]) or in the new
      block at the old break, and when the new block is smaller than the
      old one the copy faults at the new break.
    - Resize: [realloc] implements [realloc_abs] on every path, faults
      included, and the bytes of the block are at the address returned
      ([realloc_refines]); a block that has a successor is never made
      smaller in place ([realloc_shrink_leaves]); a block followed by free
      blocks only cannot be resized at all ([realloc_free_run_lost]).
    - Limits: a request in the upper half of the range of [size_t] is a
      negative increment, and [malloc] faults after the heap shrank when
      the system agreed; a request within seven bytes of the end of the
      range wraps around, and [malloc] returns a pointer above the break;
      [realloc] asked to grow the last block by half the range or more
      moves the break down and records the larger size.
    - Realloc: [size_diff] is never negative, so the shrink branch is dead;
      the last block is resized in place by moving the break either way,
      and when [sbrk] refuses the new size is recorded all the same;
      [copy_data] copies byte for
      byte; in a directory of blocks in use, growing a block that has a
      successor moves it to a new block at the break, and shrinking it
      copies the old size into the smaller new block and faults at the
      break.
    - Invariants: every call of the four functions and every store of the
      client keeps the segment well formed with the same start, keeps every
      cell a byte and [first] a 64-bit value, and the calls return 64-bit
      values; from an empty heap, [first] is [NULL] with the break at the
      start, or is the start of the heap.  [malloc] never returns the null
      pointer ([malloc_never_null]), and [realloc] returns it for the null
      pointer only: a refused extension of the heap is never reported.
    - Scenarios: the invariants hold in every reachable state, by induction
      on [reachable] ([reachable_kept]), and along every program ([run]);
      after [free] gave back the end of a list with blocks in use the next
      [malloc] faults; runs on the simulated segment, among them the
      scenario of the specification, which does not complete.
    - Stack: the allocator simulates the stack machine ([run_tracks]):
      [malloc] pushes a block at the break, [free] of a block releases it
      with every block above it, [realloc] resizes the top block in place,
      [free_with_caution] frees the bottom block and no other; each of them
      leaves the data of the blocks that stay unchanged, so that the bytes
      a client stored in a block are in memory for as long as the block is
      allocated.  [realloc] on a block below the top grows it over the
      block above.
    - Clients: a program that only allocates is given blocks that are
      pairwise disjoint, disjoint from the blocks that were there, below
      the break and behind headers that record at least the sizes asked
      for ([mallocs_apart]); a client that frees in the reverse
      order of its allocations is served correctly ([lifo_round_trip]: the
      heap is left as it was); a client that frees its first block and
      allocates again is handed memory that overlaps a block it still
      holds ([live_block_given_twice]); the scenario of the
      specification stops at its second [free], for all sizes
      ([spec_scenario_stops]).  Alignment is the client's: the
      addresses returned are aligned as long as the heap starts aligned
      and every size is a multiple of the word
      ([rounded_sizes_aligned]), and after a request that is not one the
      next header and the next address are misaligned
      ([odd_size_misaligns]).

    ** Bounds, fuel and assumptions

    The data model is LP64: pointers and [size_t] are 8 bytes, the header
    is 32 bytes (three words and a [char], padded).  Arithmetic on sizes
    and pointers wraps modulo [2^64] (for pointers C leaves overflow
    undefined; the model takes the behaviour of the hardware).  An access
    is legal when its bytes lie in [[heap_lo, heap_hi)]: the model faults
    at the byte, where a real system faults at the page.  Page zero is
    never part of the heap ([heap_lo >= 4096]), so a dereference of [NULL]
    faults.  Memory given back with [brk] keeps its bytes but may no longer
    be accessed.  So [Fault a] means an access outside the heap at [a], not
    a trap of the hardware: where a theorem concludes with a fault, a real
    system may go on through memory that is still mapped.  The address of
    a field is the header plus the offset, not reduced modulo [2^64]: this
    shows only in the address a fault names after [sbrk] failed, where
    [SBRK_FAILED + OFF_PREV] stands for the address 7.

    Each loop takes a [nat] of fuel.  The theorems that say a call returns
    give the fuel that is enough: more than the number of blocks after the
    current one for [merge_run] and [free_walk], more than the length of
    the list for [malloc] and [free_with_caution], more than the number of
    bytes for [copy_data], more than both for [realloc].  The theorem that says [malloc] diverges is for
    every fuel.  On a stack of blocks two units are enough for every call,
    whatever the number of blocks: the list from [first] holds the bottom
    block only.  The invariants are stated for the runs that return, with
    any fuel; that the calls return is what the other theorems show.

    ** Not modelled

    Concurrency (the program is single threaded), the cost of a
    misaligned access (the model reads and writes bytes at any address),
    and loads of the client (a client stores bytes, and the theorems say
    what is in memory).  The theorems of Alloc, Abstract,
    Realloc and Stack are for sizes below half the range of [size_t];
    Limits covers [malloc] and the last block of [realloc] above it.
    The functions on lists are partial.  [malloc_abs] is not defined when
    the block found exceeds the request by less than a pointer: Alloc and
    Slack say what the code does then.  [free_abs] is defined on the data
    address of a block of the list only, found with [locate], the search
    of [free_with_caution]: [free] makes no such search, and Dealloc, Stack
    and Clients say what it does on a block that is not in the list.
    [realloc_abs] is not defined, and nothing is proved of [realloc], on an
    address that is not the data of a block of the list, on a free block,
    when the break would move below the header of the last block, and on a
    request smaller than the block when [malloc] finds a fit: the copy
    then overruns the block found, and what it overwrites depends on the
    data.  Not proved: that the list from
    [first] is a list of blocks in every reachable state, which does not
    hold in general, since [free] leaves [next] fields pointing above the
    break and [realloc] lets blocks overlap headers: the invariants proved
    of all reachable states are the ones the code does keep. *)

From Stdlib Require Import ZArith Lia.
From stdpp Require Import prelude sorting.

#[local] Open Scope Z_scope.

(** ** Machine integers *)

Definition SIZE_MOD : Z := Eval cbv in 2 ^ 64.
Definition SIZE_HALF : Z := Eval cbv in 2 ^ 63.

(** Arithmetic on [size_t] and on pointers is modulo [2^64]. *)
Definition wrap (z : Z) : Z := z mod SIZE_MOD.

(** The value of a 64-bit word read as an [intptr_t]. *)
Definition signed (z : Z) : Z := if decide (z < SIZE_HALF) then z else z - SIZE_MOD.

Definition NULL : Z := 0.

(** A value that fits a [size_t]. *)
Definition is_size (z : Z) : Prop := 0 <= z < SIZE_MOD.

#[export] Instance is_size_dec z : Decision (is_size z).
Proof. unfold is_size. apply _. Defined.

(** ** Results and the execution monad *)

Inductive res (A : Type) : Type :=
| Ok (a : A)
| Fault (addr : Z)
| OutOfFuel.

Arguments Ok {A} a.
Arguments Fault {A} addr.
Arguments OutOfFuel {A}.

Definition M (S A : Type) : Type := S -> res (A * S).

#[export] Instance M_ret {S} : MRet (M S) := fun A a s => Ok (a, s).

#[export] Instance M_bind {S} : MBind (M S) := fun A B k c s =>
  match c s with
  | Ok (a, s') => k a s'
  | Fault x => Fault x
  | OutOfFuel => OutOfFuel
  end.

Definition get {S} : M S S := fun s => Ok (s, s).
Definition put {S} (s : S) : M S unit := fun _ => Ok (tt, s).
Definition gets {S A} (f : S -> A) : M S A := fun s => Ok (f s, s).
Definition modify {S} (f : S -> S) : M S unit := fun s => Ok (tt, f s).
Definition fault {S A} (a : Z) : M S A := fun _ => Fault a.
Definition out_of_fuel {S A} : M S A := fun _ => OutOfFuel.

(** Pointwise equality of computations: coarser than [=], which would need
    functional extensionality. *)
Definition meq {S A} (c1 c2 : M S A) : Prop := forall s, c1 s = c2 s.

Infix "≃" := meq (at level 70, no associativity).

(** A result that is a value. *)
Definition is_ok {A} (r : res A) : bool :=
  match r with Ok _ => true | _ => false end.

(** The final state of a run, when there is one. *)
Definition final {A S} (r : res (A * S)) : option S :=
  match r with Ok (_, s) => Some s | _ => None end.

(** The value of a run, when there is one. *)
Definition value {A S} (r : res (A * S)) : option A :=
  match r with Ok (a, _) => Some a | _ => None end.

(** ** Tactics *)

(** [lia] extended with the equations of [mod] and [/], after exposing the
    constants of the data model; later files add theirs to [consts]. *)
Create HintDb consts discriminated.
#[export] Hint Unfold wrap signed is_size NULL SIZE_HALF SIZE_MOD : consts.

Ltac mod_lia :=
  autounfold with consts in *;
  repeat case_decide;
  Z.div_mod_to_equations; lia.

(** Unfolds one monadic step in the goal. *)
(** [c] keeps [P]: a run of [c] that returns, from a state where [P]
    holds, ends in a state where [P] holds. *)
Definition keeps {S A} (P : S -> Prop) (c : M S A) : Prop :=
  forall s a s', P s -> c s = Ok (a, s') -> P s'.

(** [hoare P c Q]: a run of [c] that returns [a], from a state where [P]
    holds, ends in a state where [Q a] holds.  Runs that fault or run out
    of fuel are not constrained. *)
Definition hoare {S A} (P : S -> Prop) (c : M S A) (Q : A -> S -> Prop) : Prop :=
  forall s a s', P s -> c s = Ok (a, s') -> Q a s'.

Ltac munfold := unfold mbind, M_bind, mret, M_ret, get, put, gets, modify, fault, out_of_fuel.

Create HintDb alloc discriminated.
Create HintDb keeps discriminated.
Create Rewrite HintDb alloc_rw.

(** ** Wrap-around *)

Lemma wrap_range z : 0 <= wrap z < SIZE_MOD.
Proof. mod_lia. Qed.

Lemma wrap_is_size z : is_size (wrap z).
Proof. apply wrap_range. Qed.

Lemma wrap_small z : is_size z -> wrap z = z.
Proof. mod_lia. Qed.

Lemma wrap_wrap z : wrap (wrap z) = wrap z.
Proof. mod_lia. Qed.

Lemma wrap_add_l a b : wrap (wrap a + b) = wrap (a + b).
Proof. mod_lia. Qed.

Lemma wrap_add_r a b : wrap (a + wrap b) = wrap (a + b).
Proof. mod_lia. Qed.

Lemma wrap_sub_l a b : wrap (wrap a - b) = wrap (a - b).
Proof. mod_lia. Qed.

Lemma wrap_sub_r a b : wrap (a - wrap b) = wrap (a - b).
Proof. mod_lia. Qed.

(** An unsigned subtraction that goes below zero lands near the top of the
    range. *)
Lemma wrap_borrow z : - SIZE_MOD <= z < 0 -> wrap z = z + SIZE_MOD.
Proof. mod_lia. Qed.

Lemma wrap_add_sub a b : is_size a -> wrap (wrap (a + b) - b) = a.
Proof. mod_lia. Qed.

Lemma wrap_sub_add a b : is_size a -> wrap (wrap (a - b) + b) = a.
Proof. mod_lia. Qed.

Lemma wrap_eq_0 a b : is_size a -> is_size b -> wrap (a - b) = 0 <-> a = b.
Proof. mod_lia. Qed.

Lemma signed_range z : is_size z -> - SIZE_HALF <= signed z < SIZE_HALF.
Proof. mod_lia. Qed.

Lemma signed_small z : 0 <= z < SIZE_HALF -> signed z = z.
Proof. mod_lia. Qed.

Lemma signed_large z : SIZE_HALF <= z -> signed z = z - SIZE_MOD.
Proof. mod_lia. Qed.

(** Converting a difference of sizes to [intptr_t] recovers the difference
    when it is small in absolute value: this is how [sbrk] is handed a
    negative amount by unsigned code. *)
Lemma signed_wrap_diff a b :
  - SIZE_HALF <= a - b < SIZE_HALF -> signed (wrap (a - b)) = a - b.
Proof. mod_lia. Qed.

#[export] Hint Resolve wrap_is_size wrap_range : alloc.
#[export] Hint Rewrite wrap_wrap wrap_add_l wrap_add_r wrap_sub_l wrap_sub_r : alloc_rw.

(** ** Laws of the monad *)

Section Monad.
Context {S : Type}.

#[export] Instance meq_equiv {A} : Equivalence (@meq S A).
Proof.
  split; [intros c s | intros c1 c2 H s | intros c1 c2 c3 H1 H2 s]; try done.
  by rewrite H1.
Qed.

#[export] Instance bind_proper {A B} :
  Proper (pointwise_relation A meq ==> meq ==> meq) (@mbind (M S) _ A B).
Proof.
  intros k1 k2 Hk c1 c2 Hc s. unfold mbind, M_bind. rewrite Hc.
  destruct (c2 s) as [[a s']| |]; [apply Hk|done..].
Qed.

Lemma bind_ret_l {A B} (a : A) (k : A -> M S B) : mret a ≫= k ≃ k a.
Proof. done. Qed.

Lemma bind_ret_r {A} (c : M S A) : c ≫= mret ≃ c.
Proof. intros s. munfold. by destruct (c s) as [[a s']| |]. Qed.

Lemma bind_assoc {A B C} (c : M S A) (k : A -> M S B) (h : B -> M S C) :
  (c ≫= k) ≫= h ≃ c ≫= (fun a => k a ≫= h).
Proof. intros s. munfold. by destruct (c s) as [[a s']| |]. Qed.

(** Running a bind whose first part is known. *)
Lemma bind_ok {A B} (c : M S A) (k : A -> M S B) s a s1 :
  c s = Ok (a, s1) -> (c ≫= k) s = k a s1.
Proof. intros H. munfold. by rewrite H. Qed.

Lemma bind_fault {A B} (c : M S A) (k : A -> M S B) s x :
  c s = Fault x -> (c ≫= k) s = Fault x.
Proof. intros H. munfold. by rewrite H. Qed.

Lemma bind_out_of_fuel {A B} (c : M S A) (k : A -> M S B) s :
  c s = OutOfFuel -> (c ≫= k) s = OutOfFuel.
Proof. intros H. munfold. by rewrite H. Qed.

(** Inversion of a bind that returned. *)
Lemma bind_ok_inv {A B} (c : M S A) (k : A -> M S B) s b s2 :
  (c ≫= k) s = Ok (b, s2) ->
  exists a s1, c s = Ok (a, s1) /\ k a s1 = Ok (b, s2).
Proof. munfold. destruct (c s) as [[a s1]| |]; [eauto|done..]. Qed.

(** The same laws at a state, as rewrite rules for running a sequence. *)
Lemma bind_assoc_at {A B C} (c : M S A) (k : A -> M S B) (h : B -> M S C) s :
  ((c ≫= k) ≫= h) s = (c ≫= (fun a => k a ≫= h)) s.
Proof. apply bind_assoc. Qed.

Lemma bind_ret_at {A B} (a : A) (k : A -> M S B) s : (mret a ≫= k) s = k a s.
Proof. done. Qed.

Lemma is_ok_bind {A B} (c : M S A) (k : A -> M S B) s :
  is_ok ((c ≫= k) s) = true -> is_ok (c s) = true.
Proof. munfold. by destruct (c s) as [[a s1]| |]. Qed.

(** ** Invariants of computations *)

Lemma keeps_ret {A} (P : S -> Prop) (a : A) : keeps P (mret a).
Proof. by intros s x s' HP [= _ <-]. Qed.

Lemma keeps_bind {A B} (P : S -> Prop) (c : M S A) (k : A -> M S B) :
  keeps P c -> (forall a, keeps P (k a)) -> keeps P (c ≫= k).
Proof.
  intros Hc Hk s b s2 HP (a & s1 & E1 & E2)%bind_ok_inv. eapply Hk; [|done]. by eapply Hc.
Qed.

Lemma keeps_gets {A} (P : S -> Prop) (f : S -> A) : keeps P (gets f).
Proof. by intros s x s' HP [= _ <-]. Qed.

Lemma keeps_modify (P : S -> Prop) (f : S -> S) :
  (forall s, P s -> P (f s)) -> keeps P (modify f).
Proof. intros Hf s x s' HP [= _ <-]. auto. Qed.

Lemma keeps_fault {A} (P : S -> Prop) x : keeps P (fault x : M S A).
Proof. by intros s a s'. Qed.

Lemma keeps_out_of_fuel {A} (P : S -> Prop) : keeps P (out_of_fuel : M S A).
Proof. by intros s a s'. Qed.

(** ** Triples *)

Lemma keeps_hoare {A} (P : S -> Prop) (c : M S A) : keeps P c <-> hoare P c (fun _ => P).
Proof. done. Qed.

Lemma hoare_ret {A} (P : S -> Prop) (Q : A -> S -> Prop) (a : A) :
  (forall s, P s -> Q a s) -> hoare P (mret a) Q.
Proof. intros HPQ s x s' HP [= <- <-]. auto. Qed.

Lemma hoare_bind {A B} (P : S -> Prop) (Q : A -> S -> Prop) (R : B -> S -> Prop)
    (c : M S A) (k : A -> M S B) :
  hoare P c Q -> (forall a, hoare (Q a) (k a) R) -> hoare P (c ≫= k) R.
Proof.
  intros Hc Hk s b s2 HP (a & s1 & E1 & E2)%bind_ok_inv. eapply Hk; [|done]. by eapply Hc.
Qed.

(** A computation that keeps [P] can be followed by one that starts from
    [P]. *)
Lemma hoare_seq {A B} (P : S -> Prop) (R : B -> S -> Prop) (c : M S A) (k : A -> M S B) :
  keeps P c -> (forall a, hoare P (k a) R) -> hoare P (c ≫= k) R.
Proof. intros Hc. by apply hoare_bind. Qed.

Lemma hoare_conseq {A} (P P' : S -> Prop) (Q Q' : A -> S -> Prop) (c : M S A) :
  hoare P c Q -> (forall s, P' s -> P s) -> (forall a s, Q a s -> Q' a s) -> hoare P' c Q'.
Proof. intros Hc HP HQ s a s' HP' E. eapply HQ, Hc; eauto. Qed.

(** A fact that does not depend on the state leaves the precondition. *)
Lemma hoare_pure {A} (P : S -> Prop) (phi : Prop) (Q : A -> S -> Prop) (c : M S A) :
  (phi -> hoare P c Q) -> hoare (fun s => P s /\ phi) c Q.
Proof. intros Hc s a s' [HP Hphi]. by apply Hc. Qed.

(** A sequence whose first part establishes a fact about its result. *)
Lemma hoare_bind_val {A B} (P : S -> Prop) (phi : A -> Prop) (R : B -> S -> Prop)
    (c : M S A) (k : A -> M S B) :
  hoare P c (fun a _ => phi a) -> (forall a, phi a -> hoare (fun _ => True) (k a) R) ->
  hoare P (c ≫= k) R.
Proof.
  intros Hc Hk. apply (hoare_bind _ _ _ _ _ Hc). intros a s b s' Hphi. by apply Hk.
Qed.

Lemma hoare_or {A} (P1 P2 : S -> Prop) (Q : A -> S -> Prop) (c : M S A) :
  hoare P1 c Q -> hoare P2 c Q -> hoare (fun s => P1 s \/ P2 s) c Q.
Proof. intros H1 H2 s a s' [HP|HP]; eauto. Qed.

(** A computation that does not return from [P] satisfies every triple. *)
Lemma hoare_stuck {A} (P : S -> Prop) (Q : A -> S -> Prop) (c : M S A) :
  (forall s, P s -> is_ok (c s) = false) -> hoare P c Q.
Proof. intros Hc s a s' HP E. specialize (Hc s HP). by rewrite E in Hc. Qed.

Lemma is_ok_bind_false {A B} (c : M S A) (k : A -> M S B) s :
  is_ok (c s) = false -> is_ok ((c ≫= k) s) = false.
Proof. munfold. by destruct (c s) as [[a s1]| |]. Qed.

Lemma hoare_stuck_bind {A B} (P : S -> Prop) (Q : B -> S -> Prop) (c : M S A) (k : A -> M S B) :
  (forall s, P s -> is_ok (c s) = false) -> hoare P (c ≫= k) Q.
Proof. intros Hc. apply hoare_stuck. intros s HP. by apply is_ok_bind_false, Hc. Qed.

(** The last computation of a sequence, followed by the result. *)
Lemma hoare_last {A B} (P Q : S -> Prop) (c : M S A) (b : B) :
  hoare P c (fun _ => Q) -> hoare P (c ≫= fun _ => mret b) (fun _ => Q).
Proof. intros Hc. eapply hoare_bind; [exact Hc|]. intros a. by apply hoare_ret. Qed.

(** A computation that keeps [P] ends in every property [P] implies. *)
Lemma hoare_keeps {A} (P Q : S -> Prop) (c : M S A) :
  keeps P c -> (forall s, P s -> Q s) -> hoare P c (fun _ => Q).
Proof. intros Hc HPQ s a s' HP E. eapply HPQ, Hc; eauto. Qed.

End Monad.

#[export] Hint Resolve keeps_ret keeps_gets keeps_fault keeps_out_of_fuel : keeps.

(** Proves that a sequence keeps an invariant from the lemmas of the
    database [keeps] for its parts. *)
Ltac keeps_tac :=
  autounfold with keeps; cbv zeta;
  repeat first
    [ solve [eauto with keeps]
    | apply keeps_ret
    | apply keeps_bind; [|intros ?]
    | case_decide
    | match goal with |- keeps _ (if ?b then _ else _) => destruct b end ].

(** The same for a triple whose postcondition does not depend on the
    result: the parts of the sequence keep the precondition until one of
    them has a triple in the database or among the hypotheses. *)
Ltac hoare_tac :=
  autounfold with keeps; cbv zeta;
  repeat first
    [ solve [eauto with keeps]
    | apply hoare_ret; solve [eauto with keeps]
    | apply hoare_last; solve [eauto with keeps]
    | apply hoare_seq; [solve [eauto with keeps]|intros ?]
    | case_decide
    | match goal with |- hoare _ (if ?b then _ else _) _ => destruct b end ].

(** ** Lists whose neighbours are related

    [Sorted R l] says that every element of [l] is related to the next
    one.  The directory uses it for address order and for physical
    adjacency; these are the gluing lemmas both need. *)

Section Sorted.
Context {A : Type} (R : relation A).

Lemma Sorted_app_l l1 l2 : Sorted R (l1 ++ l2) -> Sorted R l1.
Proof.
  induction l1 as [|x l1 IH]; [constructor|]. cbn. intros Hs.
  apply Sorted_inv in Hs as [Hs Hh]. constructor; [auto|].
  destruct l1; [constructor|]. inv Hh. by constructor.
Qed.

Lemma Sorted_app_r l1 l2 : Sorted R (l1 ++ l2) -> Sorted R l2.
Proof.
  induction l1 as [|x l1 IH]; [done|]. cbn. intros Hs.
  apply Sorted_inv in Hs as [Hs _]. auto.
Qed.

(** A list is sorted around [x] when both sides are, [x] included. *)
Lemma Sorted_glue l1 x l2 :
  Sorted R (l1 ++ x :: l2) <-> Sorted R (l1 ++ [x]) /\ Sorted R (x :: l2).
Proof.
  induction l1 as [|y l1 IH]; cbn.
  { split; [intros Hs; split; [repeat constructor|done]|by intros [_ ?]]. }
  split.
  - intros Hs. apply Sorted_inv in Hs as [Hs Hh]. apply IH in Hs as [Hs1 Hs2].
    split; [|done]. constructor; [done|].
    destruct l1; cbn in *; inv Hh; by constructor.
  - intros [Hs1 Hs2]. apply Sorted_inv in Hs1 as [Hs1 Hh]. constructor.
    + apply IH. done.
    + destruct l1; cbn in *; inv Hh; by constructor.
Qed.

(** The left side only looks at what [Q] sees of the element it ends
    with. *)
Lemma Sorted_snoc_change l x y :
  (forall z, R z x -> R z y) -> Sorted R (l ++ [x]) -> Sorted R (l ++ [y]).
Proof.
  intros Hxy. induction l as [|z l IH]; cbn; [repeat constructor|].
  intros Hs. apply Sorted_inv in Hs as [Hs Hh]. constructor; [auto|].
  destruct l; cbn in *; inv Hh; constructor; auto.
Qed.

Lemma Sorted_cons_change x y l :
  (forall z, R x z -> R y z) -> Sorted R (x :: l) -> Sorted R (y :: l).
Proof.
  intros Hxy Hs. apply Sorted_inv in Hs as [Hs Hh]. constructor; [done|].
  destruct l; inv Hh; constructor; auto.
Qed.

(** In a list sorted by a transitive relation, everything on the left of
    a split is related to everything on the right. *)
Lemma Sorted_app_rel `{!Transitive R} l1 l2 x y :
  Sorted R (l1 ++ l2) -> x ∈ l1 -> y ∈ l2 -> R x y.
Proof.
  intros Hs. apply Sorted_StronglySorted in Hs; [|done].
  by apply StronglySorted_app_1_elem_of.
Qed.

Lemma Sorted_cons_rel `{!Transitive R} x l y : Sorted R (x :: l) -> y ∈ l -> R x y.
Proof.
  intros Hs Hy. apply (Sorted_app_rel [x] l); [done| |done]. by apply list_elem_of_singleton.
Qed.

End Sorted.
