(* ===== verification/Memory.v ===== *)
(** * Flat byte-addressed memory

    The memory the allocator runs on: a finite map from addresses to bytes.
    Multi-byte values are little-endian.  Headers and user data share these
    bytes, so two blocks that overlap alias exactly as they do in C.  The
    file gives the load-after-store algebra, with the fields that are read
    in parts out of stores that overlap them, the observational equality of
    memories ([mem_eq]) with its [Proper] instances, and [bytes], the
    memories whose cells hold values below 256, which every store keeps. *)

From Stdlib Require Import ZArith Lia.
From stdpp Require Import prelude gmap.
From S2P Require Import Prelude.

#[local] Open Scope Z_scope.

Notation mem := (gmap Z Z) (only parsing).

(** A byte that was never written reads as zero. *)
Definition load_byte (m : mem) (a : Z) : Z := default 0 (m !! a) mod 256.

Definition store_byte (m : mem) (a v : Z) : mem := <[a := v mod 256]> m.

(** [n] bytes at [a], least significant first. *)
Fixpoint load_le (n : nat) (m : mem) (a : Z) : Z :=
  match n with
  | O => 0
  | S n' => load_byte m a + 256 * load_le n' m (a + 1)
  end.

Fixpoint store_le (n : nat) (m : mem) (a v : Z) : mem :=
  match n with
  | O => m
  | S n' => store_le n' (store_byte m a v) (a + 1) (v / 256)
  end.

(** Every cell that was written holds a byte. *)
Definition bytes (m : mem) : Prop := map_Forall (fun _ v => 0 <= v < 256) m.

#[export] Instance bytes_dec m : Decision (bytes m).
Proof. unfold bytes. apply _. Defined.

(** Two memories that read the same everywhere. *)
Definition mem_eq (m1 m2 : mem) : Prop := forall a, load_byte m1 a = load_byte m2 a.

(** Two memories that read the same on [[lo, hi)]. *)
Definition agree (lo hi : Z) (m1 m2 : mem) : Prop :=
  forall a, lo <= a < hi -> load_byte m1 a = load_byte m2 a.

(** The half-open ranges [[a, a+n)] and [[b, b+k)] do not meet. *)
Definition disjoint (a n b k : Z) : Prop := a + n <= b \/ b + k <= a.

#[export] Instance disjoint_dec a n b k : Decision (disjoint a n b k).
Proof. unfold disjoint. apply _. Defined.

(** ** Bytes *)

Lemma load_byte_range m a : 0 <= load_byte m a < 256.
Proof. unfold load_byte. apply Z.mod_pos_bound. lia. Qed.

Lemma load_byte_empty a : load_byte ∅ a = 0.
Proof. unfold load_byte. by rewrite lookup_empty. Qed.

Lemma load_store_byte_eq m a v : load_byte (store_byte m a v) a = v mod 256.
Proof.
  unfold load_byte, store_byte. rewrite lookup_insert_eq. simpl.
  apply Z.mod_mod. lia.
Qed.

Lemma load_store_byte_ne m a b v :
  a <> b -> load_byte (store_byte m a v) b = load_byte m b.
Proof. intros H. unfold load_byte, store_byte. by rewrite lookup_insert_ne. Qed.

Lemma load_store_byte m a b v :
  load_byte (store_byte m a v) b = if decide (a = b) then v mod 256 else load_byte m b.
Proof.
  case_decide; [subst; apply load_store_byte_eq | by apply load_store_byte_ne].
Qed.

(** ** Words *)

Lemma load_le_range n m a : 0 <= load_le n m a < 256 ^ Z.of_nat n.
Proof.
  revert a. induction n as [|n IH]; intros a; [simpl; lia|].
  rewrite Nat2Z.inj_succ, Z.pow_succ_r by lia. cbn [load_le].
  pose proof (load_byte_range m a). specialize (IH (a + 1)). lia.
Qed.

Lemma load_le_8_size m a : is_size (load_le 8 m a).
Proof. apply (load_le_range 8). Qed.

(** A load only depends on the bytes it reads. *)
Lemma load_le_ext n m1 m2 a :
  agree a (a + Z.of_nat n) m1 m2 -> load_le n m1 a = load_le n m2 a.
Proof.
  revert a. induction n as [|n IH]; intros a H; [done|]. cbn [load_le].
  rewrite (H a), (IH (a + 1)); [done| |lia]. intros x Hx. apply H. lia.
Qed.

(** A store only changes the bytes it writes. *)
Lemma load_byte_store_le_out n m a v x :
  x < a \/ a + Z.of_nat n <= x -> load_byte (store_le n m a v) x = load_byte m x.
Proof.
  revert m a v. induction n as [|n IH]; intros m a v H; [done|]. cbn [store_le].
  rewrite IH, load_store_byte_ne; [done|lia..].
Qed.

Lemma store_le_agree n m a v lo hi :
  disjoint a (Z.of_nat n) lo (hi - lo) -> agree lo hi (store_le n m a v) m.
Proof. intros H x Hx. apply load_byte_store_le_out. unfold disjoint in H. lia. Qed.

Lemma store_byte_agree m a v lo hi :
  a < lo \/ hi <= a -> agree lo hi (store_byte m a v) m.
Proof. intros H x Hx. apply load_store_byte_ne. lia. Qed.

Lemma mod_split v k : 0 < k -> v mod (256 * k) = v mod 256 + 256 * ((v / 256) mod k).
Proof. intros H. apply Z.rem_mul_r; lia. Qed.

(** Reading back what was written gives the value truncated to [n] bytes. *)
Lemma load_store_le_same n m a v :
  load_le n (store_le n m a v) a = v mod 256 ^ Z.of_nat n.
Proof.
  revert m a v. induction n as [|n IH]; intros m a v.
  { simpl. by rewrite Z.mod_1_r. }
  rewrite Nat2Z.inj_succ, Z.pow_succ_r by lia. cbn [load_le store_le].
  rewrite IH, load_byte_store_le_out, load_store_byte_eq by lia.
  symmetry. apply mod_split. apply Z.pow_pos_nonneg; lia.
Qed.

Lemma load_store_le_disjoint k n m a v b :
  disjoint a (Z.of_nat n) b (Z.of_nat k) ->
  load_le k (store_le n m a v) b = load_le k m b.
Proof.
  intros H. apply load_le_ext. apply store_le_agree.
  unfold disjoint in *. lia.
Qed.

Lemma load_le_store_byte_out k m a v b :
  a < b \/ b + Z.of_nat k <= a -> load_le k (store_byte m a v) b = load_le k m b.
Proof. intros H. apply load_le_ext. by apply store_byte_agree. Qed.

(** The 64-bit instances the allocator uses. *)
Lemma load_store_64 m a v : load_le 8 (store_le 8 m a v) a = wrap v.
Proof. apply (load_store_le_same 8). Qed.

Lemma load_store_64_size m a v : is_size v -> load_le 8 (store_le 8 m a v) a = v.
Proof. intros H. rewrite load_store_64. by apply wrap_small. Qed.

(** The one-byte instance, for the [char] field. *)
Lemma load_store_8 m a v : load_le 1 (store_le 1 m a v) a = v mod 256.
Proof. apply (load_store_le_same 1). Qed.

(** ** Fields read in parts *)

(** A byte of a stored value. *)
Lemma load_byte_store_le_in n m a v x :
  a <= x < a + Z.of_nat n -> load_byte (store_le n m a v) x = (v / 256 ^ (x - a)) mod 256.
Proof.
  revert m a v. induction n as [|n IH]; intros m a v Hx; [lia|]. cbn [store_le].
  destruct (decide (x = a)) as [->|Hne].
  { rewrite load_byte_store_le_out, load_store_byte_eq, Z.sub_diag by lia. by rewrite Z.div_1_r. }
  rewrite IH, Z.div_div by lia. do 2 f_equal.
  rewrite <- Z.pow_succ_r by lia. f_equal. lia.
Qed.

(** Some of the bytes of a stored value, read back from inside it. *)
Lemma load_store_le_part j n m a v x :
  a <= x -> x + Z.of_nat j <= a + Z.of_nat n ->
  load_le j (store_le n m a v) x = (v / 256 ^ (x - a)) mod 256 ^ Z.of_nat j.
Proof.
  revert x. induction j as [|j IH]; intros x Hlo Hhi; [by rewrite Z.mod_1_r|].
  cbn [load_le]. rewrite IH, load_byte_store_le_in by lia.
  rewrite Nat2Z.inj_succ, Z.pow_succ_r, mod_split by lia. do 3 f_equal.
  replace (x + 1 - a) with (Z.succ (x - a)) by lia.
  rewrite Z.pow_succ_r, Z.mul_comm, <- Z.div_div by lia. done.
Qed.

(** A field is its first bytes followed by the others. *)
Lemma load_le_app n k m a :
  load_le (n + k) m a = load_le n m a + 256 ^ Z.of_nat n * load_le k m (a + Z.of_nat n).
Proof.
  revert a. induction n as [|n IH]; intros a.
  { cbn [load_le Nat.add]. rewrite Z.add_0_r. change (256 ^ Z.of_nat 0) with 1. lia. }
  cbn [load_le Nat.add]. rewrite IH, Nat2Z.inj_succ, Z.pow_succ_r by lia.
  replace (a + 1 + Z.of_nat n) with (a + Z.succ (Z.of_nat n)) by lia. lia.
Qed.

Lemma load_le_cut j n m a lo hi :
  0 <= j <= Z.of_nat n -> load_le (Z.to_nat j) m a = lo ->
  load_le (n - Z.to_nat j) m (a + j) = hi -> load_le n m a = lo + 256 ^ j * hi.
Proof.
  intros Hj <- <-. replace n with (Z.to_nat j + (n - Z.to_nat j))%nat at 1 by lia.
  rewrite load_le_app. by rewrite Z2Nat.id by lia.
Qed.

(** The upper bytes of a field are its value shifted down. *)
Lemma load_le_high j n m a :
  0 <= j <= Z.of_nat n -> load_le (n - Z.to_nat j) m (a + j) = load_le n m a / 256 ^ j.
Proof.
  intros Hj. rewrite (load_le_cut j n m a _ _ Hj eq_refl eq_refl).
  pose proof (load_le_range (Z.to_nat j) m a) as Hr. rewrite Z2Nat.id in Hr by lia.
  rewrite Z.add_comm, Z.mul_comm, Z.div_add, Z.div_small by lia. done.
Qed.

(** ** Observational equality *)

#[export] Instance mem_eq_equiv : Equivalence mem_eq.
Proof.
  split; [intros m a | intros m1 m2 H a | intros m1 m2 m3 H1 H2 a]; try done.
  by rewrite H1.
Qed.

#[export] Instance load_byte_proper : Proper (mem_eq ==> eq ==> eq) load_byte.
Proof. intros m1 m2 H a ? <-. apply H. Qed.

#[export] Instance store_byte_proper : Proper (mem_eq ==> eq ==> eq ==> mem_eq) store_byte.
Proof.
  intros m1 m2 H a ? <- v ? <- x. rewrite !load_store_byte.
  case_decide; [done|apply H].
Qed.

#[export] Instance load_le_proper n : Proper (mem_eq ==> eq ==> eq) (load_le n).
Proof. intros m1 m2 H a ? <-. apply load_le_ext. intros x _. apply H. Qed.

#[export] Instance store_le_proper n : Proper (mem_eq ==> eq ==> eq ==> mem_eq) (store_le n).
Proof.
  induction n as [|n IH]; intros m1 m2 H a ? <- v ? <-; [done|]. cbn [store_le].
  apply IH; [|done..]. by apply store_byte_proper.
Qed.

Lemma agree_mem_eq m1 m2 : mem_eq m1 m2 <-> forall lo hi, agree lo hi m1 m2.
Proof.
  split; [intros H lo hi a _; apply H|].
  intros H a. apply (H a (a + 1)). lia.
Qed.

Lemma agree_sym lo hi m1 m2 : agree lo hi m1 m2 -> agree lo hi m2 m1.
Proof. intros H a Ha. symmetry. by apply H. Qed.

Lemma agree_trans lo hi m1 m2 m3 :
  agree lo hi m1 m2 -> agree lo hi m2 m3 -> agree lo hi m1 m3.
Proof. intros H1 H2 a Ha. rewrite H1 by done. by apply H2. Qed.

Lemma agree_sub lo hi lo' hi' m1 m2 :
  lo <= lo' -> hi' <= hi -> agree lo hi m1 m2 -> agree lo' hi' m1 m2.
Proof. intros ? ? H a Ha. apply H. lia. Qed.

(** Writing back the byte that is there changes nothing observable. *)
Lemma store_byte_same m a : mem_eq (store_byte m a (load_byte m a)) m.
Proof.
  intros x. rewrite load_store_byte. case_decide as E; [|done]. subst.
  apply Z.mod_small, load_byte_range.
Qed.

(** Stores to disjoint ranges commute. *)
Lemma store_byte_comm m a b v w :
  a <> b -> store_byte (store_byte m a v) b w = store_byte (store_byte m b w) a v.
Proof. intros H. unfold store_byte. by apply insert_insert_ne. Qed.

(** ** Memories of bytes

    The stores write bytes: a memory built from the empty one holds
    nothing else, and a load returns the cell as it is. *)

Lemma bytes_empty : bytes ∅.
Proof. apply map_Forall_empty. Qed.

Lemma store_byte_bytes m a v : bytes m -> bytes (store_byte m a v).
Proof. intros Hm. apply map_Forall_insert_2; [|done]. by apply Z.mod_pos_bound. Qed.

Lemma store_le_bytes n m a v : bytes m -> bytes (store_le n m a v).
Proof.
  revert m a v. induction n as [|n IH]; intros m a v Hm; [done|].
  cbn. by apply IH, store_byte_bytes.
Qed.

Lemma load_byte_bytes m a : bytes m -> load_byte m a = default 0 (m !! a).
Proof.
  intros Hm. unfold load_byte. destruct (m !! a) as [v|] eqn:E; [|done].
  apply Z.mod_small. by apply (Hm a v).
Qed.
