(* ===== verification/Region.v ===== *)
(** * The Heap Region Manager

    The allocator obtains and returns memory with the system calls [sbrk]
    and [brk].  They are not part of the repository: this file states what
    the allocator relies on as the class [HeapRegion] (the operations with
    their laws) and gives the simulated segment [sim_region] that
    implements it, so that the allocator can be run.  The allocator's
    theorems are proved against the class only.  [Bounded] is the class of
    the segments with a limit below which [sbrk] grants every request. *)

From Stdlib Require Import ZArith Lia.
From stdpp Require Import prelude.
From S2P Require Import Prelude.

#[local] Open Scope Z_scope.

(** [(void* )-1], the value [sbrk] returns when it fails. *)
Definition SBRK_FAILED : Z := SIZE_MOD - 1.

(** Addresses below [PAGE_SIZE] are never mapped. *)
Definition PAGE_SIZE : Z := 4096.

#[export] Hint Unfold SBRK_FAILED PAGE_SIZE : consts.

(** The segment is [[heap_lo, heap_hi)]; [heap_hi] is the program break.
    [sbrk incr] moves the break by the signed amount [incr] and returns
    the previous break; [brk a] sets the break to [a] and returns [0].
    On failure they return [SBRK_FAILED], respectively [-1], and change
    nothing. *)
Class HeapRegion (R : Type) : Type := {
  heap_lo : R -> Z;
  heap_hi : R -> Z;
  sbrk : Z -> R -> Z * R;
  brk : Z -> R -> Z * R;
  region_ok : R -> Prop;
  region_ok_bounds r :
    region_ok r -> PAGE_SIZE <= heap_lo r /\ heap_lo r <= heap_hi r /\ heap_hi r < SIZE_HALF;
  sbrk_spec incr r :
    region_ok r ->
    (sbrk incr r = (SBRK_FAILED, r)) \/
    (exists r', sbrk incr r = (heap_hi r, r') /\ region_ok r' /\
                heap_lo r' = heap_lo r /\ heap_hi r' = heap_hi r + incr);
  brk_spec a r :
    region_ok r ->
    (brk a r = (-1, r)) \/
    (exists r', brk a r = (0, r') /\ region_ok r' /\
                heap_lo r' = heap_lo r /\ heap_hi r' = a);
  (** Giving memory back always succeeds. *)
  sbrk_shrink incr r :
    region_ok r -> heap_lo r <= heap_hi r + incr <= heap_hi r ->
    fst (sbrk incr r) = heap_hi r;
  brk_shrink a r :
    region_ok r -> heap_lo r <= a <= heap_hi r -> fst (brk a r) = 0;
}.

(** A segment with a limit: the system grants every extension that keeps
    the break at or below [heap_max], and the calls do not move the limit.
    The theorems on programs that allocate several blocks are proved
    against this class. *)
Class Bounded (R : Type) `{HeapRegion R} : Type := {
  heap_max : R -> Z;
  heap_max_bound r : region_ok r -> heap_max r < SIZE_HALF;
  sbrk_max incr r : region_ok r -> heap_max (snd (sbrk incr r)) = heap_max r;
  brk_max a r : region_ok r -> heap_max (snd (brk a r)) = heap_max r;
  sbrk_grant incr r :
    region_ok r -> 0 <= incr -> heap_hi r + incr <= heap_max r ->
    fst (sbrk incr r) = heap_hi r;
}.

(** ** A simulated segment

    The segment starts at [sr_lo], its break is [sr_hi], and the system
    refuses to move the break above [sr_max] or below [sr_lo]. *)
Record sim_region : Type := SimRegion {
  sr_lo : Z;
  sr_hi : Z;
  sr_max : Z;
}.

#[export] Instance sim_region_eq_dec : EqDecision sim_region.
Proof. solve_decision. Defined.

Definition sim_move (hi' : Z) (ok fail : Z) (r : sim_region) : Z * sim_region :=
  if decide (sr_lo r <= hi' <= sr_max r)
  then (ok, {| sr_lo := sr_lo r; sr_hi := hi'; sr_max := sr_max r |})
  else (fail, r).

Definition sim_sbrk (incr : Z) (r : sim_region) : Z * sim_region :=
  sim_move (sr_hi r + incr) (sr_hi r) SBRK_FAILED r.

Definition sim_brk (a : Z) (r : sim_region) : Z * sim_region :=
  sim_move a 0 (-1) r.

Definition sim_ok (r : sim_region) : Prop :=
  PAGE_SIZE <= sr_lo r /\ sr_lo r <= sr_hi r /\ sr_hi r <= sr_max r /\ sr_max r < SIZE_HALF.

#[export] Instance sim_ok_dec r : Decision (sim_ok r).
Proof. unfold sim_ok. apply _. Defined.

(** An empty segment at [lo] that may grow by [cap] bytes. *)
Definition sim_init (lo cap : Z) : sim_region :=
  {| sr_lo := lo; sr_hi := lo; sr_max := lo + cap |}.

Lemma sim_move_spec hi' ok fail r :
  sim_ok r ->
  (sim_move hi' ok fail r = (fail, r) /\ ~ (sr_lo r <= hi' <= sr_max r)) \/
  (exists r', sim_move hi' ok fail r = (ok, r') /\ sim_ok r' /\
              sr_lo r' = sr_lo r /\ sr_hi r' = hi' /\ sr_max r' = sr_max r /\
              sr_lo r <= hi' <= sr_max r).
Proof.
  intros Hok. unfold sim_move. case_decide; [right|by left].
  eexists. split; [done|]. unfold sim_ok in *. simpl. lia.
Qed.

Lemma sim_move_in hi' ok fail r :
  sr_lo r <= hi' <= sr_max r -> fst (sim_move hi' ok fail r) = ok.
Proof. intros H. unfold sim_move. by rewrite decide_True. Qed.

#[export, refine] Instance sim_heap_region : HeapRegion sim_region := {|
  heap_lo := sr_lo;
  heap_hi := sr_hi;
  sbrk := sim_sbrk;
  brk := sim_brk;
  region_ok := sim_ok;
|}.
Proof.
  - unfold sim_ok. intros r. lia.
  - intros incr r Hok.
    destruct (sim_move_spec (sr_hi r + incr) (sr_hi r) SBRK_FAILED r Hok)
      as [[? _]|(r' & ? & ? & ? & ? & _)]; [by left|right; eauto].
  - intros a r Hok.
    destruct (sim_move_spec a 0 (-1) r Hok)
      as [[? _]|(r' & ? & ? & ? & ? & _)]; [by left|right; eauto].
  - intros incr r Hok H. apply sim_move_in. unfold sim_ok in Hok. lia.
  - intros a r Hok H. apply sim_move_in. unfold sim_ok in Hok. lia.
Defined.

Lemma sim_move_max hi' ok fail r : sr_max (snd (sim_move hi' ok fail r)) = sr_max r.
Proof. unfold sim_move. by case_decide. Qed.

#[export, refine] Instance sim_bounded : Bounded sim_region := {|
  heap_max := sr_max;
|}.
Proof.
  - unfold region_ok, sim_heap_region, sim_ok. intros r. lia.
  - intros incr r _. apply sim_move_max.
  - intros a r _. apply sim_move_max.
  - intros incr r Hok ? ?. apply sim_move_in. simpl in *. unfold sim_ok in Hok. lia.
Defined.

(** ** Consequences of the laws *)

Section Laws.
Context `{HeapRegion R}.

Lemma region_lo_pos r : region_ok r -> 0 < heap_lo r.
Proof. intros Hok. pose proof (region_ok_bounds r Hok). mod_lia. Qed.

Lemma region_hi_size r : region_ok r -> is_size (heap_hi r).
Proof. intros Hok. pose proof (region_ok_bounds r Hok). mod_lia. Qed.

(** The calls keep the segment well formed. *)
Lemma sbrk_ok incr r : region_ok r -> region_ok (snd (sbrk incr r)).
Proof.
  intros Hok. destruct (sbrk_spec incr r Hok) as [->|(r' & -> & ? & _)]; done.
Qed.

Lemma brk_ok a r : region_ok r -> region_ok (snd (brk a r)).
Proof.
  intros Hok. destruct (brk_spec a r Hok) as [->|(r' & -> & ? & _)]; done.
Qed.

Lemma sbrk_lo incr r : region_ok r -> heap_lo (snd (sbrk incr r)) = heap_lo r.
Proof.
  intros Hok. destruct (sbrk_spec incr r Hok) as [->|(r' & -> & ? & ? & _)]; done.
Qed.

Lemma brk_lo a r : region_ok r -> heap_lo (snd (brk a r)) = heap_lo r.
Proof.
  intros Hok. destruct (brk_spec a r Hok) as [->|(r' & -> & ? & ? & _)]; done.
Qed.

(** A call that did not fail returned the old break and moved it. *)
Lemma sbrk_success incr r :
  region_ok r -> fst (sbrk incr r) <> SBRK_FAILED ->
  fst (sbrk incr r) = heap_hi r /\ heap_hi (snd (sbrk incr r)) = heap_hi r + incr.
Proof.
  intros Hok Hne.
  destruct (sbrk_spec incr r Hok) as [E|(r' & E & _ & _ & ?)]; rewrite E in *; done.
Qed.

Lemma sbrk_failed incr r :
  region_ok r -> fst (sbrk incr r) = SBRK_FAILED -> snd (sbrk incr r) = r.
Proof.
  intros Hok E. destruct (sbrk_spec incr r Hok) as [->|(r' & E' & _)]; [done|].
  rewrite E' in E. simpl in E. pose proof (region_ok_bounds r Hok). mod_lia.
Qed.

Lemma brk_success a r :
  region_ok r -> fst (brk a r) = 0 -> heap_hi (snd (brk a r)) = a.
Proof.
  intros Hok E. destruct (brk_spec a r Hok) as [E'|(r' & -> & _ & _ & ?)]; [|done].
  by rewrite E' in E.
Qed.

Lemma brk_shrink_hi a r :
  region_ok r -> heap_lo r <= a <= heap_hi r -> heap_hi (snd (brk a r)) = a.
Proof. intros Hok Ha. apply brk_success; [done|]. by apply brk_shrink. Qed.

End Laws.

(** ** A segment with a limit *)

Section BoundedLaws.
Context `{Bounded R}.

(** An extension within the limit does not fail. *)
Lemma sbrk_granted incr r :
  region_ok r -> 0 <= incr -> heap_hi r + incr <= heap_max r ->
  fst (sbrk incr r) <> SBRK_FAILED.
Proof.
  intros Hok Hi Hm. rewrite (sbrk_grant incr r Hok Hi Hm).
  pose proof (region_ok_bounds r Hok). mod_lia.
Qed.

(** Moving the break down by [- incr] does not fail either. *)
Lemma sbrk_released incr r :
  region_ok r -> heap_lo r <= heap_hi r + incr <= heap_hi r ->
  fst (sbrk incr r) <> SBRK_FAILED.
Proof.
  intros Hok Hi. rewrite (sbrk_shrink incr r Hok Hi).
  pose proof (region_ok_bounds r Hok). mod_lia.
Qed.

End BoundedLaws.

#[export] Hint Resolve sbrk_ok brk_ok : alloc.
