(* ===== verification/Machine.v ===== *)
(** * The allocator's machine state and [struct Header]

    The state the C code works on: the memory, the heap segment and the
    global [first].  [struct Header] is laid out as a C compiler for LP64
    lays it out; every field access of the source ([p->next], [p->size =
    v], ...) is one checked accessor here, which faults when the bytes it
    touches are outside the heap segment.  The file also gives the rules
    that run an accessor inside a sequence ([run_load], [run_store]) and
    the class [Stable] of the predicates that stores, [sbrk] and [brk]
    keep. *)

From Stdlib Require Import ZArith Lia.
From stdpp Require Import prelude gmap.
From S2P Require Import Prelude.
From S2P Require Import Memory.
From S2P Require Import Region.

#[local] Open Scope Z_scope.

(** ** Layout of [struct Header] and constants of the source *)

Definition OFF_NEXT : Z := 0.
Definition OFF_PREV : Z := 8.
Definition OFF_SIZE : Z := 16.
Definition OFF_FREE : Z := 24.

(** [sizeof(Header)]: three words and a [char], padded to a word. *)
Definition SIZEOF_HEADER : Z := 32.

(** [sizeof(header)] where [header] is a [Header*]. *)
Definition SIZEOF_PTR : Z := 8.

Definition MIN_BLOCK_SIZE : Z := 32.

#[export] Hint Unfold OFF_NEXT OFF_PREV OFF_SIZE OFF_FREE
  SIZEOF_HEADER SIZEOF_PTR MIN_BLOCK_SIZE : consts.

(** The contents of a header. *)
Record Header : Type := mkHeader {
  h_next : Z;
  h_prev : Z;
  h_size : Z;
  h_free : Z;
}.

#[export] Instance Header_eq_dec : EqDecision Header.
Proof. solve_decision. Defined.

(** ** The state *)

Record state (R : Type) : Type := State {
  s_mem : gmap Z Z;
  s_reg : R;
  s_first : Z;
}.

Arguments State {R} s_mem s_reg s_first.
Arguments s_mem {R} s.
Arguments s_reg {R} s.
Arguments s_first {R} s.

Definition upd_mem {R} (m : gmap Z Z) (s : state R) : state R :=
  State m (s_reg s) (s_first s).

Definition upd_reg {R} (r : R) (s : state R) : state R :=
  State (s_mem s) r (s_first s).

Definition upd_first {R} (f : Z) (s : state R) : state R :=
  State (s_mem s) (s_reg s) f.

(** [(Header* )address - 1] and [header + 1]. *)
Definition hdr_of (address : Z) : Z := wrap (address - SIZEOF_HEADER).
Definition data_of (header : Z) : Z := wrap (header + SIZEOF_HEADER).

#[export] Hint Unfold hdr_of data_of : consts.

Section Machine.
Context `{HeapRegion R}.
Implicit Types (s : state R).

(** The bytes [[a, a+n)] belong to the heap segment. *)
Definition valid (s : state R) (a n : Z) : Prop :=
  heap_lo (s_reg s) <= a /\ a + n <= heap_hi (s_reg s).

#[export] Instance valid_dec s a n : Decision (valid s a n).
Proof. unfold valid. apply _. Defined.

(** The state before the first call: no block, an empty segment. *)
Definition init (r : R) : state R := State ∅ r NULL.

Definition state_ok (s : state R) : Prop := region_ok (s_reg s).

(** The invariant of every run: the segment is well formed and starts at
    [lo]. *)
Definition based (lo : Z) (s : state R) : Prop :=
  state_ok s /\ heap_lo (s_reg s) = lo.

(** ** Checked memory accesses *)

Definition load (n : nat) (a : Z) : M (state R) Z := fun s =>
  if decide (valid s a (Z.of_nat n)) then Ok (load_le n (s_mem s) a, s) else Fault a.

Definition store (n : nat) (a v : Z) : M (state R) unit := fun s =>
  if decide (valid s a (Z.of_nat n))
  then Ok (tt, upd_mem (store_le n (s_mem s) a v) s)
  else Fault a.

(** ** The fields of a header, as the source reads and writes them *)

Definition get_next (h : Z) : M (state R) Z := load 8 (h + OFF_NEXT).
Definition get_prev (h : Z) : M (state R) Z := load 8 (h + OFF_PREV).
Definition get_size (h : Z) : M (state R) Z := load 8 (h + OFF_SIZE).
Definition get_free (h : Z) : M (state R) Z := load 1 (h + OFF_FREE).

Definition set_next (h v : Z) : M (state R) unit := store 8 (h + OFF_NEXT) v.
Definition set_prev (h v : Z) : M (state R) unit := store 8 (h + OFF_PREV) v.
Definition set_size (h v : Z) : M (state R) unit := store 8 (h + OFF_SIZE) v.
Definition set_free (h v : Z) : M (state R) unit := store 1 (h + OFF_FREE) v.

(** The global [first]. *)
Definition get_first : M (state R) Z := gets s_first.
Definition set_first (v : Z) : M (state R) unit := modify (upd_first v).

(** ** The system calls

    [sbrk] takes an [intptr_t]: the [size_t] the source passes is
    converted.  The source ignores the result of [brk]. *)
Definition sys_sbrk (incr : Z) : M (state R) Z := fun s =>
  let '(p, r') := sbrk (signed incr) (s_reg s) in Ok (p, upd_reg r' s).

Definition sys_brk (a : Z) : M (state R) Z := fun s =>
  let '(c, r') := brk a (s_reg s) in Ok (c, upd_reg r' s).

(** A property of the state that the stores and the system calls keep.
    The functions of the allocator that do not assign [first] keep every
    such property. *)
Class Stable (P : state R -> Prop) : Prop := {
  stable_store n a v : keeps P (store n a v);
  stable_sbrk incr : keeps P (sys_sbrk incr);
  stable_brk a : keeps P (sys_brk a);
}.

(** ** Reading a header without the monad *)

Definition rd_next (m : gmap Z Z) (h : Z) : Z := load_le 8 m (h + OFF_NEXT).
Definition rd_prev (m : gmap Z Z) (h : Z) : Z := load_le 8 m (h + OFF_PREV).
Definition rd_size (m : gmap Z Z) (h : Z) : Z := load_le 8 m (h + OFF_SIZE).
Definition rd_free (m : gmap Z Z) (h : Z) : Z := load_le 1 m (h + OFF_FREE).

Definition rd_header (m : gmap Z Z) (h : Z) : Header :=
  mkHeader (rd_next m h) (rd_prev m h) (rd_size m h) (rd_free m h).

(** The header at [h] lies in the heap and holds [hd]. *)
Definition hdr_at (s : state R) (h : Z) (hd : Header) : Prop :=
  valid s h SIZEOF_HEADER /\ rd_header (s_mem s) h = hd.

#[export] Instance hdr_at_dec s h hd : Decision (hdr_at s h hd).
Proof. unfold hdr_at. apply _. Defined.

(** [m'] has the bytes of [m] wherever [P] does not hold. *)
Definition same_bytes (P : Z -> Prop) (m m' : gmap Z Z) : Prop :=
  forall a, ~ P a -> load_byte m' a = load_byte m a.

(** [s'] has the segment and the [first] of [s], and the same bytes
    wherever [P] does not hold. *)
Definition frame (s s' : state R) (P : Z -> Prop) : Prop :=
  s_reg s' = s_reg s /\ s_first s' = s_first s /\ same_bytes P (s_mem s) (s_mem s').

(** ** Running accesses *)

Lemma load_ok n a s :
  valid s a (Z.of_nat n) -> load n a s = Ok (load_le n (s_mem s) a, s).
Proof. intros Hv. unfold load. by rewrite decide_True. Qed.

Lemma load_fault n a s : ~ valid s a (Z.of_nat n) -> load n a s = Fault a.
Proof. intros Hv. unfold load. by rewrite decide_False. Qed.

Lemma store_ok n a v s :
  valid s a (Z.of_nat n) -> store n a v s = Ok (tt, upd_mem (store_le n (s_mem s) a v) s).
Proof. intros Hv. unfold store. by rewrite decide_True. Qed.

Lemma store_fault n a v s : ~ valid s a (Z.of_nat n) -> store n a v s = Fault a.
Proof. intros Hv. unfold store. by rewrite decide_False. Qed.

Lemma run_load {B} n a (k : Z -> M (state R) B) s :
  valid s a (Z.of_nat n) -> (load n a ≫= k) s = k (load_le n (s_mem s) a) s.
Proof. intros Hv. by apply bind_ok, load_ok. Qed.

Lemma run_store {B} n a v (k : unit -> M (state R) B) s :
  valid s a (Z.of_nat n) ->
  (store n a v ≫= k) s = k tt (upd_mem (store_le n (s_mem s) a v) s).
Proof. intros Hv. by apply bind_ok, store_ok. Qed.

Lemma run_load_fault {B} n a (k : Z -> M (state R) B) s :
  ~ valid s a (Z.of_nat n) -> (load n a ≫= k) s = Fault a.
Proof. intros Hv. by apply bind_fault, load_fault. Qed.

Lemma run_store_fault {B} n a v (k : unit -> M (state R) B) s :
  ~ valid s a (Z.of_nat n) -> (store n a v ≫= k) s = Fault a.
Proof. intros Hv. by apply bind_fault, store_fault. Qed.

(** An access never changes the segment or [first]; a load changes
    nothing. *)
Lemma load_inv n a s v s' : load n a s = Ok (v, s') -> s' = s /\ v = load_le n (s_mem s) a.
Proof. unfold load. case_decide; intros E; by inv E. Qed.

Lemma store_inv n a v s u s' :
  store n a v s = Ok (u, s') -> s' = upd_mem (store_le n (s_mem s) a v) s /\ valid s a (Z.of_nat n).
Proof. unfold store. case_decide; intros E; by inv E. Qed.

Lemma upd_mem_upd_mem m1 m2 (s : state R) : upd_mem m2 (upd_mem m1 s) = upd_mem m2 s.
Proof. done. Qed.

(** ** Validity *)

Lemma valid_upd_mem m s a n : valid (upd_mem m s) a n <-> valid s a n.
Proof. done. Qed.

Lemma valid_upd_first f s a n : valid (upd_first f s) a n <-> valid s a n.
Proof. done. Qed.

Lemma valid_sub s a n b k : valid s a n -> a <= b -> b + k <= a + n -> valid s b k.
Proof. unfold valid. lia. Qed.

(** No access at or near [NULL] is valid. *)
Lemma valid_not_null s a n : state_ok s -> a < PAGE_SIZE -> ~ valid s a n.
Proof.
  unfold state_ok, valid. intros Hok Ha [Hlo _].
  pose proof (region_ok_bounds _ Hok). lia.
Qed.

(** A valid range is made of small positive addresses. *)
Lemma valid_bounds s a n :
  state_ok s -> valid s a n -> PAGE_SIZE <= a /\ a + n < SIZE_HALF.
Proof.
  unfold state_ok, valid. intros Hok [Hlo Hhi].
  pose proof (region_ok_bounds _ Hok). lia.
Qed.

(** ** Headers *)

Lemma hdr_at_fields s h hd :
  hdr_at s h hd ->
  valid s h SIZEOF_HEADER /\
  load_le 8 (s_mem s) (h + OFF_NEXT) = h_next hd /\
  load_le 8 (s_mem s) (h + OFF_PREV) = h_prev hd /\
  load_le 8 (s_mem s) (h + OFF_SIZE) = h_size hd /\
  load_le 1 (s_mem s) (h + OFF_FREE) = h_free hd.
Proof. intros [? <-]. done. Qed.

Lemma hdr_at_intro s h nx pv sz fr :
  valid s h SIZEOF_HEADER ->
  load_le 8 (s_mem s) (h + OFF_NEXT) = nx ->
  load_le 8 (s_mem s) (h + OFF_PREV) = pv ->
  load_le 8 (s_mem s) (h + OFF_SIZE) = sz ->
  load_le 1 (s_mem s) (h + OFF_FREE) = fr ->
  hdr_at s h (mkHeader nx pv sz fr).
Proof. intros ? <- <- <- <-. done. Qed.

Lemma hdr_at_rd s h : valid s h SIZEOF_HEADER -> hdr_at s h (rd_header (s_mem s) h).
Proof. done. Qed.

Lemma rd_next_size m h : is_size (rd_next m h).
Proof. apply load_le_8_size. Qed.

Lemma rd_prev_size m h : is_size (rd_prev m h).
Proof. apply load_le_8_size. Qed.

Lemma rd_size_size m h : is_size (rd_size m h).
Proof. apply load_le_8_size. Qed.

Lemma rd_free_byte m h : 0 <= rd_free m h < 256.
Proof. apply (load_le_range 1). Qed.

(** The fields of a header that is in memory fit their C types. *)
Lemma hdr_at_sizes s h hd :
  hdr_at s h hd ->
  is_size (h_next hd) /\ is_size (h_prev hd) /\ is_size (h_size hd) /\ 0 <= h_free hd < 256.
Proof.
  intros [_ <-]. cbn. split_and!;
    [apply rd_next_size | apply rd_prev_size | apply rd_size_size | apply rd_free_byte..].
Qed.

(** A header only depends on its 32 bytes. *)
Lemma rd_header_ext m1 m2 h :
  agree h (h + SIZEOF_HEADER) m1 m2 -> rd_header m1 h = rd_header m2 h.
Proof.
  intros Ha. unfold rd_header, rd_next, rd_prev, rd_size, rd_free.
  f_equal; apply load_le_ext; (eapply agree_sub; [..|exact Ha]); mod_lia.
Qed.

Lemma hdr_at_ext s1 s2 h hd :
  s_reg s2 = s_reg s1 ->
  agree h (h + SIZEOF_HEADER) (s_mem s1) (s_mem s2) ->
  hdr_at s1 h hd -> hdr_at s2 h hd.
Proof.
  intros Hr Ha [Hv <-]. split; [unfold valid in *; by rewrite Hr|].
  symmetry. by apply rd_header_ext.
Qed.

(** Reading a field of a header that is in memory. *)
Lemma run_get_next {B} s h hd (k : Z -> M (state R) B) :
  hdr_at s h hd -> (get_next h ≫= k) s = k (h_next hd) s.
Proof. intros [Hv <-]. unfold get_next. rewrite run_load; [done|]. unfold valid in *. mod_lia. Qed.

Lemma run_get_prev {B} s h hd (k : Z -> M (state R) B) :
  hdr_at s h hd -> (get_prev h ≫= k) s = k (h_prev hd) s.
Proof. intros [Hv <-]. unfold get_prev. rewrite run_load; [done|]. unfold valid in *. mod_lia. Qed.

Lemma run_get_size {B} s h hd (k : Z -> M (state R) B) :
  hdr_at s h hd -> (get_size h ≫= k) s = k (h_size hd) s.
Proof. intros [Hv <-]. unfold get_size. rewrite run_load; [done|]. unfold valid in *. mod_lia. Qed.

Lemma run_get_free {B} s h hd (k : Z -> M (state R) B) :
  hdr_at s h hd -> (get_free h ≫= k) s = k (h_free hd) s.
Proof. intros [Hv <-]. unfold get_free. rewrite run_load; [done|]. unfold valid in *. mod_lia. Qed.

(** The global [first]. *)
Lemma run_get_first {B} s (k : Z -> M (state R) B) : (get_first ≫= k) s = k (s_first s) s.
Proof. done. Qed.

Lemma run_set_first {B} s v (k : unit -> M (state R) B) :
  (set_first v ≫= k) s = k tt (upd_first v s).
Proof. done. Qed.

(** ** Running the system calls *)

Lemma upd_reg_same s : upd_reg (s_reg s) s = s.
Proof. by destruct s. Qed.

(** [sbrk] succeeded: it returned the old break and moved it by [incr], the
    signed reading of the argument. *)
Lemma run_sbrk_ok {B} s n incr (k : Z -> M (state R) B) :
  state_ok s -> signed n = incr -> fst (sbrk incr (s_reg s)) <> SBRK_FAILED ->
  exists r', r' = snd (sbrk incr (s_reg s)) /\ region_ok r' /\
             heap_lo r' = heap_lo (s_reg s) /\ heap_hi r' = heap_hi (s_reg s) + incr /\
             (sys_sbrk n ≫= k) s = k (heap_hi (s_reg s)) (upd_reg r' s).
Proof.
  intros Hok <- Hne. unfold state_ok in Hok.
  destruct (sbrk_spec (signed n) _ Hok) as [E|(r' & E & ? & ? & ?)];
    [by rewrite E in Hne|].
  exists r'. split_and!; [by rewrite E|done..|]. unfold sys_sbrk. munfold. by rewrite E.
Qed.

(** [sbrk] failed: it returned [(void* )-1] and changed nothing. *)
Lemma run_sbrk_failed {B} s n incr (k : Z -> M (state R) B) :
  state_ok s -> signed n = incr -> fst (sbrk incr (s_reg s)) = SBRK_FAILED ->
  (sys_sbrk n ≫= k) s = k SBRK_FAILED s.
Proof.
  intros Hok <- E. pose proof (sbrk_failed _ _ Hok E) as E'.
  unfold sys_sbrk. munfold. destruct (sbrk (signed n) (s_reg s)) as [p r'].
  cbn in *. subst. by rewrite upd_reg_same.
Qed.

(** [brk] to an address of the segment moves the break there. *)
Lemma run_brk_shrink {B} s a (k : Z -> M (state R) B) :
  state_ok s -> heap_lo (s_reg s) <= a <= heap_hi (s_reg s) ->
  exists r', r' = snd (brk a (s_reg s)) /\ region_ok r' /\
             heap_lo r' = heap_lo (s_reg s) /\ heap_hi r' = a /\
             (sys_brk a ≫= k) s = k 0 (upd_reg r' s).
Proof.
  intros Hok Ha. unfold state_ok in Hok. pose proof (brk_shrink a _ Hok Ha) as E0.
  destruct (brk_spec a _ Hok) as [E|(r' & E & ? & ? & ?)]; [by rewrite E in E0|].
  exists r'. split_and!; [by rewrite E|done..|]. unfold sys_brk. munfold. by rewrite E.
Qed.

(** ** Invariants

    A load changes nothing.  No access moves the segment, and the system
    calls keep it well formed. *)

Lemma keeps_load (P : state R -> Prop) n a : keeps P (load n a).
Proof. intros s v s' HP E. by apply load_inv in E as [-> _]. Qed.

Lemma sys_sbrk_inv incr s p s' :
  sys_sbrk incr s = Ok (p, s') ->
  p = fst (sbrk (signed incr) (s_reg s)) /\ s' = upd_reg (snd (sbrk (signed incr) (s_reg s))) s.
Proof. unfold sys_sbrk. destruct (sbrk _ _) as [q r']. by intros [= <- <-]. Qed.

Lemma sys_brk_inv a s c s' :
  sys_brk a s = Ok (c, s') ->
  c = fst (brk a (s_reg s)) /\ s' = upd_reg (snd (brk a (s_reg s))) s.
Proof. unfold sys_brk. destruct (brk _ _) as [q r']. by intros [= <- <-]. Qed.

#[export] Instance based_stable lo : Stable (based lo).
Proof.
  split.
  - intros n a v s x s' HP E. by apply store_inv in E as [-> _].
  - intros incr s p s' [Hok Hlo] [_ ->]%sys_sbrk_inv.
    split; [by apply sbrk_ok|]. cbn. by rewrite sbrk_lo.
  - intros a s p s' [Hok Hlo] [_ ->]%sys_brk_inv.
    split; [by apply brk_ok|]. cbn. by rewrite brk_lo.
Qed.

Lemma keeps_set_first lo v : keeps (based lo) (set_first v).
Proof. by apply keeps_modify. Qed.

(** ** Frames *)

Lemma frame_refl s P : frame s s P.
Proof. done. Qed.

Lemma frame_trans s1 s2 s3 (P Q : Z -> Prop) :
  frame s1 s2 P -> frame s2 s3 Q -> frame s1 s3 (fun a => P a \/ Q a).
Proof.
  intros (Hr1 & Hf1 & H1) (Hr2 & Hf2 & H2). split_and!; [congruence..|].
  intros a Ha. rewrite H2, H1; tauto.
Qed.

Lemma frame_weaken s s' (P Q : Z -> Prop) :
  (forall a, P a -> Q a) -> frame s s' P -> frame s s' Q.
Proof. intros HPQ (Hr & Hf & Hm). split_and!; [done..|]. intros a Ha. apply Hm. auto. Qed.

Lemma frame_valid s s' P a n : frame s s' P -> valid s' a n <-> valid s a n.
Proof. intros (Hr & _). unfold valid. by rewrite Hr. Qed.

Lemma frame_state_ok s s' P : frame s s' P -> state_ok s -> state_ok s'.
Proof. intros (Hr & _). unfold state_ok. by rewrite Hr. Qed.

(** A header survives a move of the break that keeps it in the segment. *)
Lemma hdr_at_move s s' (P : Z -> Prop) h hd :
  same_bytes P (s_mem s) (s_mem s') -> valid s' h SIZEOF_HEADER ->
  (forall a, h <= a < h + SIZEOF_HEADER -> ~ P a) ->
  hdr_at s h hd -> hdr_at s' h hd.
Proof.
  intros Hm Hv HP [_ <-]. split; [done|]. apply rd_header_ext.
  intros a Ha. apply Hm. auto.
Qed.

(** A value away from the bytes that changed reads the same. *)
Lemma frame_field s s' (P : Z -> Prop) n a :
  frame s s' P -> (forall x, a <= x < a + Z.of_nat n -> ~ P x) ->
  load_le n (s_mem s') a = load_le n (s_mem s) a.
Proof. intros (_ & _ & Hm) HP. apply load_le_ext. intros x Hx. apply Hm. auto. Qed.

(** A header away from the bytes that changed is still there. *)
Lemma frame_hdr_at s s' (P : Z -> Prop) h hd :
  frame s s' P -> (forall a, h <= a < h + SIZEOF_HEADER -> ~ P a) ->
  hdr_at s h hd -> hdr_at s' h hd.
Proof.
  intros (Hr & _ & Hm) HP. apply hdr_at_ext; [done|].
  intros a Ha. symmetry. apply Hm. auto.
Qed.

(** The frame of one store. *)
Lemma frame_store s n a v :
  frame s (upd_mem (store_le n (s_mem s) a v) s) (fun x => a <= x < a + Z.of_nat n).
Proof.
  split_and!; [done..|]. intros x Hx. cbn. apply load_byte_store_le_out. lia.
Qed.

End Machine.

#[export] Hint Resolve keeps_load stable_store stable_sbrk stable_brk keeps_set_first : keeps.
#[export] Hint Extern 2 (Stable _) => exact _ : keeps.
#[export] Hint Unfold get_next get_prev get_size get_free set_next set_prev set_size set_free
  get_first : keeps.

(** Solves the validity of a field access from the validity of headers in
    the context. *)
Ltac solve_valid :=
  repeat match goal with
  | H : hdr_at _ _ _ |- _ => destruct H as [? ?]
  end;
  unfold valid in *; cbn [s_reg s_mem s_first upd_mem upd_reg upd_first] in *;
  mod_lia.

(** Exposes the accessors as loads and stores. *)
Ltac unfold_acc :=
  unfold get_next, get_prev, get_size, get_free,
    set_next, set_prev, set_size, set_free, get_first, set_first in *.

(** Runs the next access of a sequence whose bytes are valid. *)
Ltac mstep :=
  rewrite ?bind_assoc_at, ?bind_ret_at;
  first
  [ rewrite run_load by solve_valid
  | rewrite run_store by solve_valid
  | rewrite load_ok by solve_valid
  | rewrite store_ok by solve_valid ];
  rewrite ?upd_mem_upd_mem; cbn [s_reg s_mem s_first upd_mem upd_reg upd_first].

(** Simplifies loads from a memory built by stores. *)
Ltac mem_simpl :=
  repeat first
  [ rewrite load_store_64
  | rewrite load_store_8
  | rewrite load_store_le_disjoint by (unfold disjoint; mod_lia) ].

(** Replaces the headers of the context by the facts about their fields. *)
Ltac hdr_fields :=
  repeat match goal with
  | H : hdr_at _ _ _ |- _ =>
      pose proof (hdr_at_sizes _ _ _ H) as (? & ? & ? & ?);
      apply hdr_at_fields in H; destruct H as (? & ? & ? & ? & ?)
  end.

(** Closes a goal about the value of a field with the facts of the
    context. *)
Ltac fields_done :=
  repeat match goal with
  | E : load_le _ _ _ = _ |- _ => rewrite !E in *; clear E
  end;
  rewrite ?wrap_wrap; first [done | by apply wrap_small | mod_lia].

(** Proves the frame of a state built by stores. *)
Ltac solve_frame :=
  split_and!; [done..|]; cbn [s_mem upd_mem];
  let a := fresh "a" in let Ha := fresh "Ha" in
  intros a Ha; rewrite ?load_byte_store_le_out by mod_lia; try done.

(** Proves that a memory built by stores has the bytes it had outside the
    stores. *)
Ltac solve_same :=
  unfold same_bytes; cbn [s_mem upd_mem upd_reg upd_first];
  let a := fresh "a" in let Ha := fresh "Ha" in
  intros a Ha; rewrite ?load_byte_store_le_out by mod_lia; done.

(** Proves that a header is in a state built by stores. *)
Ltac solve_hdr :=
  apply hdr_at_intro;
    [solve_valid|cbn [s_mem upd_mem upd_reg upd_first]; mem_simpl; fields_done..].

#[export] Hint Resolve rd_next_size rd_prev_size rd_size_size : alloc.
#[export] Hint Resolve frame_refl : alloc.

(** ** Writing a whole header *)

Section Headers.
Context `{HeapRegion R}.
Implicit Types (s : state R).

(** The four stores that initialise a header leave it holding the values
    written and touch nothing but its 25 bytes. *)
Lemma init_header_run {B} s h nx pv sz fr (k : M (state R) B) :
  state_ok s -> valid s h SIZEOF_HEADER ->
  is_size nx -> is_size pv -> is_size sz -> 0 <= fr < 256 ->
  exists s', (set_prev h pv;; set_next h nx;; set_size h sz;; set_free h fr;; k) s = k s' /\
    frame s s' (fun a => h <= a < h + OFF_FREE + 1) /\
    hdr_at s' h (mkHeader nx pv sz fr).
Proof.
  intros Hok Hv Hnx Hpv Hsz Hfr. pose proof (region_ok_bounds _ Hok).
  unfold set_prev, set_next, set_size, set_free. do 4 mstep.
  eexists. split; [reflexivity|]. split; [solve_frame|solve_hdr].
Qed.

End Headers.
