(* ===== verification/Directory.v ===== *)
(** * The Block Directory: [merge_blocks] and [split_block]

    The two primitives of [src/dynalloc.c] that edit the doubly linked list
    of headers, the abstract view of that list (a [list block] laid out in
    memory as the [cells] it determines) and the geometry of a list
    ([sorted], [tiled], [floored], [within]).  The theorems relate the
    primitives to the abstract operations [merge_abs] and [split_abs] on
    every branch. *)

From Stdlib Require Import ZArith Lia.
From stdpp Require Import prelude sorting gmap.
From S2P Require Import Prelude.
From S2P Require Import Memory.
From S2P Require Import Region.
From S2P Require Import Machine.

#[local] Open Scope Z_scope.

(** ** The abstract view *)

(** A block of the directory: where its header is, the size its header
    records, and its free flag. *)
Record block : Type := Block {
  b_addr : Z;
  b_size : Z;
  b_free : Z;
}.

#[export] Instance block_eq_dec : EqDecision block.
Proof. solve_decision. Defined.

(** The address of the first header of [bs], or [nx] when there is none. *)
Definition head_addr (bs : list block) (nx : Z) : Z :=
  match bs with
  | [] => nx
  | b :: _ => b_addr b
  end.

(** The headers a list of blocks stands for, when the list is entered from
    [pv] and continues to [nx]. *)
Fixpoint cells (pv : Z) (bs : list block) (nx : Z) : list (Z * Header) :=
  match bs with
  | [] => []
  | b :: bs' =>
      (b_addr b, mkHeader (head_addr bs' nx) pv (b_size b) (b_free b))
        :: cells (b_addr b) bs' nx
  end.

(** The end of the data region the header of [b] claims. *)
Definition b_end (b : block) : Z := b_addr b + SIZEOF_HEADER + b_size b.

(** [b] comes before [b'] and their headers do not overlap. *)
Definition before (b b' : block) : Prop := b_addr b + SIZEOF_HEADER <= b_addr b'.

(** The data of [b] ends where the header of [b'] starts. *)
Definition adjacent (b b' : block) : Prop := b_end b = b_addr b'.

#[export] Instance before_dec b b' : Decision (before b b').
Proof. unfold before. apply _. Defined.

#[export] Instance adjacent_dec b b' : Decision (adjacent b b').
Proof. unfold adjacent. apply _. Defined.

(** Headers are in address order and do not overlap. *)
Definition sorted (bs : list block) : Prop := Sorted before bs.

(** List-adjacent blocks are physically adjacent. *)
Definition tiled (bs : list block) : Prop := Sorted adjacent bs.

(** No block is smaller than the floor. *)
Definition floored (bs : list block) : Prop :=
  Forall (fun b => MIN_BLOCK_SIZE <= b_size b) bs.

(** Every block lies in [[lo, hi)] and its size is not negative. *)
Definition within (lo hi : Z) (bs : list block) : Prop :=
  Forall (fun b => lo <= b_addr b /\ 0 <= b_size b /\ b_end b <= hi) bs.

#[export] Instance sorted_dec bs : Decision (sorted bs).
Proof. unfold sorted. apply _. Defined.

#[export] Instance tiled_dec bs : Decision (tiled bs).
Proof. unfold tiled. apply _. Defined.

(** The address of the last header of [bs], or [pv] when there is none. *)
Definition last_addr (pv : Z) (bs : list block) : Z :=
  foldl (fun _ b => b_addr b) pv bs.

(** The address [a] lies in the header of a block of [bs]. *)
Definition in_headers (bs : list block) (a : Z) : Prop :=
  Exists (fun x => b_addr x <= a < b_addr x + SIZEOF_HEADER) bs.

(** The bytes where [P] holds are outside the header of [b]. *)
Definition avoids (P : Z -> Prop) (b : block) : Prop :=
  forall a, b_addr b <= a < b_addr b + SIZEOF_HEADER -> ~ P a.

(** Merging [b2] into its predecessor [b1]. *)
Definition merge_abs (b1 b2 : block) : block :=
  Block (b_addr b1) (wrap (SIZEOF_HEADER + b_size b1 + b_size b2)) (b_free b1).

(** The free block [split_block] creates after [new_size] bytes of [b]. *)
Definition split_abs (b : block) (new_size : Z) : block :=
  Block (wrap (b_addr b + SIZEOF_HEADER + new_size))
        (wrap (b_size b - new_size - SIZEOF_PTR)) 1.

(** The condition under which [split_block] splits. *)
Definition splittable (size new_size : Z) : Prop :=
  MIN_BLOCK_SIZE <= wrap (size - new_size - SIZEOF_PTR).

#[export] Instance splittable_dec size new_size : Decision (splittable size new_size).
Proof. unfold splittable. apply _. Defined.

(** The bytes [split_block] writes: the new header, the [prev] of the
    next header and the [next] of the header it splits. *)
Definition split_touch (h new_size nx : Z) (a : Z) : Prop :=
  wrap (h + SIZEOF_HEADER + new_size) <= a <
    wrap (h + SIZEOF_HEADER + new_size) + OFF_FREE + 1 \/
  nx + OFF_PREV <= a < nx + OFF_SIZE \/
  h + OFF_NEXT <= a < h + OFF_PREV.

(** The bytes [merge_blocks] writes, seen from a list: the first three
    fields of [b1] and the [prev] of the block after [b2]. *)
Definition merge_touch (b1 : block) (post : list block) (a : Z) : Prop :=
  b_addr b1 <= a < b_addr b1 + OFF_FREE \/
  (head_addr post NULL <> NULL /\
   head_addr post NULL + OFF_PREV <= a < head_addr post NULL + OFF_SIZE).

(** The macros [min] and [max] of the source, on pointers. *)
Definition min (x y : Z) : Z := if decide (x > y) then y else x.
Definition max (x y : Z) : Z := if decide (x > y) then x else y.

Section Directory.
Context `{HeapRegion R}.

(** ** The primitives *)

Definition merge_blocks (head1 head2 : Z) : M (state R) Z :=
  let first_header := min head1 head2 in
  let second_header := max head1 head2 in
  s1 ← get_size head1;
  s2 ← get_size head2;
  set_size first_header (wrap (SIZEOF_HEADER + s1 + s2));;
  n ← get_next second_header;
  set_next first_header n;;
  n' ← get_next second_header;
  (if decide (n' = NULL) then mret tt
   else n'' ← get_next second_header; set_prev n'' first_header);;
  mret first_header.

Definition split_block (header new_size : Z) : M (state R) Z :=
  sz ← get_size header;
  let new_block_size := wrap (sz - new_size - SIZEOF_PTR) in
  if decide (new_block_size < MIN_BLOCK_SIZE) then mret NULL
  else
    let new_header := wrap (header + SIZEOF_HEADER + new_size) in
    set_prev new_header header;;
    n ← get_next header;
    set_next new_header n;;
    set_size new_header new_block_size;;
    set_free new_header 1;;
    n' ← get_next header;
    set_prev n' new_header;;
    set_next header new_header;;
    mret new_header.

(** ** The list in memory *)

(** The cells of [bs] are in memory, none at [NULL]. *)
Definition seg (s : state R) (pv : Z) (bs : list block) (nx : Z) : Prop :=
  Forall (fun c => c.1 <> NULL /\ hdr_at s c.1 c.2) (cells pv bs nx).

(** [first] is the head of the list [bs]. *)
Definition repr (s : state R) (bs : list block) : Prop :=
  s_first s = head_addr bs NULL /\ seg s NULL bs NULL.

#[export] Instance seg_dec s pv bs nx : Decision (seg s pv bs nx).
Proof. unfold seg. apply _. Defined.

#[export] Instance repr_dec s bs : Decision (repr s bs).
Proof. unfold repr. apply _. Defined.

(** Reads the list out of memory, following [next] from [h]. *)
Fixpoint walk (fuel : nat) (s : state R) (h : Z) : option (list block) :=
  match fuel with
  | O => None
  | S f =>
      if decide (h = NULL) then Some []
      else if decide (valid s h SIZEOF_HEADER)
      then bs ← walk f s (rd_next (s_mem s) h);
           Some (Block h (rd_size (s_mem s) h) (rd_free (s_mem s) h) :: bs)
      else None
  end.

End Directory.

(** ** Building a list in memory *)

(** Writes the four fields of a header. *)
Definition put_header (h : Z) (hd : Header) (m : gmap Z Z) : gmap Z Z :=
  store_le 1
    (store_le 8
       (store_le 8 (store_le 8 m (h + OFF_NEXT) (h_next hd)) (h + OFF_PREV) (h_prev hd))
       (h + OFF_SIZE) (h_size hd))
    (h + OFF_FREE) (h_free hd).

(** Writes the headers of the list [bs]. *)
Definition lay (bs : list block) (m : gmap Z Z) : gmap Z Z :=
  foldr (fun c => put_header c.1 c.2) m (cells NULL bs NULL).

(** The blocks a list can hold in the segment [r]: headers in the heap,
    sizes that fit a [size_t], flags that fit a [char]. *)
Definition storable `{HeapRegion R} (r : R) (bs : list block) : Prop :=
  Forall (fun b => heap_lo r <= b_addr b /\ b_addr b + SIZEOF_HEADER <= heap_hi r /\
                   is_size (b_size b) /\ 0 <= b_free b < 256) bs.

#[export] Instance storable_dec `{HeapRegion R} (r : R) bs : Decision (storable r bs).
Proof. unfold storable. apply _. Defined.

(** A heap of three tiled blocks at the bottom of a simulated segment: two
    free blocks of 40 and 100 bytes and a block of 32 bytes in use. *)
Definition demo_blocks : list block :=
  [Block 4096 40 1; Block 4168 100 1; Block 4300 32 0].

Definition demo : state sim_region :=
  State (lay demo_blocks ∅) (SimRegion 4096 4364 8192) 4096.

(** ** Lists of blocks *)

#[export] Instance before_trans : Transitive before.
Proof. unfold before. intros x y z. mod_lia. Qed.

Lemma head_addr_app l1 l2 nx : head_addr (l1 ++ l2) nx = head_addr l1 (head_addr l2 nx).
Proof. by destruct l1. Qed.

Lemma last_addr_app pv l1 l2 : last_addr pv (l1 ++ l2) = last_addr (last_addr pv l1) l2.
Proof. apply foldl_app. Qed.

Lemma last_addr_snoc pv l b : last_addr pv (l ++ [b]) = b_addr b.
Proof. by rewrite last_addr_app. Qed.

Lemma cells_app pv l1 l2 nx :
  cells pv (l1 ++ l2) nx = cells pv l1 (head_addr l2 nx) ++ cells (last_addr pv l1) l2 nx.
Proof.
  revert pv. induction l1 as [|b l1 IH]; intros pv; [done|].
  cbn. by rewrite IH, head_addr_app.
Qed.

Lemma cells_addrs pv bs nx : (cells pv bs nx).*1 = b_addr <$> bs.
Proof. revert pv. induction bs as [|b bs IH]; intros pv; [done|]. cbn. by rewrite IH. Qed.

Lemma sorted_cons_inv b bs : sorted (b :: bs) -> sorted bs /\ Forall (before b) bs.
Proof.
  intros Hs. split; [by apply Sorted_inv in Hs as [? _]|].
  apply Forall_forall. intros y Hy. by apply (Sorted_cons_rel before b bs).
Qed.

(** In a sorted list the headers on the left of a block lie below it. *)
Lemma sorted_left pre b post : sorted (pre ++ b :: post) -> Forall (fun x => before x b) pre.
Proof.
  intros Hs. apply Forall_forall. intros x Hx.
  apply (Sorted_app_rel before pre (b :: post)); [done..|]. by left.
Qed.

Lemma sorted_right pre b post : sorted (pre ++ b :: post) -> Forall (before b) post.
Proof. intros Hs. apply Sorted_app_r in Hs. by apply sorted_cons_inv in Hs as [_ ?]. Qed.

(** ** The abstract merge keeps the geometry *)

Lemma merge_abs_sorted pre b1 b2 post :
  sorted (pre ++ b1 :: b2 :: post) -> sorted (pre ++ merge_abs b1 b2 :: post).
Proof.
  unfold sorted. intros [Hl Hr]%Sorted_glue. apply Sorted_glue. split.
  - by apply (Sorted_snoc_change before pre b1).
  - apply sorted_cons_inv in Hr as [Hr Hb]. apply Sorted_inv in Hr as [Hr _].
    constructor; [done|]. destruct post as [|b3 post]; constructor.
    inv Hb. match goal with Hp : Forall _ (b3 :: _) |- _ => inv Hp end.
    unfold before, merge_abs in *. cbn. lia.
Qed.

Lemma merge_abs_end b1 b2 :
  adjacent b1 b2 -> is_size (SIZEOF_HEADER + b_size b1 + b_size b2) ->
  b_end (merge_abs b1 b2) = b_end b2.
Proof.
  unfold adjacent, b_end, merge_abs. cbn. intros Ha Hs.
  rewrite wrap_small by done. lia.
Qed.

Lemma merge_abs_tiled pre b1 b2 post :
  is_size (SIZEOF_HEADER + b_size b1 + b_size b2) ->
  tiled (pre ++ b1 :: b2 :: post) -> tiled (pre ++ merge_abs b1 b2 :: post).
Proof.
  intros Hsz. unfold tiled. intros [Hl Hr]%Sorted_glue. apply Sorted_glue. split.
  - by apply (Sorted_snoc_change adjacent pre b1).
  - apply Sorted_inv in Hr as [Hr Hb]. inv Hb.
    apply (Sorted_cons_change adjacent b2); [|done].
    intros z. unfold adjacent. by rewrite merge_abs_end.
Qed.

Lemma merge_abs_within lo hi pre b1 b2 post :
  adjacent b1 b2 -> 0 <= lo -> hi <= SIZE_MOD ->
  within lo hi (pre ++ b1 :: b2 :: post) -> within lo hi (pre ++ merge_abs b1 b2 :: post).
Proof.
  unfold within. rewrite !Forall_app, !Forall_cons. intros Ha Hlo Hhi (Hp & H1 & H2 & Hq).
  assert (is_size (SIZEOF_HEADER + b_size b1 + b_size b2)) as Hs
    by (unfold adjacent, b_end in *; mod_lia).
  split_and!; [done| | | |done].
  - cbn. lia.
  - cbn. mod_lia.
  - rewrite merge_abs_end by done. lia.
Qed.

(** ** The abstract split breaks the geometry *)

(** Without wrap-around the block made by a split lies inside the data of
    the block it is cut from, but claims 24 bytes beyond its end: the
    source subtracts the size of a pointer where the size of a header is
    meant. *)
Lemma split_abs_end b new_size :
  0 <= b_addr b -> b_end b < SIZE_MOD -> 0 <= new_size -> new_size + SIZEOF_PTR <= b_size b ->
  b_end (split_abs b new_size) = b_end b + (SIZEOF_HEADER - SIZEOF_PTR).
Proof.
  unfold b_end, split_abs. cbn. intros. rewrite !wrap_small by mod_lia. mod_lia.
Qed.

(** Without wrap-around the header made by a split falls strictly between
    the header it is cut from and the next one. *)
Lemma split_abs_fits b b3 new_size :
  0 <= b_addr b -> b_end b < SIZE_MOD -> adjacent b b3 ->
  0 <= new_size -> new_size + SIZEOF_PTR <= b_size b -> splittable (b_size b) new_size ->
  before b (split_abs b new_size) /\ before (split_abs b new_size) b3.
Proof.
  unfold before, adjacent, splittable, b_end, split_abs. cbn. intros. mod_lia.
Qed.

(** C12. A split never leaves a tiled list: the block it is cut from keeps
    its size, so its data still runs over the new block, and the new block
    ends 24 bytes after the header of the next block starts. *)
Theorem split_abs_untiled b b3 new_size :
  0 <= b_addr b -> b_end b < SIZE_MOD -> adjacent b b3 ->
  0 <= new_size -> new_size + SIZEOF_PTR <= b_size b -> splittable (b_size b) new_size ->
  b_addr (split_abs b new_size) < b_end b /\
  b_end (split_abs b new_size) = b_addr b3 + (SIZEOF_HEADER - SIZEOF_PTR) /\
  ~ tiled (b :: split_abs b new_size :: [b3]).
Proof.
  intros H0 He Ha Hn Hfit Hsp. rewrite split_abs_end by done.
  unfold adjacent, splittable, b_end, split_abs in *. cbn. split_and!; [mod_lia..|].
  intros Ht. apply Sorted_inv in Ht as [_ Hh]. inv Hh.
  unfold adjacent, b_end in *. cbn in *. mod_lia.
Qed.

Lemma split_abs_sorted pre b b3 post new_size :
  before b (split_abs b new_size) -> before (split_abs b new_size) b3 ->
  sorted (pre ++ b :: b3 :: post) -> sorted (pre ++ b :: split_abs b new_size :: b3 :: post).
Proof.
  unfold sorted. intros Hlo Hhi [Hl Hr]%Sorted_glue. apply Sorted_glue. split; [done|].
  apply Sorted_inv in Hr as [Hr _].
  constructor; [constructor; [done|by constructor]|by constructor].
Qed.

Section DirectoryProofs.
Context `{HeapRegion R}.
Implicit Types (s : state R) (bs pre post : list block) (b : block).

Lemma min_lt x y : x < y -> min x y = x.
Proof. unfold min. intros. case_decide; lia. Qed.

Lemma max_lt x y : x < y -> max x y = y.
Proof. unfold max. intros. case_decide; lia. Qed.

(** ** Lists in memory *)

Lemma seg_nil s pv nx : seg s pv [] nx.
Proof. constructor. Qed.

Lemma seg_cons s pv b bs nx :
  seg s pv (b :: bs) nx <->
  b_addr b <> NULL /\
  hdr_at s (b_addr b) (mkHeader (head_addr bs nx) pv (b_size b) (b_free b)) /\
  seg s (b_addr b) bs nx.
Proof. unfold seg. cbn. rewrite Forall_cons. cbn. tauto. Qed.

Lemma seg_app s pv l1 l2 nx :
  seg s pv (l1 ++ l2) nx <->
  seg s pv l1 (head_addr l2 nx) /\ seg s (last_addr pv l1) l2 nx.
Proof. unfold seg. by rewrite cells_app, Forall_app. Qed.

(** A list whose headers are away from the bytes that changed is still
    there. *)
Lemma seg_frame s s' P pv bs nx :
  frame s s' P -> Forall (avoids P) bs -> seg s pv bs nx -> seg s' pv bs nx.
Proof.
  intros Hf. revert pv. induction bs as [|b bs IH]; intros pv Ha; [intros _; apply seg_nil|].
  inv Ha. rewrite !seg_cons. intros (? & ? & ?). split; [done|]. split; [|auto].
  by apply (frame_hdr_at s s' P).
Qed.

(** The same when the break moved, for the blocks still in the segment. *)
Lemma seg_move s s' P pv bs nx :
  same_bytes P (s_mem s) (s_mem s') ->
  Forall (fun b => valid s' (b_addr b) SIZEOF_HEADER /\ avoids P b) bs ->
  seg s pv bs nx -> seg s' pv bs nx.
Proof.
  intros Hm. revert pv. induction bs as [|b bs IH]; intros pv Ha; [intros _; apply seg_nil|].
  apply Forall_cons in Ha as [[Hv Hb] Ha]. rewrite !seg_cons.
  intros (? & ? & ?). split; [done|]. split; [|auto]. by apply (hdr_at_move s s' P).
Qed.

(** Every block of a list in memory has its header in the heap. *)
Lemma seg_valid s pv bs nx b : seg s pv bs nx -> b ∈ bs -> valid s (b_addr b) SIZEOF_HEADER.
Proof.
  revert pv. induction bs as [|b' bs IH]; intros pv Hs Hb; [by inv Hb|].
  apply seg_cons in Hs as (_ & [Hv _] & Hs). inv Hb; eauto.
Qed.

(** Re-entering a list from another predecessor only changes the [prev]
    of its first header. *)
Lemma seg_reprev s s' P pv pv' bs nx :
  frame s s' P ->
  (forall b, head bs = Some b ->
     rd_prev (s_mem s') (b_addr b) = pv' /\
     forall a, P a -> b_addr b <= a < b_addr b + SIZEOF_HEADER ->
               b_addr b + OFF_PREV <= a < b_addr b + OFF_SIZE) ->
  Forall (avoids P) (tail bs) ->
  seg s pv bs nx -> seg s' pv' bs nx.
Proof.
  intros Hf Hhd Htl. destruct bs as [|b bs]; [intros _; apply seg_nil|]. cbn in Htl.
  destruct (Hhd b eq_refl) as [Hpv HP]. rewrite !seg_cons.
  intros (? & Hb & Hs). split; [done|]. split; [|by apply (seg_frame s s' P)].
  pose proof (frame_valid s s' P (b_addr b) SIZEOF_HEADER Hf) as Hv.
  apply hdr_at_fields in Hb as (Hvb & Hn & Hp & Hsz & Hfr).
  apply hdr_at_intro; [by apply Hv| |exact Hpv| |];
    by rewrite (frame_field s s' P) by
      (done || intros x Hx Px; specialize (HP x Px); mod_lia).
Qed.

(** ** [merge_blocks] *)

(** One run of [merge_blocks] on two headers in address order, the second
    of which is followed by nothing or by a header further up. *)
Lemma merge_blocks_run s h1 h2 hd1 hd2 :
  state_ok s -> hdr_at s h1 hd1 -> hdr_at s h2 hd2 ->
  h1 + SIZEOF_HEADER <= h2 ->
  (h_next hd2 = NULL \/
   h2 + SIZEOF_HEADER <= h_next hd2 /\ valid s (h_next hd2) SIZEOF_HEADER) ->
  exists s', merge_blocks h1 h2 s = Ok (h1, s') /\
    frame s s' (fun a => h1 <= a < h1 + OFF_FREE \/
                         (h_next hd2 <> NULL /\
                          h_next hd2 + OFF_PREV <= a < h_next hd2 + OFF_SIZE)) /\
    hdr_at s' h1 (mkHeader (h_next hd2) (h_prev hd1)
                    (wrap (SIZEOF_HEADER + h_size hd1 + h_size hd2)) (h_free hd1)) /\
    (h_next hd2 <> NULL -> rd_prev (s_mem s') (h_next hd2) = h1).
Proof.
  intros Hok H1 H2 Hlt Hnx.
  pose proof (valid_bounds _ _ _ Hok (proj1 H1)).
  pose proof (proj1 H1). pose proof (proj1 H2). hdr_fields.
  unfold merge_blocks. rewrite min_lt, max_lt by mod_lia. unfold_acc.
  do 6 mstep. mem_simpl.
  match goal with E : _ = h_next hd2 |- _ => rewrite !E end.
  destruct Hnx as [E|[Hlt' Hv]].
  - rewrite decide_True by done. eexists. split; [done|].
    split_and!; [solve_frame|solve_hdr|done].
  - pose proof (valid_bounds _ _ _ Hok Hv).
    rewrite decide_False by mod_lia. mstep. mem_simpl. mstep.
    match goal with E : _ = h_next hd2 |- _ => rewrite !E end.
    eexists. split; [done|]. split_and!; [solve_frame|solve_hdr|].
    intros _. unfold rd_prev. cbn [s_mem upd_mem]. mem_simpl. mod_lia.
Qed.

Lemma merge_touch_left b1 post x : before x b1 -> Forall (before b1) post ->
  avoids (merge_touch b1 post) x.
Proof.
  unfold before, avoids, merge_touch. intros Hx Hpost a Ha [Hb|[Hne Hb]]; [mod_lia|].
  destruct post as [|b3 post]; [done|]. inv Hpost. cbn in *. unfold before in *. mod_lia.
Qed.

Lemma merge_touch_right b1 b3 post x :
  before b1 b3 -> before b3 x -> avoids (merge_touch b1 (b3 :: post)) x.
Proof. unfold before, avoids, merge_touch. cbn. intros ? ? a Ha. mod_lia. Qed.

(** The block after [b2], when there is one, is a header further up. *)
Lemma seg_next_valid s b2 post :
  sorted (b2 :: post) -> seg s (b_addr b2) post NULL ->
  head_addr post NULL = NULL \/
  b_addr b2 + SIZEOF_HEADER <= head_addr post NULL /\
  valid s (head_addr post NULL) SIZEOF_HEADER.
Proof.
  intros Hs Hseg. destruct post as [|b3 post]; [by left|right]. cbn.
  apply sorted_cons_inv in Hs as [_ Hb]. inv Hb.
  apply seg_cons in Hseg as (_ & [Hv _] & _). done.
Qed.

(** What is left of a list after the merge of the two blocks before it. *)
Lemma merge_post s s' b1 b2 post :
  frame s s' (merge_touch b1 post) ->
  sorted (b1 :: b2 :: post) ->
  (head_addr post NULL <> NULL -> rd_prev (s_mem s') (head_addr post NULL) = b_addr b1) ->
  seg s (b_addr b2) post NULL -> seg s' (b_addr b1) post NULL.
Proof.
  intros Hfr Hs Hpv Hseg.
  apply sorted_cons_inv in Hs as [Hs H1]. apply sorted_cons_inv in Hs as [Hs H2].
  inv H1. apply (seg_reprev s s' (merge_touch b1 post) (b_addr b2)); [done| | |done].
  - intros b3 Hb3. destruct post as [|? post]; inv Hb3.
    apply seg_cons in Hseg as (Hne & _). split; [by apply Hpv|].
    inv H2. unfold merge_touch, before in *. cbn. intros a. mod_lia.
  - destruct post as [|b3 post]; [constructor|]. cbn.
    apply sorted_cons_inv in Hs as [_ H3]. inv H2.
    eapply Forall_impl; [exact H3|]. intros x Hx.
    apply merge_touch_right; [by transitivity b2|done].
Qed.

(** [merge_blocks] on a list in memory. *)
Lemma merge_blocks_list s pre b1 b2 post :
  state_ok s -> sorted (pre ++ b1 :: b2 :: post) -> repr s (pre ++ b1 :: b2 :: post) ->
  exists s', merge_blocks (b_addr b1) (b_addr b2) s = Ok (b_addr b1, s') /\
             repr s' (pre ++ merge_abs b1 b2 :: post) /\
             frame s s' (merge_touch b1 post).
Proof.
  intros Hok Hs [Hf Hseg].
  apply seg_app in Hseg as [Hpre Hseg]. apply seg_cons in Hseg as (Hn1 & H1 & Hseg).
  apply seg_cons in Hseg as (Hn2 & H2 & Hpost). cbn [head_addr] in *.
  pose proof (sorted_right _ _ _ Hs) as Hr. pose proof (Sorted_app_r _ _ _ Hs) as Hs1.
  pose proof (sorted_cons_inv _ _ Hs1) as [Hs2 _].
  destruct (merge_blocks_run s _ _ _ _ Hok H1 H2) as (s' & Hrun & Hfr & H1' & Hpv);
    [by inv Hr|by apply seg_next_valid|]. cbn [h_next h_prev h_size h_free] in *.
  exists s'. split; [done|]. split; [|done]. split.
  - destruct Hfr as (_ & -> & _). rewrite Hf, !head_addr_app. done.
  - apply seg_app. split.
    + apply (seg_frame s s' (merge_touch b1 post)); [done| |done].
      eapply Forall_impl; [exact (sorted_left _ _ _ Hs)|].
      intros x Hx. apply merge_touch_left; [done|]. by inv Hr.
    + apply seg_cons. split; [done|]. split; [done|]. by apply (merge_post s s' b1 b2).
Qed.

(** ** [split_block] *)

(** Below the floor [split_block] does nothing. *)
Lemma split_block_skip s h hd new_size :
  hdr_at s h hd -> ~ splittable (h_size hd) new_size ->
  split_block h new_size s = Ok (NULL, s).
Proof.
  intros Hh Hsp. pose proof (proj1 Hh). hdr_fields.
  unfold split_block, splittable in *. unfold_acc. mstep.
  rewrite decide_True; [done|]. fields_done.
Qed.

(** One run of [split_block] when the new header falls between the header
    it splits and the next one. *)
Lemma split_block_run s h hd hdn new_size :
  state_ok s -> hdr_at s h hd -> hdr_at s (h_next hd) hdn ->
  splittable (h_size hd) new_size ->
  h + SIZEOF_HEADER <= wrap (h + SIZEOF_HEADER + new_size) ->
  wrap (h + SIZEOF_HEADER + new_size) + SIZEOF_HEADER <= h_next hd ->
  exists s', split_block h new_size s = Ok (wrap (h + SIZEOF_HEADER + new_size), s') /\
    frame s s' (split_touch h new_size (h_next hd)) /\
    hdr_at s' h (mkHeader (wrap (h + SIZEOF_HEADER + new_size))
                   (h_prev hd) (h_size hd) (h_free hd)) /\
    hdr_at s' (wrap (h + SIZEOF_HEADER + new_size))
      (mkHeader (h_next hd) h (wrap (h_size hd - new_size - SIZEOF_PTR)) 1) /\
    hdr_at s' (h_next hd)
      (mkHeader (h_next hdn) (wrap (h + SIZEOF_HEADER + new_size)) (h_size hdn) (h_free hdn)).
Proof.
  intros Hok Hh Hn Hsp Hlo Hhi. unfold split_touch.
  set (nh := wrap (h + SIZEOF_HEADER + new_size)) in *.
  pose proof (valid_bounds _ _ _ Hok (proj1 Hh)).
  pose proof (valid_bounds _ _ _ Hok (proj1 Hn)).
  pose proof (proj1 Hh). pose proof (proj1 Hn). hdr_fields.
  unfold split_block, splittable in *. unfold_acc. mstep.
  match goal with E : _ = h_size hd |- _ => rewrite !E end.
  rewrite decide_False by lia. fold nh.
  do 5 mstep. mem_simpl. do 1 mstep. mem_simpl.
  match goal with E : _ = h_next hd |- _ => rewrite !E end.
  do 2 mstep.
  eexists. split; [done|]. split_and!; [solve_frame|solve_hdr..].
Qed.

(** On a block with no successor [split_block] stores through [NULL]. *)
Lemma split_block_null s h hd new_size :
  state_ok s -> hdr_at s h hd -> h_next hd = NULL ->
  splittable (h_size hd) new_size ->
  h + SIZEOF_HEADER <= wrap (h + SIZEOF_HEADER + new_size) ->
  valid s (wrap (h + SIZEOF_HEADER + new_size)) SIZEOF_HEADER ->
  split_block h new_size s = Fault (NULL + OFF_PREV).
Proof.
  intros Hok Hh Hn Hsp Hlo Hv.
  set (nh := wrap (h + SIZEOF_HEADER + new_size)) in *.
  pose proof (valid_bounds _ _ _ Hok (proj1 Hh)).
  pose proof (proj1 Hh). hdr_fields.
  unfold split_block, splittable in *. unfold_acc. mstep.
  match goal with E : _ = h_size hd |- _ => rewrite !E end.
  rewrite decide_False by lia. fold nh.
  do 5 mstep. mem_simpl. do 1 mstep. mem_simpl.
  match goal with E : _ = h_next hd |- _ => rewrite !E end. rewrite Hn.
  apply run_store_fault. apply valid_not_null; [done|mod_lia].
Qed.

Lemma split_touch_left h new_size nx x :
  b_addr x + SIZEOF_HEADER <= h -> h + SIZEOF_HEADER <= wrap (h + SIZEOF_HEADER + new_size) ->
  wrap (h + SIZEOF_HEADER + new_size) + SIZEOF_HEADER <= nx ->
  avoids (split_touch h new_size nx) x.
Proof. unfold avoids, split_touch. intros ? ? ? a Ha. mod_lia. Qed.

Lemma split_touch_right h new_size nx x :
  h + SIZEOF_HEADER <= wrap (h + SIZEOF_HEADER + new_size) ->
  wrap (h + SIZEOF_HEADER + new_size) + SIZEOF_HEADER <= nx ->
  nx + SIZEOF_HEADER <= b_addr x ->
  avoids (split_touch h new_size nx) x.
Proof. unfold avoids, split_touch. intros ? ? ? a Ha. mod_lia. Qed.

(** [split_block] on a list in memory. *)
Lemma split_block_list s pre b b3 post new_size :
  state_ok s -> sorted (pre ++ b :: b3 :: post) -> repr s (pre ++ b :: b3 :: post) ->
  splittable (b_size b) new_size ->
  before b (split_abs b new_size) -> before (split_abs b new_size) b3 ->
  exists s', split_block (b_addr b) new_size s = Ok (b_addr (split_abs b new_size), s') /\
             repr s' (pre ++ b :: split_abs b new_size :: b3 :: post) /\
             frame s s' (split_touch (b_addr b) new_size (b_addr b3)).
Proof.
  intros Hok Hs [Hf Hseg] Hsp Hlo Hhi. unfold before in Hlo, Hhi. cbn in Hlo, Hhi.
  apply seg_app in Hseg as [Hpre Hseg]. apply seg_cons in Hseg as (Hn1 & H1 & Hseg).
  apply seg_cons in Hseg as (Hn3 & H3 & Hpost). cbn [head_addr] in *.
  pose proof (valid_bounds _ _ _ Hok (proj1 H1)) as Hb.
  destruct (split_block_run s _ _ _ new_size Hok H1 H3) as (s' & Hrun & Hfr & H1' & Hn' & H3');
    [done..|]. cbn [h_next h_prev h_size h_free] in *.
  exists s'. split; [done|]. split; [|done]. split.
  - destruct Hfr as (_ & -> & _). rewrite Hf, !head_addr_app. done.
  - apply seg_app. split; [|apply seg_cons; split_and!; [done..|];
      apply seg_cons; split_and!; [cbn; mod_lia|done|];
      apply seg_cons; split_and!; [done..|]];
    (eapply seg_frame; [exact Hfr| |done]).
    + eapply Forall_impl; [exact (sorted_left _ _ _ Hs)|].
      intros x Hx. by apply split_touch_left.
    + pose proof (sorted_right (pre ++ [b]) b3 post) as Hr.
      rewrite <- app_assoc in Hr. specialize (Hr Hs).
      eapply Forall_impl; [exact Hr|]. intros x Hx. by apply split_touch_right.
Qed.

(** The header of a block of a list in memory. *)
Lemma repr_at s pre b rest :
  repr s (pre ++ b :: rest) ->
  b_addr b <> NULL /\
  hdr_at s (b_addr b)
    (mkHeader (head_addr rest NULL) (last_addr NULL pre) (b_size b) (b_free b)).
Proof. intros [_ Hs]. apply seg_app in Hs as [_ Hs]. by apply seg_cons in Hs as (? & ? & _). Qed.

Lemma repr_next s pre b n rest :
  repr s (pre ++ b :: n :: rest) ->
  b_addr n <> NULL /\
  hdr_at s (b_addr n) (mkHeader (head_addr rest NULL) (b_addr b) (b_size n) (b_free n)).
Proof.
  intros Hr. rewrite (cons_middle b pre), app_assoc in Hr.
  apply repr_at in Hr. by rewrite last_addr_snoc in Hr.
Qed.

(** The headers of a list in memory lie in the heap. *)
Lemma repr_valid s bs : repr s bs -> Forall (fun b => valid s (b_addr b) SIZEOF_HEADER) bs.
Proof. intros [_ Hs]. apply Forall_forall. intros b Hb. by apply (seg_valid _ _ _ _ _ Hs). Qed.

(** The headers of a list in memory are below the break. *)
Lemma repr_below s (P : Z -> Prop) bs :
  repr s bs -> (forall a, P a -> heap_hi (s_reg s) <= a) -> Forall (avoids P) bs.
Proof.
  intros Hr HP. eapply Forall_impl; [exact (repr_valid s bs Hr)|].
  intros b Hb a Ha HPa%HP. unfold valid in Hb. lia.
Qed.

(** A list in memory is still there when the bytes that changed are
    outside its headers and the heap did not shrink. *)
Lemma repr_grow s s' (P : Z -> Prop) bs :
  repr s bs -> same_bytes P (s_mem s) (s_mem s') -> s_first s' = s_first s ->
  heap_lo (s_reg s') = heap_lo (s_reg s) -> heap_hi (s_reg s) <= heap_hi (s_reg s') ->
  Forall (avoids P) bs -> repr s' bs.
Proof.
  intros Hr Hm Hf Hlo Hhi HP. pose proof (repr_valid s bs Hr) as Hv. destruct Hr as [Hfst Hseg].
  split; [congruence|]. apply (seg_move s s' P _ _ _ Hm); [|done].
  apply Forall_forall. intros b Hb. rewrite Forall_forall in Hv, HP.
  specialize (Hv b Hb). split; [unfold valid in *; lia|auto].
Qed.

Lemma repr_nil s : repr s [] <-> s_first s = NULL.
Proof. unfold repr. cbn. split; [tauto|]. split; [done|apply seg_nil]. Qed.

(** The last header of a list in memory is an address of the heap, or
    [NULL] when the list is empty. *)
Lemma last_addr_valid s bs :
  repr s bs -> bs = [] \/ valid s (last_addr NULL bs) SIZEOF_HEADER.
Proof.
  intros [_ Hs]. destruct bs as [|b bs _] using rev_ind; [by left|right].
  rewrite last_addr_snoc. apply (seg_valid _ _ _ _ _ Hs). set_solver.
Qed.

Lemma last_addr_size s bs : state_ok s -> repr s bs -> is_size (last_addr NULL bs).
Proof.
  intros Hok [->|Hv]%last_addr_valid; [done|].
  pose proof (valid_bounds _ _ _ Hok Hv). mod_lia.
Qed.

Lemma merge_touch_in_headers b1 post a : merge_touch b1 post a -> in_headers (b1 :: post) a.
Proof.
  unfold merge_touch, in_headers. intros [Ha|[Hne Ha]].
  - apply Exists_cons_hd. mod_lia.
  - destruct post as [|b3 post]; [done|]. apply Exists_cons_tl, Exists_cons_hd.
    cbn in *. mod_lia.
Qed.

Lemma in_headers_merge b1 b2 post a :
  in_headers (merge_abs b1 b2 :: post) a -> in_headers (b1 :: b2 :: post) a.
Proof.
  unfold in_headers. rewrite !Exists_cons. cbn. tauto.
Qed.

(** ** Changing the free flag of a block *)

(** The block with another free flag. *)
Lemma set_free_list s pre b rest v :
  sorted (pre ++ b :: rest) -> repr s (pre ++ b :: rest) -> 0 <= v < 256 ->
  exists s', set_free (b_addr b) v s = Ok (tt, s') /\
             repr s' (pre ++ Block (b_addr b) (b_size b) v :: rest) /\
             frame s s' (fun a => a = b_addr b + OFF_FREE).
Proof.
  intros Hs [Hf Hseg] Hv.
  apply seg_app in Hseg as [Hpre Hseg]. apply seg_cons in Hseg as (Hn & Hb & Hrest).
  pose proof Hb as [Hvb _]. hdr_fields. unfold_acc. mstep.
  eexists. split; [done|]. split; [|solve_frame].
  split; [by rewrite !head_addr_app in *|]. apply seg_app. split.
  - eapply (seg_frame s _ (fun a => a = b_addr b + OFF_FREE)); [solve_frame| |done].
    eapply Forall_impl; [exact (sorted_left _ _ _ Hs)|].
    unfold before, avoids. intros x Hx a Ha. mod_lia.
  - apply seg_cons. cbn [b_addr b_size b_free]. split; [done|]. split; [solve_hdr|].
    eapply (seg_frame s _ (fun a => a = b_addr b + OFF_FREE)); [solve_frame| |done].
    eapply Forall_impl; [exact (sorted_right _ _ _ Hs)|].
    unfold before, avoids. intros x Hx a Ha. mod_lia.
Qed.

Lemma set_free_sorted pre b rest v :
  sorted (pre ++ b :: rest) -> sorted (pre ++ Block (b_addr b) (b_size b) v :: rest).
Proof.
  unfold sorted. intros [Hl Hr]%Sorted_glue. apply Sorted_glue. split.
  - by apply (Sorted_snoc_change before pre b).
  - by apply (Sorted_cons_change before b).
Qed.

(** ** Headers that coincide *)

(** A split whose new header falls on the successor's header: the
    successor is overwritten and becomes a free block that is its own
    [next] and [prev]. *)
Lemma split_block_alias s h hd hdn new_size :
  state_ok s -> hdr_at s h hd -> hdr_at s (h_next hd) hdn ->
  splittable (h_size hd) new_size ->
  wrap (h + SIZEOF_HEADER + new_size) = h_next hd -> h + SIZEOF_HEADER <= h_next hd ->
  exists s', split_block h new_size s = Ok (h_next hd, s') /\
    frame s s' (fun a => h_next hd <= a < h_next hd + OFF_FREE + 1 \/
                         h + OFF_NEXT <= a < h + OFF_PREV) /\
    hdr_at s' h hd /\
    hdr_at s' (h_next hd)
      (mkHeader (h_next hd) (h_next hd) (wrap (h_size hd - new_size - SIZEOF_PTR)) 1).
Proof.
  intros Hok Hh Hn Hsp Ha Hlo. destruct hd as [nx pv sz fr]. cbn [h_next h_size] in *.
  pose proof (valid_bounds _ _ _ Hok (proj1 Hh)).
  pose proof (valid_bounds _ _ _ Hok (proj1 Hn)).
  pose proof (proj1 Hh). pose proof (proj1 Hn). hdr_fields. cbn [h_next h_prev h_size h_free] in *.
  unfold split_block, splittable in *. unfold_acc. mstep.
  match goal with E : _ = sz |- _ => rewrite !E end.
  rewrite decide_False by lia. rewrite Ha.
  do 5 mstep. mem_simpl. do 1 mstep. mem_simpl.
  match goal with E : _ = nx |- _ => rewrite !E end.
  do 2 mstep.
  eexists. split; [done|]. split_and!; [solve_frame|solve_hdr..].
Qed.

(** Merging a block with itself: its size grows and it stays its own
    [next]. *)
Lemma merge_blocks_self s h pv sz fr :
  state_ok s -> hdr_at s h (mkHeader h pv sz fr) ->
  exists s', merge_blocks h h s = Ok (h, s') /\ state_ok s' /\
    hdr_at s' h (mkHeader h h (wrap (SIZEOF_HEADER + sz + sz)) fr).
Proof.
  intros Hok Hh. pose proof (valid_bounds _ _ _ Hok (proj1 Hh)).
  pose proof (proj1 Hh). hdr_fields. cbn [h_next h_prev h_size h_free] in *.
  unfold merge_blocks, min, max. rewrite !decide_False by lia. unfold_acc.
  do 4 mstep. mem_simpl.
  match goal with E : _ = h |- _ => rewrite !E end.
  do 2 mstep. mem_simpl. rewrite (wrap_small h) by done.
  rewrite decide_False by mod_lia. mstep. mem_simpl. rewrite (wrap_small h) by done. mstep.
  eexists. split; [done|]. split; [done|]. solve_hdr.
Qed.

(** ** Reading the list back *)

Lemma walk_seg s pv bs fuel :
  seg s pv bs NULL -> (length bs < fuel)%nat -> walk fuel s (head_addr bs NULL) = Some bs.
Proof.
  revert pv fuel. induction bs as [|b bs IH]; intros pv fuel Hs Hf;
    (destruct fuel as [|f]; [cbn in Hf; lia|]); cbn [walk head_addr].
  { by rewrite decide_True. }
  apply seg_cons in Hs as (Hn & [Hv Hh] & Hs).
  rewrite decide_False, decide_True by done.
  unfold rd_header in Hh. injection Hh as Hnx _ Hsz Hfr. rewrite Hnx, Hsz, Hfr.
  rewrite (IH _ f Hs) by (cbn in Hf; lia). by destruct b.
Qed.

(** ** Invariants

    The primitives only load and store. *)

Lemma keeps_merge_blocks (P : state R -> Prop) `{!Stable P} h1 h2 :
  keeps P (merge_blocks h1 h2).
Proof. unfold merge_blocks. keeps_tac. Qed.

Lemma keeps_split_block (P : state R -> Prop) `{!Stable P} h n : keeps P (split_block h n).
Proof. unfold split_block. keeps_tac. Qed.

(** ** The properties of the directory *)

(** C1. [merge_blocks] implements the abstract merge: on a list in memory
    whose headers are in address order, merging a block with its successor
    returns the block, leaves in memory the list in which [merge_abs]
    replaces the two, still in address order, and writes nothing but the
    first three fields of the block and the [prev] of the block after its
    successor. *)
Theorem merge_blocks_repr s pre b1 b2 post :
  state_ok s -> sorted (pre ++ b1 :: b2 :: post) -> repr s (pre ++ b1 :: b2 :: post) ->
  exists s', merge_blocks (b_addr b1) (b_addr b2) s = Ok (b_addr b1, s') /\
             repr s' (pre ++ merge_abs b1 b2 :: post) /\
             sorted (pre ++ merge_abs b1 b2 :: post) /\
             frame s s' (merge_touch b1 post).
Proof.
  intros Hok Hs Hr. destruct (merge_blocks_list s pre b1 b2 post Hok Hs Hr) as (s' & ? & ? & ?).
  exists s'. split_and!; [done..|by apply merge_abs_sorted|done].
Qed.

(** Below the floor [split_block] is a no-op: when the remainder
    [size - new_size - sizeof(header)], computed in [size_t], is less than
    [MIN_BLOCK_SIZE], it returns [NULL] and the state is unchanged, so the
    list in memory is the same. *)
Theorem split_block_small s bs pre b rest new_size :
  repr s bs -> bs = pre ++ b :: rest -> ~ splittable (b_size b) new_size ->
  split_block (b_addr b) new_size s = Ok (NULL, s).
Proof.
  intros Hr -> Hsp. apply repr_at in Hr as [_ Hb].
  by apply (split_block_skip s _ _ new_size Hb).
Qed.

(** C35. [split_block] dereferences [NULL] on the last block of the list:
    when the block is large enough to be split and the new header lies in
    the heap above the block's header, the store to
    [(header->next)->prev] faults at [NULL + 8]. *)
Theorem split_block_tail_faults s pre b new_size :
  state_ok s -> repr s (pre ++ [b]) -> splittable (b_size b) new_size ->
  before b (split_abs b new_size) ->
  valid s (b_addr (split_abs b new_size)) SIZEOF_HEADER ->
  split_block (b_addr b) new_size s = Fault (NULL + OFF_PREV).
Proof.
  intros Hok Hr Hsp Hlo Hv. apply repr_at in Hr as [_ Hb].
  by apply (split_block_null s _ _ new_size Hok Hb).
Qed.

(** C2. [split_block] implements the abstract split: on a list in memory
    in address order, when the block is large enough and the new header
    falls between the block's header and its successor's, the call returns
    the new header and leaves in memory the list, still in address order,
    with [split_abs] inserted after the block.  The block itself keeps its
    size. *)
Theorem split_block_repr s pre b b3 post new_size :
  state_ok s -> sorted (pre ++ b :: b3 :: post) -> repr s (pre ++ b :: b3 :: post) ->
  splittable (b_size b) new_size ->
  before b (split_abs b new_size) -> before (split_abs b new_size) b3 ->
  exists s', split_block (b_addr b) new_size s = Ok (b_addr (split_abs b new_size), s') /\
             repr s' (pre ++ b :: split_abs b new_size :: b3 :: post) /\
             sorted (pre ++ b :: split_abs b new_size :: b3 :: post) /\
             frame s s' (split_touch (b_addr b) new_size (b_addr b3)).
Proof.
  intros Hok Hs Hr Hsp Hlo Hhi.
  destruct (split_block_list s pre b b3 post new_size Hok Hs Hr Hsp Hlo Hhi) as (s' & ? & ? & ?).
  exists s'. split_and!; [done..| |done]. by apply split_abs_sorted.
Qed.

(** [walk] reads back the list that is in memory: following [next]
    from [first] with more fuel than blocks returns exactly the blocks of
    the directory, so a state represents at most one list. *)
Theorem walk_repr s bs fuel :
  repr s bs -> (length bs < fuel)%nat -> walk fuel s (s_first s) = Some bs.
Proof. intros [-> Hs] Hf. by eapply walk_seg. Qed.

End DirectoryProofs.

#[export] Hint Resolve keeps_merge_blocks keeps_split_block : keeps.

(** ** Laying out a list

    [lay] is the inverse of reading: the headers it writes are the list. *)

Lemma put_header_out h hd (m : gmap Z Z) a :
  a < h \/ h + SIZEOF_HEADER <= a -> load_byte (put_header h hd m) a = load_byte m a.
Proof. intros Ha. unfold put_header. rewrite !load_byte_store_le_out by mod_lia. done. Qed.

Lemma rd_put_header h hd (m : gmap Z Z) :
  is_size (h_next hd) -> is_size (h_prev hd) -> is_size (h_size hd) -> 0 <= h_free hd < 256 ->
  rd_header (put_header h hd m) h = hd.
Proof.
  intros Hn Hp Hs Hf. destruct hd as [nx pv sz fr]. cbn [h_next h_prev h_size h_free] in *.
  unfold rd_header, rd_next, rd_prev, rd_size, rd_free, put_header.
  cbn [h_next h_prev h_size h_free]. mem_simpl. rewrite !wrap_small by done.
  by rewrite Z.mod_small by done.
Qed.

Lemma lay_seg `{HeapRegion R} (r : R) (m : gmap Z Z) f pv bs nx :
  region_ok r -> sorted bs -> storable r bs -> is_size pv -> is_size nx ->
  seg (State (foldr (fun c => put_header c.1 c.2) m (cells pv bs nx)) r f) pv bs nx.
Proof.
  intros Hok. pose proof (region_ok_bounds _ Hok) as Hb. revert pv.
  induction bs as [|b bs IH]; intros pv Hs Hst Hpv Hnx; [apply seg_nil|].
  apply sorted_cons_inv in Hs as [Hs Hbs]. apply Forall_cons in Hst as [(? & ? & ? & ?) Hst].
  cbn [cells foldr fst snd]. apply seg_cons. split; [mod_lia|]. split.
  - split; [done|]. cbn [s_mem]. apply rd_put_header; cbn [h_next h_prev h_size h_free]; try done.
    destruct bs as [|b' bs']; [done|]. apply Forall_cons in Hst as [(? & ? & _) _]. cbn. mod_lia.
  - eapply (seg_move _ _ (fun a => b_addr b <= a < b_addr b + SIZEOF_HEADER));
      [| |apply (IH (b_addr b)); [done..|mod_lia|done]].
    + intros a Ha. cbn [s_mem]. apply put_header_out. lia.
    + apply Forall_forall. intros x Hx. rewrite Forall_forall in Hbs, Hst.
      destruct (Hst x Hx) as (? & ? & _). specialize (Hbs x Hx). unfold before in Hbs.
      split; [done|]. intros a Ha. lia.
Qed.

(** Every list of blocks in address order whose headers lie in the
    heap can be laid out: after [lay] writes its headers into any memory,
    the state with [first] at its head represents the list. *)
Theorem lay_repr `{HeapRegion R} (r : R) (m : gmap Z Z) bs :
  region_ok r -> sorted bs -> storable r bs ->
  repr (State (lay bs m) r (head_addr bs NULL)) bs.
Proof. intros Hok Hs Hst. split; [done|]. by apply lay_seg. Qed.

(** ** The demonstration heap *)

Lemma demo_ok : state_ok demo.
Proof. apply (bool_decide_unpack _). by vm_compute. Qed.

Lemma demo_repr : repr demo demo_blocks.
Proof. apply (bool_decide_unpack _). by vm_compute. Qed.

Lemma demo_sorted : sorted demo_blocks.
Proof. apply (bool_decide_unpack _). by vm_compute. Qed.

Lemma demo_tiled : tiled demo_blocks.
Proof. apply (bool_decide_unpack _). by vm_compute. Qed.

Lemma merge_blocks_repr_witness :
  exists s', merge_blocks 4096 4168 demo = Ok (4096, s') /\
             repr s' [Block 4096 172 1; Block 4300 32 0] /\
             sorted [Block 4096 172 1; Block 4300 32 0] /\
             frame demo s' (merge_touch (Block 4096 40 1) [Block 4300 32 0]).
Proof.
  exact (merge_blocks_repr demo [] (Block 4096 40 1) (Block 4168 100 1) [Block 4300 32 0]
           demo_ok demo_sorted demo_repr).
Defined.

Lemma split_block_small_witness :
  split_block 4096 32 demo = Ok (NULL, demo).
Proof.
  apply (split_block_small demo demo_blocks [] (Block 4096 40 1)
           [Block 4168 100 1; Block 4300 32 0] 32 demo_repr eq_refl).
  apply (bool_decide_unpack _). by vm_compute.
Defined.

Lemma split_block_tail_faults_witness :
  split_block 4300 100 (upd_reg (SimRegion 4096 8192 8192) demo) = Fault 8.
Proof.
  apply (split_block_tail_faults (upd_reg (SimRegion 4096 8192 8192) demo)
           [Block 4096 40 1; Block 4168 100 1] (Block 4300 32 0) 100);
    apply (bool_decide_unpack _); by vm_compute.
Defined.

Lemma split_abs_untiled_witness :
  b_addr (split_abs (Block 4168 100 1) 32) < b_end (Block 4168 100 1) /\
  b_end (split_abs (Block 4168 100 1) 32) = 4300 + (SIZEOF_HEADER - SIZEOF_PTR) /\
  ~ tiled [Block 4168 100 1; split_abs (Block 4168 100 1) 32; Block 4300 32 0].
Proof.
  apply (split_abs_untiled (Block 4168 100 1) (Block 4300 32 0) 32);
    apply (bool_decide_unpack _); by vm_compute.
Defined.

Lemma split_block_repr_witness :
  exists s', split_block 4168 32 demo = Ok (4232, s') /\
             repr s' [Block 4096 40 1; Block 4168 100 1; Block 4232 60 1; Block 4300 32 0] /\
             sorted [Block 4096 40 1; Block 4168 100 1; Block 4232 60 1; Block 4300 32 0] /\
             frame demo s' (split_touch 4168 32 4300).
Proof.
  apply (split_block_repr demo [Block 4096 40 1] (Block 4168 100 1) (Block 4300 32 0) [] 32
           demo_ok demo_sorted demo_repr);
    apply (bool_decide_unpack _); by vm_compute.
Defined.

Lemma walk_repr_witness : walk 4 demo (s_first demo) = Some demo_blocks.
Proof. apply (walk_repr demo demo_blocks 4 demo_repr). apply (bool_decide_unpack _). by vm_compute. Defined.

Lemma lay_repr_witness : repr (State (lay demo_blocks ∅) (SimRegion 4096 4364 8192) 4096) demo_blocks.
Proof.
  refine (lay_repr (SimRegion 4096 4364 8192) ∅ demo_blocks _ _ _);
    apply (bool_decide_unpack _); by vm_compute.
Defined.
