(* ===== verification/Alloc.v ===== *)
(** * The Allocator: [malloc]

    [malloc] of [src/dynalloc.c]: the loop that merges a free block with
    the free blocks after it ([merge_run]), the first-fit scan of the list
    ([malloc_scan]) and the extension of the heap when nothing fits
    ([malloc_extend]).  On the abstract side [coalesce] is what the merging
    loop computes on a list of blocks.  The theorems give the behaviour of
    each path and the fuel that is enough. *)

From Stdlib Require Import ZArith Lia.
From stdpp Require Import prelude sorting gmap.
From S2P Require Import Prelude.
From S2P Require Import Memory.
From S2P Require Import Region.
From S2P Require Import Machine.
From S2P Require Import Directory.

#[local] Open Scope Z_scope.

(** ** The abstract side *)

(** The request after [if(size < MIN_BLOCK_SIZE) size = MIN_BLOCK_SIZE]. *)
Definition clamp (size : Z) : Z :=
  if decide (size < MIN_BLOCK_SIZE) then MIN_BLOCK_SIZE else size.

(** Merging [b] with the blocks after it while both are free. *)
Fixpoint coalesce (b : block) (rest : list block) : block * list block :=
  match rest with
  | [] => (b, [])
  | n :: rest' =>
      if decide (b_free b = 0) then (b, rest)
      else if decide (b_free n = 0) then (b, rest)
      else coalesce (merge_abs b n) rest'
  end.

(** [b] is free and large enough for [size] bytes. *)
Definition fits (size : Z) (b : block) : Prop := b_free b <> 0 /\ size <= b_size b.

#[export] Instance fits_dec size b : Decision (fits size b).
Proof. unfold fits. apply _. Defined.

(** The block with its free flag cleared. *)
Definition taken (b : block) : block := Block (b_addr b) (b_size b) 0.

(** How the scan of [malloc] ends: at a block that fits, with the list
    around it, or at the end of the list. *)
Inductive outcome : Type :=
| Fit (pre : list block) (b : block) (rest : list block)
| NoFit (bs : list block).

#[export] Instance outcome_eq_dec : EqDecision outcome.
Proof. solve_decision. Defined.

(** The first-fit scan with lazy coalescing, on a list of blocks: [cur] is
    the block under examination, [pre] the blocks already passed, [rest]
    the blocks to come.  Each step either merges the next block into
    [cur] (both free), or stops at [cur] (it fits), or moves on. *)
Fixpoint first_fit (size : Z) (pre : list block) (cur : block) (rest : list block) : outcome :=
  match rest with
  | [] => if decide (fits size cur) then Fit pre cur [] else NoFit (pre ++ [cur])
  | n :: rest' =>
      if decide (b_free cur <> 0 /\ b_free n <> 0)
      then first_fit size pre (merge_abs cur n) rest'
      else if decide (fits size cur) then Fit pre cur rest
      else first_fit size (pre ++ [cur]) n rest'
  end.

Definition find_fit (size : Z) (bs : list block) : outcome :=
  match bs with
  | [] => NoFit []
  | b :: rest => first_fit size [] b rest
  end.

(** The list after the scan. *)
Definition scanned (o : outcome) : list block :=
  match o with
  | Fit pre b rest => pre ++ b :: rest
  | NoFit bs => bs
  end.

Section Alloc.
Context `{HeapRegion R}.

(** ** The source *)

(** The inner loop: [while(1) if(curr->free && curr->next != NULL &&
    (curr->next)->free) curr = merge_blocks(curr, curr->next); else
    break;]. *)
Fixpoint merge_run (fuel : nat) (curr : Z) : M (state R) Z :=
  match fuel with
  | O => out_of_fuel
  | S f =>
      fr ← get_free curr;
      if decide (fr = 0) then mret curr
      else
        nx ← get_next curr;
        if decide (nx = NULL) then mret curr
        else
          nx' ← get_next curr;
          nf ← get_free nx';
          if decide (nf = 0) then mret curr
          else
            nx'' ← get_next curr;
            curr' ← merge_blocks curr nx'';
            merge_run f curr'
  end.

(** No fit: extend the heap and initialise a new block. *)
Definition malloc_extend (size last : Z) : M (state R) Z :=
  new_block ← sys_sbrk (wrap (size + SIZEOF_HEADER));
  set_prev new_block last;;
  set_next new_block NULL;;
  set_size new_block size;;
  set_free new_block 0;;
  f ← get_first;
  (if decide (f = NULL) then set_first new_block else mret tt);;
  mret (data_of new_block).

(** A fit: split off the excess, mark the block in use, return its data. *)
Definition take_block (curr size : Z) : M (state R) Z :=
  split_block curr size;;
  set_free curr 0;;
  mret (data_of curr).

(** The outer loop, from [curr], with [last] the block visited before. *)
Fixpoint malloc_scan (fuel : nat) (size curr last : Z) : M (state R) Z :=
  match fuel with
  | O => out_of_fuel
  | S f =>
      if decide (curr = NULL) then malloc_extend size last
      else
        curr ← merge_run (S f) curr;
        let continue := nx ← get_next curr; malloc_scan f size nx curr in
        fr ← get_free curr;
        if decide (fr = 0) then continue
        else
          sz ← get_size curr;
          if decide (size <= sz) then take_block curr size else continue
  end.

Definition malloc (fuel : nat) (size : Z) : M (state R) Z :=
  curr ← get_first;
  malloc_scan fuel (clamp size) curr NULL.

End Alloc.

(** ** Heaps to run on *)

(** The state before the first call, on a simulated segment at 4096 that
    may grow by 4096 bytes. *)
Definition fresh : state sim_region := init (sim_init 4096 4096).

(** One free block of 200 bytes, the whole heap. *)
Definition lone_blocks : list block := [Block 4096 200 1].

Definition lone : state sim_region :=
  State (lay lone_blocks ∅) (SimRegion 4096 4328 8192) 4096.

(** ** The abstract coalescing *)

Lemma coalesce_addr b rest : b_addr (coalesce b rest).1 = b_addr b.
Proof.
  revert b. induction rest as [|n rest IH]; intros b; [done|]. cbn.
  repeat case_decide; [done..|]. by rewrite IH.
Qed.

Lemma coalesce_free b rest : b_free (coalesce b rest).1 = b_free b.
Proof.
  revert b. induction rest as [|n rest IH]; intros b; [done|]. cbn.
  repeat case_decide; [done..|]. by rewrite IH.
Qed.

(** What is left after coalescing is a suffix of the list. *)
Lemma coalesce_suffix b rest : (coalesce b rest).2 `suffix_of` rest.
Proof.
  revert b. induction rest as [|n rest IH]; intros b; [done|]. cbn.
  repeat case_decide; [done..|]. by apply suffix_cons_r.
Qed.

Lemma coalesce_length b rest : (length (coalesce b rest).2 <= length rest)%nat.
Proof. apply suffix_length, coalesce_suffix. Qed.

(** After coalescing, the block and the one after it are not both free. *)
Lemma coalesce_stops b rest n rest' :
  (coalesce b rest).2 = n :: rest' -> b_free b = 0 \/ b_free n = 0.
Proof.
  revert b. induction rest as [|x rest IH]; intros b; [done|]. cbn.
  repeat case_decide; cbn; [intros [= -> ->]; auto..|].
  intros E. apply IH in E as [E|E]; [|by right]. cbn in E. by left.
Qed.

Lemma coalesce_sorted pre b rest :
  sorted (pre ++ b :: rest) -> sorted (pre ++ (coalesce b rest).1 :: (coalesce b rest).2).
Proof.
  revert b. induction rest as [|n rest IH]; intros b Hs; [done|]. cbn.
  repeat case_decide; [done..|]. by apply IH, merge_abs_sorted.
Qed.

(** Coalescing keeps the geometry of the directory: on a tiled
    list of blocks that lie in a range of addresses that fit a [size_t],
    the result of merging the free blocks after a free block is tiled and
    lies in the same range. *)
Theorem coalesce_tiled lo hi pre b rest :
  0 <= lo -> hi <= SIZE_MOD -> within lo hi (pre ++ b :: rest) ->
  tiled (pre ++ b :: rest) ->
  tiled (pre ++ (coalesce b rest).1 :: (coalesce b rest).2) /\
  within lo hi (pre ++ (coalesce b rest).1 :: (coalesce b rest).2).
Proof.
  intros Hlo Hhi. revert b. induction rest as [|n rest IH]; intros b Hw Ht; [done|]. cbn.
  repeat case_decide; [done..|].
  assert (adjacent b n) as Ha.
  { apply Sorted_app_r in Ht. apply Sorted_inv in Ht as [_ Hh]. by inv Hh. }
  apply IH; [by apply merge_abs_within|]. apply merge_abs_tiled; [|done].
  unfold within in Hw. rewrite Forall_app, !Forall_cons in Hw.
  unfold adjacent, b_end in *. mod_lia.
Qed.

(** The scan, one visited block at a time: coalesce, then stop or move
    on. *)
Lemma first_fit_coalesce size pre b rest :
  first_fit size pre b rest =
  let '(b', rest') := coalesce b rest in
  if decide (fits size b') then Fit pre b' rest'
  else match rest' with
       | [] => NoFit (pre ++ [b'])
       | n :: r => first_fit size (pre ++ [b']) n r
       end.
Proof.
  revert b. induction rest as [|n rest IH]; intros b; [done|]. cbn.
  destruct (decide (b_free b = 0)); [rewrite decide_False by tauto; done|].
  destruct (decide (b_free n = 0)); [rewrite decide_False by tauto; done|].
  rewrite decide_True by done. apply IH.
Qed.

(** The scan only rearranges by merging: it keeps the address order. *)
Lemma first_fit_sorted size pre b rest :
  sorted (pre ++ b :: rest) -> sorted (scanned (first_fit size pre b rest)).
Proof.
  revert pre b. induction rest as [|n rest IH]; intros pre b Hs; cbn.
  { by case_decide. }
  repeat case_decide; [by apply IH, merge_abs_sorted|done|].
  apply IH. by rewrite <- app_assoc.
Qed.

(** The block the scan stops at fits the request. *)
Lemma first_fit_fits size pre b rest pre' b' rest' :
  first_fit size pre b rest = Fit pre' b' rest' -> fits size b'.
Proof.
  revert pre b. induction rest as [|n rest IH]; intros pre b; cbn;
    repeat case_decide; try done; try (intros [= <- <- <-]; done); apply IH.
Qed.

(** The blocks the scan passed before it stopped did not fit. *)
Lemma first_fit_passed size pre b rest pre' b' rest' :
  first_fit size pre b rest = Fit pre' b' rest' ->
  exists mid, pre' = pre ++ mid /\ Forall (fun x => ~ fits size x) mid.
Proof.
  revert pre b. induction rest as [|n rest IH]; intros pre b; cbn;
    repeat case_decide; try done; try (intros [= <- <- <-]; exists []; by rewrite app_nil_r);
    [apply IH|].
  intros (mid & -> & ?)%IH. exists (b :: mid). rewrite <- app_assoc. by split; [|constructor].
Qed.

Lemma clamp_bounds size : MIN_BLOCK_SIZE <= clamp size /\ size <= clamp size.
Proof. unfold clamp. case_decide; lia. Qed.

(** When the scan falls off the list, no block of the coalesced list fits. *)
Lemma first_fit_none size pre b rest bs :
  first_fit size pre b rest = NoFit bs ->
  exists bs', bs = pre ++ bs' /\ bs' <> [] /\ Forall (fun x => ~ fits size x) bs'.
Proof.
  revert pre b. induction rest as [|n rest IH]; intros pre b; cbn.
  { case_decide; [done|]. intros [= <-]. exists [b]. by repeat constructor. }
  repeat case_decide; [apply IH|done|].
  intros (bs' & -> & ? & ?)%IH. exists (b :: bs'). rewrite <- app_assoc.
  split_and!; [done..|by constructor].
Qed.

Section AllocProofs.
Context `{HeapRegion R}.
Implicit Types (s : state R) (bs pre post rest : list block) (b n : block).

(** ** The coalescing loop *)

(** The inner loop of [malloc] computes [coalesce]. *)
Lemma merge_run_list s pre b rest fuel :
  state_ok s -> sorted (pre ++ b :: rest) -> repr s (pre ++ b :: rest) ->
  (length rest < fuel)%nat ->
  exists s', merge_run fuel (b_addr b) s = Ok (b_addr b, s') /\
             repr s' (pre ++ (coalesce b rest).1 :: (coalesce b rest).2) /\
             frame s s' (in_headers (b :: rest)).
Proof.
  revert s b fuel. induction rest as [|n rest IH]; intros s b fuel Hok Hs Hr Hf;
    (destruct fuel as [|f]; [cbn in Hf; lia|]); cbn [merge_run coalesce];
    pose proof (proj2 (repr_at _ _ _ _ Hr)) as Hb; rewrite (run_get_free _ _ _ _ Hb);
    cbn [h_free h_next head_addr].
  { exists s. case_decide; [done|].
    by rewrite (run_get_next _ _ _ _ Hb), decide_True. }
  case_decide; [by exists s|].
  destruct (repr_next _ _ _ _ _ Hr) as [Hne Hn].
  rewrite !(run_get_next _ _ _ _ Hb). cbn [h_free h_next head_addr].
  rewrite decide_False by done. rewrite (run_get_next _ _ _ _ Hb).
  rewrite (run_get_free _ _ _ _ Hn). cbn [h_free h_next head_addr].
  case_decide; [by exists s|]. rewrite (run_get_next _ _ _ _ Hb). cbn [h_next].
  destruct (merge_blocks_list s pre b n rest Hok Hs Hr) as (s1 & Hrun & Hr1 & Hf1).
  rewrite (bind_ok _ _ _ _ _ Hrun).
  destruct (IH s1 (merge_abs b n) f) as (s' & Hrun' & Hr' & Hf');
    [by eapply frame_state_ok|by apply merge_abs_sorted|done|cbn in Hf; lia|].
  exists s'. split; [done|]. split; [done|].
  eapply frame_weaken; [|by eapply frame_trans].
  intros a [Ha|Ha]; [by apply merge_touch_in_headers in Ha; apply Exists_cons in Ha as [?|?];
    [apply Exists_cons_hd|do 2 apply Exists_cons_tl]|by apply in_headers_merge].
Qed.

(** ** The scan *)

Lemma in_headers_suffix l1 l2 a : l1 `suffix_of` l2 -> in_headers l1 a -> in_headers l2 a.
Proof. intros [k ->]. unfold in_headers. rewrite Exists_app. auto. Qed.

(** One iteration of the outer loop: coalesce at [b], then take the block
    or move to the next one. *)
Lemma malloc_scan_step s pre b rest f size last :
  state_ok s -> sorted (pre ++ b :: rest) -> repr s (pre ++ b :: rest) ->
  (length rest <= f)%nat ->
  exists s1, frame s s1 (in_headers (b :: rest)) /\
    repr s1 (pre ++ (coalesce b rest).1 :: (coalesce b rest).2) /\
    malloc_scan (S f) size (b_addr b) last s =
      if decide (fits size (coalesce b rest).1)
      then take_block (b_addr b) size s1
      else malloc_scan f size (head_addr (coalesce b rest).2 NULL) (b_addr b) s1.
Proof.
  intros Hok Hs Hr Hf. cbn [malloc_scan].
  rewrite decide_False by apply (repr_at _ _ _ _ Hr).
  destruct (merge_run_list s pre b rest (S f) Hok Hs Hr) as (s1 & Hrun & Hr1 & Hf1); [lia|].
  exists s1. split; [done|]. split; [done|]. rewrite (bind_ok _ _ _ _ _ Hrun).
  pose proof (proj2 (repr_at _ _ _ _ Hr1)) as Hb. rewrite coalesce_addr in Hb.
  rewrite (run_get_free _ _ _ _ Hb). cbn [h_free h_size h_next]. unfold fits.
  destruct (decide (b_free (coalesce b rest).1 = 0)).
  { rewrite decide_False by tauto. by rewrite (run_get_next _ _ _ _ Hb). }
  rewrite (run_get_size _ _ _ _ Hb). cbn [h_free h_size h_next].
  destruct (decide (size <= b_size (coalesce b rest).1)).
  { by rewrite decide_True. }
  rewrite decide_False by tauto. by rewrite (run_get_next _ _ _ _ Hb).
Qed.

(** The outer loop of [malloc] computes [first_fit]: with more fuel than
    blocks, it reaches either the code that takes the block the abstract
    scan stops at, or the extension of the heap, in a state whose list is
    the scanned list. *)
Lemma malloc_scan_list s pre b rest fuel size last :
  state_ok s -> sorted (pre ++ b :: rest) -> repr s (pre ++ b :: rest) ->
  (S (length rest) < fuel)%nat ->
  exists s1, frame s s1 (in_headers (b :: rest)) /\
    repr s1 (scanned (first_fit size pre b rest)) /\
    malloc_scan fuel size (b_addr b) last s =
      match first_fit size pre b rest with
      | Fit pre' b' rest' => take_block (b_addr b') size s1
      | NoFit bs => malloc_extend size (last_addr NULL bs) s1
      end.
Proof.
  revert s pre b rest last.
  induction fuel as [|f IH]; intros s pre b rest last Hok Hs Hr Hf; [lia|].
  destruct (malloc_scan_step s pre b rest f size last Hok Hs Hr) as (s1 & Hf1 & Hr1 & ->); [lia|].
  rewrite first_fit_coalesce. pose proof (coalesce_sorted _ _ _ Hs) as Hs1.
  pose proof (coalesce_suffix b rest) as Hsuf. pose proof (coalesce_addr b rest) as Ha.
  destruct (coalesce b rest) as [b' rest']. cbn [fst snd] in *.
  case_decide; [exists s1; by rewrite Ha|].
  destruct rest' as [|n r]; cbn [head_addr].
  { exists s1. split; [done|]. split; [done|].
    destruct f as [|f]; [cbn in Hf; lia|]. cbn [malloc_scan].
    by rewrite decide_True, last_addr_snoc, Ha. }
  rewrite (cons_middle b' pre), app_assoc in Hs1, Hr1.
  destruct (IH s1 (pre ++ [b']) n r (b_addr b)) as (s2 & Hf2 & Hr2 & ->);
    [by eapply frame_state_ok|done..| |].
  { apply suffix_length in Hsuf. cbn in Hsuf. lia. }
  exists s2. split; [|done].
  eapply frame_weaken; [|by eapply frame_trans].
  intros a [Hx|Hx]; [done|]. apply Exists_cons_tl. by apply (in_headers_suffix (n :: r)).
Qed.

(** [malloc] is the scan from [first]. *)
Lemma malloc_list s bs fuel size :
  state_ok s -> sorted bs -> repr s bs -> (length bs < fuel)%nat ->
  exists s1, frame s s1 (in_headers bs) /\
    repr s1 (scanned (find_fit (clamp size) bs)) /\
    sorted (scanned (find_fit (clamp size) bs)) /\
    malloc fuel size s =
      match find_fit (clamp size) bs with
      | Fit pre' b' rest' => take_block (b_addr b') (clamp size) s1
      | NoFit bs' => malloc_extend (clamp size) (last_addr NULL bs') s1
      end.
Proof.
  intros Hok Hs Hr Hf. unfold malloc. rewrite run_get_first, (proj1 Hr).
  destruct bs as [|b rest]; cbn [find_fit head_addr scanned].
  { exists s. destruct fuel; [cbn in Hf; lia|]. cbn [malloc_scan].
    by rewrite decide_True. }
  destruct (malloc_scan_list s [] b rest fuel (clamp size) NULL Hok Hs Hr) as (s1 & ? & ? & ->);
    [cbn in Hf; lia|].
  exists s1. split_and!; [done..| |done]. by apply (first_fit_sorted _ []).
Qed.

(** ** Taking a block *)

Lemma data_of_valid s h k : state_ok s -> valid s h k -> 0 <= k -> data_of h = h + SIZEOF_HEADER.
Proof.
  intros Hok Hv Hk. pose proof (valid_bounds _ _ _ Hok Hv). unfold data_of.
  apply wrap_small. mod_lia.
Qed.

(** The block is too small to be split: it is handed out whole. *)
Lemma take_block_whole s pre b rest size :
  state_ok s -> sorted (pre ++ b :: rest) -> repr s (pre ++ b :: rest) ->
  ~ splittable (b_size b) size ->
  exists s', take_block (b_addr b) size s = Ok (b_addr b + SIZEOF_HEADER, s') /\
             repr s' (pre ++ taken b :: rest) /\
             frame s s' (fun a => a = b_addr b + OFF_FREE).
Proof.
  intros Hok Hs Hr Hsp. unfold take_block.
  pose proof (proj2 (repr_at _ _ _ _ Hr)) as Hb.
  rewrite (bind_ok _ _ _ _ _ (split_block_skip s _ _ size Hb Hsp)).
  destruct (set_free_list s pre b rest 0 Hs Hr) as (s' & Hrun & Hr' & Hf'); [lia|].
  rewrite (bind_ok _ _ _ _ _ Hrun). exists s'. split; [|done]. cbn.
  by rewrite (data_of_valid s _ _ Hok (proj1 Hb)) by (unfold SIZEOF_HEADER; lia).
Qed.

(** The block is split and its first part handed out. *)
Lemma take_block_split s pre b n rest size :
  state_ok s -> sorted (pre ++ b :: n :: rest) -> repr s (pre ++ b :: n :: rest) ->
  splittable (b_size b) size ->
  before b (split_abs b size) -> before (split_abs b size) n ->
  exists s', take_block (b_addr b) size s = Ok (b_addr b + SIZEOF_HEADER, s') /\
             repr s' (pre ++ taken b :: split_abs b size :: n :: rest) /\
             frame s s' (fun a => split_touch (b_addr b) size (b_addr n) a \/
                                  a = b_addr b + OFF_FREE).
Proof.
  intros Hok Hs Hr Hsp Hlo Hhi. unfold take_block.
  pose proof (proj2 (repr_at _ _ _ _ Hr)) as Hb.
  destruct (split_block_list s pre b n rest size Hok Hs Hr Hsp Hlo Hhi) as (s1 & Hrun & Hr1 & Hf1).
  rewrite (bind_ok _ _ _ _ _ Hrun).
  destruct (set_free_list s1 pre b (split_abs b size :: n :: rest) 0) as (s' & Hrun' & Hr' & Hf');
    [by apply split_abs_sorted|done|lia|].
  rewrite (bind_ok _ _ _ _ _ Hrun'). exists s'.
  split; [|split; [done|by eapply frame_trans]]. cbn.
  by rewrite (data_of_valid s _ _ Hok (proj1 Hb)) by (unfold SIZEOF_HEADER; lia).
Qed.

(** The block is the last one: the split stores through [NULL]. *)
Lemma take_block_tail s pre b size :
  state_ok s -> repr s (pre ++ [b]) -> splittable (b_size b) size ->
  before b (split_abs b size) -> valid s (b_addr (split_abs b size)) SIZEOF_HEADER ->
  take_block (b_addr b) size s = Fault (NULL + OFF_PREV).
Proof.
  intros Hok Hr Hsp Hlo Hv. unfold take_block. apply bind_fault.
  pose proof (proj2 (repr_at _ _ _ _ Hr)) as Hb.
  by apply (split_block_null s _ _ size Hok Hb).
Qed.

(** ** Extending the heap *)

(** The heap grows by the block and its header, and the new block is
    initialised; it becomes [first] only when there was none. *)
Lemma malloc_extend_run s size last :
  state_ok s -> 0 <= size -> size + SIZEOF_HEADER < SIZE_HALF -> is_size last ->
  fst (sbrk (size + SIZEOF_HEADER) (s_reg s)) <> SBRK_FAILED ->
  exists s', malloc_extend size last s = Ok (heap_hi (s_reg s) + SIZEOF_HEADER, s') /\
    s_reg s' = snd (sbrk (size + SIZEOF_HEADER) (s_reg s)) /\
    state_ok s' /\ heap_lo (s_reg s') = heap_lo (s_reg s) /\
    heap_hi (s_reg s') = heap_hi (s_reg s) + SIZEOF_HEADER + size /\
    s_first s' = (if decide (s_first s = NULL) then heap_hi (s_reg s) else s_first s) /\
    hdr_at s' (heap_hi (s_reg s)) (mkHeader NULL last size 0) /\
    same_bytes (fun a => heap_hi (s_reg s) <= a < heap_hi (s_reg s) + OFF_FREE + 1)
      (s_mem s) (s_mem s').
Proof.
  intros Hok Hsz Hhalf Hlast Hne. unfold malloc_extend.
  destruct (run_sbrk_ok s (wrap (size + SIZEOF_HEADER)) (size + SIZEOF_HEADER)
              (fun new_block => set_prev new_block last;; set_next new_block NULL;;
                 set_size new_block size;; set_free new_block 0;; f ← get_first;
                 (if decide (f = NULL) then set_first new_block else mret tt);;
                 mret (data_of new_block)) Hok)
    as (r' & Hreg & Hok' & Hlo & Hhi & ->); [mod_lia|done|]. clear Hne.
  pose proof (region_ok_bounds _ Hok). pose proof (region_ok_bounds _ Hok').
  destruct (init_header_run (upd_reg r' s) (heap_hi (s_reg s)) NULL last size 0
    (f ← get_first; (if decide (f = NULL) then set_first (heap_hi (s_reg s)) else mret tt);;
                    mret (data_of (heap_hi (s_reg s))))) as (s' & -> & (Hr & Hf & Hm) & Hh);
    [done|solve_valid|mod_lia..|].
  rewrite run_get_first, (data_of_valid s' (heap_hi (s_reg s)) SIZEOF_HEADER);
    [|by unfold state_ok; rewrite Hr|apply Hh|done].
  cbn [s_reg s_first upd_reg] in Hr, Hf. rewrite Hf.
  case_decide; (eexists; split; [reflexivity|]);
    unfold state_ok; cbn [s_reg s_first s_mem upd_first];
    rewrite Hr; (split; [done|]); (split; [done|]); (split; [done|]); (split; [lia|]);
    (split; [done|]); (split; [exact Hh|exact Hm]).
Qed.

(** [sbrk] refused: the failure value is used as the new header, and the
    first store faults. *)
Lemma malloc_extend_failed s size last :
  state_ok s -> 0 <= size -> size + SIZEOF_HEADER < SIZE_HALF ->
  fst (sbrk (size + SIZEOF_HEADER) (s_reg s)) = SBRK_FAILED ->
  malloc_extend size last s = Fault (SBRK_FAILED + OFF_PREV).
Proof.
  intros Hok Hsz Hhalf E. unfold malloc_extend.
  rewrite (run_sbrk_failed s _ (size + SIZEOF_HEADER)); [|done|mod_lia|done]. clear E.
  pose proof (region_ok_bounds _ Hok). unfold set_prev.
  rewrite run_store_fault; [done|solve_valid].
Qed.

(** The same on a list in memory.  The new header records the last block
    as its [prev], but no [next] field is made to point to it: the list
    from [first] gains the new block only when it was empty. *)
Lemma malloc_extend_list s bs size :
  state_ok s -> repr s bs -> 0 <= size -> size + SIZEOF_HEADER < SIZE_HALF ->
  fst (sbrk (size + SIZEOF_HEADER) (s_reg s)) <> SBRK_FAILED ->
  exists s', malloc_extend size (last_addr NULL bs) s = Ok (heap_hi (s_reg s) + SIZEOF_HEADER, s') /\
    state_ok s' /\
    repr s' (if decide (bs = []) then [Block (heap_hi (s_reg s)) size 0] else bs) /\
    hdr_at s' (heap_hi (s_reg s)) (mkHeader NULL (last_addr NULL bs) size 0) /\
    heap_hi (s_reg s') = heap_hi (s_reg s) + SIZEOF_HEADER + size /\
    s_reg s' = snd (sbrk (size + SIZEOF_HEADER) (s_reg s)).
Proof.
  intros Hok Hr Hsz Hhalf Hne. pose proof (last_addr_size s bs Hok Hr) as Hlast.
  destruct (malloc_extend_run s size _ Hok Hsz Hhalf Hlast Hne)
    as (s' & Hrun & Hreg & Hok' & Hlo & Hhi & Hf & Hh & Hm).
  exists s'. split_and!; [done..| |done|done|done]. destruct Hr as [Hfst Hseg].
  pose proof (region_ok_bounds _ Hok). rewrite Hfst in Hf.
  destruct bs as [|b bs]; cbn [head_addr] in *.
  { rewrite decide_True in * by done. split; [done|]. apply seg_cons.
    split_and!; [cbn; mod_lia|done|apply seg_nil]. }
  pose proof (proj1 (proj1 (seg_cons _ _ _ _ _) Hseg)) as Hb.
  rewrite !decide_False in * by done. split; [done|].
  apply (seg_move s s' _ _ _ _ Hm); [|done]. apply Forall_forall. intros x Hx.
  pose proof (seg_valid _ _ _ _ _ Hseg Hx) as Hv. unfold avoids, valid in *. clear Hrun Hh Hm Hreg. split; [mod_lia|intros a Ha; lia].
Qed.

(** ** The two ways out of the scan *)

Lemma malloc_fit_list s bs pre b rest fuel size :
  state_ok s -> sorted bs -> repr s bs -> (length bs < fuel)%nat ->
  find_fit (clamp size) bs = Fit pre b rest ->
  exists s1, frame s s1 (in_headers bs) /\ state_ok s1 /\
    repr s1 (pre ++ b :: rest) /\ sorted (pre ++ b :: rest) /\
    malloc fuel size s = take_block (b_addr b) (clamp size) s1.
Proof.
  intros Hok Hs Hr Hf E.
  destruct (malloc_list s bs fuel size Hok Hs Hr Hf) as (s1 & Hf1 & Hr1 & Hs1 & Hrun).
  rewrite E in *. exists s1. split_and!; [done|by eapply frame_state_ok|done..].
Qed.

Lemma malloc_nofit_list s bs bs' fuel size :
  state_ok s -> sorted bs -> repr s bs -> (length bs < fuel)%nat ->
  find_fit (clamp size) bs = NoFit bs' ->
  exists s1, frame s s1 (in_headers bs) /\ state_ok s1 /\ repr s1 bs' /\
    malloc fuel size s = malloc_extend (clamp size) (last_addr NULL bs') s1.
Proof.
  intros Hok Hs Hr Hf E.
  destruct (malloc_list s bs fuel size Hok Hs Hr Hf) as (s1 & Hf1 & Hr1 & Hs1 & Hrun).
  rewrite E in *. exists s1. split_and!; [done|by eapply frame_state_ok|done..].
Qed.

(** ** Blocks in use *)

(** The scan passes blocks in use without writing: after as many
    iterations as there are blocks it is at the address the last of them
    gives as its [next]. *)
Lemma malloc_scan_in_use s pv keep a f size last :
  seg s pv keep a -> Forall (fun b => b_free b = 0) keep ->
  malloc_scan (length keep + f) size (head_addr keep a) last s =
  malloc_scan f size a (last_addr last keep) s.
Proof.
  revert pv last. induction keep as [|k keep IH]; intros pv last Hs Hu; [done|].
  apply seg_cons in Hs as (Hn & Hk & Hs). apply Forall_cons in Hu as [Hf Hu].
  cbn [length Nat.add malloc_scan merge_run head_addr]. rewrite decide_False by done.
  rewrite bind_assoc_at, (run_get_free _ _ _ _ Hk). cbn [h_free].
  rewrite decide_True, bind_ret_at, (run_get_free _ _ _ _ Hk) by done. cbn [h_free].
  rewrite decide_True, (run_get_next _ _ _ _ Hk) by done. cbn [h_next].
  by rewrite (IH _ _ Hs Hu).
Qed.

(** With every block in use [malloc] goes to the extension of the heap
    without writing. *)
Lemma malloc_all_in_use s bs fuel size :
  repr s bs -> Forall (fun b => b_free b = 0) bs -> (length bs < fuel)%nat ->
  malloc fuel size s = malloc_extend (clamp size) (last_addr NULL bs) s.
Proof.
  intros [Hf Hseg] Hu Hfuel. unfold malloc. rewrite run_get_first, Hf.
  replace fuel with (length bs + S (fuel - length bs - 1))%nat by lia.
  rewrite (malloc_scan_in_use _ _ _ _ _ _ _ Hseg Hu). cbn [malloc_scan].
  by rewrite decide_True.
Qed.

(** The scan at an address outside the heap faults reading the free
    flag. *)
Lemma malloc_scan_fault s a f size last :
  a <> NULL -> ~ valid s (a + OFF_FREE) 1 -> (0 < f)%nat ->
  malloc_scan f size a last s = Fault (a + OFF_FREE).
Proof.
  intros Ha Hv Hf. destruct f as [|f]; [lia|]. cbn [malloc_scan merge_run].
  rewrite decide_False by done. apply bind_fault. unfold get_free. by apply run_load_fault.
Qed.

(** ** An exact fit *)

(** On a free header that is its own [next] the coalescing loop merges the
    block with itself for ever: no amount of fuel is enough. *)
Lemma merge_run_self s h pv sz fr fuel :
  state_ok s -> hdr_at s h (mkHeader h pv sz fr) -> fr <> 0 -> h <> NULL ->
  merge_run fuel h s = OutOfFuel.
Proof.
  revert s pv sz. induction fuel as [|f IH]; intros s pv sz Hok Hh Hfr Hn; [done|].
  cbn [merge_run]. rewrite (run_get_free _ _ _ _ Hh). cbn [h_free].
  rewrite decide_False, (run_get_next _ _ _ _ Hh) by done. cbn [h_next].
  rewrite decide_False, (run_get_next _ _ _ _ Hh), (run_get_free _ _ _ _ Hh) by done.
  cbn [h_next h_free]. rewrite decide_False, (run_get_next _ _ _ _ Hh) by done. cbn [h_next].
  destruct (merge_blocks_self s h pv sz fr Hok Hh) as (s' & E & Hok' & Hh').
  rewrite (bind_ok _ _ _ _ _ E). by eapply IH.
Qed.

(** The scan from a block in use whose successor is such a header. *)
Lemma malloc_scan_self s h pv sz nx pvn szn frn fuel size last :
  state_ok s -> hdr_at s h (mkHeader nx pv sz 0) -> hdr_at s nx (mkHeader nx pvn szn frn) ->
  frn <> 0 -> h <> NULL -> nx <> NULL ->
  malloc_scan fuel size h last s = OutOfFuel.
Proof.
  intros Hok Hh Hn Hfr Hh0 Hn0. destruct fuel as [|f]; [done|]. cbn [malloc_scan merge_run].
  rewrite decide_False by done. rewrite bind_assoc_at, (run_get_free _ _ _ _ Hh). cbn [h_free].
  rewrite decide_True, bind_ret_at, (run_get_free _ _ _ _ Hh) by done. cbn [h_free].
  rewrite decide_True, (run_get_next _ _ _ _ Hh) by done. cbn [h_next].
  destruct f as [|f]; [done|]. cbn [malloc_scan]. rewrite decide_False by done.
  apply bind_out_of_fuel. by eapply merge_run_self.
Qed.

(** Taking a block whose size is exactly the request, when the next block
    starts where it ends: [size - new_size - sizeof(header)] wraps around,
    the split goes ahead, and the new header is the header of the next
    block. *)
Lemma take_block_exact s pre b n rest :
  state_ok s -> repr s (pre ++ b :: n :: rest) -> adjacent b n ->
  exists s', take_block (b_addr b) (b_size b) s = Ok (b_addr b + SIZEOF_HEADER, s') /\
    state_ok s' /\ s_first s' = s_first s /\
    hdr_at s' (b_addr b) (mkHeader (b_addr n) (last_addr NULL pre) (b_size b) 0) /\
    hdr_at s' (b_addr n) (mkHeader (b_addr n) (b_addr n) (SIZE_MOD - SIZEOF_PTR) 1).
Proof.
  intros Hok Hr Hadj. pose proof (proj2 (repr_at _ _ _ _ Hr)) as Hb.
  pose proof (proj2 (repr_next _ _ _ _ _ Hr)) as Hn. cbn [head_addr] in Hb.
  pose proof (valid_bounds _ _ _ Hok (proj1 Hb)). pose proof (valid_bounds _ _ _ Hok (proj1 Hn)).
  pose proof (hdr_at_sizes _ _ _ Hb) as (_ & _ & Hsz & _). cbn [h_size] in Hsz.
  unfold adjacent, b_end in Hadj.
  destruct (split_block_alias s _ _ _ (b_size b) Hok Hb Hn) as (s1 & E & (Hreg & Hfst & _) & Hb1 & Hn1);
    cbn [h_next h_size]; [unfold splittable; mod_lia|mod_lia|mod_lia|].
  cbn [h_next h_size] in *. unfold take_block. rewrite (bind_ok _ _ _ _ _ E).
  replace (wrap (b_size b - b_size b - SIZEOF_PTR)) with (SIZE_MOD - SIZEOF_PTR) in Hn1 by mod_lia.
  rewrite (data_of_valid s _ _ Hok (proj1 Hb)) by mod_lia.
  pose proof (proj1 Hb1). pose proof (proj1 Hn1). hdr_fields.
  cbn [h_next h_prev h_size h_free] in *. unfold set_free. mstep.
  eexists. split; [done|]. split; [unfold state_ok in *; cbn [s_reg upd_mem]; by rewrite Hreg|].
  split; [done|]. split; solve_hdr.
Qed.

(** ** Growing the heap *)

(** With no block in the directory [malloc] creates the first one. *)
Lemma malloc_grow_empty s fuel size :
  state_ok s -> s_first s = NULL -> (0 < fuel)%nat ->
  clamp size + SIZEOF_HEADER < SIZE_HALF ->
  fst (sbrk (clamp size + SIZEOF_HEADER) (s_reg s)) <> SBRK_FAILED ->
  exists s', malloc fuel size s = Ok (heap_hi (s_reg s) + SIZEOF_HEADER, s') /\
    state_ok s' /\ repr s' [Block (heap_hi (s_reg s)) (clamp size) 0] /\
    s_reg s' = snd (sbrk (clamp size + SIZEOF_HEADER) (s_reg s)).
Proof.
  intros Hok Hf Hfuel Hhalf Hne. apply repr_nil in Hf. pose proof (clamp_bounds size).
  destruct (malloc_nofit_list s [] [] fuel size) as (s1 & (Hr & _) & Hok1 & Hr1 & ->);
    [done|constructor|done..|]. rewrite <- Hr in *.
  destruct (malloc_extend_list s1 [] (clamp size)) as (s' & ? & ? & ? & _ & _ & ?);
    [done|done|mod_lia|done..|]. by exists s'.
Qed.

(** With blocks in the directory and none that fits [malloc] creates a
    block at the break and leaves the list as it is. *)
Lemma malloc_grow_list s bs bs' fuel size :
  state_ok s -> sorted bs -> repr s bs -> (length bs < fuel)%nat ->
  clamp size + SIZEOF_HEADER < SIZE_HALF ->
  find_fit (clamp size) bs = NoFit bs' -> bs' <> [] ->
  fst (sbrk (clamp size + SIZEOF_HEADER) (s_reg s)) <> SBRK_FAILED ->
  exists s', malloc fuel size s = Ok (heap_hi (s_reg s) + SIZEOF_HEADER, s') /\
    state_ok s' /\ repr s' bs' /\
    hdr_at s' (heap_hi (s_reg s)) (mkHeader NULL (last_addr NULL bs') (clamp size) 0) /\
    Forall (fun b => b_addr b + SIZEOF_HEADER <= heap_hi (s_reg s)) bs' /\
    s_reg s' = snd (sbrk (clamp size + SIZEOF_HEADER) (s_reg s)).
Proof.
  intros Hok Hs Hr Hf Hhalf E Hne Hsb. pose proof (clamp_bounds size).
  destruct (malloc_nofit_list s bs bs' fuel size Hok Hs Hr Hf E)
    as (s1 & (Hreg & _) & Hok1 & Hr1 & ->). rewrite <- Hreg in *.
  destruct (malloc_extend_list s1 bs' (clamp size)) as (s' & ? & ? & Hr' & ? & _ & ?);
    [done|done|mod_lia|done..|].
  rewrite decide_False in Hr' by done. exists s'. split_and!; [done..| |done].
  eapply Forall_impl; [exact (repr_valid s1 bs' Hr1)|]. by intros b [_ ?].
Qed.

(** ** Invariants

    [malloc] assigns [first] in the extension of the heap only: it keeps
    every property that the stores, the system calls and [malloc_extend]
    keep. *)

Lemma keeps_malloc_extend lo size last : keeps (based lo) (malloc_extend size last).
Proof. unfold malloc_extend. keeps_tac. Qed.

Section AllocInvariant.
Context (P : state R -> Prop) `{!Stable P}.

Lemma keeps_merge_run fuel curr : keeps P (merge_run fuel curr).
Proof. revert curr. induction fuel as [|f IH]; intros curr; cbn [merge_run]; keeps_tac. Qed.

Lemma keeps_take_block curr size : keeps P (take_block curr size).
Proof. unfold take_block. keeps_tac. Qed.

Context (Hext : forall size last, keeps P (malloc_extend size last)).

Lemma keeps_malloc_scan fuel size curr last : keeps P (malloc_scan fuel size curr last).
Proof.
  revert curr last. induction fuel as [|f IH]; intros curr last; cbn [malloc_scan];
    pose proof keeps_merge_run; pose proof keeps_take_block; keeps_tac.
Qed.

Lemma keeps_malloc fuel size : keeps P (malloc fuel size).
Proof. unfold malloc. pose proof keeps_malloc_scan. keeps_tac. Qed.

End AllocInvariant.

(** ** The properties of the allocator *)

(** C6. The coalescing loop of [malloc] terminates and computes
    [coalesce]: run with more fuel than there are blocks after [b], it stops
    at [b], the list in memory is the list in which the free blocks after a
    free [b] are merged into it, still in address order, and only headers
    of [b] and of the blocks after it were written. *)
Theorem merge_run_coalesce s pre b rest fuel :
  state_ok s -> sorted (pre ++ b :: rest) -> repr s (pre ++ b :: rest) ->
  (length rest < fuel)%nat ->
  exists s', merge_run fuel (b_addr b) s = Ok (b_addr b, s') /\
             repr s' (pre ++ (coalesce b rest).1 :: (coalesce b rest).2) /\
             sorted (pre ++ (coalesce b rest).1 :: (coalesce b rest).2) /\
             frame s s' (in_headers (b :: rest)).
Proof.
  intros Hok Hs Hr Hf.
  destruct (merge_run_list s pre b rest fuel Hok Hs Hr Hf) as (s' & ? & ? & ?).
  exists s'. split_and!; [done..|by apply coalesce_sorted|done].
Qed.

(** C7. The first allocation: with no block in the directory, [malloc]
    asks the system for the clamped size plus a header, returns the address
    after the header at the old break, and the directory is the one block
    in use of that size. *)
Theorem malloc_first s fuel size :
  state_ok s -> s_first s = NULL -> (0 < fuel)%nat ->
  clamp size + SIZEOF_HEADER < SIZE_HALF ->
  fst (sbrk (clamp size + SIZEOF_HEADER) (s_reg s)) <> SBRK_FAILED ->
  exists s', malloc fuel size s = Ok (heap_hi (s_reg s) + SIZEOF_HEADER, s') /\
    state_ok s' /\ repr s' [Block (heap_hi (s_reg s)) (clamp size) 0] /\
    s_reg s' = snd (sbrk (clamp size + SIZEOF_HEADER) (s_reg s)).
Proof. apply malloc_grow_empty. Qed.

(** A fit that leaves too little to split: [malloc] returns the data
    address of the first block that, after coalescing, is free and large
    enough, and marks it in use; the directory is the coalesced list with
    that block taken. *)
Theorem malloc_fit_whole s bs pre b rest fuel size :
  state_ok s -> sorted bs -> repr s bs -> (length bs < fuel)%nat ->
  find_fit (clamp size) bs = Fit pre b rest ->
  ~ splittable (b_size b) (clamp size) ->
  exists s', malloc fuel size s = Ok (b_addr b + SIZEOF_HEADER, s') /\
             repr s' (pre ++ taken b :: rest) /\ state_ok s'.
Proof.
  intros Hok Hs Hr Hf E Hsp.
  destruct (malloc_fit_list s bs pre b rest fuel size Hok Hs Hr Hf E)
    as (s1 & _ & Hok1 & Hr1 & Hs1 & ->).
  destruct (take_block_whole s1 pre b rest (clamp size) Hok1 Hs1 Hr1 Hsp) as (s' & ? & ? & ?).
  exists s'. split_and!; [done..|by eapply frame_state_ok].
Qed.

(** A fit with a split: when the block found is followed by a block
    and the new header falls between the two, [malloc] inserts the free
    remainder [split_abs] after the block and hands the block out. *)
Theorem malloc_fit_split s bs pre b n rest fuel size :
  state_ok s -> sorted bs -> repr s bs -> (length bs < fuel)%nat ->
  find_fit (clamp size) bs = Fit pre b (n :: rest) ->
  splittable (b_size b) (clamp size) ->
  before b (split_abs b (clamp size)) -> before (split_abs b (clamp size)) n ->
  exists s', malloc fuel size s = Ok (b_addr b + SIZEOF_HEADER, s') /\
             repr s' (pre ++ taken b :: split_abs b (clamp size) :: n :: rest) /\
             state_ok s'.
Proof.
  intros Hok Hs Hr Hf E Hsp Hlo Hhi.
  destruct (malloc_fit_list s bs pre b _ fuel size Hok Hs Hr Hf E)
    as (s1 & _ & Hok1 & Hr1 & Hs1 & ->).
  destruct (take_block_split s1 pre b n rest (clamp size) Hok1 Hs1 Hr1 Hsp Hlo Hhi)
    as (s' & ? & ? & ?).
  exists s'. split_and!; [done..|by eapply frame_state_ok].
Qed.

(** A fit on the last block of the list: when the block found has no
    successor and is large enough to be split, [malloc] faults storing
    through [NULL]. *)
Theorem malloc_fit_tail_faults s bs pre b fuel size :
  state_ok s -> sorted bs -> repr s bs -> (length bs < fuel)%nat ->
  find_fit (clamp size) bs = Fit pre b [] ->
  splittable (b_size b) (clamp size) -> before b (split_abs b (clamp size)) ->
  valid s (b_addr (split_abs b (clamp size))) SIZEOF_HEADER ->
  malloc fuel size s = Fault (NULL + OFF_PREV).
Proof.
  intros Hok Hs Hr Hf E Hsp Hlo Hv.
  destruct (malloc_fit_list s bs pre b _ fuel size Hok Hs Hr Hf E)
    as (s1 & Hf1 & Hok1 & Hr1 & Hs1 & ->).
  apply (take_block_tail s1 pre b); [done..|]. by apply (frame_valid _ _ _ _ _ Hf1).
Qed.

(** C9. No fit in a directory that is not empty: [malloc] extends the
    heap and returns the new block, whose [prev] is the last block of the
    list, but the list from [first] is the coalesced list as it was: no
    [next] field points to the new block. *)
Theorem malloc_no_fit_unlinked s bs bs' fuel size :
  state_ok s -> sorted bs -> repr s bs -> (length bs < fuel)%nat ->
  clamp size + SIZEOF_HEADER < SIZE_HALF ->
  find_fit (clamp size) bs = NoFit bs' -> bs' <> [] ->
  fst (sbrk (clamp size + SIZEOF_HEADER) (s_reg s)) <> SBRK_FAILED ->
  exists s', malloc fuel size s = Ok (heap_hi (s_reg s) + SIZEOF_HEADER, s') /\
    state_ok s' /\ repr s' bs' /\
    hdr_at s' (heap_hi (s_reg s)) (mkHeader NULL (last_addr NULL bs') (clamp size) 0) /\
    Forall (fun b => b_addr b + SIZEOF_HEADER <= heap_hi (s_reg s)) bs' /\
    s_reg s' = snd (sbrk (clamp size + SIZEOF_HEADER) (s_reg s)).
Proof. apply malloc_grow_list. Qed.

(** The system refuses to extend the heap: [malloc] does not check
    the result of [sbrk] and faults on its first store through
    [(void* )-1]. *)
Theorem malloc_sbrk_failed s bs bs' fuel size :
  state_ok s -> sorted bs -> repr s bs -> (length bs < fuel)%nat ->
  clamp size + SIZEOF_HEADER < SIZE_HALF ->
  find_fit (clamp size) bs = NoFit bs' ->
  fst (sbrk (clamp size + SIZEOF_HEADER) (s_reg s)) = SBRK_FAILED ->
  malloc fuel size s = Fault (SBRK_FAILED + OFF_PREV).
Proof.
  intros Hok Hs Hr Hf Hhalf E Hsb. pose proof (clamp_bounds size).
  destruct (malloc_nofit_list s bs bs' fuel size Hok Hs Hr Hf E)
    as (s1 & (Hreg & _) & Hok1 & Hr1 & ->). rewrite <- Hreg in *.
  apply malloc_extend_failed; [done|mod_lia|done..].
Qed.

End AllocProofs.

#[export] Hint Resolve keeps_malloc_extend keeps_malloc : keeps.

(** C10. An exact fit makes the allocator hang.  When the scan stops at
    the head of the list, at a free block or at the free blocks it has
    coalesced, the block after it is in use and starts where it ends, and
    the clamped request is exactly its size, [malloc] returns the block,
    but the split it runs overwrites the header of the next block, which
    becomes a free block that follows itself.  Every later call of [malloc]
    runs out of fuel, whatever the fuel: the coalescing loop merges that
    block with itself for ever.  The request for the sizes of two adjacent
    free blocks and a header is such a fit. *)
Theorem malloc_exact_fit_hangs `{HeapRegion R} (s : state R) bs b n rest fuel size :
  state_ok s -> sorted bs -> repr s bs ->
  find_fit (clamp size) bs = Fit [] b (n :: rest) -> adjacent b n -> clamp size = b_size b ->
  (length bs < fuel)%nat ->
  exists s', malloc fuel size s = Ok (b_addr b + SIZEOF_HEADER, s') /\
    forall fuel' size', malloc fuel' size' s' = OutOfFuel.
Proof.
  intros Hok Hs Hr Ef Hadj Hsz Hf.
  destruct (malloc_fit_list s _ [] b (n :: rest) fuel size Hok Hs Hr Hf Ef)
    as (s1 & _ & Hok1 & Hr1 & _ & ->).
  rewrite Hsz. destruct (take_block_exact s1 [] b n rest Hok1 Hr1 Hadj)
    as (s' & -> & Hok' & Hfst & Hb' & Hn').
  exists s'. split; [done|]. intros fuel' size'. unfold malloc.
  rewrite run_get_first, Hfst, (proj1 Hr1). cbn [head_addr app].
  eapply malloc_scan_self; [done..| |]; [apply (repr_at _ [] _ _ Hr1)|apply (repr_next _ [] _ _ _ Hr1)].
Qed.

(** The scan is first fit: the block it stops at is free and large
    enough, and every block it passed, as coalesced, is in use or too
    small. *)
Theorem find_fit_first size bs pre b rest :
  find_fit size bs = Fit pre b rest ->
  fits size b /\ Forall (fun x => ~ fits size x) pre.
Proof.
  destruct bs as [|c bs]; [done|]. cbn. intros E. split; [by eapply first_fit_fits|].
  by apply first_fit_passed in E as (mid & -> & ?).
Qed.

(** [malloc] goes to the system only when nothing fits: when the
    scan falls off the list, no block of the coalesced list is both free
    and large enough. *)
Theorem find_fit_none size bs bs' :
  find_fit size bs = NoFit bs' -> Forall (fun x => ~ fits size x) bs'.
Proof.
  destruct bs as [|c bs]; [by intros [= <-]|]. cbn.
  by intros (l & -> & _ & ?)%first_fit_none.
Qed.

(** ** The properties at work *)

Lemma lone_ok : state_ok lone.
Proof. apply (bool_decide_unpack _). by vm_compute. Qed.

Lemma lone_repr : repr lone lone_blocks.
Proof. apply (bool_decide_unpack _). by vm_compute. Qed.

Lemma lone_sorted : sorted lone_blocks.
Proof. apply (bool_decide_unpack _). by vm_compute. Qed.

Lemma merge_run_coalesce_witness :
  exists s', merge_run 3 4096 demo = Ok (4096, s') /\
             repr s' [Block 4096 172 1; Block 4300 32 0] /\
             sorted [Block 4096 172 1; Block 4300 32 0] /\
             frame demo s' (in_headers demo_blocks).
Proof.
  apply (merge_run_coalesce demo [] (Block 4096 40 1) [Block 4168 100 1; Block 4300 32 0] 3
           demo_ok demo_sorted demo_repr).
  apply (bool_decide_unpack _). by vm_compute.
Defined.

Lemma malloc_first_witness :
  exists s', malloc 1 40 fresh = Ok (4128, s') /\ state_ok s' /\
             repr s' [Block 4096 40 0] /\ s_reg s' = SimRegion 4096 4168 8192.
Proof.
  refine (malloc_first fresh 1 40 _ _ _ _ _); apply (bool_decide_unpack _); by vm_compute.
Defined.

Lemma malloc_fit_whole_witness :
  exists s', malloc 4 160 demo = Ok (4128, s') /\
             repr s' [Block 4096 172 0; Block 4300 32 0] /\ state_ok s'.
Proof.
  apply (malloc_fit_whole demo demo_blocks [] (Block 4096 172 1) [Block 4300 32 0] 4 160
           demo_ok demo_sorted demo_repr); apply (bool_decide_unpack _); by vm_compute.
Defined.

Lemma malloc_fit_split_witness :
  exists s', malloc 4 50 demo = Ok (4128, s') /\
             repr s' [Block 4096 172 0; Block 4178 114 1; Block 4300 32 0] /\ state_ok s'.
Proof.
  apply (malloc_fit_split demo demo_blocks [] (Block 4096 172 1) (Block 4300 32 0) [] 4 50
           demo_ok demo_sorted demo_repr); apply (bool_decide_unpack _); by vm_compute.
Defined.

Lemma malloc_fit_tail_faults_witness : malloc 2 50 lone = Fault 8.
Proof.
  apply (malloc_fit_tail_faults lone lone_blocks [] (Block 4096 200 1) 2 50
           lone_ok lone_sorted lone_repr); apply (bool_decide_unpack _); by vm_compute.
Defined.

Lemma malloc_no_fit_unlinked_witness :
  exists s', malloc 4 1000 demo = Ok (4396, s') /\ state_ok s' /\
             repr s' [Block 4096 172 1; Block 4300 32 0] /\
             hdr_at s' 4364 (mkHeader NULL 4300 1000 0) /\
             Forall (fun b => b_addr b + SIZEOF_HEADER <= 4364)
               [Block 4096 172 1; Block 4300 32 0] /\
             s_reg s' = SimRegion 4096 5396 8192.
Proof.
  apply (malloc_no_fit_unlinked demo demo_blocks [Block 4096 172 1; Block 4300 32 0] 4 1000
           demo_ok demo_sorted demo_repr); apply (bool_decide_unpack _); by vm_compute.
Defined.

Lemma malloc_sbrk_failed_witness : malloc 4 5000 demo = Fault (SBRK_FAILED + OFF_PREV).
Proof.
  apply (malloc_sbrk_failed demo demo_blocks [Block 4096 172 1; Block 4300 32 0] 4 5000
           demo_ok demo_sorted demo_repr); apply (bool_decide_unpack _); by vm_compute.
Defined.

Lemma find_fit_first_witness :
  fits 50 (Block 4300 102 1) /\
  Forall (fun x => ~ fits 50 x) [Block 4096 40 1; Block 4168 100 0].
Proof.
  by apply (find_fit_first 50
              [Block 4096 40 1; Block 4168 100 0; Block 4300 60 1; Block 4392 10 1]
              _ _ []).
Defined.

Lemma find_fit_none_witness :
  Forall (fun x => ~ fits 1000 x) [Block 4096 172 1; Block 4300 32 0].
Proof. by apply (find_fit_none 1000 demo_blocks). Defined.

(** Two adjacent free blocks of 40 and 100 bytes before a block in use,
    and a request for 40 + 32 + 100 bytes. *)
Lemma malloc_exact_fit_hangs_witness :
  exists s', malloc 4 172 demo = Ok (4128, s') /\
    forall fuel' size', malloc fuel' size' s' = OutOfFuel.
Proof.
  refine (malloc_exact_fit_hangs demo demo_blocks (Block 4096 172 1) (Block 4300 32 0) [] 4 172
            demo_ok demo_sorted demo_repr _ _ _ _);
    try (apply (bool_decide_unpack _); by vm_compute); by vm_compute.
Defined.

Lemma coalesce_tiled_witness :
  tiled [Block 4096 172 1; Block 4300 32 0] /\
  within 4096 4364 [Block 4096 172 1; Block 4300 32 0].
Proof.
  refine (coalesce_tiled 4096 4364 [] (Block 4096 40 1) [Block 4168 100 1; Block 4300 32 0] _ _ _ _);
    apply (bool_decide_unpack _); by vm_compute.
Defined.
