(* ===== verification/Slack.v ===== *)
(** * A fit that leaves less than a pointer

    [split_block] computes the size of the remainder in [size_t]: when the
    block is larger than the request by less than [sizeof(header)], the
    pointer size, the difference wraps around, the guard against small
    remainders lets it through and the new header is written where the
    request ends.  Alloc.v treats the exact fit, where that place is the
    header of the next block.  This file treats the other seven cases, a
    request from one to seven bytes short of the block: the new header
    starts that many bytes before the header of the next block and the
    two share their bytes, field by field out of step.  The file gives the
    memory the stores of [split_block] leave, the two headers as they read
    afterwards ([phantom], [straddled]), the theorem that [malloc] leaves
    them, and what the next call of [malloc] does with them. *)

From Stdlib Require Import ZArith Lia.
From stdpp Require Import prelude sorting gmap.
From S2P Require Import Prelude.
From S2P Require Import Memory.
From S2P Require Import Region.
From S2P Require Import Machine.
From S2P Require Import Directory.
From S2P Require Import Alloc.

#[local] Open Scope Z_scope.

(** ** The headers after the split *)

(** The memory after the stores of [split_block] on the header [h] whose
    successor is at [nx], when the new header is [k] bytes before [nx]:
    [new_header->prev = header], [new_header->next = header->next],
    [new_header->size = new_block_size], [new_header->free = 1],
    [(header->next)->prev = new_header], [header->next = new_header], in
    that order.  The size is [k - sizeof(header)] as a [size_t]. *)
Definition straddle_mem (m : mem) (h nx k : Z) : mem :=
  let new_header := nx - k in
  let m1 := store_le 8 m (new_header + OFF_PREV) h in
  let m2 := store_le 8 m1 (new_header + OFF_NEXT) nx in
  let m3 := store_le 8 m2 (new_header + OFF_SIZE) (SIZE_MOD + k - SIZEOF_PTR) in
  let m4 := store_le 1 m3 (new_header + OFF_FREE) 1 in
  let m5 := store_le 8 m4 (nx + OFF_PREV) new_header in
  store_le 8 m5 (h + OFF_NEXT) new_header.

(** The new header, [k] bytes before [nx], as it reads when [split_block]
    returns.  Its [next] is whole.  The last [8 - k] bytes of its [prev]
    are the first bytes of the [prev] of the header at [nx], written
    later, and the first [k] bytes of its [size] are the last bytes of
    that field: what is left of the size is [0xff] in every byte. *)
Definition phantom (h nx k : Z) : Header :=
  mkHeader nx
    (h mod 256 ^ k + 256 ^ k * ((nx - k) mod 256 ^ (SIZEOF_PTR - k)))
    ((nx - k) / 256 ^ (SIZEOF_PTR - k) + 256 ^ k * (256 ^ (SIZEOF_PTR - k) - 1))
    1.

(** The header at [nx], which held [hd], as it reads when [split_block]
    returns.  Its [next] is the end of the new header's [next] followed by
    the start of the new header's [prev]; its [prev] is the new header; its
    [size] is the end of the new header's size, the new header's free flag,
    and what is left of its own last bytes.  Its free flag is out of
    reach. *)
Definition straddled (h nx k : Z) (hd : Header) : Header :=
  mkHeader
    (nx / 256 ^ k + 256 ^ (SIZEOF_PTR - k) * (h mod 256 ^ k))
    (nx - k)
    (256 ^ (SIZEOF_PTR - k) - 1 +
     256 ^ (SIZEOF_PTR - k) * (1 + 256 ^ 1 * (h_size hd / 256 ^ (SIZEOF_PTR + 1 - k))))
    (h_free hd).

(** ** A heap to run on *)

(** The blocks of [demo] followed by a block of 200 bytes in use. *)
Definition wide_blocks : list block :=
  [Block 4096 40 1; Block 4168 100 1; Block 4300 32 0; Block 4364 200 0].

Definition wide : state sim_region :=
  State (lay wide_blocks ∅) (SimRegion 4096 4596 8192) 4096.

(** Simplifies loads of whole fields and of parts that no store touches. *)
Ltac part_simpl :=
  repeat first
  [ rewrite load_store_64_size by mod_lia
  | rewrite load_store_8
  | rewrite load_store_le_disjoint by (unfold disjoint; mod_lia) ].

(** ** Fields of eight bytes in two parts *)

Lemma field_cut j m x lo hi :
  0 <= j <= 8 -> load_le (Z.to_nat j) m x = lo ->
  load_le (Z.to_nat (8 - j)) m (x + j) = hi -> load_le 8 m x = lo + 256 ^ j * hi.
Proof.
  intros Hj Hlo Hhi. apply load_le_cut; [lia|done|].
  by replace (8 - Z.to_nat j)%nat with (Z.to_nat (8 - j)) by lia.
Qed.

Lemma part_cut i j m x lo hi :
  0 <= i -> 0 <= j -> load_le (Z.to_nat i) m x = lo ->
  load_le (Z.to_nat j) m (x + i) = hi -> load_le (Z.to_nat (i + j)) m x = lo + 256 ^ i * hi.
Proof.
  intros Hi Hj Hlo Hhi. apply load_le_cut; [lia|done|].
  by replace (Z.to_nat (i + j) - Z.to_nat i)%nat with (Z.to_nat j) by lia.
Qed.

Lemma stored_part j m a v x :
  0 <= j -> a <= x -> x + j <= a + 8 ->
  load_le (Z.to_nat j) (store_le 8 m a v) x = (v / 256 ^ (x - a)) mod 256 ^ j.
Proof. intros Hj Hlo Hhi. rewrite load_store_le_part, Z2Nat.id by lia. done. Qed.

(** The bytes of a [size_t] from the [i]-th are [8 - i] bytes. *)
Lemma high_bytes v i : is_size v -> 0 <= i <= 8 -> (v / 256 ^ i) mod 256 ^ (8 - i) = v / 256 ^ i.
Proof.
  intros Hv Hi. assert (0 < 256 ^ i) by (apply Z.pow_pos_nonneg; lia).
  apply Z.mod_small. split; [apply Z.div_pos; unfold is_size in Hv; lia|].
  apply Z.div_lt_upper_bound; [done|]. rewrite <- Z.pow_add_r by lia.
  replace (i + (8 - i)) with 8 by lia. unfold is_size in Hv. mod_lia.
Qed.

Lemma last_bytes v i :
  is_size v -> 0 <= i <= 8 -> (v / 256 ^ (8 - i)) mod 256 ^ i = v / 256 ^ (8 - i).
Proof.
  intros Hv Hi. rewrite <- (high_bytes v (8 - i)) at 2 by (done || lia). do 2 f_equal. lia.
Qed.

(** The size that wrapped around is [0xff] from its second byte on. *)
Lemma wrapped_bytes k :
  0 < k < 8 -> ((SIZE_MOD + k - 8) / 256 ^ k) mod 256 ^ (8 - k) = 256 ^ (8 - k) - 1.
Proof.
  intros Hk. assert (k = 1 \/ k = 2 \/ k = 3 \/ k = 4 \/ k = 5 \/ k = 6 \/ k = 7) as Hc by lia.
  by destruct_or!; subst k; vm_compute.
Qed.

(** The new header claims almost the whole address space. *)
Lemma phantom_size h nx k :
  0 < k < SIZEOF_PTR -> 0 <= nx - k < SIZE_MOD ->
  SIZE_MOD - 256 ^ 7 <= h_size (phantom h nx k) < SIZE_MOD.
Proof.
  intros Hk Hu. cbn [phantom h_size].
  assert (k = 1 \/ k = 2 \/ k = 3 \/ k = 4 \/ k = 5 \/ k = 6 \/ k = 7) as Hc by mod_lia.
  destruct_or!; subst k; mod_lia.
Qed.

(** ** The bytes the stores leave *)

Section Straddle.
Variables (m : mem) (h nx k : Z).
Hypothesis Hk : 0 < k < SIZEOF_PTR.
Hypothesis Hh : 0 <= h /\ h + SIZEOF_HEADER <= nx - k.
Hypothesis Hnx : nx + SIZEOF_HEADER < SIZE_HALF.

Lemma straddle_phantom : rd_header (straddle_mem m h nx k) (nx - k) = phantom h nx k.
Proof.
  unfold rd_header, phantom, rd_next, rd_prev, rd_size, rd_free, straddle_mem. f_equal.
  - by part_simpl.
  - apply field_cut; [mod_lia|..]; part_simpl.
    + rewrite stored_part by mod_lia. by rewrite Z.sub_diag, Z.div_1_r.
    + rewrite stored_part by mod_lia.
      replace (nx - k + OFF_PREV + k - (nx + OFF_PREV)) with 0 by mod_lia. by rewrite Z.div_1_r.
  - apply field_cut; [mod_lia|..]; part_simpl.
    + rewrite stored_part by mod_lia.
      replace (nx - k + OFF_SIZE - (nx + OFF_PREV)) with (8 - k) by mod_lia.
      apply last_bytes; [|mod_lia]. unfold is_size. mod_lia.
    + rewrite stored_part by mod_lia.
      replace (nx - k + OFF_SIZE + k - (nx - k + OFF_SIZE)) with k by lia.
      by apply wrapped_bytes.
  - by part_simpl.
Qed.

(** The size of the header at [nx] in three parts: bytes of the wrapped
    size, the free flag of the new header, and its own last bytes. *)
Lemma straddle_size :
  rd_size (straddle_mem m h nx k) nx =
  256 ^ (SIZEOF_PTR - k) - 1 +
  256 ^ (SIZEOF_PTR - k) * (1 + 256 ^ 1 * (rd_size m nx / 256 ^ (SIZEOF_PTR + 1 - k))).
Proof.
  unfold rd_size, straddle_mem. apply field_cut; [mod_lia|..]; part_simpl.
  - rewrite stored_part by mod_lia.
    replace (nx + OFF_SIZE - (nx - k + OFF_SIZE)) with k by lia. by apply wrapped_bytes.
  - replace (8 - (SIZEOF_PTR - k)) with (1 + (k - 1)) by mod_lia.
    apply part_cut; [lia|lia|..]; part_simpl.
    + change (Z.to_nat 1) with 1%nat.
      replace (nx + OFF_SIZE + (SIZEOF_PTR - k)) with (nx - k + OFF_FREE) by mod_lia.
      by part_simpl.
    + replace (k - 1) with (8 - (SIZEOF_PTR + 1 - k)) by mod_lia.
      replace (nx + OFF_SIZE + (SIZEOF_PTR - k) + 1)
        with (nx + OFF_SIZE + (SIZEOF_PTR + 1 - k)) by lia.
      rewrite Z2Nat.inj_sub by mod_lia. apply (load_le_high _ 8). mod_lia.
Qed.

Lemma straddle_successor :
  rd_header (straddle_mem m h nx k) nx = straddled h nx k (rd_header m nx).
Proof.
  unfold rd_header at 1. unfold straddled. cbn [h_size h_free rd_header]. f_equal.
  - unfold rd_next, straddle_mem. apply field_cut; [mod_lia|..]; part_simpl.
    + rewrite stored_part by mod_lia.
      replace (nx + OFF_NEXT - (nx - k + OFF_NEXT)) with k by lia.
      apply high_bytes; [|mod_lia]. unfold is_size. mod_lia.
    + rewrite stored_part by mod_lia.
      replace (nx + OFF_NEXT + (SIZEOF_PTR - k) - (nx - k + OFF_PREV)) with 0 by mod_lia.
      rewrite Z.div_1_r. f_equal. f_equal. mod_lia.
  - unfold rd_prev, straddle_mem. by part_simpl.
  - apply straddle_size.
  - unfold rd_free, straddle_mem. by part_simpl.
Qed.

End Straddle.

(** ** The runs *)

Section SlackProofs.
Context `{HeapRegion R}.
Implicit Types (s : state R) (bs pre rest : list block) (b n : block).

(** The split goes ahead and leaves the memory of [straddle_mem]. *)
Lemma split_block_straddle s h hd k :
  state_ok s -> hdr_at s h hd -> valid s (h_next hd) SIZEOF_HEADER ->
  h + SIZEOF_HEADER + h_size hd = h_next hd -> 0 < k < SIZEOF_PTR -> k <= h_size hd ->
  split_block h (h_size hd - k) s =
  Ok (h_next hd - k, upd_mem (straddle_mem (s_mem s) h (h_next hd) k) s).
Proof.
  intros Hok Hh Hn Ha Hk Hsz. destruct hd as [nx pv sz fr]. cbn [h_next h_size] in *.
  pose proof (valid_bounds _ _ _ Hok (proj1 Hh)). pose proof (valid_bounds _ _ _ Hok Hn).
  pose proof (proj1 Hh). hdr_fields. cbn [h_next h_prev h_size h_free] in *.
  unfold split_block. unfold_acc. mstep.
  match goal with E : _ = sz |- _ => rewrite !E end.
  rewrite decide_False by mod_lia.
  replace (wrap (h + SIZEOF_HEADER + (sz - k))) with (nx - k) by mod_lia.
  replace (wrap (sz - (sz - k) - SIZEOF_PTR)) with (SIZE_MOD + k - SIZEOF_PTR) by mod_lia.
  do 5 mstep. mem_simpl. do 1 mstep. mem_simpl.
  match goal with E : _ = nx |- _ => rewrite !E end.
  by do 2 mstep.
Qed.

Lemma take_block_straddle s pre b n rest k :
  state_ok s -> repr s (pre ++ b :: n :: rest) -> adjacent b n ->
  0 < k < SIZEOF_PTR -> k <= b_size b ->
  exists s', take_block (b_addr b) (b_size b - k) s = Ok (b_addr b + SIZEOF_HEADER, s') /\
    s_reg s' = s_reg s /\ s_first s' = s_first s /\
    hdr_at s' (b_addr b) (mkHeader (b_addr n - k) (last_addr NULL pre) (b_size b) 0) /\
    hdr_at s' (b_addr n - k) (phantom (b_addr b) (b_addr n) k) /\
    hdr_at s' (b_addr n)
      (straddled (b_addr b) (b_addr n) k
         (mkHeader (head_addr rest NULL) (b_addr b) (b_size n) (b_free n))).
Proof.
  intros Hok Hr Hadj Hk Hsz. pose proof (proj2 (repr_at _ _ _ _ Hr)) as Hb.
  pose proof (proj2 (repr_next _ _ _ _ _ Hr)) as Hn. cbn [head_addr] in Hb.
  pose proof (valid_bounds _ _ _ Hok (proj1 Hb)). pose proof (valid_bounds _ _ _ Hok (proj1 Hn)).
  unfold adjacent, b_end in Hadj.
  pose proof (split_block_straddle s _ _ k Hok Hb (proj1 Hn)) as E. cbn [h_next h_size] in E.
  unfold take_block. rewrite (bind_ok _ _ _ _ _ (E ltac:(lia) Hk Hsz)).
  rewrite (data_of_valid s _ _ Hok (proj1 Hb)) by mod_lia.
  pose proof (proj1 Hb) as Hvb. pose proof (proj1 Hn) as Hvn. unfold set_free. mstep.
  eexists. split; [done|]. split; [done|]. split; [done|].
  set (m := straddle_mem (s_mem s) (b_addr b) (b_addr n) k).
  assert (forall x, x + SIZEOF_HEADER <= b_addr b + OFF_FREE \/ b_addr b + OFF_FREE < x ->
    rd_header (store_le 1 m (b_addr b + OFF_FREE) 0) x = rd_header m x) as Hout.
  { intros x Hx. apply rd_header_ext, store_le_agree. unfold disjoint. lia. }
  split_and!.
  - clear Hout E. unfold m, straddle_mem. hdr_fields.
    cbn [h_next h_prev h_size h_free] in *. solve_hdr.
  - split; [unfold valid in *; cbn; mod_lia|]. cbn [s_mem upd_mem].
    rewrite Hout by mod_lia. apply straddle_phantom; mod_lia.
  - split; [done|]. cbn [s_mem upd_mem]. rewrite Hout by mod_lia. unfold m.
    rewrite straddle_successor by mod_lia. f_equal. apply Hn.
Qed.

(** [malloc] on a fit that leaves [k] bytes, from one to seven. *)
Lemma malloc_slack_fit s bs pre b n rest fuel size k :
  state_ok s -> sorted bs -> repr s bs ->
  find_fit (clamp size) bs = Fit pre b (n :: rest) -> adjacent b n ->
  clamp size = b_size b - k -> 0 < k < SIZEOF_PTR ->
  (length bs < fuel)%nat ->
  exists s', malloc fuel size s = Ok (b_addr b + SIZEOF_HEADER, s') /\
    s_reg s' = s_reg s /\ s_first s' = head_addr (pre ++ b :: n :: rest) NULL /\
    hdr_at s' (b_addr b) (mkHeader (b_addr n - k) (last_addr NULL pre) (b_size b) 0) /\
    hdr_at s' (b_addr n - k) (phantom (b_addr b) (b_addr n) k) /\
    hdr_at s' (b_addr n)
      (straddled (b_addr b) (b_addr n) k
         (mkHeader (head_addr rest NULL) (b_addr b) (b_size n) (b_free n))).
Proof.
  intros Hok Hs Hr Ef Hadj Hsz Hk Hf.
  destruct (malloc_fit_list s _ pre b (n :: rest) fuel size Hok Hs Hr Hf Ef)
    as (s1 & (Hreg & _) & Hok1 & Hr1 & _ & ->).
  rewrite Hsz, <- Hreg, <- (proj1 Hr1).
  apply (take_block_straddle s1 pre b n rest k); [done..|].
  pose proof (clamp_bounds size). mod_lia.
Qed.

(** The scan passes a block in use and stops at the free block behind it
    when that is large enough and its successor is in use. *)
Lemma malloc_scan_second s h hd u hdu hdn fuel size last :
  hdr_at s h hd -> h_free hd = 0 -> h_next hd = u -> h <> NULL -> u <> NULL ->
  hdr_at s u hdu -> h_free hdu <> 0 -> h_next hdu <> NULL ->
  hdr_at s (h_next hdu) hdn -> h_free hdn = 0 -> size <= h_size hdu ->
  malloc_scan (S (S fuel)) size h last s = take_block u size s.
Proof.
  intros Hh Hfr Hnx Hh0 Hu0 Hu Hfu Hnu Hn Hfn Hsz. cbn [malloc_scan merge_run].
  rewrite decide_False by done. rewrite bind_assoc_at, (run_get_free _ _ _ _ Hh).
  rewrite decide_True, bind_ret_at, (run_get_free _ _ _ _ Hh) by done.
  rewrite decide_True, (run_get_next _ _ _ _ Hh), Hnx by done.
  rewrite decide_False by done. rewrite bind_assoc_at, (run_get_free _ _ _ _ Hu).
  rewrite decide_False, bind_assoc_at, (run_get_next _ _ _ _ Hu) by done.
  rewrite decide_False, bind_assoc_at, (run_get_next _ _ _ _ Hu) by done.
  rewrite bind_assoc_at, (run_get_free _ _ _ _ Hn).
  rewrite decide_True, bind_ret_at, (run_get_free _ _ _ _ Hu) by done.
  rewrite decide_False, (run_get_size _ _ _ _ Hu) by done. by rewrite decide_True.
Qed.

(** A split whose new header lies above the break faults at its first
    store. *)
Lemma split_block_above s h hd new_size :
  hdr_at s h hd -> splittable (h_size hd) new_size ->
  ~ valid s (wrap (h + SIZEOF_HEADER + new_size) + OFF_PREV) 8 ->
  split_block h new_size s = Fault (wrap (h + SIZEOF_HEADER + new_size) + OFF_PREV).
Proof.
  intros Hh Hsp Hv. unfold split_block. rewrite (run_get_size _ _ _ _ Hh).
  unfold splittable in Hsp. rewrite decide_False by lia.
  unfold set_prev. by rewrite run_store_fault.
Qed.

(** C11. A fit that leaves from one to seven bytes damages the next
    header.  When the scan stops at a free block, the block after it starts
    where it ends, and the clamped request is [k] bytes less than its size
    with [0 < k < sizeof(header)], [malloc] returns the block, but the split
    it runs writes a header [k] bytes before the header of the next block.
    Afterwards the block given out names that address as its successor; the
    header there reads as [phantom] says, a free block of almost [2^64]
    bytes; and the header of the next block reads as [straddled] says: its
    [next] and its [size] are bytes of other fields, its [prev] is the new
    header. *)
Theorem malloc_slack_fit_straddles s bs pre b n rest fuel size k :
  state_ok s -> sorted bs -> repr s bs ->
  find_fit (clamp size) bs = Fit pre b (n :: rest) -> adjacent b n ->
  clamp size = b_size b - k -> 0 < k < SIZEOF_PTR ->
  (length bs < fuel)%nat ->
  exists s', malloc fuel size s = Ok (b_addr b + SIZEOF_HEADER, s') /\
    hdr_at s' (b_addr b) (mkHeader (b_addr n - k) (last_addr NULL pre) (b_size b) 0) /\
    hdr_at s' (b_addr n - k) (phantom (b_addr b) (b_addr n) k) /\
    hdr_at s' (b_addr n)
      (straddled (b_addr b) (b_addr n) k
         (mkHeader (head_addr rest NULL) (b_addr b) (b_size n) (b_free n))).
Proof.
  intros Hok Hs Hr Ef Hadj Hsz Hk Hf.
  destruct (malloc_slack_fit s bs pre b n rest fuel size k) as (s' & ? & _ & _ & ?); eauto.
Qed.

(** C22. After such a fit the next request is served from the new
    header.  When the fit is at the head of the list and the block after it
    is in use, the state [malloc] leaves holds the header [phantom], free
    and large enough for any request below [2^63]: the scan of the next
    call passes the block given out, stops there and splits, and the split
    writes a header where the request ends.  When that is above the break,
    which is so for every request when the block in use is the last one,
    the call faults at the [prev] field of that header. *)
Theorem malloc_after_slack_faults s bs b n rest fuel size k :
  state_ok s -> sorted bs -> repr s bs ->
  find_fit (clamp size) bs = Fit [] b (n :: rest) -> adjacent b n -> b_free n = 0 ->
  clamp size = b_size b - k -> 0 < k < SIZEOF_PTR ->
  (length bs < fuel)%nat ->
  exists s', malloc fuel size s = Ok (b_addr b + SIZEOF_HEADER, s') /\
    hdr_at s' (b_addr n - k) (phantom (b_addr b) (b_addr n) k) /\
    forall fuel' size', (1 < fuel')%nat -> clamp size' < SIZE_HALF ->
      heap_hi (s_reg s) < b_addr n - k + SIZEOF_HEADER + clamp size' + OFF_PREV + SIZEOF_PTR ->
      malloc fuel' size' s' = Fault (b_addr n - k + SIZEOF_HEADER + clamp size' + OFF_PREV).
Proof.
  intros Hok Hs Hr Ef Hadj Hfn Hsz Hk Hf.
  destruct (malloc_slack_fit s bs [] b n rest fuel size k) as (s' & E & Hreg & Hfst & Hb & Hu & Hn);
    [done..|].
  exists s'. split; [done|]. split; [done|]. intros fuel' size' Hf' Hs' Hhi. unfold malloc.
  assert (state_ok s') as Hok' by (unfold state_ok; by rewrite Hreg).
  pose proof (valid_bounds _ _ _ Hok' (proj1 Hb)). pose proof (valid_bounds _ _ _ Hok' (proj1 Hu)).
  pose proof (valid_bounds _ _ _ Hok' (proj1 Hn)).
  pose proof (phantom_size (b_addr b) (b_addr n) k Hk ltac:(mod_lia)) as Hp.
  pose proof (clamp_bounds size').
  rewrite run_get_first, Hfst. cbn [head_addr app]. destruct fuel' as [|[|f]]; [lia..|].
  rewrite (malloc_scan_second s' (b_addr b) _ (b_addr n - k) (phantom (b_addr b) (b_addr n) k) _
             f (clamp size') NULL Hb eq_refl eq_refl
             ltac:(mod_lia) ltac:(mod_lia) Hu ltac:(done) ltac:(cbn; mod_lia) Hn Hfn ltac:(mod_lia)).
  unfold take_block. apply bind_fault.
  replace (b_addr n - k + SIZEOF_HEADER + clamp size')
    with (wrap (b_addr n - k + SIZEOF_HEADER + clamp size')) by mod_lia.
  apply (split_block_above s' _ _ _ Hu); [unfold splittable; mod_lia|].
  unfold valid. rewrite Hreg. mod_lia.
Qed.

End SlackProofs.

(** ** The properties at work *)

(** The two headers after a request for 170 bytes on [demo], whose free
    blocks coalesce to 172 bytes: the new header is at 4298, two bytes
    before the header at 4300.  Running the allocator gives the headers
    that [phantom] and [straddled] compute. *)
Example slack_headers :
  phantom 4096 4300 2 = mkHeader 4300 281677824 18446744073709486080 1 /\
  straddled 4096 4300 2 (mkHeader 0 4096 32 0) =
    mkHeader 1152921504606846976 4298 562949953421311 0 /\
  (s' ← final (malloc 4 170 demo);
   Some (rd_header (s_mem s') 4298, rd_header (s_mem s') 4300)) =
    Some (phantom 4096 4300 2, straddled 4096 4300 2 (mkHeader 0 4096 32 0)).
Proof. by vm_compute. Qed.

(** With room above, the next request is served from the new header: the
    32 bytes it returns at 4330 cover the end of the header at 4300 and the
    data of that block, which is in use. *)
Example slack_overlaps :
  value ((p ← malloc 4 170; q ← malloc 4 32; mret (p, q)) wide) = Some (4128, 4330).
Proof. by vm_compute. Qed.

Lemma malloc_slack_fit_straddles_witness :
  exists s', malloc 4 170 demo = Ok (4128, s') /\
    hdr_at s' 4096 (mkHeader 4298 0 172 0) /\
    hdr_at s' 4298 (phantom 4096 4300 2) /\
    hdr_at s' 4300 (straddled 4096 4300 2 (mkHeader 0 4096 32 0)).
Proof.
  refine (malloc_slack_fit_straddles demo demo_blocks [] (Block 4096 172 1) (Block 4300 32 0) []
            4 170 2 demo_ok demo_sorted demo_repr _ _ _ _ _);
    try (apply (bool_decide_unpack _); by vm_compute); by vm_compute.
Defined.

(** On [demo] the block in use is the last one and ends at the break:
    every later request faults. *)
Lemma malloc_after_slack_faults_witness :
  exists s', malloc 4 170 demo = Ok (4128, s') /\
    hdr_at s' 4298 (phantom 4096 4300 2) /\
    forall fuel' size', (1 < fuel')%nat -> clamp size' < SIZE_HALF ->
      4364 < 4300 - 2 + SIZEOF_HEADER + clamp size' + OFF_PREV + SIZEOF_PTR ->
      malloc fuel' size' s' = Fault (4300 - 2 + SIZEOF_HEADER + clamp size' + OFF_PREV).
Proof.
  refine (malloc_after_slack_faults demo demo_blocks (Block 4096 172 1) (Block 4300 32 0) []
            4 170 2 demo_ok demo_sorted demo_repr _ _ _ _ _ _);
    try (apply (bool_decide_unpack _); by vm_compute); by vm_compute.
Defined.
