(* ===== verification/Dealloc.v ===== *)
(** * The Deallocator: [free] and [free_with_caution]

    The two deallocation functions of [src/dynalloc.c].  Both mark the
    block free and, when it is the last of the list, walk back over the
    free blocks before it ([free_walk]) and give the memory from there on
    back to the system ([release_tail]).  [free_with_caution] first looks
    for the header in the list.  On the abstract side [held] says where the
    walk stops.  The theorems give the directory and the break after each
    path, and show what the walk leaves behind: the last block that stays
    still points to the memory given back. *)

From Stdlib Require Import ZArith Lia.
From stdpp Require Import prelude sorting gmap.
From S2P Require Import Prelude.
From S2P Require Import Memory.
From S2P Require Import Region.
From S2P Require Import Machine.
From S2P Require Import Directory.

#[local] Open Scope Z_scope.

(** ** The abstract side *)

(** The block with its free flag set. *)
Definition freed (b : block) : block := Block (b_addr b) (b_size b) 1.

(** The walk stops after [keep]: its last block, if any, is in use. *)
Definition held (keep : list block) : Prop :=
  from_option (fun k => b_free k = 0) True (last keep).

#[export] Instance held_dec keep : Decision (held keep).
Proof. unfold held. destruct (last keep); cbn; apply _. Defined.

(** No block of the list has its header at [h]. *)
Definition untracked (h : Z) (bs : list block) : Prop :=
  Forall (fun b => b_addr b <> h) bs.

#[export] Instance untracked_dec h bs : Decision (untracked h bs).
Proof. unfold untracked. apply _. Defined.

Section Dealloc.
Context `{HeapRegion R}.

(** ** The source *)

(** The walk back from the last block: [while(curr != first)
    if((curr->prev)->free) curr = curr->prev; else break;]. *)
Fixpoint free_walk (fuel : nat) (curr : Z) : M (state R) Z :=
  match fuel with
  | O => out_of_fuel
  | S f =>
      fs ← get_first;
      if decide (curr = fs) then mret curr
      else
        p ← get_prev curr;
        pf ← get_free p;
        if decide (pf = 0) then mret curr
        else p' ← get_prev curr; free_walk f p'
  end.

(** The body of [if(header->next == NULL)]: walk back, empty the directory
    when the walk reached [first], move the break. *)
Definition release_tail (fuel : nat) (header : Z) : M (state R) unit :=
  curr ← free_walk fuel header;
  fs ← get_first;
  (if decide (curr = fs) then set_first NULL else mret tt);;
  sys_brk curr;;
  mret tt.

Definition free (fuel : nat) (address : Z) : M (state R) unit :=
  if decide (address = NULL) then mret tt
  else
    let header := hdr_of address in
    set_free header 1;;
    n ← get_next header;
    if decide (n = NULL) then release_tail fuel header else mret tt.

(** The loop of [free_with_caution], from [curr]; [wfuel] is the fuel of
    the walk back. *)
Fixpoint caution_scan (wfuel fuel : nat) (header curr : Z) : M (state R) unit :=
  match fuel with
  | O => out_of_fuel
  | S f =>
      if decide (curr = NULL) then mret tt
      else if decide (curr = header) then
        set_free curr 1;;
        n ← get_next curr;
        if decide (n = NULL) then release_tail wfuel curr else mret tt
      else n ← get_next curr; caution_scan wfuel f header n
  end.

Definition free_with_caution (fuel : nat) (address : Z) : M (state R) unit :=
  curr ← get_first;
  if decide (address = NULL) then mret tt
  else caution_scan fuel fuel (hdr_of address) curr.

End Dealloc.

(** ** A heap to run on *)

(** Three tiled blocks in use. *)
Definition busy_blocks : list block :=
  [Block 4096 40 0; Block 4168 100 0; Block 4300 32 0].

Definition busy : state sim_region :=
  State (lay busy_blocks ∅) (SimRegion 4096 4364 8192) 4096.

(** ** Lists *)

Lemma head_addr_snoc l b nx nx' : head_addr (l ++ [b]) nx = head_addr (l ++ [b]) nx'.
Proof. by destruct l. Qed.

(** The first block of a list in address order is not a later one. *)
Lemma sorted_head_ne pre c post :
  pre <> [] -> sorted (pre ++ c :: post) -> b_addr c <> head_addr (pre ++ c :: post) NULL.
Proof.
  intros Hne Hs. apply sorted_left in Hs. destruct pre as [|x pre]; [done|].
  apply Forall_cons in Hs as [Hx _]. unfold before in Hx. cbn. mod_lia.
Qed.

Lemma snoc_middle {A} (l1 l2 : list A) x y l3 :
  l1 ++ (l2 ++ [x]) ++ y :: l3 = (l1 ++ l2) ++ x :: y :: l3.
Proof. by rewrite <- !app_assoc. Qed.

Lemma sorted_next_ne pre p c post :
  sorted (pre ++ p :: c :: post) -> b_addr c <> head_addr (pre ++ p :: c :: post) NULL.
Proof.
  rewrite (cons_middle p pre), app_assoc. apply sorted_head_ne. by destruct pre.
Qed.

Lemma held_snoc keep k : held (keep ++ [k]) <-> b_free k = 0.
Proof. unfold held. by rewrite last_snoc. Qed.

Section DeallocProofs.
Context `{HeapRegion R}.
Implicit Types (s : state R) (bs keep rel pre rest : list block) (b c p : block).

(** ** The walk back *)

(** From a block [c] with only free blocks [r1] between it and the blocks
    that stay, the walk stops at the first block of [r1], or at [c] when
    there is none.  It reads and does not write. *)
Lemma free_walk_list s keep r1 c r2 fuel :
  sorted (keep ++ r1 ++ c :: r2) -> repr s (keep ++ r1 ++ c :: r2) ->
  Forall (fun b => b_free b <> 0) r1 -> held keep -> (length r1 < fuel)%nat ->
  free_walk fuel (b_addr c) s = Ok (head_addr (r1 ++ [c]) NULL, s).
Proof.
  revert c r2 fuel.
  induction r1 as [|p r1 IH] using rev_ind; intros c r2 fuel Hs Hr Hfree Hheld Hf;
    (destruct fuel as [|f]; [cbn in Hf; lia|]); cbn [free_walk];
    rewrite run_get_first.
  - rewrite (proj1 Hr). cbn [app] in *. destruct keep as [|k keep _] using rev_ind.
    { cbn. by rewrite decide_True. }
    rewrite decide_False by (apply sorted_head_ne; [by destruct keep|done]).
    rewrite (run_get_prev _ _ _ _ (proj2 (repr_at _ _ _ _ Hr))). cbn [h_prev].
    rewrite last_addr_snoc. rewrite <- app_assoc in Hr.
    rewrite (run_get_free _ _ _ _ (proj2 (repr_at _ _ _ _ Hr))). cbn [h_free].
    apply held_snoc in Hheld. by rewrite decide_True.
  - rewrite snoc_middle in Hs, Hr.
    rewrite (proj1 Hr), decide_False by (by apply sorted_next_ne).
    pose proof (proj2 (repr_next _ _ _ _ _ Hr)) as Hc.
    rewrite (run_get_prev _ _ _ _ Hc). cbn [h_prev].
    rewrite (run_get_free _ _ _ _ (proj2 (repr_at _ _ _ _ Hr))). cbn [h_free].
    apply Forall_app in Hfree as [Hfree Hpf%Forall_inv].
    rewrite decide_False, (run_get_prev _ _ _ _ Hc) by done. cbn [h_prev].
    rewrite <- app_assoc in Hs, Hr.
    rewrite (IH p (c :: r2) f Hs Hr Hfree Hheld); [|rewrite length_app in Hf; cbn in Hf; lia].
    by rewrite <- app_assoc, !head_addr_app.
Qed.

(** ** Giving the end of the heap back *)

(** Moving the break down to an address of the heap. *)
Lemma brk_run s a :
  state_ok s -> heap_lo (s_reg s) <= a <= heap_hi (s_reg s) ->
  exists s', (sys_brk a;; mret tt) s = Ok (tt, s') /\
    state_ok s' /\ heap_lo (s_reg s') = heap_lo (s_reg s) /\ heap_hi (s_reg s') = a /\
    s_mem s' = s_mem s /\ s_first s' = s_first s /\ s_reg s' = snd (brk a (s_reg s)).
Proof.
  intros Hok Ha.
  destruct (run_brk_shrink s a (fun _ => mret tt) Hok Ha) as (r' & Hreg & Hok' & Hlo & Hhi & ->).
  by exists (upd_reg r' s).
Qed.

(** The blocks before [x] are below its header: they stay in the heap
    when the break moves there. *)
Lemma seg_below s s' keep x tl :
  sorted (keep ++ x :: tl) -> repr s (keep ++ x :: tl) ->
  heap_lo (s_reg s') = heap_lo (s_reg s) -> heap_hi (s_reg s') = b_addr x ->
  s_mem s' = s_mem s -> seg s' NULL keep (b_addr x).
Proof.
  intros Hs [_ Hr] Hlo Hhi Hm. apply seg_app in Hr as [Hk _].
  apply (seg_move s s' (fun _ => False)); [by intros a _; rewrite Hm| |done].
  apply sorted_left in Hs. apply Forall_forall. intros b Hb. split; [|by intros a _ []].
  pose proof (seg_valid _ _ _ _ _ Hk Hb) as [Hv _].
  rewrite Forall_forall in Hs. specialize (Hs b Hb). unfold valid, before in *. lia.
Qed.

(** [release_tail] from the last block [c]: the break moves to the first
    of the free blocks [rel] before [c] (to [c] when there is none), and
    [first] is reset when no block stays.  The blocks that stay are
    untouched: the last of them still has the address of the first block
    given back as its [next]. *)
Lemma release_tail_list s keep rel c fuel :
  state_ok s -> sorted (keep ++ rel ++ [c]) -> repr s (keep ++ rel ++ [c]) ->
  Forall (fun b => b_free b <> 0) rel -> held keep -> (length rel < fuel)%nat ->
  exists s', release_tail fuel (b_addr c) s = Ok (tt, s') /\
    state_ok s' /\ heap_lo (s_reg s') = heap_lo (s_reg s) /\
    heap_hi (s_reg s') = head_addr (rel ++ [c]) NULL /\
    s_mem s' = s_mem s /\ s_first s' = head_addr keep NULL /\
    seg s' NULL keep (head_addr (rel ++ [c]) NULL) /\
    s_reg s' = snd (brk (head_addr (rel ++ [c]) NULL) (s_reg s)).
Proof.
  intros Hok Hs Hr Hfree Hheld Hf. unfold release_tail.
  rewrite (bind_ok _ _ _ _ _ (free_walk_list s keep rel c [] fuel Hs Hr Hfree Hheld Hf)).
  rewrite run_get_first, (proj1 Hr).
  destruct (rel ++ [c]) as [|x tl] eqn:E; [by destruct rel|]. cbn [head_addr].
  pose proof (proj1 (proj2 (repr_at _ _ _ _ Hr))) as Hv.
  destruct keep as [|k keep]; cbn [app head_addr].
  - rewrite decide_True, run_set_first by done.
    destruct (brk_run (upd_first NULL s) (b_addr x)) as (s' & -> & ? & ? & ? & ? & ? & ?);
      [done|unfold valid in Hv; cbn; mod_lia|].
    exists s'. split_and!; [done..|apply seg_nil|done].
  - rewrite decide_False by (by apply (sorted_head_ne (k :: keep) x tl)).
    rewrite bind_ret_at.
    destruct (brk_run s (b_addr x)) as (s' & -> & ? & ? & ? & ? & Hf' & ?);
      [done|unfold valid in Hv; mod_lia|].
    exists s'. rewrite Hf', (proj1 Hr). split_and!; [done..| |done]. by eapply seg_below.
Qed.

(** ** [free] *)

(** The header of the data address of a header in the heap. *)
Lemma hdr_of_data s h :
  state_ok s -> valid s h SIZEOF_HEADER ->
  hdr_of (h + SIZEOF_HEADER) = h /\ h + SIZEOF_HEADER <> NULL.
Proof. intros Hok Hv. pose proof (valid_bounds _ _ _ Hok Hv). mod_lia. Qed.

(** The code both functions run on the header of the block: mark it free
    and release the end of the heap when it is the last block. *)
Lemma free_unfold s h fuel :
  state_ok s -> valid s h SIZEOF_HEADER ->
  free fuel (h + SIZEOF_HEADER) s =
  (set_free h 1;; n ← get_next h;
   if decide (n = NULL) then release_tail fuel h else mret tt) s.
Proof.
  intros Hok Hv. destruct (hdr_of_data s h Hok Hv) as [E ?].
  unfold free. by rewrite decide_False, E.
Qed.

(** A block with a successor is only marked. *)
Lemma free_inner_list s pre b n rest fuel :
  state_ok s -> sorted (pre ++ b :: n :: rest) -> repr s (pre ++ b :: n :: rest) ->
  exists s', free fuel (b_addr b + SIZEOF_HEADER) s = Ok (tt, s') /\
    repr s' (pre ++ freed b :: n :: rest) /\
    frame s s' (fun a => a = b_addr b + OFF_FREE).
Proof.
  intros Hok Hs Hr. rewrite free_unfold by (done || apply (repr_at _ _ _ _ Hr)).
  destruct (set_free_list s pre b (n :: rest) 1 Hs Hr) as (s' & Hrun & Hr' & Hf); [lia|].
  rewrite (bind_ok _ _ _ _ _ Hrun). exists s'. split; [|done].
  pose proof (repr_at _ _ _ _ Hr') as [_ Hb]. cbn [b_addr] in Hb.
  rewrite (run_get_next _ _ _ _ Hb). cbn [h_next head_addr].
  by rewrite decide_False by apply (repr_next _ _ _ _ _ Hr).
Qed.

(** The last block: the free blocks [rel] before it go with it. *)
Lemma free_tail_list s keep rel b fuel :
  state_ok s -> sorted (keep ++ rel ++ [b]) -> repr s (keep ++ rel ++ [b]) ->
  Forall (fun x => b_free x <> 0) rel -> held keep -> (length rel < fuel)%nat ->
  exists s', free fuel (b_addr b + SIZEOF_HEADER) s = Ok (tt, s') /\
    state_ok s' /\ heap_lo (s_reg s') = heap_lo (s_reg s) /\
    heap_hi (s_reg s') = head_addr (rel ++ [b]) NULL /\
    s_first s' = head_addr keep NULL /\
    seg s' NULL keep (head_addr (rel ++ [b]) NULL) /\
    s_reg s' = snd (brk (head_addr (rel ++ [b]) NULL) (s_reg s)).
Proof.
  intros Hok Hs Hr Hfree Hheld Hf. rewrite app_assoc in Hs, Hr.
  rewrite free_unfold by (done || apply (repr_at _ _ _ _ Hr)).
  destruct (set_free_list s _ b [] 1 Hs Hr) as (s1 & Hrun & Hr1 & Hf1); [lia|].
  rewrite (bind_ok _ _ _ _ _ Hrun). apply set_free_sorted with (v := 1) in Hs.
  pose proof (repr_at _ _ _ _ Hr1) as [_ Hb]. cbn [b_addr] in Hb.
  rewrite (run_get_next _ _ _ _ Hb). cbn [h_next head_addr]. rewrite decide_True by done.
  rewrite <- app_assoc in Hs, Hr1.
  destruct (release_tail_list s1 keep rel (freed b) fuel)
    as (s' & Hrun' & ? & Hlo & Hhi & ? & ? & Hk & Hreg); [by eapply frame_state_ok|done..|].
  rewrite !head_addr_app in *. cbn [head_addr b_addr freed] in *.
  exists s'. rewrite Hrun', Hlo, <- (proj1 Hf1). by split_and!.
Qed.

(** ** A block outside the list *)

(** Setting the free flag of a header. *)
Lemma set_free_run s h hd v :
  hdr_at s h hd -> 0 <= v < 256 ->
  exists s', set_free h v s = Ok (tt, s') /\
    frame s s' (fun a => a = h + OFF_FREE) /\
    hdr_at s' h (mkHeader (h_next hd) (h_prev hd) (h_size hd) v).
Proof.
  intros Hb Hv. pose proof Hb as [Hvb _]. hdr_fields. unfold_acc. mstep.
  eexists. split; [done|]. split; [solve_frame|solve_hdr].
Qed.

(** [free] on a block that is not [first], whose header has no [next] and
    names a block in use as its [prev]: the block looks like the last one
    of the list, and the break moves to its header, whatever lies above
    it. *)
Lemma free_unlinked_run s h hd hp fuel :
  state_ok s -> hdr_at s h hd -> h_next hd = NULL -> h <> s_first s ->
  hdr_at s (h_prev hd) hp -> h_free hp = 0 -> h_prev hd + SIZEOF_HEADER <= h ->
  (0 < fuel)%nat ->
  exists s', free fuel (h + SIZEOF_HEADER) s = Ok (tt, s') /\
    state_ok s' /\ s_reg s' = snd (brk h (s_reg s)) /\ heap_hi (s_reg s') = h /\
    s_first s' = s_first s /\
    same_bytes (fun a => a = h + OFF_FREE) (s_mem s) (s_mem s').
Proof.
  intros Hok Hb Hnx Hne Hp Hpf Hlt Hf. rewrite free_unfold by (done || apply Hb).
  destruct (set_free_run s h hd 1 Hb) as (s1 & E1 & Hfr & Hb1); [lia|].
  assert (hdr_at s1 (h_prev hd) hp) as Hp1.
  { eapply frame_hdr_at; [done| |done]. intros a Ha. mod_lia. }
  pose proof Hfr as (Hreg & Hfst & Hm). pose proof (frame_state_ok _ _ _ Hfr Hok) as Hok1.
  rewrite (bind_ok _ _ _ _ _ E1), (run_get_next _ _ _ _ Hb1). cbn [h_next].
  rewrite Hnx, decide_True by done. unfold release_tail.
  destruct fuel as [|f]; [lia|]. cbn [free_walk].
  rewrite !bind_assoc_at, run_get_first, Hfst, decide_False by done.
  rewrite !bind_assoc_at, (run_get_prev _ _ _ _ Hb1). cbn [h_prev].
  rewrite !bind_assoc_at, (run_get_free _ _ _ _ Hp1), Hpf, decide_True by done.
  rewrite bind_ret_at, run_get_first, Hfst, decide_False, bind_ret_at by done.
  destruct (brk_run s1 h) as (s' & -> & ? & _ & ? & Hm' & Hf' & Hr'); [done|..].
  { pose proof (proj1 Hb1). pose proof (proj1 Hp1). unfold valid in *. mod_lia. }
  exists s'. rewrite Hr', Hreg in *. by rewrite Hm', Hf', Hfst.
Qed.

(** ** [free_with_caution] *)

(** The scan passes the blocks whose header is not the one looked for. *)
Lemma caution_scan_pass s pre mid rest wfuel fuel h :
  repr s (pre ++ mid ++ rest) -> untracked h mid -> (length mid <= fuel)%nat ->
  caution_scan wfuel (fuel + 1) h (head_addr (mid ++ rest) NULL) s =
  caution_scan wfuel (fuel - length mid + 1) h (head_addr rest NULL) s.
Proof.
  revert pre fuel. induction mid as [|b mid IH]; intros pre fuel Hr Hu Hf.
  { cbn. by rewrite Nat.sub_0_r. }
  destruct fuel as [|f]; [cbn in Hf; lia|]. apply Forall_cons in Hu as [Hb Hu].
  cbn [caution_scan app head_addr Nat.add]. change (repr s (pre ++ b :: mid ++ rest)) in Hr.
  pose proof (repr_at _ _ _ _ Hr) as [Hn Hh].
  rewrite decide_False, decide_False, (run_get_next _ _ _ _ Hh) by done. cbn [h_next].
  rewrite (cons_middle b pre), app_assoc in Hr.
  rewrite (IH _ f Hr Hu) by (cbn in Hf; lia). done.
Qed.

(** A header that is not in the list: nothing happens. *)
Lemma free_with_caution_skip s bs fuel address :
  repr s bs -> untracked (hdr_of address) bs -> (length bs < fuel)%nat ->
  free_with_caution fuel address s = Ok (tt, s).
Proof.
  intros Hr Hu Hf. unfold free_with_caution. rewrite run_get_first, (proj1 Hr).
  case_decide; [done|]. destruct fuel as [|f]; [lia|].
  replace (S f) with (f + 1)%nat at 2 by lia.
  rewrite <- (app_nil_r bs) at 1.
  rewrite (caution_scan_pass s [] bs [] _ f); [|by rewrite app_nil_r|done|lia].
  replace (f - length bs + 1)%nat with (S (f - length bs)) by lia. cbn.
  by rewrite decide_True.
Qed.

(** A header of the list: the scan reaches it and runs the code of
    [free]. *)
Lemma free_with_caution_found s pre b rest fuel :
  state_ok s -> sorted (pre ++ b :: rest) -> repr s (pre ++ b :: rest) ->
  (length pre < fuel)%nat ->
  free_with_caution fuel (b_addr b + SIZEOF_HEADER) s = free fuel (b_addr b + SIZEOF_HEADER) s.
Proof.
  intros Hok Hs Hr Hf. pose proof (repr_at _ _ _ _ Hr) as [Hn [Hv _]].
  rewrite free_unfold by done. destruct (hdr_of_data s _ Hok Hv) as [E ?].
  unfold free_with_caution. rewrite run_get_first, (proj1 Hr), decide_False, E by done.
  destruct fuel as [|f]; [lia|]. replace (S f) with (f + 1)%nat at 2 by lia.
  rewrite (caution_scan_pass s [] pre (b :: rest) _ f); [|done| |lia].
  - replace (f - length pre + 1)%nat with (S (f - length pre)) by lia.
    cbn [caution_scan head_addr]. by rewrite decide_False, decide_True.
  - apply sorted_left in Hs. eapply Forall_impl; [exact Hs|].
    unfold before. intros x Hx. mod_lia.
Qed.

(** ** What the walk leaves behind *)

(** A chain of headers that ends at an address outside the heap is not a
    list: no list of blocks is in memory from the same first header. *)
Lemma seg_dangling s pv keep a bs :
  keep <> [] -> seg s pv keep a -> a <> NULL -> ~ valid s a SIZEOF_HEADER ->
  head_addr bs NULL = head_addr keep NULL -> ~ seg s pv bs NULL.
Proof.
  intros Hne Hk Ha Hv. revert pv bs Hne Hk.
  induction keep as [|k keep IH]; intros pv bs Hne Hk E Hbs; [done|].
  apply seg_cons in Hk as (Hkn & [_ Hk] & Hrest). destruct bs as [|b bs]; [done|].
  cbn in E. apply seg_cons in Hbs as (_ & [_ Hb] & Hbs). rewrite E in *.
  rewrite Hk in Hb. injection Hb as Hnx _ _.
  destruct keep as [|k' keep]; cbn [head_addr] in *.
  - destruct bs as [|b' bs]; [done|]. apply seg_cons in Hbs as (_ & [Hv' _] & _).
    cbn in Hnx. by rewrite <- Hnx in Hv'.
  - by apply (IH (b_addr k) bs).
Qed.

(** ** Invariants

    The walk back only reads.  [free] and [free_with_caution] assign
    [first] in [release_tail] only: they keep every property that the
    stores and [release_tail] keep. *)

Lemma keeps_free_walk (P : state R -> Prop) fuel curr : keeps P (free_walk fuel curr).
Proof. revert curr. induction fuel as [|f IH]; intros curr; cbn [free_walk]; keeps_tac. Qed.

Lemma keeps_release_tail lo fuel header : keeps (based lo) (release_tail fuel header).
Proof. unfold release_tail. pose proof keeps_free_walk. keeps_tac. Qed.

Section DeallocInvariant.
Context (P : state R -> Prop) `{!Stable P}.
Context (Hrel : forall fuel header, keeps P (release_tail fuel header)).

Lemma keeps_free fuel address : keeps P (free fuel address).
Proof. unfold free. keeps_tac. Qed.

Lemma keeps_caution_scan wfuel fuel header curr :
  keeps P (caution_scan wfuel fuel header curr).
Proof. revert curr. induction fuel as [|f IH]; intros curr; cbn [caution_scan]; keeps_tac. Qed.

Lemma keeps_free_with_caution fuel address : keeps P (free_with_caution fuel address).
Proof. unfold free_with_caution. pose proof keeps_caution_scan. keeps_tac. Qed.

End DeallocInvariant.

(** ** The properties of the deallocator *)

(** Freeing a block that has a successor only sets its flag: the
    directory is the same list with the block free, in the same
    address order, and one byte of memory changed. *)
Theorem free_marks_inner s pre b n rest fuel :
  state_ok s -> sorted (pre ++ b :: n :: rest) -> repr s (pre ++ b :: n :: rest) ->
  exists s', free fuel (b_addr b + SIZEOF_HEADER) s = Ok (tt, s') /\
    repr s' (pre ++ freed b :: n :: rest) /\ sorted (pre ++ freed b :: n :: rest) /\
    frame s s' (fun a => a = b_addr b + OFF_FREE).
Proof.
  intros Hok Hs Hr. destruct (free_inner_list s pre b n rest fuel Hok Hs Hr) as (s' & ? & ? & ?).
  exists s'. split_and!; [done..|by apply set_free_sorted|done].
Qed.

(** C8. Freeing the last block when every block before it is free
    empties the directory and moves the break down to the first block.  In
    particular freeing the only block returns the break to where it was
    before the block was created. *)
Theorem free_tail_empties s rel b fuel :
  state_ok s -> sorted (rel ++ [b]) -> repr s (rel ++ [b]) ->
  Forall (fun x => b_free x <> 0) rel -> (length rel < fuel)%nat ->
  exists s', free fuel (b_addr b + SIZEOF_HEADER) s = Ok (tt, s') /\
    state_ok s' /\ repr s' [] /\ heap_hi (s_reg s') = head_addr (rel ++ [b]) NULL /\
    s_reg s' = snd (brk (head_addr (rel ++ [b]) NULL) (s_reg s)).
Proof.
  intros Hok Hs Hr Hfree Hf.
  destruct (free_tail_list s [] rel b fuel Hok Hs Hr Hfree I Hf)
    as (s' & ? & ? & _ & ? & ? & ? & ?).
  exists s'. split_and!; [done..|by apply repr_nil|done|done].
Qed.

(** C13. Freeing the last block when a block in use stays before it:
    the break moves down to the first block of the trailing free run, but
    the last block that stays is not unlinked.  Its [next] is the address
    of the break, outside the heap, and from then on no list of blocks is
    in memory at [first]. *)
Theorem free_tail_dangling s keep k rel b fuel :
  state_ok s -> sorted ((keep ++ [k]) ++ rel ++ [b]) -> repr s ((keep ++ [k]) ++ rel ++ [b]) ->
  Forall (fun x => b_free x <> 0) rel -> b_free k = 0 -> (length rel < fuel)%nat ->
  exists s', free fuel (b_addr b + SIZEOF_HEADER) s = Ok (tt, s') /\
    heap_hi (s_reg s') = head_addr (rel ++ [b]) NULL /\
    rd_next (s_mem s') (b_addr k) = heap_hi (s_reg s') /\
    forall bs, ~ repr s' bs.
Proof.
  intros Hok Hs Hr Hfree Hk Hf. apply (held_snoc keep) in Hk.
  destruct (free_tail_list s _ rel b fuel Hok Hs Hr Hfree Hk Hf)
    as (s' & ? & Hok' & _ & Hhi & Hfst & Hseg & _).
  exists s'. rewrite <- Hhi in Hseg. split_and!; [done..| |].
  - apply seg_app in Hseg as [_ (_ & [_ Hh] & _)%seg_cons]. by apply (f_equal h_next) in Hh.
  - intros bs [E Hbs]. rewrite Hfst in E. revert Hbs.
    apply (seg_dangling s' NULL (keep ++ [k]) (heap_hi (s_reg s'))); [by destruct keep|done| | |done].
    + pose proof (region_ok_bounds _ Hok'). mod_lia.
    + unfold valid. mod_lia.
Qed.

(** [free_with_caution] on an address whose header is not in the
    directory is a no-op: with more fuel than blocks it returns and the
    state, memory included, is the same. *)
Theorem free_with_caution_untracked s bs fuel address :
  repr s bs -> untracked (hdr_of address) bs -> (length bs < fuel)%nat ->
  free_with_caution fuel address s = Ok (tt, s).
Proof. apply free_with_caution_skip. Qed.

(** On the data address of a block of the directory
    [free_with_caution] does what [free] does. *)
Theorem free_with_caution_tracked s pre b rest fuel :
  state_ok s -> sorted (pre ++ b :: rest) -> repr s (pre ++ b :: rest) ->
  (length pre < fuel)%nat ->
  free_with_caution fuel (b_addr b + SIZEOF_HEADER) s = free fuel (b_addr b + SIZEOF_HEADER) s.
Proof. apply free_with_caution_found. Qed.

(** [free] trusts its argument: on an address whose header is not in the
    heap it faults at the header's free flag. *)
Lemma free_above_break s fuel address :
  address <> NULL -> ~ valid s (hdr_of address + OFF_FREE) 1 ->
  free fuel address s = Fault (hdr_of address + OFF_FREE).
Proof.
  intros Hn Hv. unfold free. rewrite decide_False by done.
  unfold set_free. by rewrite run_store_fault.
Qed.

End DeallocProofs.

#[export] Hint Resolve keeps_release_tail keeps_free keeps_free_with_caution : keeps.

(** ** The properties at work *)

Lemma busy_ok : state_ok busy.
Proof. apply (bool_decide_unpack _). by vm_compute. Qed.

Lemma busy_repr : repr busy busy_blocks.
Proof. apply (bool_decide_unpack _). by vm_compute. Qed.

Lemma busy_sorted : sorted busy_blocks.
Proof. apply (bool_decide_unpack _). by vm_compute. Qed.

Lemma free_marks_inner_witness :
  exists s', free 1 4200 busy = Ok (tt, s') /\
    repr s' [Block 4096 40 0; Block 4168 100 1; Block 4300 32 0] /\
    sorted [Block 4096 40 0; Block 4168 100 1; Block 4300 32 0] /\
    frame busy s' (fun a => a = 4168 + OFF_FREE).
Proof.
  exact (free_marks_inner busy [Block 4096 40 0] (Block 4168 100 0) (Block 4300 32 0) [] 1
           busy_ok busy_sorted busy_repr).
Defined.

Lemma free_tail_empties_witness :
  exists s', free 3 4332 demo = Ok (tt, s') /\
    state_ok s' /\ repr s' [] /\ heap_hi (s_reg s') = 4096 /\
    s_reg s' = SimRegion 4096 4096 8192.
Proof.
  refine (free_tail_empties demo [Block 4096 40 1; Block 4168 100 1] (Block 4300 32 0) 3
            demo_ok demo_sorted demo_repr _ _); apply (bool_decide_unpack _); by vm_compute.
Defined.

Lemma free_tail_dangling_witness :
  exists s', free 1 4332 busy = Ok (tt, s') /\
    heap_hi (s_reg s') = 4300 /\
    rd_next (s_mem s') 4168 = heap_hi (s_reg s') /\
    forall bs, ~ repr s' bs.
Proof.
  refine (free_tail_dangling busy [Block 4096 40 0] (Block 4168 100 0) [] (Block 4300 32 0) 1
            busy_ok busy_sorted busy_repr _ _ _); apply (bool_decide_unpack _); by vm_compute.
Defined.

Lemma free_with_caution_untracked_witness : free_with_caution 4 4250 busy = Ok (tt, busy).
Proof.
  apply (free_with_caution_untracked busy busy_blocks 4 4250 busy_repr);
    apply (bool_decide_unpack _); by vm_compute.
Defined.

Lemma free_with_caution_tracked_witness : free_with_caution 3 4200 busy = free 3 4200 busy.
Proof.
  refine (free_with_caution_tracked busy [Block 4096 40 0] (Block 4168 100 0) [Block 4300 32 0] 3
            busy_ok busy_sorted busy_repr _).
  apply (bool_decide_unpack _). by vm_compute.
Defined.
