(* ===== verification/Realloc.v ===== *)
(** * The Reallocator: [realloc] and [copy_data]

    [realloc] of [src/dynalloc.c] with its four paths: the shrink path
    guarded by [size_diff < 0], the growth of the last block by moving the
    break, the absorption of the free blocks after the block
    ([realloc_absorb]), and the fall back to [malloc], [copy_data] and
    [free].  [size_diff] is a [size_t]: the theorems show that the first
    path is never taken, that resizing the last block, up or down, moves
    the break by the signed difference, also when the system refuses, what
    [copy_data] copies, and what the fall back does in a directory of
    blocks in use: a grown block moves to the break, a shrunk block makes
    [copy_data] store past the new block.  The absorption is in
    [Absorb.v], the fall back on any directory in [Move.v], the whole
    function on lists in [Resize.v]. *)

From Stdlib Require Import ZArith Lia.
From stdpp Require Import prelude sorting gmap.
From S2P Require Import Prelude.
From S2P Require Import Memory.
From S2P Require Import Region.
From S2P Require Import Machine.
From S2P Require Import Directory.
From S2P Require Import Alloc.
From S2P Require Import Dealloc.

#[local] Open Scope Z_scope.

(** [size_t size_diff = size - header->size]. *)
Definition size_diff (size old : Z) : Z := wrap (size - old).

(** The block with another size. *)
Definition resized (b : block) (size : Z) : block := Block (b_addr b) size (b_free b).

Section Realloc.
Context `{HeapRegion R}.

(** ** The source *)

(** The loop of [copy_data], from index [i]: the bound [src->size] is read
    at every iteration. *)
Fixpoint copy_loop (fuel : nat) (src dst i : Z) : M (state R) unit :=
  match fuel with
  | O => out_of_fuel
  | S f =>
      sz ← get_size src;
      if decide (i < sz) then
        v ← load 1 (wrap (data_of src + i));
        store 1 (wrap (data_of dst + i)) v;;
        copy_loop f src dst (wrap (i + 1))
      else mret tt
  end.

Definition copy_data (fuel : nat) (src dst : Z) : M (state R) unit :=
  copy_loop fuel src dst 0.

(** [while(((header->next)->next)->free) merge_blocks(header->next,
    (header->next)->next);]. *)
Fixpoint absorb_run (fuel : nat) (header : Z) : M (state R) unit :=
  match fuel with
  | O => out_of_fuel
  | S f =>
      n ← get_next header;
      nn ← get_next n;
      nnf ← get_free nn;
      if decide (nnf = 0) then mret tt
      else
        n1 ← get_next header;
        n2 ← get_next header;
        nn2 ← get_next n2;
        merge_blocks n1 nn2;;
        absorb_run f header
  end.

(** The block [if((header->next)->free) ...]: [true] when it returned
    [address]. *)
Definition realloc_absorb (fuel : nat) (header diff : Z) : M (state R) bool :=
  n ← get_next header;
  nf ← get_free n;
  if decide (nf = 0) then mret false
  else
    absorb_run fuel header;;
    n1 ← get_next header;
    nsz ← get_size n1;
    if decide (diff <= nsz) then
      n2 ← get_next header;
      split_block n2 diff;;
      n3 ← get_next header;
      merge_blocks header n3;;
      mret true
    else mret false.

(** The last lines: allocate, copy, free. *)
Definition realloc_move (fuel : nat) (address size header : Z) : M (state R) Z :=
  new_address ← malloc fuel size;
  if decide (new_address = NULL) then mret NULL
  else
    copy_data fuel header (hdr_of new_address);;
    free fuel address;;
    mret new_address.

Definition realloc (fuel : nat) (address size : Z) : M (state R) Z :=
  if decide (address = NULL) then mret NULL
  else
    let header := hdr_of address in
    old ← get_size header;
    let diff := size_diff size old in
    if decide (diff < 0) then split_block header size;; mret address
    else
      n ← get_next header;
      if decide (n = NULL) then
        sys_sbrk diff;;
        set_size header size;;
        mret address
      else
        absorbed ← realloc_absorb fuel header diff;
        if (absorbed : bool) then mret address else realloc_move fuel address size header.

End Realloc.

(** ** The difference is never negative *)

Lemma size_diff_range size old : 0 <= size_diff size old < SIZE_MOD.
Proof. apply wrap_range. Qed.

Lemma size_diff_not_neg size old : ~ size_diff size old < 0.
Proof. pose proof (size_diff_range size old). lia. Qed.

(** Read as a signed number it is the difference, within half the range. *)
Lemma size_diff_signed size old :
  is_size size -> is_size old -> - SIZE_HALF <= size - old < SIZE_HALF ->
  signed (size_diff size old) = size - old.
Proof. unfold size_diff. mod_lia. Qed.

Section ReallocProofs.
Context `{HeapRegion R}.
Implicit Types (s : state R) (bs pre rest : list block) (b : block).

(** ** Resizing the last block *)

(** On a header without successor [realloc] takes the second path. *)
Lemma realloc_to_resize s h hd fuel size :
  state_ok s -> hdr_at s h hd -> h_next hd = NULL ->
  realloc fuel (h + SIZEOF_HEADER) size s =
  (sys_sbrk (size_diff size (h_size hd));; set_size h size;; mret (h + SIZEOF_HEADER)) s.
Proof.
  intros Hok Hb Hnx. destruct (hdr_of_data s _ Hok (proj1 Hb)) as [E Hnn].
  unfold realloc. rewrite decide_False, E by done.
  rewrite (run_get_size _ _ _ _ Hb).
  rewrite decide_False by apply size_diff_not_neg.
  by rewrite (run_get_next _ _ _ _ Hb), Hnx, decide_True.
Qed.

(** On a header without successor [realloc] moves the break by the signed
    difference, up or down, and records the new size, whatever lies above
    the block. *)
Lemma realloc_resize_run s h hd fuel size :
  state_ok s -> hdr_at s h hd -> h_next hd = NULL ->
  is_size size -> - SIZE_HALF <= size - h_size hd < SIZE_HALF ->
  h + SIZEOF_HEADER <= heap_hi (s_reg s) + (size - h_size hd) ->
  fst (sbrk (size - h_size hd) (s_reg s)) <> SBRK_FAILED ->
  exists s', realloc fuel (h + SIZEOF_HEADER) size s = Ok (h + SIZEOF_HEADER, s') /\
    state_ok s' /\ s_reg s' = snd (sbrk (size - h_size hd) (s_reg s)) /\
    s_first s' = s_first s /\
    heap_hi (s_reg s') = heap_hi (s_reg s) + (size - h_size hd) /\
    hdr_at s' h (mkHeader NULL (h_prev hd) size (h_free hd)) /\
    same_bytes (fun a => h + OFF_SIZE <= a < h + OFF_FREE) (s_mem s) (s_mem s').
Proof.
  intros Hok Hb Hnx Hsz Hd Hfit Hsb. rewrite (realloc_to_resize s h hd) by done.
  pose proof (hdr_at_sizes _ _ _ Hb) as (_ & _ & Hold & _).
  destruct (run_sbrk_ok s (size_diff size (h_size hd)) (size - h_size hd)
              (fun _ => set_size h size;; mret (h + SIZEOF_HEADER)) Hok)
    as (r' & Hreg & Hok' & Hlo & Hhi & ->); [by apply size_diff_signed|done|].
  clear Hsb Hd. pose proof (region_ok_bounds _ Hok'). pose proof Hb as [Hvb _].
  hdr_fields. unfold set_size. mstep.
  eexists. split; [done|]. split; [done|]. split; [done|]. split; [done|].
  split; [done|]. split; [solve_hdr|solve_same].
Qed.

(** When the system refuses, [realloc] does not notice: the break stays
    where it is, the header records the new size and the address is
    returned. *)
Lemma realloc_resize_failed s h hd fuel size :
  state_ok s -> hdr_at s h hd -> h_next hd = NULL ->
  is_size size -> - SIZE_HALF <= size - h_size hd < SIZE_HALF ->
  fst (sbrk (size - h_size hd) (s_reg s)) = SBRK_FAILED ->
  exists s', realloc fuel (h + SIZEOF_HEADER) size s = Ok (h + SIZEOF_HEADER, s') /\
    s_reg s' = s_reg s /\ s_first s' = s_first s /\
    hdr_at s' h (mkHeader NULL (h_prev hd) size (h_free hd)) /\
    same_bytes (fun a => h + OFF_SIZE <= a < h + OFF_FREE) (s_mem s) (s_mem s').
Proof.
  intros Hok Hb Hnx Hsz Hd Hsb. rewrite (realloc_to_resize s h hd) by done.
  pose proof (hdr_at_sizes _ _ _ Hb) as (_ & _ & Hold & _).
  rewrite (run_sbrk_failed s _ (size - h_size hd)); [|done|by apply size_diff_signed|done].
  pose proof (region_ok_bounds _ Hok). pose proof Hb as [Hvb _].
  hdr_fields. unfold set_size. mstep.
  eexists. split; [done|]. split; [done|]. split; [done|]. split; [solve_hdr|solve_same].
Qed.

(** The list with its last block resized is in memory when the header of
    that block is, and only its size field changed. *)
Lemma resized_list s s' pre b size :
  sorted (pre ++ [b]) -> repr s (pre ++ [b]) ->
  s_first s' = s_first s -> heap_lo (s_reg s') = heap_lo (s_reg s) ->
  hdr_at s' (b_addr b) (mkHeader NULL (last_addr NULL pre) size (b_free b)) ->
  same_bytes (fun a => b_addr b + OFF_SIZE <= a < b_addr b + OFF_FREE) (s_mem s) (s_mem s') ->
  repr s' (pre ++ [resized b size]).
Proof.
  intros Hs [Hf Hseg] Hf' Hlo Hb' Hm. apply seg_app in Hseg as [Hpre (Hn & Hb & _)%seg_cons].
  split; [by rewrite Hf', !head_addr_app in *|]. apply seg_app. split.
  - eapply (seg_move s _ _ _ _ _ Hm); [|done].
    apply Forall_forall. intros x Hx. pose proof (seg_valid _ _ _ _ _ Hpre Hx) as Hvx.
    apply sorted_left in Hs. rewrite Forall_forall in Hs. specialize (Hs x Hx).
    pose proof (proj1 Hb'). unfold before, avoids, valid in *. split; [mod_lia|intros a Ha; mod_lia].
  - apply seg_cons. by split_and!; [..|apply seg_nil].
Qed.

(** The same on the last block of a list in memory. *)
Lemma realloc_tail_list s pre b fuel size :
  state_ok s -> sorted (pre ++ [b]) -> repr s (pre ++ [b]) ->
  is_size size -> - SIZE_HALF <= size - b_size b < SIZE_HALF ->
  b_addr b + SIZEOF_HEADER <= heap_hi (s_reg s) + (size - b_size b) ->
  fst (sbrk (size - b_size b) (s_reg s)) <> SBRK_FAILED ->
  exists s', realloc fuel (b_addr b + SIZEOF_HEADER) size s = Ok (b_addr b + SIZEOF_HEADER, s') /\
    state_ok s' /\ repr s' (pre ++ [resized b size]) /\
    heap_hi (s_reg s') = heap_hi (s_reg s) + (size - b_size b).
Proof.
  intros Hok Hs Hr Hsz Hd Hfit Hsb. pose proof Hr as [_ [_ (_ & Hb & _)%seg_cons]%seg_app].
  destruct (realloc_resize_run s _ _ fuel size Hok Hb) as (s' & E & Hok' & Hreg & Hf' & Hhi & Hb' & Hm);
    [done..|]. cbn [h_size h_prev h_free] in *.
  pose proof (sbrk_lo (size - b_size b) _ Hok) as Hlo. rewrite <- Hreg in Hlo.
  exists s'. split_and!; [done..| |done]. by eapply resized_list.
Qed.

(** The same when the system refuses to move the break: the list records
    the new size all the same. *)
Lemma realloc_tail_failed s pre b fuel size :
  state_ok s -> sorted (pre ++ [b]) -> repr s (pre ++ [b]) ->
  is_size size -> - SIZE_HALF <= size - b_size b < SIZE_HALF ->
  fst (sbrk (size - b_size b) (s_reg s)) = SBRK_FAILED ->
  exists s', realloc fuel (b_addr b + SIZEOF_HEADER) size s = Ok (b_addr b + SIZEOF_HEADER, s') /\
    repr s' (pre ++ [resized b size]) /\ s_reg s' = s_reg s.
Proof.
  intros Hok Hs Hr Hsz Hd Hsb. pose proof Hr as [_ [_ (_ & Hb & _)%seg_cons]%seg_app].
  destruct (realloc_resize_failed s _ _ fuel size Hok Hb) as (s' & E & Hreg & Hf' & Hb' & Hm);
    [done..|]. cbn [h_size h_prev h_free] in *.
  exists s'. split_and!; [done| |done]. eapply resized_list; [done..|by rewrite Hreg|done|done].
Qed.

(** ** Copying *)

(** One byte read as a [char] is the byte. *)
Lemma load_le_1 (m : gmap Z Z) a : load_le 1 m a = load_byte m a.
Proof. cbn. lia. Qed.

Lemma store_le_1 (m : gmap Z Z) a v : store_le 1 m a v = store_byte m a v.
Proof. done. Qed.

(** The loop copies the bytes from index [i] on, when the data of [dst]
    is in the heap and away from the header and the data of [src].  It
    writes nowhere else, and [Z.to_nat (sz - i)] iterations are enough. *)
Lemma copy_loop_run s src dst sz fuel i :
  state_ok s -> valid s src SIZEOF_HEADER -> rd_size (s_mem s) src = sz ->
  valid s (src + SIZEOF_HEADER) sz -> valid s (dst + SIZEOF_HEADER) sz ->
  dst + SIZEOF_HEADER + sz <= src \/ src + SIZEOF_HEADER + sz <= dst + SIZEOF_HEADER ->
  0 <= i <= sz -> (Z.to_nat (sz - i) < fuel)%nat ->
  exists s', copy_loop fuel src dst i s = Ok (tt, s') /\
    frame s s' (fun a => dst + SIZEOF_HEADER + i <= a < dst + SIZEOF_HEADER + sz) /\
    forall j, i <= j < sz ->
      load_byte (s_mem s') (dst + SIZEOF_HEADER + j) = load_byte (s_mem s) (src + SIZEOF_HEADER + j).
Proof.
  intros Hok Hsrc Hsz Hvs Hvd Hdis. revert s i Hok Hsrc Hsz Hvs Hvd.
  induction fuel as [|f IH]; intros s i Hok Hsrc Hsz Hvs Hvd Hi Hf; [lia|].
  cbn [copy_loop]. rewrite (run_get_size s src (rd_header (s_mem s) src)) by done.
  cbn [h_size rd_header]. rewrite Hsz. case_decide as Hlt.
  2:{ exists s. split; [done|]. split; [apply frame_refl|]. intros j Hj. lia. }
  pose proof (valid_bounds _ _ _ Hok Hvs). pose proof (valid_bounds _ _ _ Hok Hvd).
  pose proof (valid_bounds _ _ _ Hok Hsrc).
  assert (wrap (data_of src + i) = src + SIZEOF_HEADER + i) as -> by mod_lia.
  assert (wrap (data_of dst + i) = dst + SIZEOF_HEADER + i) as -> by mod_lia.
  assert (wrap (i + 1) = i + 1) as -> by mod_lia.
  do 2 mstep. rewrite load_le_1, store_le_1.
  set (s1 := upd_mem _ s).
  destruct (IH s1 (i + 1)) as (s' & -> & (Hr & Hfs & Hm) & Hcp); [done..| | | |lia|lia|].
  - subst s1. cbn [s_mem upd_mem]. rewrite <- Hsz. unfold rd_size.
    apply load_le_store_byte_out. mod_lia.
  - done.
  - done.
  - exists s'. split; [done|]. split.
    + split_and!; [done..|]. intros a Ha. rewrite Hm by lia. subst s1. cbn [s_mem upd_mem].
      apply load_store_byte_ne. lia.
    + intros j Hj. destruct (decide (j = i)) as [->|Hne].
      * rewrite Hm by lia. subst s1. cbn [s_mem upd_mem].
        rewrite load_store_byte_eq. apply Z.mod_small, load_byte_range.
      * rewrite Hcp by lia. subst s1. cbn [s_mem upd_mem]. apply load_store_byte_ne. mod_lia.
Qed.

(** ** Moving a block *)

(** A block whose successor is in use cannot grow in place: [realloc]
    falls through to its last lines. *)
Lemma realloc_to_move s pre b n rest fuel size :
  state_ok s -> repr s (pre ++ b :: n :: rest) -> b_free n = 0 ->
  realloc fuel (b_addr b + SIZEOF_HEADER) size s =
  realloc_move fuel (b_addr b + SIZEOF_HEADER) size (b_addr b) s.
Proof.
  intros Hok Hr Hn. pose proof (repr_at _ _ _ _ Hr) as [_ Hb].
  pose proof (repr_next _ _ _ _ _ Hr) as [Hnn Hh].
  destruct (hdr_of_data s _ Hok (proj1 Hb)) as [E ?].
  unfold realloc. rewrite decide_False, E by done.
  rewrite (run_get_size _ _ _ _ Hb). cbn [h_size].
  rewrite decide_False by apply size_diff_not_neg.
  rewrite (run_get_next _ _ _ _ Hb). cbn [h_next head_addr]. rewrite decide_False by done.
  unfold realloc_absorb. rewrite !bind_assoc_at, (run_get_next _ _ _ _ Hb). cbn [h_next head_addr].
  rewrite !bind_assoc_at, (run_get_free _ _ _ _ Hh). cbn [h_free].
  by rewrite Hn, decide_True, bind_ret_at.
Qed.

(** The new block: with every block in use [malloc] extends the heap, and
    the list is as it was. *)
Lemma realloc_move_alloc s bs fuel size :
  state_ok s -> repr s bs -> bs <> [] -> Forall (fun x => b_free x = 0) bs ->
  clamp size + SIZEOF_HEADER < SIZE_HALF ->
  fst (sbrk (clamp size + SIZEOF_HEADER) (s_reg s)) <> SBRK_FAILED ->
  (length bs < fuel)%nat ->
  exists s1, malloc fuel size s = Ok (heap_hi (s_reg s) + SIZEOF_HEADER, s1) /\
    state_ok s1 /\ repr s1 bs /\
    heap_hi (s_reg s1) = heap_hi (s_reg s) + SIZEOF_HEADER + clamp size /\
    hdr_at s1 (heap_hi (s_reg s)) (mkHeader NULL (last_addr NULL bs) (clamp size) 0) /\
    same_bytes (fun a => heap_hi (s_reg s) <= a) (s_mem s) (s_mem s1).
Proof.
  intros Hok Hr Hne Hu Hhalf Hsb Hfuel. rewrite (malloc_all_in_use _ _ _ _ Hr Hu Hfuel).
  pose proof (clamp_bounds size). pose proof (last_addr_size s _ Hok Hr) as Hlast.
  destruct (malloc_extend_run s (clamp size) (last_addr NULL bs) Hok)
    as (s1 & E1 & _ & Hok1 & Hlo1 & Hhi1 & Hf1 & Hh1 & Hm1); [mod_lia|done..|].
  assert (same_bytes (fun a => heap_hi (s_reg s) <= a) (s_mem s) (s_mem s1)) as Hm.
  { intros a Ha. apply Hm1. lia. }
  exists s1. split_and!; [done..| |lia|done|done].
  apply (repr_grow s s1 _ bs Hr Hm); [|done|mod_lia|by apply (repr_below s)].
  rewrite Hf1, decide_False; [done|]. rewrite (proj1 Hr). destruct bs as [|x bs]; [done|].
  apply (repr_at s [] x bs Hr).
Qed.

(** The fall back of [realloc], with every block in use and a new size
    that is not smaller: the block is allocated at the break and not
    linked, the data is copied and the old block is marked free. *)
Lemma realloc_move_list s pre b n rest fuel size :
  state_ok s -> sorted (pre ++ b :: n :: rest) -> repr s (pre ++ b :: n :: rest) ->
  Forall (fun x => b_free x = 0) (pre ++ b :: n :: rest) ->
  b_end b <= heap_hi (s_reg s) -> b_size b <= clamp size ->
  clamp size + SIZEOF_HEADER < SIZE_HALF ->
  fst (sbrk (clamp size + SIZEOF_HEADER) (s_reg s)) <> SBRK_FAILED ->
  (length (pre ++ b :: n :: rest) < fuel)%nat -> (Z.to_nat (b_size b) < fuel)%nat ->
  exists s', realloc fuel (b_addr b + SIZEOF_HEADER) size s =
               Ok (heap_hi (s_reg s) + SIZEOF_HEADER, s') /\
    repr s' (pre ++ freed b :: n :: rest) /\
    hdr_at s' (heap_hi (s_reg s))
      (mkHeader NULL (last_addr NULL (pre ++ b :: n :: rest)) (clamp size) 0) /\
    heap_hi (s_reg s') = heap_hi (s_reg s) + SIZEOF_HEADER + clamp size /\
    forall j, 0 <= j < b_size b ->
      load_byte (s_mem s') (heap_hi (s_reg s) + SIZEOF_HEADER + j) =
      load_byte (s_mem s) (b_addr b + SIZEOF_HEADER + j).
Proof.
  intros Hok Hs Hr Hu Hend Hfit Hhalf Hsb Hfuel Hfuel'.
  assert (b_free n = 0) as Hn.
  { apply Forall_app in Hu as [_ Hu]. by apply Forall_cons in Hu as [_ [? _]%Forall_cons]. }
  rewrite (realloc_to_move _ _ _ _ _ _ _ Hok Hr Hn). unfold realloc_move, copy_data.
  pose proof (repr_at _ _ _ _ Hr) as [_ [Hv0 _]].
  destruct (realloc_move_alloc s _ fuel size Hok Hr) as (s1 & E1 & Hok1 & Hr1 & Hhi1 & Hh1 & Hm1);
    [by destruct pre|done..|].
  rewrite (bind_ok _ _ _ _ _ E1). destruct (hdr_of_data s1 _ Hok1 (proj1 Hh1)) as [E Hnn].
  rewrite decide_False, E by done. pose proof (repr_at _ _ _ _ Hr1) as [_ Hb1].
  pose proof (proj1 Hb1) as Hvb. pose proof (proj1 Hh1) as Hvh. unfold b_end in Hend.
  destruct (copy_loop_run s1 (b_addr b) (heap_hi (s_reg s)) (b_size b) fuel 0)
    as (s2 & E2 & Hfr2 & Hcp);
    [done|done|by apply hdr_at_fields in Hb1 as (_ & _ & _ & ? & _)|..].
  1-5: pose proof (hdr_at_sizes _ _ _ Hb1) as (_ & _ & Hsz & _); cbn in Hsz;
       unfold valid in *; try rewrite Z.sub_0_r; mod_lia.
  rewrite (bind_ok _ _ _ _ _ E2). pose proof Hfr2 as (Hreg2 & Hf2 & Hm2).
  destruct (free_inner_list s2 pre b n rest fuel) as (s3 & E3 & Hr3 & (Hreg3 & _ & Hm3));
    [by eapply frame_state_ok|done| |].
  { apply (repr_grow s1 s2 _ _ Hr1 Hm2); [done|by rewrite Hreg2|by rewrite Hreg2|].
    apply (repr_below s _ _ Hr). intros a Ha. cbn in Ha. mod_lia. }
  rewrite (bind_ok _ _ _ _ _ E3). exists s3. split_and!; [done|done| |congruence|].
  - apply (hdr_at_move s1 s3 (fun a => a < heap_hi (s_reg s) \/ heap_hi (s_reg s) + SIZEOF_HEADER <= a));
      [|unfold valid in *; by rewrite Hreg3, Hreg2|intros a Ha; lia|done].
    intros a Ha. rewrite Hm3, Hm2; [done|cbn; lia|]. unfold valid in Hv0. mod_lia.
  - intros j Hj. rewrite Hm3, Hcp by (unfold valid in *; mod_lia). apply Hm1. lia.
Qed.

(** The loop copies as many bytes as the source says: when the data of
    [dst] has room for [k] bytes only, fewer than the size of [src], the
    store of the byte of index [k] faults. *)
Lemma copy_loop_overrun s src dst sz k fuel i :
  state_ok s -> valid s src SIZEOF_HEADER -> rd_size (s_mem s) src = sz ->
  valid s (src + SIZEOF_HEADER) sz -> valid s (dst + SIZEOF_HEADER) k ->
  ~ valid s (dst + SIZEOF_HEADER + k) 1 -> src + SIZEOF_HEADER + sz <= dst + SIZEOF_HEADER ->
  0 <= i <= k -> k < sz -> (Z.to_nat (k - i) < fuel)%nat ->
  copy_loop fuel src dst i s = Fault (dst + SIZEOF_HEADER + k).
Proof.
  intros Hok Hsrc Hsz Hvs Hvd Hnv Hdis. revert s i Hok Hsrc Hsz Hvs Hvd Hnv.
  induction fuel as [|f IH]; intros s i Hok Hsrc Hsz Hvs Hvd Hnv Hi Hk Hf; [lia|].
  cbn [copy_loop]. rewrite (run_get_size s src (rd_header (s_mem s) src)) by done.
  cbn [h_size rd_header]. rewrite Hsz, decide_True by lia.
  pose proof (valid_bounds _ _ _ Hok Hvs). pose proof (valid_bounds _ _ _ Hok Hvd).
  pose proof (valid_bounds _ _ _ Hok Hsrc).
  assert (wrap (data_of src + i) = src + SIZEOF_HEADER + i) as -> by mod_lia.
  assert (wrap (data_of dst + i) = dst + SIZEOF_HEADER + i) as -> by mod_lia.
  assert (wrap (i + 1) = i + 1) as -> by mod_lia. mstep.
  destruct (decide (i = k)) as [->|Hne]; [rewrite run_store_fault by exact Hnv; reflexivity|].
  mstep. rewrite load_le_1, store_le_1. apply IH; [done|done| |done|done|done|lia|done|lia].
  cbn [s_mem upd_mem]. rewrite <- Hsz. unfold rd_size. apply load_le_store_byte_out. mod_lia.
Qed.

(** The fall back of [realloc] with a smaller size: the new block is
    smaller than the data [copy_data] copies into it, and it is the last
    block of the heap, so the copy runs into the break. *)
Lemma realloc_move_overrun s pre b n rest fuel size :
  state_ok s -> repr s (pre ++ b :: n :: rest) ->
  Forall (fun x => b_free x = 0) (pre ++ b :: n :: rest) ->
  b_end b <= heap_hi (s_reg s) -> clamp size < b_size b ->
  clamp size + SIZEOF_HEADER < SIZE_HALF ->
  fst (sbrk (clamp size + SIZEOF_HEADER) (s_reg s)) <> SBRK_FAILED ->
  (length (pre ++ b :: n :: rest) < fuel)%nat -> (Z.to_nat (clamp size) < fuel)%nat ->
  realloc fuel (b_addr b + SIZEOF_HEADER) size s =
  Fault (heap_hi (s_reg s) + SIZEOF_HEADER + clamp size).
Proof.
  intros Hok Hr Hu Hend Hfit Hhalf Hsb Hfuel Hfuel'.
  assert (b_free n = 0) as Hn.
  { apply Forall_app in Hu as [_ Hu]. by apply Forall_cons in Hu as [_ [? _]%Forall_cons]. }
  rewrite (realloc_to_move _ _ _ _ _ _ _ Hok Hr Hn). unfold realloc_move, copy_data.
  destruct (realloc_move_alloc s _ fuel size Hok Hr) as (s1 & E1 & Hok1 & Hr1 & Hhi1 & Hh1 & _);
    [by destruct pre|done..|].
  rewrite (bind_ok _ _ _ _ _ E1). destruct (hdr_of_data s1 _ Hok1 (proj1 Hh1)) as [E Hnn].
  rewrite decide_False, E by done. pose proof (repr_at _ _ _ _ Hr1) as [_ Hb1].
  pose proof (proj1 Hb1) as Hvb. pose proof (proj1 Hh1) as Hvh. unfold b_end in Hend.
  pose proof (clamp_bounds size). apply bind_fault.
  apply (copy_loop_overrun s1 _ _ (b_size b)); try done;
    try (by apply hdr_at_fields in Hb1 as (_ & _ & _ & ? & _));
    unfold valid in *; rewrite ?Z.sub_0_r; mod_lia.
Qed.

(** ** Invariants

    [realloc] assigns [first] through [malloc] and [free] only. *)

Section ReallocInvariant.
Context (P : state R -> Prop) `{!Stable P}.

Lemma keeps_copy_loop fuel src dst i : keeps P (copy_loop fuel src dst i).
Proof. revert i. induction fuel as [|f IH]; intros i; cbn [copy_loop]; keeps_tac. Qed.

Lemma keeps_absorb_run fuel header : keeps P (absorb_run fuel header).
Proof. induction fuel as [|f IH]; cbn [absorb_run]; keeps_tac. Qed.

Lemma keeps_realloc_absorb fuel header diff : keeps P (realloc_absorb fuel header diff).
Proof. unfold realloc_absorb. pose proof keeps_absorb_run. keeps_tac. Qed.

Context (Hext : forall size last, keeps P (malloc_extend size last)).
Context (Hrel : forall fuel header, keeps P (release_tail fuel header)).

Lemma keeps_realloc_move fuel address size header :
  keeps P (realloc_move fuel address size header).
Proof. unfold realloc_move, copy_data. pose proof keeps_copy_loop. keeps_tac. Qed.

Lemma keeps_realloc fuel address size : keeps P (realloc fuel address size).
Proof.
  unfold realloc. pose proof keeps_realloc_absorb. pose proof keeps_realloc_move. keeps_tac.
Qed.

End ReallocInvariant.

(** ** The properties of the reallocator *)

(** The difference of the sizes is a [size_t]: for a new size
    below the old one it is not negative but the distance to [2^64], so the
    shrink path of [realloc], guarded by [size_diff < 0], is not taken. *)
Theorem size_diff_shrink size old :
  is_size size -> is_size old -> size < old ->
  size_diff size old = SIZE_MOD - (old - size) /\ ~ size_diff size old < 0.
Proof. intros Hs Ho Hlt. split; [unfold size_diff; mod_lia|apply size_diff_not_neg]. Qed.

(** [copy_data] copies the data of [src] to [dst], byte for byte,
    when the data region of [dst] is as large, lies in the heap and does
    not meet the block [src]; it writes nothing else and needs one unit of
    fuel per byte. *)
Theorem copy_data_copies s src dst sz fuel :
  state_ok s -> valid s src SIZEOF_HEADER -> rd_size (s_mem s) src = sz ->
  valid s (src + SIZEOF_HEADER) sz -> valid s (dst + SIZEOF_HEADER) sz ->
  dst + SIZEOF_HEADER + sz <= src \/ src + SIZEOF_HEADER + sz <= dst + SIZEOF_HEADER ->
  (Z.to_nat sz < fuel)%nat ->
  exists s', copy_data fuel src dst s = Ok (tt, s') /\
    frame s s' (fun a => dst + SIZEOF_HEADER <= a < dst + SIZEOF_HEADER + sz) /\
    forall j, 0 <= j < sz ->
      load_byte (s_mem s') (dst + SIZEOF_HEADER + j) = load_byte (s_mem s) (src + SIZEOF_HEADER + j).
Proof.
  intros Hok Hsrc Hsz Hvs Hvd Hdis Hf. pose proof (rd_size_size (s_mem s) src).
  destruct (copy_loop_run s src dst sz fuel 0) as (s' & ? & Hfr & ?);
    [done..|mod_lia|by rewrite Z.sub_0_r|].
  exists s'. split_and!; [done| |done].
  eapply frame_weaken; [|done]. intros a Ha. cbn in Ha. lia.
Qed.

(** [realloc] on the last block resizes it in place: the break moves
    by the signed difference of the sizes, down when the new size is
    smaller, the block records the new size, and the address is returned. *)
Theorem realloc_tail_resize s pre b fuel size :
  state_ok s -> sorted (pre ++ [b]) -> repr s (pre ++ [b]) ->
  is_size size -> - SIZE_HALF <= size - b_size b < SIZE_HALF ->
  b_addr b + SIZEOF_HEADER <= heap_hi (s_reg s) + (size - b_size b) ->
  fst (sbrk (size - b_size b) (s_reg s)) <> SBRK_FAILED ->
  exists s', realloc fuel (b_addr b + SIZEOF_HEADER) size s = Ok (b_addr b + SIZEOF_HEADER, s') /\
    state_ok s' /\ repr s' (pre ++ [resized b size]) /\
    heap_hi (s_reg s') = heap_hi (s_reg s) + (size - b_size b).
Proof. apply realloc_tail_list. Qed.

(** C30. [realloc] does not check the result of [sbrk]: when the system
    refuses to extend the heap for the last block, the call returns the
    address as if it had succeeded and the block records the new size, with
    the break where it was; a block that ended at the break now ends above
    it. *)
Theorem realloc_tail_unchecked s pre b fuel size :
  state_ok s -> sorted (pre ++ [b]) -> repr s (pre ++ [b]) ->
  is_size size -> - SIZE_HALF <= size - b_size b < SIZE_HALF ->
  fst (sbrk (size - b_size b) (s_reg s)) = SBRK_FAILED ->
  b_end b = heap_hi (s_reg s) -> b_size b < size ->
  exists s', realloc fuel (b_addr b + SIZEOF_HEADER) size s = Ok (b_addr b + SIZEOF_HEADER, s') /\
    repr s' (pre ++ [resized b size]) /\ heap_hi (s_reg s') < b_end (resized b size).
Proof.
  intros Hok Hs Hr Hsz Hd Hsb He Hlt.
  destruct (realloc_tail_failed s pre b fuel size) as (s' & E & Hr' & Hreg); [done..|].
  exists s'. split_and!; [done..|]. rewrite Hreg. unfold b_end in *. cbn. lia.
Qed.

(** C29. Shrinking a block that is not the last one overruns the heap.
    The difference wraps around, so the request is treated as a growth;
    with every block in use nothing can be absorbed, [malloc] creates a
    block of the new, smaller size at the break, and [copy_data] copies the
    old, larger size into it: the store one byte after the new block is
    past the break. *)
Theorem realloc_shrink_overruns s pre b n rest fuel size :
  state_ok s -> repr s (pre ++ b :: n :: rest) ->
  Forall (fun x => b_free x = 0) (pre ++ b :: n :: rest) ->
  b_end b <= heap_hi (s_reg s) -> clamp size < b_size b ->
  clamp size + SIZEOF_HEADER < SIZE_HALF ->
  fst (sbrk (clamp size + SIZEOF_HEADER) (s_reg s)) <> SBRK_FAILED ->
  (length (pre ++ b :: n :: rest) < fuel)%nat -> (Z.to_nat (clamp size) < fuel)%nat ->
  realloc fuel (b_addr b + SIZEOF_HEADER) size s =
  Fault (heap_hi (s_reg s) + SIZEOF_HEADER + clamp size).
Proof. apply realloc_move_overrun. Qed.

(** Growing a block whose successor is in use moves it: with every
    block in use, [realloc] returns a new block at the break with the data
    of the old one, byte for byte, and marks the old block free.  The new
    block is initialised but not linked to the list. *)
Theorem realloc_moves_block s pre b n rest fuel size :
  state_ok s -> sorted (pre ++ b :: n :: rest) -> repr s (pre ++ b :: n :: rest) ->
  Forall (fun x => b_free x = 0) (pre ++ b :: n :: rest) ->
  b_end b <= heap_hi (s_reg s) -> b_size b <= clamp size ->
  clamp size + SIZEOF_HEADER < SIZE_HALF ->
  fst (sbrk (clamp size + SIZEOF_HEADER) (s_reg s)) <> SBRK_FAILED ->
  (length (pre ++ b :: n :: rest) < fuel)%nat -> (Z.to_nat (b_size b) < fuel)%nat ->
  exists s', realloc fuel (b_addr b + SIZEOF_HEADER) size s =
               Ok (heap_hi (s_reg s) + SIZEOF_HEADER, s') /\
    repr s' (pre ++ freed b :: n :: rest) /\
    hdr_at s' (heap_hi (s_reg s))
      (mkHeader NULL (last_addr NULL (pre ++ b :: n :: rest)) (clamp size) 0) /\
    heap_hi (s_reg s') = heap_hi (s_reg s) + SIZEOF_HEADER + clamp size /\
    forall j, 0 <= j < b_size b ->
      load_byte (s_mem s') (heap_hi (s_reg s) + SIZEOF_HEADER + j) =
      load_byte (s_mem s) (b_addr b + SIZEOF_HEADER + j).
Proof. apply realloc_move_list. Qed.

End ReallocProofs.

#[export] Hint Resolve keeps_realloc : keeps.

(** ** The properties at work *)

Lemma realloc_tail_resize_witness :
  exists s', realloc 1 4128 100 lone = Ok (4128, s') /\
    state_ok s' /\ repr s' [Block 4096 100 1] /\ heap_hi (s_reg s') = 4228.
Proof.
  refine (realloc_tail_resize lone [] (Block 4096 200 1) 1 100
            lone_ok lone_sorted lone_repr _ _ _ _); apply (bool_decide_unpack _); by vm_compute.
Defined.

Lemma realloc_tail_unchecked_witness :
  exists s', realloc 1 4332 5000 busy = Ok (4332, s') /\
    repr s' [Block 4096 40 0; Block 4168 100 0; Block 4300 5000 0] /\
    heap_hi (s_reg s') < 4300 + SIZEOF_HEADER + 5000.
Proof.
  refine (realloc_tail_unchecked busy [Block 4096 40 0; Block 4168 100 0] (Block 4300 32 0) 1 5000
            busy_ok busy_sorted busy_repr _ _ _ _ _); apply (bool_decide_unpack _); by vm_compute.
Defined.

Lemma copy_data_copies_witness :
  exists s', copy_data 41 4096 4168 busy = Ok (tt, s') /\
    frame busy s' (fun a => 4200 <= a < 4240) /\
    forall j, 0 <= j < 40 -> load_byte (s_mem s') (4200 + j) = load_byte (s_mem busy) (4128 + j).
Proof.
  refine (copy_data_copies busy 4096 4168 40 41 busy_ok _ _ _ _ _ _);
    apply (bool_decide_unpack _); by vm_compute.
Defined.

Lemma size_diff_shrink_witness :
  size_diff 10 100 = SIZE_MOD - (100 - 10) /\ ~ size_diff 10 100 < 0.
Proof. apply (size_diff_shrink 10 100); apply (bool_decide_unpack _); by vm_compute. Defined.

Lemma realloc_shrink_overruns_witness : realloc 200 4200 10 busy = Fault 4428.
Proof.
  refine (realloc_shrink_overruns busy [Block 4096 40 0] (Block 4168 100 0) (Block 4300 32 0) []
            200 10 busy_ok busy_repr _ _ _ _ _ _ _); apply (bool_decide_unpack _); by vm_compute.
Defined.

Lemma realloc_moves_block_witness :
  exists s', realloc 200 4128 64 busy = Ok (4396, s') /\
    repr s' [Block 4096 40 1; Block 4168 100 0; Block 4300 32 0] /\
    hdr_at s' 4364 (mkHeader NULL 4300 64 0) /\ heap_hi (s_reg s') = 4460 /\
    forall j, 0 <= j < 40 -> load_byte (s_mem s') (4396 + j) = load_byte (s_mem busy) (4128 + j).
Proof.
  refine (realloc_moves_block busy [] (Block 4096 40 0) (Block 4168 100 0) [Block 4300 32 0]
            200 64 busy_ok busy_sorted busy_repr _ _ _ _ _ _ _);
    apply (bool_decide_unpack _); by vm_compute.
Defined.
