(* ===== verification/Abstract.v ===== *)
(** * The allocator on lists of blocks

    What [malloc] of [src/dynalloc.c] computes, as a function on the list
    of blocks of the directory: [malloc_abs] runs the first-fit scan with
    its coalescing on the list, then takes the block found, whole or split,
    or extends the heap.  The file proves that the function is what the
    code does, on every way out of [malloc], faults included; that a call
    writes to headers only, so that the data of the blocks in use is as it
    was; and which of the invariants of the directory the function keeps:
    the order of the blocks always, their adjacency, floor and bounds
    unless a block is split. *)

From Stdlib Require Import ZArith Lia.
From stdpp Require Import prelude sorting gmap.
From S2P Require Import Prelude.
From S2P Require Import Memory.
From S2P Require Import Region.
From S2P Require Import Machine.
From S2P Require Import Directory.
From S2P Require Import Alloc.

#[local] Open Scope Z_scope.

(** The invariants of the directory: list-adjacent blocks are physically
    adjacent, no block is below the floor, every block lies in the heap. *)
Definition ordered (lo hi : Z) (bs : list block) : Prop :=
  tiled bs /\ floored bs /\ within lo hi bs.

(** The address [a] lies in the data of [b]. *)
Definition inside (b : block) (a : Z) : Prop := b_addr b + SIZEOF_HEADER <= a < b_end b.

#[export] Instance inside_dec b a : Decision (inside b a).
Proof. unfold inside. apply _. Defined.

(** [x] ends before [y] starts, and neither has a negative size. *)
Definition below (x y : block) : Prop :=
  0 <= b_size x /\ 0 <= b_size y /\ b_end x <= b_addr y.

Section Abstract.
Context `{HeapRegion R}.

(** How a call of [malloc] ends: with a block of the list, with a new block
    at the break, whose header is not in the list unless the list was
    empty, or with a fault. *)
Inductive answer : Type :=
| Took (p : Z) (bs : list block)
| Grew (p : Z) (bs : list block) (hd : Header) (r : R)
| Died (a : Z).

(** [malloc] on the list [bs], with the segment [r].  The function is not
    defined where the remainder of a split does not lie between the block
    and its successor. *)
Definition malloc_abs (r : R) (size : Z) (bs : list block) : option answer :=
  let size := clamp size in
  match find_fit size bs with
  | Fit pre b rest =>
      let u := split_abs b size in
      if decide (splittable (b_size b) size) then
        match rest with
        | [] =>
            if decide (before b u /\ b_addr u + SIZEOF_HEADER <= heap_hi r)
            then Some (Died (NULL + OFF_PREV)) else None
        | n :: _ =>
            if decide (before b u /\ before u n)
            then Some (Took (b_addr b + SIZEOF_HEADER) (pre ++ taken b :: u :: rest))
            else None
        end
      else Some (Took (b_addr b + SIZEOF_HEADER) (pre ++ taken b :: rest))
  | NoFit bs' =>
      if decide (fst (sbrk (size + SIZEOF_HEADER) r) = SBRK_FAILED)
      then Some (Died (SBRK_FAILED + OFF_PREV))
      else Some (Grew (heap_hi r + SIZEOF_HEADER)
                   (if decide (bs' = []) then [Block (heap_hi r) size 0] else bs')
                   (mkHeader NULL (last_addr NULL bs') size 0)
                   (snd (sbrk (size + SIZEOF_HEADER) r)))
  end.

(** The list a call leaves. *)
Definition after (o : answer) : list block :=
  match o with
  | Took _ bs | Grew _ bs _ _ => bs
  | Died _ => []
  end.

(** The run of [malloc] from [s], where the list [bs] is, ends as [o]
    says, and has written to headers only: of the list as it was and as it
    is, and above the old break. *)
Definition malloc_meets (fuel : nat) (size : Z) (s : state R) (bs : list block)
    (o : answer) : Prop :=
  match o with
  | Took p bs' =>
      exists s', malloc fuel size s = Ok (p, s') /\ state_ok s' /\ repr s' bs' /\
        frame s s' (fun a => in_headers bs a \/ in_headers bs' a)
  | Grew p bs' hd r =>
      exists s', malloc fuel size s = Ok (p, s') /\ state_ok s' /\ repr s' bs' /\
        s_reg s' = r /\ hdr_at s' (heap_hi (s_reg s)) hd /\
        same_bytes (fun a => in_headers bs a \/ heap_hi (s_reg s) <= a) (s_mem s) (s_mem s')
  | Died a => malloc fuel size s = Fault a
  end.

End Abstract.

Arguments answer : clear implicits.

Section AbstractProofs.
Context `{HeapRegion R}.
Implicit Types (s : state R) (bs pre rest : list block) (b : block).

(** ** The code computes [malloc_abs] *)

(** The bytes of the header of a block of a list. *)
Lemma in_headers_elem bs b a :
  b ∈ bs -> b_addr b <= a < b_addr b + SIZEOF_HEADER -> in_headers bs a.
Proof. intros Hb Ha. apply Exists_exists. by exists b. Qed.

(** What [take_block] writes lies in the headers of the list it leaves. *)
Lemma split_touch_headers pre b n rest size a :
  split_touch (b_addr b) size (b_addr n) a \/ a = b_addr b + OFF_FREE ->
  in_headers (pre ++ taken b :: split_abs b size :: n :: rest) a.
Proof.
  intros [[Ha|[Ha|Ha]]|Ha];
    [apply (in_headers_elem _ (split_abs b size))|apply (in_headers_elem _ n)|
     apply (in_headers_elem _ (taken b))..];
    try (rewrite elem_of_app, !elem_of_cons; tauto); cbn; mod_lia.
Qed.

(** The bytes [malloc_extend] writes are above the old break. *)
Lemma malloc_extend_bytes s size last :
  state_ok s -> 0 <= size -> size + SIZEOF_HEADER < SIZE_HALF -> is_size last ->
  fst (sbrk (size + SIZEOF_HEADER) (s_reg s)) <> SBRK_FAILED ->
  exists s', malloc_extend size last s = Ok (heap_hi (s_reg s) + SIZEOF_HEADER, s') /\
    same_bytes (fun a => heap_hi (s_reg s) <= a) (s_mem s) (s_mem s').
Proof.
  intros Hok Hsz Hhalf Hl Hne.
  destruct (malloc_extend_run s size last) as (s' & E & _ & _ & _ & _ & _ & _ & Hm); [done..|].
  exists s'. split; [done|]. intros a Ha. apply Hm. lia.
Qed.

(** A fit. *)
Lemma malloc_abs_fit s bs pre b rest fuel size o :
  state_ok s -> sorted bs -> repr s bs -> (length bs < fuel)%nat ->
  find_fit (clamp size) bs = Fit pre b rest ->
  malloc_abs (s_reg s) size bs = Some o -> malloc_meets fuel size s bs o.
Proof.
  intros Hok Hs Hr Hf E. unfold malloc_abs, malloc_meets. rewrite E. cbn zeta.
  destruct (malloc_fit_list s bs pre b rest fuel size Hok Hs Hr Hf E)
    as (s1 & Hf1 & Hok1 & Hr1 & Hs1 & ->).
  rewrite <- (proj1 Hf1). case_decide as Hsp.
  - destruct rest as [|n rest]; case_decide as Hg; intros [= <-]; destruct Hg as [Hl Hh].
    + apply (take_block_tail s1 pre); [done..|].
      pose proof (proj1 (proj2 (repr_at _ _ _ _ Hr1))). unfold valid, before in *. mod_lia.
    + destruct (take_block_split s1 pre b n rest (clamp size)) as (s' & E' & Hr' & Hf');
        [done..|]. exists s'. split_and!; [done|by eapply frame_state_ok|done|].
      eapply frame_weaken, (frame_trans _ _ _ _ _ Hf1 Hf'). cbn beta.
      intros a [?|Ha]; [by left|right]. by apply split_touch_headers.
  - intros [= <-].
    destruct (take_block_whole s1 pre b rest (clamp size)) as (s' & E' & Hr' & Hf');
      [done..|]. exists s'. split_and!; [done|by eapply frame_state_ok|done|].
    eapply frame_weaken, (frame_trans _ _ _ _ _ Hf1 Hf'). cbn beta.
    intros a [?| ->]; [by left|right]. apply (in_headers_elem _ (taken b)); [|cbn; mod_lia].
    rewrite elem_of_app, elem_of_cons. tauto.
Qed.

(** No fit. *)
Lemma malloc_abs_nofit s bs bs' fuel size o :
  state_ok s -> sorted bs -> repr s bs -> (length bs < fuel)%nat ->
  clamp size + SIZEOF_HEADER < SIZE_HALF ->
  find_fit (clamp size) bs = NoFit bs' ->
  malloc_abs (s_reg s) size bs = Some o -> malloc_meets fuel size s bs o.
Proof.
  intros Hok Hs Hr Hf Hhalf E. unfold malloc_abs, malloc_meets. rewrite E. cbn zeta.
  destruct (malloc_nofit_list s bs bs' fuel size Hok Hs Hr Hf E)
    as (s1 & (Hreg & _ & Hm1) & Hok1 & Hr1 & ->).
  pose proof (clamp_bounds size). rewrite <- Hreg. case_decide as Hsb; intros [= <-].
  - apply malloc_extend_failed; [done|mod_lia|done..].
  - destruct (malloc_extend_list s1 bs' (clamp size)) as (s' & E' & Hok' & Hr' & Hh & _ & Hreg');
      [done|done|mod_lia|done..|].
    destruct (malloc_extend_bytes s1 (clamp size) (last_addr NULL bs')) as (s2 & E2 & Hm2);
      [done|mod_lia|done|by apply (last_addr_size s1)|done|].
    rewrite E' in E2. injection E2 as <-. exists s'. split_and!; [done..|].
    intros a Ha. rewrite Hm2, Hm1; tauto.
Qed.

(** Every way out of [malloc]. *)
Lemma malloc_abs_meets s bs fuel size o :
  state_ok s -> sorted bs -> repr s bs -> (length bs < fuel)%nat ->
  clamp size + SIZEOF_HEADER < SIZE_HALF ->
  malloc_abs (s_reg s) size bs = Some o -> malloc_meets fuel size s bs o.
Proof.
  intros Hok Hs Hr Hf Hhalf Ho. destruct (find_fit (clamp size) bs) as [pre b rest|bs'] eqn:E.
  - by eapply malloc_abs_fit.
  - by eapply malloc_abs_nofit.
Qed.

(** ** The invariants the function keeps *)

Lemma tiled_at pre b n rest : tiled (pre ++ b :: n :: rest) -> adjacent b n.
Proof. intros Ht. apply Sorted_app_r in Ht. apply Sorted_inv in Ht as [_ Hh]. by inv Hh. Qed.

Lemma within_at lo hi pre b rest :
  within lo hi (pre ++ b :: rest) -> lo <= b_addr b /\ 0 <= b_size b /\ b_end b <= hi.
Proof. unfold within. rewrite Forall_app, Forall_cons. tauto. Qed.

Lemma within_mono lo hi hi' bs : hi <= hi' -> within lo hi bs -> within lo hi' bs.
Proof. intros Hle Hw. eapply Forall_impl; [done|]. intros b. cbn. lia. Qed.

(** On blocks whose sizes are not negative, adjacent blocks are in order. *)
Lemma tiled_sorted lo hi bs : tiled bs -> within lo hi bs -> sorted bs.
Proof.
  unfold tiled, sorted, within. induction 1 as [|b bs Ht IH Hh]; intros Hw; [constructor|].
  apply Forall_cons in Hw as [Hb Hw]. constructor; [by apply IH|].
  destruct Hh; constructor. unfold adjacent, before, b_end in *. lia.
Qed.

Lemma ordered_sorted lo hi bs : ordered lo hi bs -> sorted bs.
Proof. intros (Ht & _ & Hw). by eapply tiled_sorted. Qed.

Lemma merge_abs_floored pre b1 b2 post :
  is_size (SIZEOF_HEADER + b_size b1 + b_size b2) ->
  floored (pre ++ b1 :: b2 :: post) -> floored (pre ++ merge_abs b1 b2 :: post).
Proof.
  unfold floored. rewrite !Forall_app, !Forall_cons. intros Hs (Hp & H1 & H2 & Hq).
  split_and!; [done| |done]. cbn. rewrite wrap_small by done. mod_lia.
Qed.

Lemma merge_abs_ordered lo hi pre b1 b2 post :
  0 <= lo -> hi <= SIZE_MOD ->
  ordered lo hi (pre ++ b1 :: b2 :: post) -> ordered lo hi (pre ++ merge_abs b1 b2 :: post).
Proof.
  intros Hlo Hhi (Ht & Hf & Hw). pose proof (tiled_at _ _ _ _ Ht) as Ha.
  assert (is_size (SIZEOF_HEADER + b_size b1 + b_size b2)) as Hs.
  { pose proof (within_at _ _ _ _ _ Hw). pose proof (within_at lo hi (pre ++ [b1]) b2 post) as Hw2.
    rewrite <- app_assoc in Hw2. specialize (Hw2 Hw). unfold adjacent, b_end in *. mod_lia. }
  split_and!; [by apply merge_abs_tiled|by apply merge_abs_floored|by apply merge_abs_within].
Qed.

(** The scan keeps the invariants of the directory. *)
Lemma first_fit_ordered lo hi size pre b rest :
  0 <= lo -> hi <= SIZE_MOD ->
  ordered lo hi (pre ++ b :: rest) -> ordered lo hi (scanned (first_fit size pre b rest)).
Proof.
  intros Hlo Hhi. revert pre b. induction rest as [|n rest IH]; intros pre b Ho; cbn.
  { by case_decide. }
  repeat case_decide; [by apply IH, merge_abs_ordered|done|].
  apply IH. by rewrite <- app_assoc.
Qed.

Lemma find_fit_ordered lo hi size bs :
  0 <= lo -> hi <= SIZE_MOD -> ordered lo hi bs -> ordered lo hi (scanned (find_fit size bs)).
Proof. intros Hlo Hhi Ho. destruct bs as [|b bs]; [exact Ho|]. exact (first_fit_ordered lo hi size [] b bs Hlo Hhi Ho). Qed.

Lemma find_fit_sorted size bs : sorted bs -> sorted (scanned (find_fit size bs)).
Proof. intros Hs. destruct bs as [|b bs]; [exact Hs|]. exact (first_fit_sorted size [] b bs Hs). Qed.

(** Clearing the flag of a block moves nothing. *)
Lemma taken_sorted pre b rest : sorted (pre ++ b :: rest) -> sorted (pre ++ taken b :: rest).
Proof.
  unfold sorted. intros [Hl Hr]%Sorted_glue. apply Sorted_glue. split.
  - by apply (Sorted_snoc_change before pre b).
  - by apply (Sorted_cons_change before b).
Qed.

Lemma taken_ordered lo hi pre b rest :
  ordered lo hi (pre ++ b :: rest) -> ordered lo hi (pre ++ taken b :: rest).
Proof.
  unfold ordered, tiled, floored, within. rewrite !Forall_app, !Forall_cons.
  intros ([Hl Hr]%Sorted_glue & ? & ?). split_and!; [|tauto..]. apply Sorted_glue. split.
  - by apply (Sorted_snoc_change adjacent pre b).
  - by apply (Sorted_cons_change adjacent b).
Qed.

(** The remainder of a split that is in order lies past the floor, and
    ends where the source puts it: the size of a header less the size of
    a pointer beyond the block it is cut from. *)
Lemma split_abs_within lo hi b size :
  0 <= lo -> hi < SIZE_MOD -> lo <= b_addr b -> b_end b <= hi -> 0 <= size ->
  size + SIZEOF_PTR <= b_size b ->
  lo <= b_addr (split_abs b size) /\ 0 <= b_size (split_abs b size) /\
  b_end (split_abs b size) <= hi + (SIZEOF_HEADER - SIZEOF_PTR).
Proof.
  intros. rewrite split_abs_end by mod_lia. unfold b_end, split_abs in *. cbn.
  rewrite !wrap_small by mod_lia. mod_lia.
Qed.

(** The remainder of a split of the last block lies below the break. *)
Lemma split_abs_last hi b size :
  0 <= b_addr b -> b_end b <= hi -> hi < SIZE_MOD -> 0 <= size ->
  size + SIZEOF_PTR <= b_size b -> splittable (b_size b) size ->
  before b (split_abs b size) /\ b_addr (split_abs b size) + SIZEOF_HEADER <= hi.
Proof. unfold before, splittable, b_end, split_abs. cbn. intros. mod_lia. Qed.

(** A block is never adjacent to the remainder cut from it. *)
Lemma split_abs_apart b size :
  0 <= b_addr b -> b_end b < SIZE_MOD -> 0 <= size -> size + SIZEOF_PTR <= b_size b ->
  ~ adjacent (taken b) (split_abs b size).
Proof. unfold adjacent, b_end, split_abs. cbn. intros. mod_lia. Qed.

(** The list a call leaves is in address order. *)
Lemma after_sorted r size bs o :
  sorted bs -> malloc_abs r size bs = Some o -> sorted (after o).
Proof.
  intros Hs. apply (find_fit_sorted (clamp size)) in Hs. unfold malloc_abs.
  destruct (find_fit (clamp size) bs) as [pre b rest|bs']; cbn [scanned] in Hs; cbn zeta.
  - case_decide; [destruct rest as [|n rest]; case_decide|]; intros [= <-]; cbn [after].
    + constructor.
    + destruct_and!. by apply taken_sorted, split_abs_sorted.
    + by apply taken_sorted.
  - case_decide; intros [= <-]; cbn [after]; [constructor|].
    case_decide; [repeat constructor|done].
Qed.

(** ** The data of the blocks *)

#[export] Instance below_trans : Transitive below.
Proof. intros x y z. unfold below, b_end. mod_lia. Qed.

Lemma tiled_below lo hi bs : tiled bs -> within lo hi bs -> Sorted below bs.
Proof.
  unfold tiled, within. induction 1 as [|b bs Ht IH Hh]; intros Hw; [constructor|].
  apply Forall_cons in Hw as [Hb Hw]. constructor; [by apply IH|].
  destruct Hh as [|y l Hy]; constructor. apply Forall_cons in Hw as [? _].
  unfold adjacent, below in *. lia.
Qed.

(** Two blocks of a directory that meets the invariants do not overlap. *)
Lemma ordered_apart lo hi bs x y :
  ordered lo hi bs -> x ∈ bs -> y ∈ bs -> x = y \/ below x y \/ below y x.
Proof.
  intros (Ht & _ & Hw) Hx Hy. pose proof (tiled_below _ _ _ Ht Hw) as Hs.
  apply list_elem_of_split in Hx as (l1 & l2 & ->).
  apply elem_of_app in Hy as [Hy|[->|Hy]%elem_of_cons]; [|by left|].
  - right; right. apply (Sorted_app_rel below l1 (x :: l2)); [done..|by left].
  - right; left. apply Sorted_app_r in Hs. by apply (Sorted_cons_rel below x l2).
Qed.

(** The data of a block of such a directory holds no header. *)
Lemma inside_not_header lo hi bs x a :
  ordered lo hi bs -> x ∈ bs -> inside x a -> ~ in_headers bs a.
Proof.
  intros Ho Hx Ha (y & Hy & Hh)%Exists_exists.
  pose proof (proj2 (proj2 Ho)) as Hw. unfold within in Hw. rewrite Forall_forall in Hw.
  pose proof (Hw x Hx). pose proof (Hw y Hy).
  destruct (ordered_apart lo hi bs x y Ho Hx Hy) as [->|[?|?]];
    unfold inside, below, b_end in *; lia.
Qed.

(** The scan leaves the blocks in use where they are. *)
Lemma first_fit_keeps_in_use size pre cur rest x :
  x ∈ pre ++ cur :: rest -> b_free x = 0 -> x ∈ scanned (first_fit size pre cur rest).
Proof.
  intros Hx Hu. revert pre cur Hx. induction rest as [|n rest IH]; intros pre cur Hx; cbn.
  { by case_decide. }
  repeat case_decide; [|done|apply IH; by rewrite <- app_assoc].
  apply IH. revert Hx. rewrite !elem_of_app, !elem_of_cons. intros [?|[->|[->|?]]]; tauto.
Qed.

Lemma find_fit_fits size bs pre b rest : find_fit size bs = Fit pre b rest -> fits size b.
Proof. destruct bs as [|c bs]; [done|]. apply first_fit_fits. Qed.

Lemma find_fit_keeps_in_use size bs x :
  x ∈ bs -> b_free x = 0 -> x ∈ scanned (find_fit size bs).
Proof. destruct bs as [|b bs]; [done|]. apply (first_fit_keeps_in_use size []). Qed.

(** Marking a block moves no header. *)
Lemma in_headers_taken pre b rest a :
  in_headers (pre ++ taken b :: rest) a <-> in_headers (pre ++ b :: rest) a.
Proof. unfold in_headers. by rewrite !Exists_app, !Exists_cons. Qed.

(** A block taken from the list: the block [c] the scan found, the other
    blocks of the scanned list, and no header but those of the scanned
    list and one in the data of [c], past the bytes requested. *)
Lemma malloc_abs_took lo r size bs p bs1 :
  0 <= lo -> heap_hi r < SIZE_MOD -> ordered lo (heap_hi r) bs ->
  malloc_abs r size bs = Some (Took p bs1) ->
  exists c, c ∈ scanned (find_fit (clamp size) bs) /\ fits (clamp size) c /\
    p = b_addr c + SIZEOF_HEADER /\ taken c ∈ bs1 /\
    (forall x, x ∈ scanned (find_fit (clamp size) bs) -> x <> c -> x ∈ bs1) /\
    (forall a, in_headers bs1 a ->
       in_headers (scanned (find_fit (clamp size) bs)) a \/
       b_addr c + SIZEOF_HEADER + clamp size <= a < b_end c).
Proof.
  intros Hlo Hhi Ho. apply (find_fit_ordered lo _ (clamp size)) in Ho; [|done|lia].
  unfold malloc_abs. destruct (find_fit (clamp size) bs) as [pre c rest|] eqn:Ef; [|by case_decide].
  pose proof (find_fit_fits _ _ _ _ _ Ef) as Hfit. pose proof (clamp_bounds size).
  cbn zeta. cbn [scanned] in *. intros Habs. exists c.
  split; [rewrite elem_of_app, elem_of_cons; tauto|]. split; [done|].
  revert Habs. case_decide as Hsp; [destruct rest as [|n rest]; case_decide as Hg|];
    intros [= <- <-]; (split; [done|]);
    (split; [rewrite elem_of_app, elem_of_cons; tauto|]);
    (split; [intros x; rewrite !elem_of_app, !elem_of_cons; tauto|]).
  - intros a. unfold in_headers. rewrite !Exists_app, !Exists_cons. cbn [b_addr taken].
    intros [?|[?|[Hu|?]]]; [tauto..| |tauto]. right.
    pose proof (tiled_at _ _ _ _ (proj1 Ho)). pose proof (within_at _ _ _ _ _ (proj2 (proj2 Ho))).
    destruct Hfit as [_ ?]. destruct Hg as [_ Hn]. revert Hu Hn.
    unfold before, adjacent, b_end, split_abs in *. cbn. rewrite !wrap_small by mod_lia. lia.
  - intros a Hin. left. by apply in_headers_taken.
Qed.

(** The data of a block in use holds no header before or after a block is
    taken. *)
Lemma malloc_abs_outside lo r size bs p bs1 x a :
  0 <= lo -> heap_hi r < SIZE_MOD -> ordered lo (heap_hi r) bs ->
  malloc_abs r size bs = Some (Took p bs1) -> x ∈ bs -> b_free x = 0 -> inside x a ->
  ~ (in_headers bs a \/ in_headers bs1 a).
Proof.
  intros Hlo Hhi Ho Habs Hx Hu Ha.
  destruct (malloc_abs_took lo r size bs p bs1) as (c & Hc & [Hfr _] & _ & _ & _ & Hh); [done..|].
  pose proof (find_fit_keeps_in_use (clamp size) bs x Hx Hu) as Hx'.
  pose proof (find_fit_ordered lo _ (clamp size) bs Hlo (Z.lt_le_incl _ _ Hhi) Ho) as Ho'.
  intros [Hin|[Hin|Hin]%Hh];
    [exact (inside_not_header _ _ _ _ _ Ho Hx Ha Hin)|
     exact (inside_not_header _ _ _ _ _ Ho' Hx' Ha Hin)|].
  pose proof (clamp_bounds size).
  destruct (ordered_apart _ _ _ x c Ho' Hx' Hc) as [->|[?|?]]; [done|..];
    unfold inside, below, b_end in *; mod_lia.
Qed.

(** ** The theorems *)

(** C3. The code computes [malloc_abs]: from a state whose directory is
    the sorted list [bs], a call of [malloc] with enough fuel for the scan
    ends the way [malloc_abs] says, on every way out: a block taken whole
    or after a split, with the list that results in memory and the segment
    unchanged; a new block at the old break, with its header written and
    the segment grown; a fault at the [prev] field of the null pointer when
    the block split is the last, and at the [prev] field of the failure
    value of [sbrk] when the system refuses to extend the heap.  A call
    that returns has written to headers only, of the list as it was and as
    it is, and above the old break: the data of the blocks is as it
    was. *)
Theorem malloc_refines s bs fuel size o :
  state_ok s -> sorted bs -> repr s bs -> (length bs < fuel)%nat ->
  clamp size + SIZEOF_HEADER < SIZE_HALF ->
  malloc_abs (s_reg s) size bs = Some o -> malloc_meets fuel size s bs o.
Proof. apply malloc_abs_meets. Qed.

(** [malloc_abs] is defined on every directory that meets the
    invariants, unless the block found is less than the size of a pointer
    larger than the request: there the subtraction of [split_block] wraps
    around and the remainder is not a block of the list. *)
Theorem malloc_abs_defined lo r size bs :
  0 <= lo -> heap_hi r < SIZE_MOD -> ordered lo (heap_hi r) bs ->
  (forall pre b rest, find_fit (clamp size) bs = Fit pre b rest ->
                      clamp size + SIZEOF_PTR <= b_size b) ->
  is_Some (malloc_abs r size bs).
Proof.
  intros Hlo Hhi Ho Hroom. apply (find_fit_ordered lo _ (clamp size)) in Ho; [|done|lia].
  unfold malloc_abs. destruct (find_fit (clamp size) bs) as [pre b rest|bs']; [|by case_decide].
  specialize (Hroom _ _ _ eq_refl). destruct Ho as (Ht & _ & Hw). cbn [scanned] in *.
  pose proof (within_at _ _ _ _ _ Hw) as (? & ? & ?). pose proof (clamp_bounds size).
  cbn zeta. case_decide as Hsp; [|done]. destruct rest as [|n rest].
  - rewrite decide_True; [done|]. apply (split_abs_last (heap_hi r)); [mod_lia..|done].
  - rewrite decide_True; [done|].
    apply split_abs_fits; [lia|lia|by eapply tiled_at|mod_lia|done..].
Qed.

(** A block taken whole leaves the directory as it found it: when
    the block found is not split, [malloc_abs] returns its data pointer,
    and the list with the block marked in use is tiled, floored and within
    the heap. *)
Theorem malloc_abs_whole lo r size bs pre b rest :
  0 <= lo -> heap_hi r <= SIZE_MOD -> ordered lo (heap_hi r) bs ->
  find_fit (clamp size) bs = Fit pre b rest -> ~ splittable (b_size b) (clamp size) ->
  malloc_abs r size bs = Some (Took (b_addr b + SIZEOF_HEADER) (pre ++ taken b :: rest)) /\
  ordered lo (heap_hi r) (pre ++ taken b :: rest).
Proof.
  intros Hlo Hhi Ho E Hsp. apply (find_fit_ordered lo _ (clamp size)) in Ho; [|done..].
  unfold malloc_abs. rewrite E in *. cbn zeta. rewrite decide_False by done.
  split; [done|]. by apply taken_ordered.
Qed.

(** C19. A split breaks the directory: when the block found is split,
    [malloc_abs] returns its data pointer, and the list that results is
    sorted and floored but not tiled, and the remainder claims memory past
    the block it is cut from, by the size of a header less the size of a
    pointer: past the break when the block was the last before it. *)
Theorem malloc_abs_split lo r size bs pre b n rest :
  0 <= lo -> heap_hi r < SIZE_MOD -> ordered lo (heap_hi r) bs ->
  find_fit (clamp size) bs = Fit pre b (n :: rest) -> splittable (b_size b) (clamp size) ->
  clamp size + SIZEOF_PTR <= b_size b ->
  let bs' := pre ++ taken b :: split_abs b (clamp size) :: n :: rest in
  malloc_abs r size bs = Some (Took (b_addr b + SIZEOF_HEADER) bs') /\
  sorted bs' /\ floored bs' /\ ~ tiled bs' /\
  within lo (heap_hi r + (SIZEOF_HEADER - SIZEOF_PTR)) bs' /\
  b_end (split_abs b (clamp size)) = b_addr n + (SIZEOF_HEADER - SIZEOF_PTR).
Proof.
  intros Hlo Hhi Ho E Hsp Hroom bs'. apply (find_fit_ordered lo _ (clamp size)) in Ho; [|done|lia].
  rewrite E in Ho. cbn [scanned] in Ho. pose proof (ordered_sorted _ _ _ Ho) as Hs.
  destruct Ho as (Ht & Hf & Hw). pose proof (within_at _ _ _ _ _ Hw) as (? & ? & ?).
  pose proof (clamp_bounds size). pose proof (tiled_at _ _ _ _ Ht) as Ha.
  destruct (split_abs_fits b n (clamp size)) as [Hb Hn]; [lia|lia|done|mod_lia|done..|].
  destruct (split_abs_within lo (heap_hi r) b (clamp size)) as (? & ? & ?); [lia..|mod_lia|done|].
  split_and!.
  - unfold malloc_abs. rewrite E. cbn zeta. by rewrite !decide_True.
  - by apply taken_sorted, split_abs_sorted.
  - revert Hf. unfold bs', floored. rewrite !Forall_app, !Forall_cons. cbn.
    unfold splittable in Hsp. tauto.
  - intros Ht'%tiled_at. revert Ht'. apply split_abs_apart; [lia|lia|mod_lia|done].
  - apply (within_mono _ _ (heap_hi r + (SIZEOF_HEADER - SIZEOF_PTR))) in Hw; [|mod_lia].
    revert Hw. unfold bs', within. rewrite !Forall_app, !Forall_cons.
    unfold b_end in *. cbn [taken b_addr b_size]. intros (Hp & ? & ? & Hq).
    split_and!; try done; lia.
  - rewrite split_abs_end by mod_lia. unfold adjacent in Ha. lia.
Qed.

(** No fit: when the system extends the heap, [malloc_abs] returns the
    old break plus the size of a header and the break moves up by the
    block and its header; the list keeps the invariants, but unless it was
    empty it is the list the scan left: the new block is not in it. *)
Theorem malloc_abs_grows lo r size bs bs' :
  region_ok r -> 0 <= lo <= heap_hi r -> ordered lo (heap_hi r) bs ->
  find_fit (clamp size) bs = NoFit bs' ->
  fst (sbrk (clamp size + SIZEOF_HEADER) r) <> SBRK_FAILED ->
  exists bs'' hd r',
    malloc_abs r size bs = Some (Grew (heap_hi r + SIZEOF_HEADER) bs'' hd r') /\
    heap_hi r' = heap_hi r + SIZEOF_HEADER + clamp size /\
    ordered lo (heap_hi r') bs'' /\
    (bs' <> [] -> bs'' = bs' /\ Forall (fun b => b_end b <= heap_hi r) bs'').
Proof.
  intros Hok Hlo Ho E Hne. pose proof (region_ok_bounds _ Hok).
  apply (find_fit_ordered lo _ (clamp size)) in Ho; [|lia|mod_lia].
  rewrite E in Ho. cbn [scanned] in Ho. pose proof (clamp_bounds size).
  unfold malloc_abs. rewrite E. cbn zeta. rewrite decide_False by done.
  destruct (sbrk_spec (clamp size + SIZEOF_HEADER) r Hok) as [Es|(r' & Es & _ & _ & Hhi)];
    [by rewrite Es in Hne|]. rewrite Es. cbn [snd]. do 3 eexists. split; [done|].
  split; [lia|]. case_decide as Hnil.
  - split; [|done]. subst bs'. split_and!; repeat constructor; unfold b_end; cbn; mod_lia.
  - destruct Ho as (Ht & Hf & Hw). split; [split_and!; [done..|]|intros _; split; [done|]].
    + eapply within_mono; [|done]. mod_lia.
    + eapply Forall_impl; [exact Hw|]. intros b. cbn. lia.
Qed.

(** C16. [malloc] leaves the data of the blocks in use as it is: on a
    directory that meets the invariants, a call that returns has changed
    no byte of the data of a block in use, whether it took a block whole,
    split one or extended the heap; the header of the remainder of a split
    is written into the free block that is split. *)
Theorem malloc_keeps_data lo s bs fuel size o x a :
  state_ok s -> repr s bs -> 0 <= lo -> ordered lo (heap_hi (s_reg s)) bs ->
  (length bs < fuel)%nat -> clamp size + SIZEOF_HEADER < SIZE_HALF ->
  malloc_abs (s_reg s) size bs = Some o -> x ∈ bs -> b_free x = 0 -> inside x a ->
  match o with
  | Died f => malloc fuel size s = Fault f
  | _ => exists p s', malloc fuel size s = Ok (p, s') /\
           load_byte (s_mem s') a = load_byte (s_mem s) a
  end.
Proof.
  intros Hok Hr Hlo Ho Hf Hhalf Habs Hx Hu Ha. pose proof (region_ok_bounds _ Hok).
  pose proof (malloc_abs_meets s bs fuel size o Hok (ordered_sorted _ _ _ Ho) Hr Hf Hhalf Habs) as Hm.
  pose proof (proj1 (Forall_forall _ _) (proj2 (proj2 Ho)) x Hx) as Hw.
  destruct o as [p bs'|p bs' hd r|f]; [| |done]; cbn [malloc_meets] in Hm.
  - destruct Hm as (s' & E & _ & _ & _ & _ & Hm). exists p, s'. split; [done|].
    apply Hm. eapply malloc_abs_outside; [done| |done..]. mod_lia.
  - destruct Hm as (s' & E & _ & _ & _ & _ & Hm). exists p, s'. split; [done|].
    apply Hm. intros [?|?]; [by eapply inside_not_header|].
    unfold inside in Ha. cbn beta in Hw. lia.
Qed.

End AbstractProofs.

(** ** The theorems at concrete directories *)

Lemma demo_ordered : ordered 4096 4364 demo_blocks.
Proof. apply (bool_decide_unpack _). by vm_compute. Qed.

Lemma malloc_refines_witness :
  malloc_meets 4 50 demo demo_blocks
    (Took 4128 [Block 4096 172 0; Block 4178 114 1; Block 4300 32 0]).
Proof.
  refine (malloc_refines demo demo_blocks 4 50 _ demo_ok demo_sorted demo_repr _ _ _);
    [apply (bool_decide_unpack _); by vm_compute..|by vm_compute].
Defined.

Lemma malloc_abs_defined_witness :
  is_Some (malloc_abs (SimRegion 4096 4364 8192) 50 demo_blocks).
Proof.
  refine (malloc_abs_defined 4096 (SimRegion 4096 4364 8192) 50 demo_blocks _ _ demo_ordered _);
    [apply (bool_decide_unpack _); by vm_compute..|].
  intros pre b rest [= <- <- <-]. apply (bool_decide_unpack _). by vm_compute.
Defined.

Lemma malloc_abs_whole_witness :
  malloc_abs (SimRegion 4096 4364 8192) 160 demo_blocks =
    Some (Took 4128 [Block 4096 172 0; Block 4300 32 0]) /\
  ordered 4096 4364 [Block 4096 172 0; Block 4300 32 0].
Proof.
  refine (malloc_abs_whole 4096 (SimRegion 4096 4364 8192) 160 demo_blocks
            [] (Block 4096 172 1) [Block 4300 32 0] _ _ demo_ordered _ _);
    [apply (bool_decide_unpack _); by vm_compute..|by vm_compute|].
  apply (bool_decide_unpack _). by vm_compute.
Defined.

Lemma malloc_abs_split_witness :
  let bs' := [Block 4096 172 0; Block 4178 114 1; Block 4300 32 0] in
  malloc_abs (SimRegion 4096 4364 8192) 50 demo_blocks = Some (Took 4128 bs') /\
  sorted bs' /\ floored bs' /\ ~ tiled bs' /\ within 4096 4388 bs' /\
  b_end (Block 4178 114 1) = 4324.
Proof.
  refine (malloc_abs_split 4096 (SimRegion 4096 4364 8192) 50 demo_blocks
            [] (Block 4096 172 1) (Block 4300 32 0) [] _ _ demo_ordered _ _ _);
    [apply (bool_decide_unpack _); by vm_compute..|by vm_compute| |];
    apply (bool_decide_unpack _); by vm_compute.
Defined.

Lemma malloc_abs_grows_witness :
  exists bs'' hd r',
    malloc_abs (SimRegion 4096 4364 8192) 1000 demo_blocks = Some (Grew 4396 bs'' hd r') /\
    heap_hi r' = 5396 /\ ordered 4096 (heap_hi r') bs'' /\
    ([Block 4096 172 1; Block 4300 32 0] <> [] ->
     bs'' = [Block 4096 172 1; Block 4300 32 0] /\ Forall (fun b => b_end b <= 4364) bs'').
Proof.
  refine (malloc_abs_grows 4096 (SimRegion 4096 4364 8192) 1000 demo_blocks
            [Block 4096 172 1; Block 4300 32 0] _ _ demo_ordered _ _);
    [apply (bool_decide_unpack _); by vm_compute..|by vm_compute|].
  apply (bool_decide_unpack _). by vm_compute.
Defined.

Lemma malloc_keeps_data_witness :
  exists p s', malloc 4 50 demo = Ok (p, s') /\
    load_byte (s_mem s') 4340 = load_byte (s_mem demo) 4340.
Proof.
  refine (malloc_keeps_data 4096 demo demo_blocks 4 50
            (Took 4128 [Block 4096 172 0; Block 4178 114 1; Block 4300 32 0])
            (Block 4300 32 0) 4340 demo_ok demo_repr _ demo_ordered _ _ _ _ _ _);
    [apply (bool_decide_unpack _); by vm_compute..|by vm_compute| | |];
    apply (bool_decide_unpack _); by vm_compute.
Defined.
