(* ===== verification/Absorb.v ===== *)
(** * The absorption of free blocks by [realloc]

    The block [if((header->next)->free)] of [realloc] in [src/dynalloc.c]:
    the loop that merges the free blocks behind the successor of the block
    ([absorb_run], which computes [absorb]), the split of the successor
    after the bytes that are missing and the merge of the successor into
    the block.  The lemmas say what the loop and the block leave in the
    directory and where they write; the theorems, that the block grows in
    place, with a remainder that overlaps it when the successor is split,
    and that the loop runs off the end of the list when no block in use
    follows. *)

From Stdlib Require Import ZArith Lia.
From stdpp Require Import prelude sorting gmap.
From S2P Require Import Prelude.
From S2P Require Import Memory.
From S2P Require Import Region.
From S2P Require Import Machine.
From S2P Require Import Directory.
From S2P Require Import Alloc.
From S2P Require Import Dealloc.
From S2P Require Import Realloc.
From S2P Require Import Abstract.

#[local] Open Scope Z_scope.

(** What the absorption loop computes: [n] swallows the blocks after it as
    long as the next one is free.  The loop of the source does not stop at
    the end of the list; [absorb] is used when a block in use follows. *)
Fixpoint absorb (n : block) (rest : list block) : block * list block :=
  match rest with
  | [] => (n, [])
  | x :: rest' =>
      if decide (b_free x = 0) then (n, rest) else absorb (merge_abs n x) rest'
  end.

(** ** Heaps to run on *)

(** A block in use, a free block and a block in use, tiled. *)
Definition absorbable : state sim_region :=
  State (lay [Block 4096 40 0; Block 4168 100 1; Block 4300 32 0] ∅)
    (SimRegion 4096 4364 8192) 4096.

(** Two blocks in use and a free last block. *)
Definition demo_tail : state sim_region :=
  State (lay [Block 4096 40 0; Block 4168 100 0; Block 4300 32 1] ∅)
    (SimRegion 4096 4364 8192) 4096.

Section AbsorbProofs.
Context `{HeapRegion R}.
Implicit Types (s : state R) (bs pre rest : list block) (b : block).

(** ** The way into the block *)

(** A block with a successor: the absorption, and the fall back when it
    did not suffice. *)
Lemma realloc_inner s pre b n rest fuel size :
  state_ok s -> repr s (pre ++ b :: n :: rest) ->
  realloc fuel (b_addr b + SIZEOF_HEADER) size s =
  (absorbed ← realloc_absorb fuel (b_addr b) (size_diff size (b_size b));
   if (absorbed : bool) then mret (b_addr b + SIZEOF_HEADER)
   else realloc_move fuel (b_addr b + SIZEOF_HEADER) size (b_addr b)) s.
Proof.
  intros Hok Hr. pose proof (proj2 (repr_at _ _ _ _ Hr)) as Hb.
  destruct (hdr_of_data s _ Hok (proj1 Hb)) as [Eh Hnn].
  unfold realloc. rewrite decide_False, Eh by done.
  rewrite (run_get_size _ _ _ _ Hb). cbn [h_size].
  rewrite decide_False by apply size_diff_not_neg.
  rewrite (run_get_next _ _ _ _ Hb). cbn [h_next head_addr].
  by rewrite decide_False by apply (repr_next _ _ _ _ _ Hr).
Qed.

(** ** The block before a free last block *)

(** The loop that gathers the free blocks after the successor reads the
    free flag of the successor's successor without checking that there is
    one. *)
Lemma absorb_run_null s pre b n fuel :
  state_ok s -> repr s (pre ++ [b; n]) -> (0 < fuel)%nat ->
  absorb_run fuel (b_addr b) s = Fault (NULL + OFF_FREE).
Proof.
  intros Hok Hr Hf. destruct fuel as [|f]; [lia|]. cbn [absorb_run].
  rewrite (run_get_next _ _ _ _ (proj2 (repr_at _ _ _ _ Hr))). cbn [h_next head_addr].
  rewrite (run_get_next _ _ _ _ (proj2 (repr_next _ _ _ _ _ Hr))). cbn [h_next head_addr].
  unfold get_free. rewrite run_load_fault; [done|]. by apply valid_not_null.
Qed.

(** ** Absorbing the free blocks after the successor *)

Lemma absorb_addr n rest : b_addr (absorb n rest).1 = b_addr n.
Proof.
  revert n. induction rest as [|x rest IH]; intros n; [done|]. cbn.
  case_decide; [done|]. by rewrite IH.
Qed.

Lemma absorb_sorted pre n rest :
  sorted (pre ++ n :: rest) -> sorted (pre ++ (absorb n rest).1 :: (absorb n rest).2).
Proof.
  revert n. induction rest as [|x rest IH]; intros n Hs; [done|]. cbn.
  case_decide; [done|]. by apply IH, merge_abs_sorted.
Qed.

(** What is left starts with a block in use, when there is one. *)
Lemma absorb_stops n rest :
  Exists (fun x => b_free x = 0) rest ->
  exists u rest', (absorb n rest).2 = u :: rest' /\ b_free u = 0.
Proof.
  revert n. induction rest as [|x rest IH]; intros n Hex; [by inv Hex|]. cbn.
  case_decide; [by eauto|]. apply IH. by inv Hex.
Qed.

(** The blocks after the second of two neighbours come after the first. *)
Lemma sorted_tail pre b1 b2 post : sorted (pre ++ b1 :: b2 :: post) -> Forall (before b1) post.
Proof. intros Hs%sorted_right. by inv Hs. Qed.

(** What [merge_blocks] writes lies at the first block or above it. *)
Lemma merge_touch_above b1 post :
  Forall (before b1) post -> forall a, merge_touch b1 post a -> b_addr b1 <= a.
Proof.
  unfold merge_touch. intros Hp a [?|[Hne Ha]]; [lia|]. destruct post as [|x post]; [done|].
  apply Forall_cons in Hp as [Hx _]. unfold before in Hx. cbn in Ha. mod_lia.
Qed.

(** One iteration of the loop on a successor [n] that has a successor [x]:
    the loop stops when [x] is in use, and merges [x] into [n] when it is
    free. *)
Lemma absorb_run_step s pre b n x rest f :
  state_ok s -> sorted (pre ++ b :: n :: x :: rest) -> repr s (pre ++ b :: n :: x :: rest) ->
  exists s1, frame s s1 (fun a => b_addr n <= a) /\ repr s1 (pre ++ b :: merge_abs n x :: rest) /\
    absorb_run (S f) (b_addr b) s =
      if decide (b_free x = 0) then Ok (tt, s) else absorb_run f (b_addr b) s1.
Proof.
  intros Hok Hs Hr. cbn [absorb_run]. pose proof (proj2 (repr_at _ _ _ _ Hr)) as Hb.
  rewrite (cons_middle b pre), app_assoc in Hr, Hs.
  pose proof (proj2 (repr_at _ _ _ _ Hr)) as Hn. pose proof (proj2 (repr_next _ _ _ _ _ Hr)) as Hx.
  destruct (merge_blocks_list s _ n x rest Hok Hs Hr) as (s1 & E & Hr1 & Hf1).
  rewrite <- app_assoc in Hr1. cbn [app] in Hr1. exists s1.
  split; [exact (frame_weaken _ _ _ _ (merge_touch_above _ _ (sorted_tail _ _ _ _ Hs)) Hf1)|].
  split; [done|].
  rewrite (run_get_next _ _ _ _ Hb). cbn [h_next head_addr].
  rewrite (run_get_next _ _ _ _ Hn). cbn [h_next head_addr].
  rewrite (run_get_free _ _ _ _ Hx). cbn [h_free]. case_decide; [done|].
  rewrite !(run_get_next _ _ _ _ Hb). cbn [h_next head_addr].
  rewrite (run_get_next _ _ _ _ Hn). cbn [h_next head_addr].
  by rewrite (bind_ok _ _ _ _ _ E).
Qed.

(** The loop of [realloc] computes [absorb] when a block in use follows;
    nothing below the successor of [b] is written. *)
Lemma absorb_run_list s pre b n rest fuel :
  state_ok s -> sorted (pre ++ b :: n :: rest) -> repr s (pre ++ b :: n :: rest) ->
  Exists (fun x => b_free x = 0) rest -> (length rest <= fuel)%nat ->
  exists s', absorb_run fuel (b_addr b) s = Ok (tt, s') /\ state_ok s' /\
    repr s' (pre ++ b :: (absorb n rest).1 :: (absorb n rest).2) /\
    frame s s' (fun a => b_addr n <= a).
Proof.
  revert s n fuel. induction rest as [|x rest IH]; intros s n fuel Hok Hs Hr Hex Hf;
    [by inv Hex|].
  destruct fuel as [|f]; [cbn in Hf; lia|].
  destruct (absorb_run_step s pre b n x rest f Hok Hs Hr) as (s1 & Hf1 & Hr1 & ->).
  cbn [absorb]. case_decide; [by exists s|].
  rewrite (cons_middle b pre), app_assoc in Hs. apply merge_abs_sorted in Hs.
  rewrite <- app_assoc in Hs. cbn [app] in Hs.
  destruct (IH s1 (merge_abs n x) f) as (s' & E' & Hok' & Hr2 & Hf2);
    [by eapply frame_state_ok|done..|by inv Hex|cbn in Hf; lia|].
  exists s'. split_and!; [done..|]. eapply frame_weaken; [|exact (frame_trans _ _ _ _ _ Hf1 Hf2)].
  cbn. tauto.
Qed.

(** The loop runs off the end of the list when every block behind the
    successor is free: it merges them all and reads the free flag of the
    successor of the last block. *)
Lemma absorb_run_off_end s pre b n rest fuel :
  state_ok s -> sorted (pre ++ b :: n :: rest) -> repr s (pre ++ b :: n :: rest) ->
  Forall (fun x => b_free x <> 0) rest -> (length rest < fuel)%nat ->
  absorb_run fuel (b_addr b) s = Fault (NULL + OFF_FREE).
Proof.
  revert s n fuel. induction rest as [|x rest IH]; intros s n fuel Hok Hs Hr Hfr Hf.
  { apply (absorb_run_null s pre b n); [done..|lia]. }
  destruct fuel as [|f]; [cbn in Hf; lia|]. apply Forall_cons in Hfr as [Hx Hfr].
  destruct (absorb_run_step s pre b n x rest f Hok Hs Hr) as (s1 & Hf1 & Hr1 & ->).
  rewrite decide_False by done.
  rewrite (cons_middle b pre), app_assoc in Hs. apply merge_abs_sorted in Hs.
  rewrite <- app_assoc in Hs. cbn [app] in Hs.
  apply (IH s1 (merge_abs n x) f); [by eapply frame_state_ok|done..|cbn in Hf; lia].
Qed.

(** What the merge of a block with its successor writes lies in the header
    of the block or above it. *)
Lemma grown_touch b n post a :
  merge_touch b (n :: post) a -> b_addr b <= a < b_addr b + SIZEOF_HEADER \/ b_addr n <= a.
Proof. unfold merge_touch. cbn. intros [?|[_ ?]]; mod_lia. Qed.

(** The absorption up to the split: the loop has run and the successor,
    grown by [absorb], is large enough. *)
Lemma realloc_absorb_fits s pre b n rest n' u rest' fuel diff :
  state_ok s -> sorted (pre ++ b :: n :: rest) -> repr s (pre ++ b :: n :: rest) ->
  b_free n <> 0 -> Exists (fun x => b_free x = 0) rest -> (length rest <= fuel)%nat ->
  absorb n rest = (n', u :: rest') ->
  exists s1, state_ok s1 /\ sorted ((pre ++ [b]) ++ n' :: u :: rest') /\
    repr s1 ((pre ++ [b]) ++ n' :: u :: rest') /\ frame s s1 (fun a => b_addr n <= a) /\
    realloc_absorb fuel (b_addr b) diff s =
      if decide (diff <= b_size n')
      then (split_block (b_addr n') diff;; n3 ← get_next (b_addr b);
            merge_blocks (b_addr b) n3;; mret true) s1
      else Ok (false, s1).
Proof.
  intros Hok Hs Hr Hn Hex Hf E. unfold realloc_absorb.
  rewrite (run_get_next _ _ _ _ (proj2 (repr_at _ _ _ _ Hr))). cbn [h_next head_addr].
  rewrite (run_get_free _ _ _ _ (proj2 (repr_next _ _ _ _ _ Hr))). cbn [h_free].
  rewrite decide_False by done.
  destruct (absorb_run_list s pre b n rest fuel Hok Hs Hr Hex Hf) as (s1 & E1 & Hok1 & Hr1 & Hf1).
  pose proof Hs as Hs1. rewrite (cons_middle b pre), app_assoc in Hs1.
  apply absorb_sorted in Hs1.
  rewrite E in Hr1, Hs1. cbn [fst snd] in Hr1, Hs1. rewrite (bind_ok _ _ _ _ _ E1).
  pose proof (proj2 (repr_at _ _ _ _ Hr1)) as Hb1. rewrite (cons_middle b pre), app_assoc in Hr1.
  rewrite !(run_get_next _ _ _ _ Hb1). cbn [h_next head_addr].
  rewrite (run_get_size _ _ _ _ (proj2 (repr_at _ _ _ _ Hr1))). cbn [h_size].
  exists s1. split_and!; [done..|]. case_decide; [|done]. by rewrite (run_get_next _ _ _ _ Hb1).
Qed.

(** What the split of the grown successor writes lies at the successor or
    above it. *)
Lemma split_touch_above n' diff u :
  before n' (split_abs n' diff) -> before n' u ->
  forall a, split_touch (b_addr n') diff (b_addr u) a -> b_addr n' <= a.
Proof. unfold before, split_touch, split_abs. cbn. intros ? ? a ?. mod_lia. Qed.

(** The absorption with a split: the successor is split after [diff]
    bytes and then merged whole into the block.  The header of the block
    is written, and nothing else below its successor. *)
Lemma realloc_absorb_split s pre b n rest n' u rest' fuel diff :
  state_ok s -> sorted (pre ++ b :: n :: rest) -> repr s (pre ++ b :: n :: rest) ->
  b_free n <> 0 -> Exists (fun x => b_free x = 0) rest -> (length rest <= fuel)%nat ->
  absorb n rest = (n', u :: rest') ->
  diff <= b_size n' -> splittable (b_size n') diff ->
  before n' (split_abs n' diff) -> before (split_abs n' diff) u ->
  exists s', realloc_absorb fuel (b_addr b) diff s = Ok (true, s') /\ state_ok s' /\
    repr s' (pre ++ merge_abs b n' :: split_abs n' diff :: u :: rest') /\
    frame s s' (fun a => b_addr b <= a < b_addr b + SIZEOF_HEADER \/ b_addr n <= a).
Proof.
  intros Hok Hs Hr Hn Hex Hf E Hd Hsp Hlo Hhi.
  destruct (realloc_absorb_fits s pre b n rest n' u rest' fuel diff)
    as (s1 & Hok1 & Hs1 & Hr1 & Hf1 & ->); [done..|]. rewrite decide_True by done.
  pose proof (absorb_addr n rest) as Ea. rewrite E in Ea. cbn [fst] in Ea.
  pose proof (split_touch_above n' diff u Hlo) as Hup.
  destruct (split_block_list s1 _ n' u rest' diff Hok1 Hs1 Hr1 Hsp Hlo Hhi) as (s2 & E2 & Hr2 & Hf2).
  rewrite (bind_ok _ _ _ _ _ E2). apply split_abs_sorted with (new_size := diff) in Hs1; [|done..].
  rewrite <- app_assoc in Hr2, Hs1. cbn [app] in Hr2, Hs1.
  rewrite (run_get_next _ _ _ _ (proj2 (repr_at _ _ _ _ Hr2))). cbn [h_next head_addr].
  destruct (merge_blocks_list s2 pre b n' _ (frame_state_ok _ _ _ Hf2 Hok1) Hs1 Hr2)
    as (s3 & E3 & Hr3 & Hf3).
  rewrite (bind_ok _ _ _ _ _ E3). exists s3. split_and!; [done| |done|].
  { exact (frame_state_ok _ _ _ Hf3 (frame_state_ok _ _ _ Hf2 Hok1)). }
  eapply frame_weaken; [|exact (frame_trans _ _ _ _ _ (frame_trans _ _ _ _ _ Hf1 Hf2) Hf3)].
  intros a [[?|Ha]|Ha]; [by right|right; rewrite <- Ea; apply Hup; [|done]|].
  - unfold before in *. mod_lia.
  - destruct (grown_touch _ _ _ _ Ha); [by left|right]. unfold before in *. mod_lia.
Qed.

(** The absorption without a split: what would be left of the successor
    is below the floor, and the successor is merged whole into the block. *)
Lemma realloc_absorb_whole s pre b n rest n' u rest' fuel diff :
  state_ok s -> sorted (pre ++ b :: n :: rest) -> repr s (pre ++ b :: n :: rest) ->
  b_free n <> 0 -> Exists (fun x => b_free x = 0) rest -> (length rest <= fuel)%nat ->
  absorb n rest = (n', u :: rest') ->
  diff <= b_size n' -> ~ splittable (b_size n') diff ->
  exists s', realloc_absorb fuel (b_addr b) diff s = Ok (true, s') /\ state_ok s' /\
    repr s' (pre ++ merge_abs b n' :: u :: rest') /\
    frame s s' (fun a => b_addr b <= a < b_addr b + SIZEOF_HEADER \/ b_addr n <= a).
Proof.
  intros Hok Hs Hr Hn Hex Hf E Hd Hsp.
  destruct (realloc_absorb_fits s pre b n rest n' u rest' fuel diff)
    as (s1 & Hok1 & Hs1 & Hr1 & Hf1 & ->); [done..|]. rewrite decide_True by done.
  pose proof (absorb_addr n rest) as Ea. rewrite E in Ea. cbn [fst] in Ea.
  pose proof (sorted_right _ _ _ Hs1) as [Hu _]%Forall_cons.
  rewrite (bind_ok _ _ _ _ _ (split_block_skip s1 _ _ diff (proj2 (repr_at _ _ _ _ Hr1)) Hsp)).
  rewrite <- app_assoc in Hr1, Hs1. cbn [app] in Hr1, Hs1.
  rewrite (run_get_next _ _ _ _ (proj2 (repr_at _ _ _ _ Hr1))). cbn [h_next head_addr].
  destruct (merge_blocks_list s1 pre b n' _ Hok1 Hs1 Hr1) as (s2 & E2 & Hr2 & Hf2).
  rewrite (bind_ok _ _ _ _ _ E2). exists s2. split_and!; [done| |done|].
  { exact (frame_state_ok _ _ _ Hf2 Hok1). }
  eapply frame_weaken; [|exact (frame_trans _ _ _ _ _ Hf1 Hf2)].
  intros a [?|Ha]; [by right|]. destruct (grown_touch _ _ _ _ Ha); [by left|right].
  unfold before in *. mod_lia.
Qed.

(** The absorption that does not suffice: the successor has absorbed the
    free blocks behind it and is still too small. *)
Lemma realloc_absorb_short s pre b n rest n' u rest' fuel diff :
  state_ok s -> sorted (pre ++ b :: n :: rest) -> repr s (pre ++ b :: n :: rest) ->
  b_free n <> 0 -> Exists (fun x => b_free x = 0) rest -> (length rest <= fuel)%nat ->
  absorb n rest = (n', u :: rest') -> ~ diff <= b_size n' ->
  exists s', realloc_absorb fuel (b_addr b) diff s = Ok (false, s') /\ state_ok s' /\
    repr s' (pre ++ b :: n' :: u :: rest') /\ frame s s' (fun a => b_addr n <= a).
Proof.
  intros Hok Hs Hr Hn Hex Hf E Hd.
  destruct (realloc_absorb_fits s pre b n rest n' u rest' fuel diff)
    as (s1 & Hok1 & Hs1 & Hr1 & Hf1 & ->); [done..|]. rewrite decide_False by done.
  rewrite <- app_assoc in Hr1. by exists s1.
Qed.

(** [realloc] on a block with a successor returns the address when the
    absorption succeeded. *)
Lemma realloc_to_absorb s pre b n rest fuel size s' :
  state_ok s -> repr s (pre ++ b :: n :: rest) ->
  realloc_absorb fuel (b_addr b) (size_diff size (b_size b)) s = Ok (true, s') ->
  realloc fuel (b_addr b + SIZEOF_HEADER) size s = Ok (b_addr b + SIZEOF_HEADER, s').
Proof.
  intros Hok Hr E. rewrite (realloc_inner s pre b n rest fuel size Hok Hr).
  by rewrite (bind_ok _ _ _ _ _ E).
Qed.

(** ** What the loop leaves *)

Lemma absorb_length n rest : (length (absorb n rest).2 <= length rest)%nat.
Proof.
  revert n. induction rest as [|x rest IH]; intros n; [done|]. cbn.
  case_decide; [done|]. specialize (IH (merge_abs n x)). lia.
Qed.

(** Nothing is left when every block behind the successor is free. *)
Lemma absorb_all n rest : (absorb n rest).2 = [] -> Forall (fun x => b_free x <> 0) rest.
Proof.
  revert n. induction rest as [|x rest IH]; intros n; [done|]. cbn.
  case_decide; [done|]. intros E%IH. by constructor.
Qed.

(** What is left starts at a block in use. *)
Lemma absorb_some n rest u rest' :
  (absorb n rest).2 = u :: rest' -> Exists (fun x => b_free x = 0) rest.
Proof.
  revert n. induction rest as [|x rest IH]; intros n; [done|]. cbn.
  case_decide; [by left|]. intros E%IH. by right.
Qed.

(** The absorption keeps the invariants of the directory. *)
Lemma absorb_ordered lo hi pre n rest :
  0 <= lo -> hi <= SIZE_MOD -> ordered lo hi (pre ++ n :: rest) ->
  ordered lo hi (pre ++ (absorb n rest).1 :: (absorb n rest).2).
Proof.
  intros Hlo Hhi. revert n. induction rest as [|x rest IH]; intros n Ho; [done|]. cbn.
  case_decide; [done|]. by apply IH, merge_abs_ordered.
Qed.

(** The absorption faults when every block behind the successor is
    free. *)
Lemma realloc_absorb_lost s pre b n rest fuel diff :
  state_ok s -> sorted (pre ++ b :: n :: rest) -> repr s (pre ++ b :: n :: rest) ->
  b_free n <> 0 -> Forall (fun x => b_free x <> 0) rest -> (length rest < fuel)%nat ->
  realloc_absorb fuel (b_addr b) diff s = Fault (NULL + OFF_FREE).
Proof.
  intros Hok Hs Hr Hn Hfr Hf. unfold realloc_absorb.
  rewrite (run_get_next _ _ _ _ (proj2 (repr_at _ _ _ _ Hr))). cbn [h_next head_addr].
  rewrite (run_get_free _ _ _ _ (proj2 (repr_next _ _ _ _ _ Hr))). cbn [h_free].
  rewrite decide_False by done. apply bind_fault. by apply (absorb_run_off_end s pre b n rest).
Qed.

(** ** The theorems *)

(** [realloc] on the block before a free last block faults: the
    loop over the successor's successors reads the free flag at
    [NULL + 24]. *)
Theorem realloc_before_free_tail_faults s pre b n fuel size :
  state_ok s -> repr s (pre ++ [b; n]) -> b_free n <> 0 -> (0 < fuel)%nat ->
  realloc fuel (b_addr b + SIZEOF_HEADER) size s = Fault (NULL + OFF_FREE).
Proof.
  intros Hok Hr Hn Hf. rewrite (realloc_inner s pre b n [] fuel size Hok Hr).
  apply bind_fault. unfold realloc_absorb.
  rewrite (run_get_next _ _ _ _ (proj2 (repr_at _ _ _ _ Hr))). cbn [h_next head_addr].
  rewrite (run_get_free _ _ _ _ (proj2 (repr_next _ _ _ _ _ Hr))). cbn [h_free].
  rewrite decide_False by done. apply bind_fault. by eapply absorb_run_null.
Qed.

End AbsorbProofs.

(** Growing a block into the free block after it leaves two blocks
    that overlap.  From 40 to 60 bytes with a free block of 100 bytes
    behind: [split_block] cuts the free block but does not reduce its size,
    [merge_blocks] adds the whole of it to the block, and the directory
    holds a block whose data runs from 4128 to 4300 followed by a free
    block at 4220; the next [malloc] hands out 4252, inside the first. *)
Theorem realloc_absorb_overlaps :
  (s' ← final (realloc 200 4128 60 absorbable); walk 8 s' (s_first s')) =
    Some [Block 4096 172 0; Block 4220 72 1; Block 4300 32 0] /\
  value ((p ← realloc 200 4128 60; q ← malloc 200 50; mret (p, q)) absorbable) =
    Some (4128, 4252).
Proof. by vm_compute. Qed.

(** C38. Growing a block into the free blocks after it.  When the free
    successor, once it has absorbed the free blocks behind it, is large
    enough and can be split, [realloc] returns the same address and the
    directory holds the block merged with the whole successor, followed by
    the free remainder of the split.  The successor is merged at its full
    size: in a tiled list the header of the remainder lies inside the data
    of the grown block. *)
Theorem realloc_absorb_grows `{HeapRegion R} (s : state R) pre b n rest n' u rest' fuel size :
  state_ok s -> sorted (pre ++ b :: n :: rest) -> repr s (pre ++ b :: n :: rest) ->
  b_free n <> 0 -> Exists (fun x => b_free x = 0) rest -> (length rest <= fuel)%nat ->
  absorb n rest = (n', u :: rest') ->
  size_diff size (b_size b) + SIZEOF_PTR <= b_size n' ->
  splittable (b_size n') (size_diff size (b_size b)) ->
  before n' (split_abs n' (size_diff size (b_size b))) ->
  before (split_abs n' (size_diff size (b_size b))) u ->
  adjacent b n -> is_size (SIZEOF_HEADER + b_size b + b_size n') ->
  exists s', realloc fuel (b_addr b + SIZEOF_HEADER) size s = Ok (b_addr b + SIZEOF_HEADER, s') /\
    repr s' (pre ++ merge_abs b n' :: split_abs n' (size_diff size (b_size b)) :: u :: rest') /\
    b_addr (split_abs n' (size_diff size (b_size b))) + SIZEOF_HEADER <= b_end (merge_abs b n').
Proof.
  intros Hok Hs Hr Hn Hex Hf E Hd Hsp Hlo Hhi Hadj Hsz.
  pose proof (size_diff_range size (b_size b)). pose proof (proj2 (repr_at _ _ _ _ Hr)) as Hb.
  destruct (realloc_absorb_split s pre b n rest n' u rest' fuel (size_diff size (b_size b))
              Hok Hs Hr Hn Hex Hf E) as (s' & E' & _ & Hr' & _); [mod_lia|done..|].
  exists s'. split; [by eapply realloc_to_absorb|split; [done|]].
  - pose proof (absorb_addr n rest) as Ea. rewrite E in Ea. cbn [fst] in Ea.
    pose proof (valid_bounds _ _ _ Hok (proj1 (proj2 (repr_next _ _ _ _ _ Hr)))).
    unfold before, adjacent, b_end, merge_abs, split_abs, splittable in *.
    cbn [b_addr b_size] in *.
    rewrite (wrap_small _ Hsz). mod_lia.
Qed.

(** Growing a block into a free successor too small to be split:
    when what would be left of the successor, once it has absorbed the free
    blocks behind it, is below the floor, [realloc] merges it whole into the
    block and returns the same address.  The directory holds the grown
    block followed by the blocks after the successor; the grown block is at
    least as large as requested, and in a tiled list it ends where the
    successor ended. *)
Theorem realloc_absorb_whole_grows `{HeapRegion R} (s : state R) pre b n rest n' u rest' fuel size :
  state_ok s -> sorted (pre ++ b :: n :: rest) -> repr s (pre ++ b :: n :: rest) ->
  b_free n <> 0 -> Exists (fun x => b_free x = 0) rest -> (length rest <= fuel)%nat ->
  absorb n rest = (n', u :: rest') ->
  b_size b <= size -> size - b_size b <= b_size n' ->
  ~ splittable (b_size n') (size_diff size (b_size b)) ->
  adjacent b n -> is_size (SIZEOF_HEADER + b_size b + b_size n') ->
  exists s', realloc fuel (b_addr b + SIZEOF_HEADER) size s = Ok (b_addr b + SIZEOF_HEADER, s') /\
    repr s' (pre ++ merge_abs b n' :: u :: rest') /\
    size <= b_size (merge_abs b n') /\ b_end (merge_abs b n') = b_end n'.
Proof.
  intros Hok Hs Hr Hn Hex Hf E Hle Hd Hsp Hadj Hsz.
  pose proof (hdr_at_sizes _ _ _ (proj2 (repr_at _ _ _ _ Hr))) as (_ & _ & Hb & _).
  destruct (realloc_absorb_whole s pre b n rest n' u rest' fuel (size_diff size (b_size b))
              Hok Hs Hr Hn Hex Hf E) as (s' & E' & _ & Hr' & _); [unfold size_diff; mod_lia|done|].
  exists s'. split; [by eapply realloc_to_absorb|split; [done|]].
  pose proof (absorb_addr n rest) as Ea. rewrite E in Ea. cbn [fst] in Ea.
  unfold adjacent, b_end, merge_abs in *. cbn [b_addr b_size h_size] in *.
  rewrite (wrap_small _ Hsz). mod_lia.
Qed.

(** ** The properties at work *)

Lemma realloc_before_free_tail_faults_witness : realloc 1 4200 64 demo_tail = Fault 24.
Proof.
  refine (realloc_before_free_tail_faults demo_tail [Block 4096 40 0] (Block 4168 100 0)
            (Block 4300 32 1) 1 64 _ _ _ _); apply (bool_decide_unpack _); by vm_compute.
Defined.

Lemma absorbable_ok : state_ok absorbable.
Proof. apply (bool_decide_unpack _). by vm_compute. Qed.

Lemma realloc_absorb_grows_witness :
  exists s', realloc 1 4128 60 absorbable = Ok (4128, s') /\
    repr s' [Block 4096 172 0; Block 4220 72 1; Block 4300 32 0] /\
    4220 + SIZEOF_HEADER <= b_end (Block 4096 172 0).
Proof.
  refine (realloc_absorb_grows absorbable [] (Block 4096 40 0) (Block 4168 100 1)
            [Block 4300 32 0] (Block 4168 100 1) (Block 4300 32 0) [] 1 60
            absorbable_ok _ _ _ _ _ _ _ _ _ _ _ _); apply (bool_decide_unpack _); by vm_compute.
Defined.

Lemma realloc_absorb_whole_grows_witness :
  exists s', realloc 1 4128 120 absorbable = Ok (4128, s') /\
    repr s' [Block 4096 172 0; Block 4300 32 0] /\
    120 <= 172 /\ b_end (Block 4096 172 0) = b_end (Block 4168 100 1).
Proof.
  refine (realloc_absorb_whole_grows absorbable [] (Block 4096 40 0) (Block 4168 100 1)
            [Block 4300 32 0] (Block 4168 100 1) (Block 4300 32 0) [] 1 120
            absorbable_ok _ _ _ _ _ _ _ _ _ _ _); apply (bool_decide_unpack _); by vm_compute.
Defined.

