(* ===== verification/Release.v ===== *)
(** * The deallocator on lists of blocks

    What [free] and [free_with_caution] of [src/dynalloc.c] compute, as
    functions on the list of blocks of the directory.  [free_abs] finds the
    block of an address, marks it, and when it is the last releases it with
    the free blocks before it.  The file proves that [free] is what the
    function says, that [free_with_caution] is [free] behind a search of
    the list, and that a release that leaves a block behind leaves a chain
    of headers that ends at the break instead of the null pointer, on
    which [free_with_caution] faults. *)

From Stdlib Require Import ZArith Lia.
From stdpp Require Import prelude sorting gmap.
From S2P Require Import Prelude.
From S2P Require Import Memory.
From S2P Require Import Region.
From S2P Require Import Machine.
From S2P Require Import Directory.
From S2P Require Import Dealloc.

#[local] Open Scope Z_scope.

(** The block of [bs] whose header is at [h], with the blocks before and
    after it; [pre] holds the blocks already passed. *)
Fixpoint locate (h : Z) (pre bs : list block) : option (list block * block * list block) :=
  match bs with
  | [] => None
  | b :: rest =>
      if decide (b_addr b = h) then Some (pre, b, rest) else locate h (pre ++ [b]) rest
  end.

(** The walk back of [free] over a list: the blocks that stay and the free
    blocks at its end. *)
Fixpoint trailing (bs : list block) : list block * list block :=
  match bs with
  | [] => ([], [])
  | b :: bs' =>
      let '(keep, rel) := trailing bs' in
      if decide (keep = [] /\ b_free b <> 0) then ([], b :: rel) else (b :: keep, rel)
  end.

(** How a call of [free] ends: with a block marked, or with the end of the
    list released; then the break is at [brk_at], and so is the [next] of
    the last block of [keep]. *)
Inductive release : Type :=
| Marked (bs : list block)
| Released (keep : list block) (brk_at : Z).

(** [free] on the list [bs].  The function is not defined on an address
    that is not the data of a block of the list. *)
Definition free_abs (address : Z) (bs : list block) : option release :=
  if decide (address = NULL) then Some (Marked bs)
  else match locate (hdr_of address) [] bs with
       | None => None
       | Some (pre, b, []) =>
           let '(keep, rel) := trailing pre in
           Some (Released keep (head_addr (rel ++ [b]) NULL))
       | Some (pre, b, rest) => Some (Marked (pre ++ freed b :: rest))
       end.

Section Release.
Context `{HeapRegion R}.

(** The blocks [keep] are a chain of headers from [first] whose last
    [next] is [a]: a list when [a] is the null pointer. *)
Definition chain (s : state R) (keep : list block) (a : Z) : Prop :=
  s_first s = head_addr keep NULL /\ seg s NULL keep a.

#[export] Instance chain_dec s keep a : Decision (chain s keep a).
Proof. unfold chain. apply _. Defined.

(** The run of [free] from [s] ends as [o] says. *)
Definition free_meets (fuel : nat) (address : Z) (s : state R) (o : release) : Prop :=
  exists s', free fuel address s = Ok (tt, s') /\ state_ok s' /\
    match o with
    | Marked bs => repr s' bs /\ s_reg s' = s_reg s
    | Released keep a =>
        chain s' keep a /\ s_reg s' = snd (brk a (s_reg s)) /\ heap_hi (s_reg s') = a
    end.

End Release.

Section ReleaseProofs.
Context `{HeapRegion R}.
Implicit Types (s : state R) (bs pre rest : list block) (b : block).

(** ** The code computes [free_abs] *)

Lemma locate_spec h pre bs pre' b rest :
  locate h pre bs = Some (pre', b, rest) -> pre ++ bs = pre' ++ b :: rest /\ b_addr b = h.
Proof.
  revert pre. induction bs as [|c bs IH]; intros pre; [done|]. cbn.
  case_decide; [by intros [= <- <- <-]|]. intros E%IH. by rewrite <- app_assoc in E.
Qed.

Lemma locate_none h pre bs : locate h pre bs = None -> untracked h bs.
Proof.
  revert pre. induction bs as [|c bs IH]; intros pre; [constructor|]. cbn.
  case_decide; [done|]. intros E%IH. by constructor.
Qed.

Lemma trailing_spec bs keep rel :
  trailing bs = (keep, rel) ->
  bs = keep ++ rel /\ Forall (fun x => b_free x <> 0) rel /\ held keep.
Proof.
  revert keep rel. induction bs as [|b bs IH]; intros keep rel; cbn.
  { by intros [= <- <-]. }
  destruct (trailing bs) as [k r]. destruct (IH k r eq_refl) as (-> & Hr & Hk).
  case_decide as Hd; intros [= <- <-].
  - destruct Hd as [-> ?]. by split_and!; [|constructor|].
  - split_and!; [done..|]. destruct k as [|k0 k]; [|done].
    unfold held. cbn. destruct (decide (b_free b = 0)); [done|]. by destruct Hd.
Qed.

(** The address of the data of a block of the heap, from its header. *)
Lemma data_of_hdr s address h :
  state_ok s -> valid s h SIZEOF_HEADER -> is_size address -> hdr_of address = h ->
  address = h + SIZEOF_HEADER.
Proof. intros Hok Hv. pose proof (valid_bounds _ _ _ Hok Hv). mod_lia. Qed.

(** A block of the list. *)
Lemma free_abs_found s pre b rest fuel o :
  state_ok s -> sorted (pre ++ b :: rest) -> repr s (pre ++ b :: rest) ->
  (length pre < fuel)%nat ->
  match rest with
  | [] => let '(keep, rel) := trailing pre in
          Some (Released keep (head_addr (rel ++ [b]) NULL))
  | _ => Some (Marked (pre ++ freed b :: rest))
  end = Some o ->
  free_meets fuel (b_addr b + SIZEOF_HEADER) s o.
Proof.
  intros Hok Hs Hr Hf. destruct rest as [|n rest].
  - destruct (trailing pre) as [keep rel] eqn:E.
    apply trailing_spec in E as (-> & Hfree & Hk). intros [= <-].
    rewrite <- app_assoc in Hs, Hr. rewrite length_app in Hf.
    destruct (free_tail_list s keep rel b fuel) as (s' & ? & ? & ? & ? & ? & ? & ?);
      [done..|lia|]. exists s'. by split_and!.
  - intros [= <-]. destruct (free_inner_list s pre b n rest fuel) as (s' & ? & ? & Hfr);
      [done..|]. exists s'. split_and!; [done|by eapply frame_state_ok|done|apply Hfr].
Qed.

(** ** After a release *)

(** The scan of [free_with_caution] over a chain that does not hold the
    header it looks for. *)
Lemma caution_scan_chain s pv mid nx wfuel fuel h :
  seg s pv mid nx -> untracked h mid -> (length mid <= fuel)%nat ->
  caution_scan wfuel (fuel + 1) h (head_addr mid nx) s =
  caution_scan wfuel (fuel - length mid + 1) h nx s.
Proof.
  revert pv fuel. induction mid as [|b mid IH]; intros pv fuel Hs Hu Hf.
  { cbn. by rewrite Nat.sub_0_r. }
  destruct fuel as [|f]; [cbn in Hf; lia|]. apply Forall_cons in Hu as [Hb Hu].
  apply seg_cons in Hs as (Hn & Hh & Hs). cbn [caution_scan head_addr Nat.add].
  rewrite decide_False, decide_False, (run_get_next _ _ _ _ Hh) by done. cbn [h_next].
  rewrite (IH _ f Hs Hu) by (cbn in Hf; lia). done.
Qed.

(** ** The theorems *)

(** C5. The code computes [free_abs]: from a state whose directory is the
    sorted list [bs], a call of [free] on the data address of a block of
    the list, with more fuel than blocks, ends the way [free_abs] says.  A
    block that has a successor is marked and nothing else changes; the
    last block is released with the free blocks before it, the break moves
    to the first of them, and the blocks that stay are a chain of headers
    from [first] that ends at the break, not at the null pointer, unless
    no block stays. *)
Theorem free_refines s bs fuel address o :
  state_ok s -> sorted bs -> repr s bs -> (length bs < fuel)%nat -> is_size address ->
  free_abs address bs = Some o -> free_meets fuel address s o.
Proof.
  intros Hok Hs Hr Hf Ha. unfold free_abs. case_decide as Hn.
  { intros [= <-]. exists s. unfold free. by rewrite decide_True. }
  destruct (locate _ [] bs) as [[[pre b] rest]|] eqn:E; [|done].
  apply locate_spec in E as [Ebs E]. cbn [app] in Ebs. subst bs. intros Ho.
  rewrite (data_of_hdr s address (b_addr b)); [|done|apply (repr_at _ _ _ _ Hr)|done..].
  apply (free_abs_found s pre b rest); [done..|rewrite length_app in Hf; lia|by destruct rest].
Qed.

(** C23. [free_with_caution] is [free] behind a search: on the data
    address of a block of the directory it does what [free] does, and on
    any other address it returns and changes nothing. *)
Theorem free_with_caution_refines s bs fuel address :
  state_ok s -> sorted bs -> repr s bs -> (length bs < fuel)%nat -> is_size address ->
  free_with_caution fuel address s =
    if decide (is_Some (locate (hdr_of address) [] bs)) then free fuel address s
    else Ok (tt, s).
Proof.
  intros Hok Hs Hr Hf Ha. case_decide as Hl.
  - destruct Hl as [[[pre b] rest] [Ebs E]%locate_spec]. cbn [app] in Ebs. subst bs.
    rewrite (data_of_hdr s address (b_addr b)); [|done|apply (repr_at _ _ _ _ Hr)|done..].
    apply (free_with_caution_found s pre b rest); [done..|]. rewrite length_app in Hf. lia.
  - apply (free_with_caution_skip s bs); [done| |done].
    apply (locate_none _ []). by apply eq_None_not_Some.
Qed.

(** C34. After a release that leaves blocks behind, [free_with_caution] is
    not safe on any address but the blocks that stayed: the scan follows
    the chain to the break and faults there, at the [next] field, or at
    the free flag when the address is that of the data behind the
    break. *)
Theorem free_with_caution_chain_faults s keep a fuel address :
  state_ok s -> chain s keep a -> keep <> [] -> heap_hi (s_reg s) <= a ->
  address <> NULL -> untracked (hdr_of address) keep -> (length keep < fuel)%nat ->
  free_with_caution fuel address s =
    Fault (if decide (a = hdr_of address) then a + OFF_FREE else a + OFF_NEXT).
Proof.
  intros Hok [Hfst Hs] Hne Hhi Hn Hu Hf. pose proof (region_ok_bounds _ Hok).
  unfold free_with_caution. rewrite run_get_first, Hfst, decide_False by done.
  replace (head_addr keep NULL) with (head_addr keep a) by (by destruct keep).
  destruct fuel as [|f]; [lia|]. replace (S f) with (f + 1)%nat at 2 by lia.
  rewrite (caution_scan_chain s NULL keep a _ f) by (done || lia).
  replace (f - length keep + 1)%nat with (S (f - length keep)) by lia.
  cbn [caution_scan]. rewrite decide_False by mod_lia. case_decide.
  - unfold set_free. rewrite run_store_fault; [done|]. unfold valid. mod_lia.
  - unfold get_next. rewrite run_load_fault; [done|]. unfold valid. mod_lia.
Qed.

End ReleaseProofs.

(** ** The theorems on the simulated segment *)

Lemma free_refines_witness :
  free_meets 4 4200 busy (Marked [Block 4096 40 0; Block 4168 100 1; Block 4300 32 0]).
Proof.
  refine (free_refines busy busy_blocks 4 4200 _ busy_ok busy_sorted busy_repr _ _ _);
    [apply (bool_decide_unpack _); by vm_compute..|by vm_compute].
Defined.

Lemma free_with_caution_refines_witness :
  free_with_caution 4 4250 busy =
    if decide (is_Some (locate (hdr_of 4250) [] busy_blocks)) then free 4 4250 busy
    else Ok (tt, busy).
Proof.
  refine (free_with_caution_refines busy busy_blocks 4 4250 busy_ok busy_sorted busy_repr _ _);
    apply (bool_decide_unpack _); by vm_compute.
Defined.

(** Two blocks in use whose chain ends at the break. *)
Lemma free_with_caution_chain_faults_witness :
  free_with_caution 3 5000
    (State (foldr (fun c => put_header c.1 c.2) ∅
              (cells NULL [Block 4096 40 0; Block 4168 100 0] 4300))
       (SimRegion 4096 4300 8192) 4096) =
  Fault (if decide (4300 = hdr_of 5000) then 4300 + OFF_FREE else 4300 + OFF_NEXT).
Proof.
  refine (free_with_caution_chain_faults _ [Block 4096 40 0; Block 4168 100 0] 4300 3 5000
            _ _ _ _ _ _ _); apply (bool_decide_unpack _); by vm_compute.
Defined.
