(* ===== verification/Limits.v ===== *)
(** * Requests at the limits of [size_t]

    [malloc] of [src/dynalloc.c] adds the size of a header to the size
    requested, as a [size_t], and passes the sum to [sbrk], which takes an
    [intptr_t].  The theorems on [malloc] in [Alloc.v] and [Abstract.v]
    are for requests below half the range, where the sum is what [sbrk]
    receives.  This file follows the code beyond: a sum in the upper half
    of the range is a negative increment, and [malloc] faults at the first
    field of the header it writes, after the heap shrank when the system
    agreed; a sum past the end of the range wraps around to less than a
    header, and [malloc] returns a pointer above the break when the four
    fields of the header happen to fit.  [realloc] passes the difference
    of two sizes the same way: growing the last block by half the range
    or more moves the break down. *)

From Stdlib Require Import ZArith Lia.
From stdpp Require Import prelude sorting gmap.
From S2P Require Import Prelude.
From S2P Require Import Memory.
From S2P Require Import Region.
From S2P Require Import Machine.
From S2P Require Import Directory.
From S2P Require Import Alloc.
From S2P Require Import Dealloc.
From S2P Require Import Realloc.

#[local] Open Scope Z_scope.

(** What [malloc] asks of [sbrk] for a block of [size] bytes: the sum is a
    [size_t], the argument an [intptr_t]. *)
Definition request (size : Z) : Z := signed (wrap (size + SIZEOF_HEADER)).

(** What [realloc] asks of [sbrk] to take the last block from [old] bytes
    to [size]: the difference is a [size_t], the argument an [intptr_t]. *)
Definition regrow (size old : Z) : Z := signed (size_diff size old).

Section LimitsProofs.
Context `{HeapRegion R}.
Implicit Types (s : state R) (bs : list block).

(** ** The three ranges of a request *)

Lemma request_small size :
  0 <= size -> size + SIZEOF_HEADER < SIZE_HALF -> request size = size + SIZEOF_HEADER.
Proof. unfold request. intros. mod_lia. Qed.

Lemma request_negative size :
  SIZE_HALF <= size + SIZEOF_HEADER < SIZE_MOD ->
  request size = size + SIZEOF_HEADER - SIZE_MOD /\ request size < 0.
Proof. unfold request. intros. mod_lia. Qed.

Lemma request_wrapped size :
  SIZE_MOD - SIZEOF_HEADER <= size < SIZE_MOD ->
  request size = size + SIZEOF_HEADER - SIZE_MOD /\ 0 <= request size < SIZEOF_HEADER.
Proof. unfold request. intros. mod_lia. Qed.

(** ** The extension of the heap *)

(** The call of [sbrk], whatever it answers. *)
Lemma run_sys_sbrk {B} s n (k : Z -> M (state R) B) :
  (sys_sbrk n ≫= k) s =
  k (fst (sbrk (signed n) (s_reg s))) (upd_reg (snd (sbrk (signed n) (s_reg s))) s).
Proof. unfold sys_sbrk. munfold. by destruct (sbrk (signed n) (s_reg s)). Qed.

(** A negative increment: the store of [prev] faults, at the failure value
    when the system refused and above the break when it agreed. *)
Lemma malloc_extend_negative s size last :
  state_ok s -> SIZE_HALF <= size + SIZEOF_HEADER < SIZE_MOD ->
  malloc_extend size last s = Fault (fst (sbrk (request size) (s_reg s)) + OFF_PREV).
Proof.
  intros Hok Hsz. pose proof (region_ok_bounds _ Hok).
  destruct (request_negative _ Hsz) as [_ Hneg]. clear Hsz.
  unfold malloc_extend. rewrite run_sys_sbrk. fold (request size). unfold set_prev.
  destruct (sbrk_spec (request size) (s_reg s) Hok) as [E|(r' & E & Hok' & Hlo & Hhi)];
    rewrite E; cbn [fst snd]; (rewrite run_store_fault; [done|]);
    unfold valid, SBRK_FAILED; cbn [s_reg upd_reg]; clear E; mod_lia.
Qed.

(** An increment that wrapped around and leaves room for the four fields:
    the header is written in less than its size, and the data pointer is
    above the break. *)
Lemma malloc_extend_wrapped s size last :
  state_ok s -> is_size last -> SIZE_MOD - SIZEOF_HEADER + OFF_FREE < size < SIZE_MOD ->
  fst (sbrk (request size) (s_reg s)) <> SBRK_FAILED ->
  exists s', malloc_extend size last s = Ok (heap_hi (s_reg s) + SIZEOF_HEADER, s') /\
    s_reg s' = snd (sbrk (request size) (s_reg s)) /\
    heap_hi (s_reg s') = heap_hi (s_reg s) + request size /\
    rd_size (s_mem s') (heap_hi (s_reg s)) = size /\
    s_first s' = (if decide (s_first s = NULL) then heap_hi (s_reg s) else s_first s).
Proof.
  intros Hok Hlast Hsz Hne. pose proof (region_ok_bounds _ Hok).
  destruct (request_wrapped size) as [Hreq _]; [mod_lia|].
  unfold malloc_extend. rewrite run_sys_sbrk. fold (request size).
  destruct (sbrk_spec (request size) (s_reg s) Hok) as [E|(r' & E & Hok' & Hlo & Hhi)];
    [by rewrite E in Hne|]. rewrite E. cbn [fst snd]. clear E Hne.
  pose proof (region_ok_bounds _ Hok'). unfold set_prev, set_next, set_size, set_free.
  do 4 mstep. rewrite run_get_first. cbn [s_first upd_reg upd_mem].
  assert (data_of (heap_hi (s_reg s)) = heap_hi (s_reg s) + SIZEOF_HEADER) as -> by mod_lia.
  case_decide; (eexists; split; [reflexivity|]);
    cbn [s_reg s_first s_mem upd_first upd_mem upd_reg]; (split_and!; [done..| |done]);
    unfold rd_size; mem_simpl; apply wrap_small; mod_lia.
Qed.

(** ** The last block *)

Lemma regrow_negative size old :
  is_size size -> is_size old -> SIZE_HALF <= size - old ->
  regrow size old = size - old - SIZE_MOD /\ regrow size old < 0.
Proof. unfold regrow, size_diff. intros. mod_lia. Qed.

(** [realloc] on a header without successor moves the break by the
    difference read as an [intptr_t], whatever its sign, and records the
    size. *)
Lemma realloc_resize_signed s h hd fuel size :
  state_ok s -> hdr_at s h hd -> h_next hd = NULL -> is_size size ->
  h + SIZEOF_HEADER <= heap_hi (s_reg s) + regrow size (h_size hd) ->
  fst (sbrk (regrow size (h_size hd)) (s_reg s)) <> SBRK_FAILED ->
  exists s', realloc fuel (h + SIZEOF_HEADER) size s = Ok (h + SIZEOF_HEADER, s') /\
    s_first s' = s_first s /\ heap_lo (s_reg s') = heap_lo (s_reg s) /\
    heap_hi (s_reg s') = heap_hi (s_reg s) + regrow size (h_size hd) /\
    hdr_at s' h (mkHeader NULL (h_prev hd) size (h_free hd)) /\
    same_bytes (fun a => h + OFF_SIZE <= a < h + OFF_FREE) (s_mem s) (s_mem s').
Proof.
  intros Hok Hb Hnx Hsz Hfit Hsb. rewrite (realloc_to_resize s h hd) by done.
  destruct (run_sbrk_ok s (size_diff size (h_size hd)) (regrow size (h_size hd))
              (fun _ => set_size h size;; mret (h + SIZEOF_HEADER)) Hok)
    as (r' & Hreg & Hok' & Hlo & Hhi & ->); [done..|].
  clear Hsb. pose proof (region_ok_bounds _ Hok'). pose proof Hb as [Hvb _].
  hdr_fields. unfold set_size. mstep.
  eexists. split; [done|]. split; [done|]. split; [done|]. split; [done|].
  split; [solve_hdr|solve_same].
Qed.

(** ** The theorems *)

(** C25. A request in the upper half of the range of [size_t] is a
    negative increment for [sbrk]: when no block fits, [malloc] faults at
    the [prev] field of what [sbrk] returns, which is its failure value
    when the system refused, and the old break, now outside the heap that
    just shrank, when it agreed. *)
Theorem malloc_negative_request s bs bs' fuel size :
  state_ok s -> sorted bs -> repr s bs -> (length bs < fuel)%nat ->
  find_fit (clamp size) bs = NoFit bs' ->
  SIZE_HALF <= clamp size + SIZEOF_HEADER < SIZE_MOD ->
  malloc fuel size s = Fault (fst (sbrk (request (clamp size)) (s_reg s)) + OFF_PREV).
Proof.
  intros Hok Hs Hr Hf E Hsz.
  destruct (malloc_nofit_list s bs bs' fuel size Hok Hs Hr Hf E) as (s1 & [<- _] & Hok1 & _ & ->).
  by apply malloc_extend_negative.
Qed.

(** C24. A request within seven bytes of the end of the range wraps
    around: when no block fits and the system grants the few bytes that are
    left of the sum, [malloc] returns, the break has moved by less than
    the size of a header, the pointer returned is above it, and the header
    records the size requested. *)
Theorem malloc_wrapped_request s bs bs' fuel size :
  state_ok s -> sorted bs -> repr s bs -> (length bs < fuel)%nat ->
  find_fit (clamp size) bs = NoFit bs' ->
  SIZE_MOD - SIZEOF_HEADER + OFF_FREE < size < SIZE_MOD ->
  fst (sbrk (request size) (s_reg s)) <> SBRK_FAILED ->
  exists s', malloc fuel size s = Ok (heap_hi (s_reg s) + SIZEOF_HEADER, s') /\
    heap_hi (s_reg s') = heap_hi (s_reg s) + request size /\
    heap_hi (s_reg s') < heap_hi (s_reg s) + SIZEOF_HEADER /\
    rd_size (s_mem s') (heap_hi (s_reg s)) = size.
Proof.
  intros Hok Hs Hr Hf E Hsz Hne.
  destruct (malloc_nofit_list s bs bs' fuel size Hok Hs Hr Hf E)
    as (s1 & [Hreg _] & Hok1 & Hr1 & ->).
  assert (clamp size = size) as -> by (unfold clamp; mod_lia). rewrite <- Hreg in *.
  destruct (malloc_extend_wrapped s1 size (last_addr NULL bs')) as (s' & E' & _ & Hhi & Hsize & _);
    [done|by apply (last_addr_size s1)|done..|].
  exists s'. split_and!; [done..| |done]. destruct (request_wrapped size); mod_lia.
Qed.

(** C26. Growing the last block by half the range of [size_t] or more is
    a negative increment for [sbrk]: when the system agrees and the header
    of the block stays in the heap, [realloc] returns the address, the
    break has moved down instead of up, and the list records the size
    requested for the block. *)
Theorem realloc_negative_request s pre b fuel size :
  state_ok s -> sorted (pre ++ [b]) -> repr s (pre ++ [b]) ->
  is_size size -> SIZE_HALF <= size - b_size b ->
  b_addr b + SIZEOF_HEADER <= heap_hi (s_reg s) + regrow size (b_size b) ->
  fst (sbrk (regrow size (b_size b)) (s_reg s)) <> SBRK_FAILED ->
  exists s', realloc fuel (b_addr b + SIZEOF_HEADER) size s = Ok (b_addr b + SIZEOF_HEADER, s') /\
    repr s' (pre ++ [resized b size]) /\
    heap_hi (s_reg s') = heap_hi (s_reg s) + regrow size (b_size b) /\
    heap_hi (s_reg s') < heap_hi (s_reg s).
Proof.
  intros Hok Hs Hr Hsz Hd Hfit Hsb. pose proof Hr as [_ [_ (_ & Hb & _)%seg_cons]%seg_app].
  pose proof (hdr_at_sizes _ _ _ Hb) as (_ & _ & Hold & _).
  destruct (realloc_resize_signed s _ _ fuel size Hok Hb) as (s' & E & Hf' & Hlo & Hhi & Hb' & Hm);
    [done..|]. cbn [h_size h_prev h_free] in *.
  exists s'. split_and!; [done|by eapply resized_list|done|].
  destruct (regrow_negative size (b_size b)); [done..|lia].
Qed.

End LimitsProofs.

(** ** The theorems on the simulated segment *)

Lemma malloc_negative_request_witness :
  malloc 4 (SIZE_MOD - 132) demo =
    Fault (fst (sbrk (request (clamp (SIZE_MOD - 132))) (s_reg demo)) + OFF_PREV).
Proof.
  refine (malloc_negative_request demo demo_blocks [Block 4096 172 1; Block 4300 32 0] 4
            (SIZE_MOD - 132) demo_ok demo_sorted demo_repr _ _ _);
    [apply (bool_decide_unpack _); by vm_compute|by vm_compute|].
  apply (bool_decide_unpack _). by vm_compute.
Defined.

Lemma malloc_wrapped_request_witness :
  exists s', malloc 1 (SIZE_MOD - 4) fresh = Ok (heap_hi (s_reg fresh) + SIZEOF_HEADER, s') /\
    heap_hi (s_reg s') = heap_hi (s_reg fresh) + request (SIZE_MOD - 4) /\
    heap_hi (s_reg s') < heap_hi (s_reg fresh) + SIZEOF_HEADER /\
    rd_size (s_mem s') (heap_hi (s_reg fresh)) = SIZE_MOD - 4.
Proof.
  refine (malloc_wrapped_request fresh [] [] 1 (SIZE_MOD - 4) _ _ _ _ _ _ _);
    [apply (bool_decide_unpack _); by vm_compute..|by vm_compute| |];
    apply (bool_decide_unpack _); by vm_compute.
Defined.

(** The blocks of [busy] in a heap that extends past the last of them. *)
Lemma realloc_negative_request_witness :
  let s := State (lay busy_blocks ∅) (SimRegion 4096 4500 8192) 4096 in
  exists s', realloc 1 4332 (SIZE_MOD - 10) s = Ok (4332, s') /\
    repr s' ([Block 4096 40 0; Block 4168 100 0] ++ [resized (Block 4300 32 0) (SIZE_MOD - 10)]) /\
    heap_hi (s_reg s') = heap_hi (s_reg s) + regrow (SIZE_MOD - 10) 32 /\
    heap_hi (s_reg s') < heap_hi (s_reg s).
Proof.
  refine (realloc_negative_request (State (lay busy_blocks ∅) (SimRegion 4096 4500 8192) 4096)
            [Block 4096 40 0; Block 4168 100 0] (Block 4300 32 0) 1
            (SIZE_MOD - 10) _ _ _ _ _ _ _);
    apply (bool_decide_unpack _); by vm_compute.
Defined.
