(* ===== verification/Move.v ===== *)
(** * The fall back of [realloc]: a new block, a copy, a release

    When a block cannot grow in place, [realloc] of [src/dynalloc.c] calls
    [malloc], copies the data and frees the old block.  This file proves
    these last lines on a directory that meets the invariants, for a block
    in use that has a successor, whatever [malloc] does: when it finds a
    block in the list, whole or split, the data arrives in the block found;
    when it extends the heap, the data arrives at the old break, or, if the
    new size is smaller than the old one, the copy runs into the new break;
    when it faults, so does [realloc].  The list is the one [malloc_abs]
    leaves with the old block free ([vacate]). *)

From Stdlib Require Import ZArith Lia.
From stdpp Require Import prelude sorting gmap.
From S2P Require Import Prelude.
From S2P Require Import Memory.
From S2P Require Import Region.
From S2P Require Import Machine.
From S2P Require Import Directory.
From S2P Require Import Alloc.
From S2P Require Import Dealloc.
From S2P Require Import Realloc.
From S2P Require Import Abstract.

#[local] Open Scope Z_scope.

(** The list with the block whose header is at [h] free: what
    [free(address)] makes of the list [malloc] left. *)
Definition vacate (h : Z) (bs : list block) : list block :=
  (fun x => if decide (b_addr x = h) then freed x else x) <$> bs.

(** Two blocks in use and a free block of 80 bytes at the end of the
    heap. *)
Definition roomy_blocks : list block :=
  [Block 4096 40 0; Block 4168 100 0; Block 4300 80 1].

Definition roomy : state sim_region :=
  State (lay roomy_blocks ∅) (SimRegion 4096 4412 8192) 4096.

Section MoveProofs.
Context `{HeapRegion R}.
Implicit Types (s : state R) (bs pre rest : list block) (b : block).

(** ** Lists *)

(** Blocks at other addresses stay as they are. *)
Lemma vacate_other h l : untracked h l -> vacate h l = l.
Proof.
  induction 1 as [|x l Hx _ IH]; [done|]. unfold vacate in *. cbn.
  by rewrite decide_False, IH.
Qed.

(** In a sorted list a header address names one block. *)
Lemma vacate_at l1 b l2 :
  sorted (l1 ++ b :: l2) -> vacate (b_addr b) (l1 ++ b :: l2) = l1 ++ freed b :: l2.
Proof.
  intros Hs. unfold vacate. rewrite fmap_app, fmap_cons, decide_True by done.
  fold (vacate (b_addr b) l1) (vacate (b_addr b) l2). rewrite !vacate_other; [done|..].
  - eapply Forall_impl; [exact (sorted_right _ _ _ Hs)|]. unfold before. intros x ?. mod_lia.
  - eapply Forall_impl; [exact (sorted_left _ _ _ Hs)|]. unfold before. intros x ?. mod_lia.
Qed.

(** The scan merges free blocks only: the last block of the list it
    leaves is the last block of the list it was given, or a free block. *)
Lemma first_fit_last size pre cur rest y :
  last (scanned (first_fit size pre cur rest)) = Some y ->
  last (pre ++ cur :: rest) = Some y \/ b_free y <> 0.
Proof.
  revert pre cur. induction rest as [|n rest IH]; intros pre cur; cbn [first_fit].
  { case_decide; by left. }
  repeat case_decide; cbn [scanned]; [|by left|].
  - intros [Hy|Hy]%IH; [|by right]. rewrite last_app_cons in *. destruct rest as [|x rest].
    + right. injection Hy as <-. cbn. tauto.
    + left. by rewrite !last_cons_cons in *.
  - intros Hy%IH. by rewrite <- app_assoc in Hy.
Qed.

Lemma find_fit_last size bs y :
  last (scanned (find_fit size bs)) = Some y -> last bs = Some y \/ b_free y <> 0.
Proof. destruct bs as [|b bs]; [done|]. apply (first_fit_last size []). Qed.

(** A block that is in a list and is not its last block has a
    successor. *)
Lemma inner_split (l : list block) b :
  b ∈ l -> last l <> Some b -> exists l1 n l2, l = l1 ++ b :: n :: l2.
Proof.
  intros (l1 & l2 & ->)%list_elem_of_split Hl. destruct l2 as [|n l2]; [|by eauto].
  by rewrite last_snoc in Hl.
Qed.

(** A block in use that has a successor is in the scanned list, and is
    not its last block. *)
Lemma scanned_inner size pre b n rest :
  sorted (pre ++ b :: n :: rest) -> b_free b = 0 ->
  b ∈ scanned (find_fit size (pre ++ b :: n :: rest)) /\
  last (scanned (find_fit size (pre ++ b :: n :: rest))) <> Some b.
Proof.
  intros Hs Hb. split; [apply find_fit_keeps_in_use; [rewrite elem_of_app, elem_of_cons; tauto|done]|].
  intros [Hl|?]%find_fit_last; [|done]. rewrite last_app_cons, last_cons_cons in Hl.
  apply last_Some_elem_of in Hl. apply sorted_right in Hs.
  rewrite Forall_forall in Hs. specialize (Hs _ Hl). unfold before in Hs. mod_lia.
Qed.

(** The list [malloc_abs] leaves when it takes a block: the scanned list
    with the block found marked, and the remainder of a split after it. *)
Lemma took_shape r size bs p bs1 :
  malloc_abs r size bs = Some (Took p bs1) ->
  exists pre c mid rest, find_fit (clamp size) bs = Fit pre c rest /\
    bs1 = pre ++ taken c :: mid ++ rest.
Proof.
  unfold malloc_abs. destruct (find_fit (clamp size) bs) as [pre c rest|]; [|by case_decide].
  cbn zeta. case_decide; [destruct rest as [|n rest]; case_decide|]; intros [= <- <-].
  - by exists pre, c, [split_abs c (clamp size)], (n :: rest).
  - by exists pre, c, [], rest.
Qed.

(** The list [malloc_abs] leaves when it extends the heap of a directory
    that holds a block: the scanned list, and a segment that has grown by a
    header and the size. *)
Lemma grew_shape r size bs p bs1 hd r' x :
  region_ok r -> malloc_abs r size bs = Some (Grew p bs1 hd r') -> x ∈ scanned (find_fit (clamp size) bs) ->
  p = heap_hi r + SIZEOF_HEADER /\ bs1 = scanned (find_fit (clamp size) bs) /\
  heap_lo r' = heap_lo r /\ heap_hi r' = heap_hi r + SIZEOF_HEADER + clamp size.
Proof.
  intros Hok. unfold malloc_abs. destruct (find_fit (clamp size) bs) as [pre c rest|bs'].
  { cbn zeta. by repeat case_match. }
  cbn zeta. case_decide as Hsb; intros [= <- <- <- <-] Hx. cbn [scanned] in *.
  rewrite decide_False by (intros ->; by apply elem_of_nil in Hx).
  destruct (sbrk_success _ _ Hok Hsb) as [_ ->]. split_and!; [done..|by apply sbrk_lo|lia].
Qed.

(** A block in use that has a successor still has one after a block was
    taken from the list. *)
Lemma took_successor r size pre b n rest p bs1 :
  sorted (pre ++ b :: n :: rest) -> b_free b = 0 ->
  malloc_abs r size (pre ++ b :: n :: rest) = Some (Took p bs1) ->
  exists l1 n1 l2, bs1 = l1 ++ b :: n1 :: l2.
Proof.
  intros Hs Hb (pre' & c & mid & rest' & Ef & ->)%took_shape.
  destruct (scanned_inner (clamp size) _ _ _ _ Hs Hb) as [Hin Hl]. rewrite Ef in Hin, Hl.
  cbn [scanned] in Hin, Hl. destruct (find_fit_fits _ _ _ _ _ Ef) as [Hc _].
  apply elem_of_app in Hin as [(l1 & k & ->)%list_elem_of_split|[->|Hin]%elem_of_cons];
    [|done|].
  - rewrite <- app_assoc. cbn [app]. destruct k as [|n1 k]; by eauto.
  - apply list_elem_of_split in Hin as (k1 & k2 & ->). destruct k2 as [|n1 k2].
    + by rewrite last_app_cons, app_comm_cons, last_snoc in Hl.
    + exists (pre' ++ taken c :: mid ++ k1), n1, k2. by rewrite <- app_assoc, <- app_comm_cons, <- app_assoc.
Qed.

(** The free flag of a block is not in the data of a block of the list. *)
Lemma inside_header_free lo hi bs b c :
  ordered lo hi bs -> b ∈ bs -> c ∈ bs -> ~ inside c (b_addr b + OFF_FREE).
Proof.
  intros Ho Hb Hc Hin. apply (inside_not_header _ _ _ _ _ Ho Hc Hin).
  apply (in_headers_elem _ b); [done|mod_lia].
Qed.

(** ** The copy *)

(** The data of the old block arrives in the block found, and the list is
    still in memory: the bytes written lie in the data of the block found,
    before the header of the remainder if it was split. *)
Lemma copy_into_fit lo s1 bs c b bs1 size fuel :
  state_ok s1 -> 0 <= lo -> ordered lo (heap_hi (s_reg s1)) bs -> repr s1 bs1 ->
  b ∈ bs -> c ∈ bs -> b <> c -> b ∈ bs1 -> taken c ∈ bs1 ->
  b_size b <= clamp size -> clamp size <= b_size c ->
  (forall a, in_headers bs1 a ->
     in_headers bs a \/ b_addr c + SIZEOF_HEADER + clamp size <= a < b_end c) ->
  (Z.to_nat (b_size b) < fuel)%nat ->
  exists s2, copy_loop fuel (b_addr b) (b_addr c) 0 s1 = Ok (tt, s2) /\
    state_ok s2 /\ s_reg s2 = s_reg s1 /\ repr s2 bs1 /\
    same_bytes (inside c) (s_mem s1) (s_mem s2) /\
    forall j, 0 <= j < b_size b ->
      load_byte (s_mem s2) (b_addr c + SIZEOF_HEADER + j) =
      load_byte (s_mem s1) (b_addr b + SIZEOF_HEADER + j).
Proof.
  intros Hok Hlo Ho Hr1 Hb Hc Hne Hb1 Hc1 Hfit Hroom Hh Hfuel.
  pose proof (proj1 (Forall_forall _ _) (proj2 (proj2 Ho))) as Hw.
  pose proof (Hw b Hb) as Hwb. pose proof (Hw c Hc) as Hwc. cbn beta in Hwb, Hwc.
  pose proof (proj1 (Forall_forall _ _) (repr_valid _ _ Hr1)) as Hv.
  pose proof (Hv b Hb1) as Hvb. pose proof (Hv _ Hc1) as Hvc. cbn [b_addr taken] in Hvc.
  apply list_elem_of_split in Hb1 as (l1 & l2 & ->). pose proof (repr_at _ _ _ _ Hr1) as [_ Hhb].
  destruct (copy_loop_run s1 (b_addr b) (b_addr c) (b_size b) fuel 0) as (s2 & E2 & Hfr2 & Hcp);
    [done|done|by apply hdr_at_fields in Hhb as (_ & _ & _ & ? & _)|..].
  1-5: destruct (ordered_apart _ _ _ b c Ho Hb Hc) as [?|[?|?]]; [done|..];
       unfold valid, below, b_end in *; try rewrite Z.sub_0_r; mod_lia.
  exists s2. destruct Hfr2 as (Hreg & Hfst & Hm). split_and!; [done| |done| | |done].
  - unfold state_ok. by rewrite Hreg.
  - apply (repr_grow s1 s2 _ _ Hr1 Hm); [done|by rewrite Hreg..|].
    apply Forall_forall. intros y Hy a Hya Ha. destruct (Hh a) as [Hin|?];
      [by eapply in_headers_elem| |unfold b_end in *; lia].
    apply (inside_not_header _ _ _ c a Ho Hc); [|done]. unfold inside, b_end. lia.
  - intros a Ha. apply Hm. unfold inside, b_end in Ha. lia.
Qed.

(** ** The move *)

(** The blocks of a directory that meets the invariants, when the segment
    has grown: what is written above the old break is outside their
    headers. *)
Lemma within_avoids lo hi bs (P : Z -> Prop) :
  within lo hi bs -> (forall a, P a -> hi <= a) -> Forall (avoids P) bs.
Proof.
  intros Hw HP. eapply Forall_impl; [exact Hw|]. intros x (? & ? & Hx) a Ha HPa%HP.
  unfold b_end in Hx. lia.
Qed.

(** [malloc] finds a block, the data is copied into it, the old block is
    freed. *)
Lemma realloc_move_fit lo s pre b n rest fuel size p bs1 :
  state_ok s -> repr s (pre ++ b :: n :: rest) -> 0 <= lo ->
  ordered lo (heap_hi (s_reg s)) (pre ++ b :: n :: rest) ->
  b_free b = 0 -> b_size b <= clamp size ->
  clamp size + SIZEOF_HEADER < SIZE_HALF ->
  malloc_abs (s_reg s) size (pre ++ b :: n :: rest) = Some (Took p bs1) ->
  (length (pre ++ b :: n :: rest) < fuel)%nat -> (Z.to_nat (b_size b) < fuel)%nat ->
  exists s', realloc_move fuel (b_addr b + SIZEOF_HEADER) size (b_addr b) s = Ok (p, s') /\
    state_ok s' /\ repr s' (vacate (b_addr b) bs1) /\ s_reg s' = s_reg s /\
    forall j, 0 <= j < b_size b ->
      load_byte (s_mem s') (p + j) = load_byte (s_mem s) (b_addr b + SIZEOF_HEADER + j).
Proof.
  intros Hok Hr Hlo Ho Hb Hfit Hhalf Habs Hfuel Hfuel'.
  pose proof (region_ok_bounds _ Hok). assert (heap_hi (s_reg s) < SIZE_MOD) as Hhi by mod_lia.
  pose proof (ordered_sorted _ _ _ Ho) as Hs.
  assert (b ∈ pre ++ b :: n :: rest) as Hbin by (rewrite elem_of_app, elem_of_cons; tauto).
  unfold realloc_move, copy_data.
  destruct (malloc_abs_meets s _ fuel size _ Hok Hs Hr Hfuel Hhalf Habs)
    as (s1 & E1 & Hok1 & Hr1 & Hreg1 & _ & Hm1). rewrite (bind_ok _ _ _ _ _ E1).
  destruct (malloc_abs_took lo _ size _ p bs1 Hlo Hhi Ho Habs)
    as (c & Hc & [Hcf Hcs] & -> & Hc1 & Hin & Hh).
  destruct (took_successor _ size pre b n rest _ bs1 Hs Hb Habs) as (l1 & n1 & l2 & ->).
  pose proof (after_sorted _ _ _ _ Hs Habs) as Hs1. cbn [after] in Hs1.
  pose proof (proj1 (Forall_forall _ _) (repr_valid _ _ Hr1) _ Hc1) as Hvc. cbn [b_addr taken] in Hvc.
  destruct (hdr_of_data s1 _ Hok1 Hvc) as [-> Hnn]. rewrite decide_False by done.
  apply (find_fit_ordered lo _ (clamp size)) in Ho as Ho'; [|done|lia]. rewrite <- Hreg1 in Ho'.
  destruct (copy_into_fit lo s1 _ c b _ size fuel Hok1 Hlo Ho' Hr1)
    as (s2 & E2 & Hok2 & Hreg2 & Hr2 & Hm2 & Hcp);
    [by apply find_fit_keeps_in_use|done|by intros ->|rewrite elem_of_app, elem_of_cons; tauto|
     done..|].
  rewrite (bind_ok _ _ _ _ _ E2).
  destruct (free_inner_list s2 l1 b n1 l2 fuel Hok2 Hs1 Hr2) as (s3 & E3 & Hr3 & Hf3).
  rewrite (bind_ok _ _ _ _ _ E3). exists s3. rewrite vacate_at by done.
  pose proof Hf3 as (Hreg3 & _ & Hm3).
  split_and!; [done|by eapply frame_state_ok|done|congruence|]. intros j Hj.
  pose proof (proj1 (Forall_forall _ _) (proj2 (proj2 Ho')) c Hc) as Hwc. cbn beta in Hwc.
  assert (inside c (b_addr c + SIZEOF_HEADER + j)) as Hic by (unfold inside, b_end; lia).
  pose proof (find_fit_keeps_in_use (clamp size) _ b Hbin Hb) as Hb'.
  rewrite Hm3 by (intros E; rewrite E in Hic; exact (inside_header_free _ _ _ b c Ho' Hb' Hc Hic)).
  rewrite Hcp by done.
  apply Hm1. eapply malloc_abs_outside; [done..|]. unfold inside, b_end. lia.
Qed.

(** The state [malloc] leaves when it extends the heap of a directory
    that holds the block [b]: the scanned list, in which [b] has a
    successor, is in memory, the header of the new block is at the old
    break, and the data of [b] is as it was. *)
Lemma realloc_move_extend lo s pre b n rest fuel size p bs1 hd r' :
  state_ok s -> repr s (pre ++ b :: n :: rest) -> 0 <= lo ->
  ordered lo (heap_hi (s_reg s)) (pre ++ b :: n :: rest) -> b_free b = 0 ->
  clamp size + SIZEOF_HEADER < SIZE_HALF ->
  malloc_abs (s_reg s) size (pre ++ b :: n :: rest) = Some (Grew p bs1 hd r') ->
  (length (pre ++ b :: n :: rest) < fuel)%nat ->
  exists s1 l1 n1 l2, malloc fuel size s = Ok (p, s1) /\ state_ok s1 /\ s_reg s1 = r' /\
    p = heap_hi (s_reg s) + SIZEOF_HEADER /\ hdr_of p = heap_hi (s_reg s) /\ p <> NULL /\
    heap_hi r' = heap_hi (s_reg s) + SIZEOF_HEADER + clamp size /\
    heap_lo r' = heap_lo (s_reg s) /\
    bs1 = l1 ++ b :: n1 :: l2 /\ sorted bs1 /\ within lo (heap_hi (s_reg s)) bs1 /\
    repr s1 bs1 /\
    forall j, 0 <= j < b_size b ->
      load_byte (s_mem s1) (b_addr b + SIZEOF_HEADER + j) =
      load_byte (s_mem s) (b_addr b + SIZEOF_HEADER + j).
Proof.
  intros Hok Hr Hlo Ho Hb Hhalf Habs Hfuel. pose proof (region_ok_bounds _ Hok).
  pose proof (ordered_sorted _ _ _ Ho) as Hs.
  destruct (scanned_inner (clamp size) _ _ _ _ Hs Hb) as [Hin Hl].
  destruct (grew_shape _ _ _ _ _ _ _ b Hok Habs Hin) as (-> & -> & Hlo' & Hhi).
  destruct (inner_split _ _ Hin Hl) as (l1 & n1 & l2 & E).
  destruct (malloc_abs_meets s _ fuel size _ Hok Hs Hr Hfuel Hhalf Habs)
    as (s1 & E1 & Hok1 & Hr1 & Hreg1 & Hh1 & Hm1).
  destruct (hdr_of_data s1 _ Hok1 (proj1 Hh1)) as [Eh Hnn].
  apply (find_fit_ordered lo _ (clamp size)) in Ho as Ho'; [|done|mod_lia].
  exists s1, l1, n1, l2. split_and!; try done.
  - by apply find_fit_sorted.
  - apply Ho'.
  - intros j Hj. apply Hm1. intros [Hh|Hh].
    + eapply (inside_not_header _ _ _ b _ Ho); [rewrite elem_of_app, elem_of_cons; tauto| |done].
      unfold inside, b_end. lia.
    + destruct (within_at lo _ pre b _ (proj2 (proj2 Ho))) as (_ & _ & He). unfold b_end in He. lia.
Qed.

(** [malloc] extends the heap, the data is copied to the old break, the
    old block is freed. *)
Lemma realloc_move_break lo s pre b n rest fuel size p bs1 hd r' :
  state_ok s -> repr s (pre ++ b :: n :: rest) -> 0 <= lo ->
  ordered lo (heap_hi (s_reg s)) (pre ++ b :: n :: rest) ->
  b_free b = 0 -> b_size b <= clamp size ->
  clamp size + SIZEOF_HEADER < SIZE_HALF ->
  malloc_abs (s_reg s) size (pre ++ b :: n :: rest) = Some (Grew p bs1 hd r') ->
  (length (pre ++ b :: n :: rest) < fuel)%nat -> (Z.to_nat (b_size b) < fuel)%nat ->
  exists s', realloc_move fuel (b_addr b + SIZEOF_HEADER) size (b_addr b) s = Ok (p, s') /\
    state_ok s' /\ repr s' (vacate (b_addr b) bs1) /\ s_reg s' = r' /\
    forall j, 0 <= j < b_size b ->
      load_byte (s_mem s') (p + j) = load_byte (s_mem s) (b_addr b + SIZEOF_HEADER + j).
Proof.
  intros Hok Hr Hlo Ho Hb Hfit Hhalf Habs Hfuel Hfuel'.
  destruct (realloc_move_extend lo s pre b n rest fuel size p bs1 hd r')
    as (s1 & l1 & n1 & l2 & E1 & Hok1 & <- & -> & Eh & Hnn & Hhi & Hlo' & -> & Hs1 & Hw1 & Hr1 & Hd1);
    [done..|].
  unfold realloc_move, copy_data. rewrite (bind_ok _ _ _ _ _ E1), decide_False, Eh by done.
  pose proof (repr_at _ _ _ _ Hr1) as [_ Hhb]. pose proof (proj1 Hhb) as Hvb.
  destruct (within_at _ _ _ _ _ Hw1) as (Hb1 & Hb2 & Hb3). unfold b_end in Hb3.
  destruct (copy_loop_run s1 (b_addr b) (heap_hi (s_reg s)) (b_size b) fuel 0)
    as (s2 & E2 & Hfr2 & Hcp);
    [done|done|by apply hdr_at_fields in Hhb as (_ & _ & _ & ? & _)|..].
  1-5: unfold valid in *; rewrite ?Z.sub_0_r; mod_lia.
  rewrite (bind_ok _ _ _ _ _ E2). pose proof Hfr2 as (Hreg2 & Hf2 & Hm2).
  destruct (free_inner_list s2 l1 b n1 l2 fuel) as (s3 & E3 & Hr3 & Hf3);
    [by eapply frame_state_ok|done| |].
  { apply (repr_grow s1 s2 _ _ Hr1 Hm2); [done|by rewrite Hreg2..|].
    apply (within_avoids lo (heap_hi (s_reg s))); [done|]. intros a Ha. cbn in Ha. mod_lia. }
  rewrite (bind_ok _ _ _ _ _ E3). exists s3. rewrite vacate_at by done.
  pose proof Hf3 as (Hreg3 & _ & Hm3). split_and!; [done| |done|congruence|].
  { exact (frame_state_ok _ _ _ Hf3 (frame_state_ok _ _ _ Hfr2 Hok1)). }
  intros j Hj. rewrite Hm3 by mod_lia. rewrite Hcp by done. by apply Hd1.
Qed.

(** [malloc] extends the heap by less than the block holds: the copy runs
    into the new break. *)
Lemma realloc_move_short lo s pre b n rest fuel size p bs1 hd r' :
  state_ok s -> repr s (pre ++ b :: n :: rest) -> 0 <= lo ->
  ordered lo (heap_hi (s_reg s)) (pre ++ b :: n :: rest) ->
  b_free b = 0 -> clamp size < b_size b ->
  clamp size + SIZEOF_HEADER < SIZE_HALF ->
  malloc_abs (s_reg s) size (pre ++ b :: n :: rest) = Some (Grew p bs1 hd r') ->
  (length (pre ++ b :: n :: rest) < fuel)%nat -> (Z.to_nat (b_size b) < fuel)%nat ->
  realloc_move fuel (b_addr b + SIZEOF_HEADER) size (b_addr b) s = Fault (p + clamp size).
Proof.
  intros Hok Hr Hlo Ho Hb Hfit Hhalf Habs Hfuel Hfuel'.
  destruct (realloc_move_extend lo s pre b n rest fuel size p bs1 hd r')
    as (s1 & l1 & n1 & l2 & E1 & Hok1 & <- & -> & Eh & Hnn & Hhi & Hlo' & -> & Hs1 & Hw1 & Hr1 & _);
    [done..|].
  unfold realloc_move, copy_data. rewrite (bind_ok _ _ _ _ _ E1), decide_False, Eh by done.
  pose proof (repr_at _ _ _ _ Hr1) as [_ Hhb]. pose proof (proj1 Hhb) as Hvb.
  destruct (within_at _ _ _ _ _ Hw1) as (Hb1 & Hb2 & Hb3). unfold b_end in Hb3.
  pose proof (clamp_bounds size). apply bind_fault.
  apply (copy_loop_overrun s1 _ _ (b_size b)); try done;
    try (by apply hdr_at_fields in Hhb as (_ & _ & _ & ? & _));
    unfold valid in *; rewrite ?Z.sub_0_r; mod_lia.
Qed.

(** [malloc] faults, and so does [realloc]. *)
Lemma realloc_move_died s bs fuel address size header a :
  state_ok s -> sorted bs -> repr s bs -> (length bs < fuel)%nat ->
  clamp size + SIZEOF_HEADER < SIZE_HALF -> malloc_abs (s_reg s) size bs = Some (Died a) ->
  realloc_move fuel address size header s = Fault a.
Proof.
  intros Hok Hs Hr Hf Hhalf Habs. apply bind_fault.
  exact (malloc_abs_meets s _ fuel size _ Hok Hs Hr Hf Hhalf Habs).
Qed.

(** ** The theorem *)

(** The fall back of [realloc] when [malloc] finds a block in the
    list: on a directory that meets the invariants, growing a block in use
    whose successor is in use returns the data pointer [malloc_abs] gives,
    the list is the one [malloc_abs] leaves with the old block free, the
    segment is as it was, and the data of the old block is at the address
    returned. *)
Theorem realloc_moves_into_fit lo s pre b n rest fuel size p bs1 :
  state_ok s -> repr s (pre ++ b :: n :: rest) -> 0 <= lo ->
  ordered lo (heap_hi (s_reg s)) (pre ++ b :: n :: rest) ->
  b_free b = 0 -> b_free n = 0 -> b_size b <= clamp size ->
  clamp size + SIZEOF_HEADER < SIZE_HALF ->
  malloc_abs (s_reg s) size (pre ++ b :: n :: rest) = Some (Took p bs1) ->
  (length (pre ++ b :: n :: rest) < fuel)%nat -> (Z.to_nat (b_size b) < fuel)%nat ->
  exists s', realloc fuel (b_addr b + SIZEOF_HEADER) size s = Ok (p, s') /\
    repr s' (vacate (b_addr b) bs1) /\ s_reg s' = s_reg s /\
    forall j, 0 <= j < b_size b ->
      load_byte (s_mem s') (p + j) = load_byte (s_mem s) (b_addr b + SIZEOF_HEADER + j).
Proof.
  intros Hok Hr Hlo Ho Hb Hn Hfit Hhalf Habs Hf Hf'.
  rewrite (realloc_to_move _ _ _ _ _ _ _ Hok Hr Hn).
  destruct (realloc_move_fit lo s pre b n rest fuel size p bs1) as (s' & ? & ? & ? & ? & ?);
    [done..|]. by exists s'.
Qed.

End MoveProofs.

(** ** A move on the simulated segment *)

Lemma realloc_moves_into_fit_witness :
  exists s', realloc 50 4128 60 roomy = Ok (4332, s') /\
    repr s' (vacate 4096 [Block 4096 40 0; Block 4168 100 0; Block 4300 80 0]) /\
    s_reg s' = s_reg roomy /\
    forall j, 0 <= j < 40 ->
      load_byte (s_mem s') (4332 + j) = load_byte (s_mem roomy) (4096 + SIZEOF_HEADER + j).
Proof.
  refine (realloc_moves_into_fit 4096 roomy [] (Block 4096 40 0) (Block 4168 100 0)
            [Block 4300 80 1] 50 60 4332 _ _ _ _ _ _ _ _ _ _ _ _);
    try (apply (bool_decide_unpack _); by vm_compute); by vm_compute.
Defined.
