(* ===== verification/Resize.v ===== *)
(** * [realloc] on lists of blocks

    [realloc_abs] is [realloc] of [src/dynalloc.c] as a function on the
    list of blocks and the segment: the null pointer, the last block, whose
    size is rewritten after the break has moved by the signed difference,
    the absorption of the free blocks behind the block ([absorb_abs]), and
    the fall back to [malloc], [copy_data] and [free] ([move_abs]), which is
    [malloc_abs] followed by [vacate].  The test [size_diff < 0] on a
    [size_t] never holds, so no path shrinks a block in place.
    [realloc_refines] shows that the code computes the function on a
    directory that meets the invariants, and that the data of the block is
    at the address returned; the theorems after it say what the function
    does to the invariants. *)

From Stdlib Require Import ZArith Lia.
From stdpp Require Import prelude sorting gmap.
From S2P Require Import Prelude.
From S2P Require Import Memory.
From S2P Require Import Region.
From S2P Require Import Machine.
From S2P Require Import Directory.
From S2P Require Import Alloc.
From S2P Require Import Dealloc.
From S2P Require Import Realloc.
From S2P Require Import Abstract.
From S2P Require Import Absorb.
From S2P Require Import Release.
From S2P Require Import Limits.
From S2P Require Import Move.

#[local] Open Scope Z_scope.

Section Resize.
Context `{HeapRegion R}.

(** How a call of [realloc] ends: it returns the address it was given, or
    another one, with the list and the segment it leaves, or it faults. *)
Inductive regrown : Type :=
| Stayed (bs : list block) (r : R)
| Moved (p : Z) (bs : list block) (r : R)
| Lost (a : Z).

(** The last lines of [realloc] for the block [b] of the list [bs]:
    [malloc], [copy_data], [free].  There is no case for
    [if(!new_address)]: [malloc] does not return the null pointer.
    [copy_data] copies the old size: into a block of the list when the
    request is not smaller, and into a new block at the break, where a
    smaller request makes the copy run into the break.  The function is
    not defined on a smaller request served from the list, where the copy
    overwrites what follows the bytes requested, nor on a free block, which
    [malloc] may hand out again. *)
Definition move_abs (r : R) (size : Z) (b : block) (bs : list block) : option regrown :=
  if decide (b_free b = 0) then
    match malloc_abs r size bs with
    | Some (Took p bs1) =>
        if decide (b_size b <= clamp size) then Some (Moved p (vacate (b_addr b) bs1) r)
        else None
    | Some (Grew p bs1 _ r') =>
        if decide (b_size b <= clamp size) then Some (Moved p (vacate (b_addr b) bs1) r')
        else Some (Lost (p + clamp size))
    | Some (Died a) => Some (Lost a)
    | None => None
    end
  else None.

(** The block [if((header->next)->free)] of [realloc] for the block [b]
    followed by the free block [n]: the loop runs off the end of the list
    when every block behind [n] is free. *)
Definition absorb_abs (r : R) (size : Z) (pre : list block) (b n : block) (rest : list block) :
    option regrown :=
  let diff := size_diff size (b_size b) in
  let '(n', rest') := absorb n rest in
  match rest' with
  | [] => Some (Lost (NULL + OFF_FREE))
  | u :: _ =>
      if decide (diff <= b_size n') then
        if decide (splittable (b_size n') diff) then
          if decide (before n' (split_abs n' diff) /\ before (split_abs n' diff) u)
          then Some (Stayed (pre ++ merge_abs b n' :: split_abs n' diff :: rest') r)
          else None
        else Some (Stayed (pre ++ merge_abs b n' :: rest') r)
      else move_abs r size b (pre ++ b :: n' :: rest')
  end.

(** [realloc] on the list [bs] and the segment [r].  There is no case
    for [if(size_diff < 0)]: the difference is a [size_t]
    ([size_diff_not_neg]).  The last block is the one that has no [next];
    the result of [sbrk] is not looked at.  The function is not defined on
    an address that is not the data of a block of the list, nor when the
    break would move below the header of the last block. *)
Definition realloc_abs (r : R) (address size : Z) (bs : list block) : option regrown :=
  if decide (address = NULL) then Some (Stayed bs r)
  else match locate (hdr_of address) [] bs with
       | None => None
       | Some (pre, b, []) =>
           let r' := snd (sbrk (regrow size (b_size b)) r) in
           if decide (b_addr b + SIZEOF_HEADER <= heap_hi r')
           then Some (Stayed (pre ++ [resized b size]) r') else None
       | Some (pre, b, n :: rest) =>
           if decide (b_free n = 0) then move_abs r size b bs
           else absorb_abs r size pre b n rest
       end.

(** The list a call leaves, when it returns. *)
Definition remains (o : regrown) : list block :=
  match o with
  | Stayed bs _ | Moved _ bs _ => bs
  | Lost _ => []
  end.

(** The state [s'] holds the list [bs] in the segment [r], and the [old]
    bytes at [dst] are the bytes [s] had at [src]. *)
Definition arrived (s s' : state R) (bs : list block) (r : R) (src dst old : Z) : Prop :=
  state_ok s' /\ repr s' bs /\ s_reg s' = r /\
  forall j, 0 <= j < old ->
    load_byte (s_mem s') (dst + j) = load_byte (s_mem s) (src + j).

(** The run [run] ends as [o] says, and the [old] bytes [s] had at
    [address] are at the address returned. *)
Definition ends (run : res (Z * state R)) (s : state R) (address old : Z) (o : regrown) : Prop :=
  match o with
  | Stayed bs r => exists s', run = Ok (address, s') /\ arrived s s' bs r address address old
  | Moved p bs r => exists s', run = Ok (p, s') /\ arrived s s' bs r address p old
  | Lost a => run = Fault a
  end.

(** The run of [realloc] from [s] ends as [o] says, and the data of the
    block, as many bytes as its header recorded, is at the address
    returned. *)
Definition realloc_meets (fuel : nat) (address size : Z) (s : state R) (o : regrown) : Prop :=
  ends (realloc fuel address size s) s address (rd_size (s_mem s) (hdr_of address)) o.

End Resize.

Arguments regrown : clear implicits.

Section ResizeProofs.
Context `{HeapRegion R}.
Implicit Types (s : state R) (bs pre rest : list block) (b : block).

(** Gives the state a call that returns ends in. *)
Ltac landed s' := hnf; exists s'; unfold arrived; split_and!.

(** ** The paths of [realloc] *)

(** The null pointer is returned. *)
Lemma realloc_null s bs fuel size :
  state_ok s -> repr s bs -> realloc_meets fuel NULL size s (Stayed bs (s_reg s)).
Proof. intros Hok Hr. landed s; [|done..]. unfold realloc. by rewrite decide_True. Qed.

(** The size [realloc] reads in the header of a block of the list. *)
Lemma old_size s pre b rest :
  state_ok s -> repr s (pre ++ b :: rest) ->
  rd_size (s_mem s) (hdr_of (b_addr b + SIZEOF_HEADER)) = b_size b.
Proof.
  intros Hok Hr. pose proof (proj2 (repr_at _ _ _ _ Hr)) as Hb.
  destruct (hdr_of_data s _ Hok (proj1 Hb)) as [-> _].
  by apply hdr_at_fields in Hb as (_ & _ & _ & ? & _).
Qed.

(** The last block: the break moves by the signed difference, or stays
    when the system refuses, and the header records the new size. *)
Lemma realloc_tail_any s pre b fuel size :
  state_ok s -> sorted (pre ++ [b]) -> repr s (pre ++ [b]) -> is_size size ->
  b_addr b + SIZEOF_HEADER <= heap_hi (snd (sbrk (regrow size (b_size b)) (s_reg s))) ->
  ends (realloc fuel (b_addr b + SIZEOF_HEADER) size s) s (b_addr b + SIZEOF_HEADER) (b_size b)
    (Stayed (pre ++ [resized b size]) (snd (sbrk (regrow size (b_size b)) (s_reg s)))).
Proof.
  intros Hok Hs Hr Hsz Hfit. pose proof Hr as [_ [_ (_ & Hb & _)%seg_cons]%seg_app].
  rewrite (realloc_to_resize s _ _ fuel size Hok Hb eq_refl). cbn [h_size].
  rewrite run_sys_sbrk. fold (regrow size (b_size b)).
  pose proof (sbrk_ok (regrow size (b_size b)) _ Hok) as Hok'.
  pose proof (sbrk_lo (regrow size (b_size b)) _ Hok) as Hlo.
  set (r' := snd (sbrk _ _)) in *. pose proof (region_ok_bounds _ Hok').
  pose proof Hb as [Hvb _]. pose proof Hb as Hb0. hdr_fields. unfold set_size. mstep.
  hnf. eexists. unfold arrived. split_and!; [done..| |done|].
  - eapply (resized_list s); [done..| |]; [solve_hdr|solve_same].
  - intros j Hj. cbn [s_mem upd_mem upd_reg]. apply load_byte_store_le_out. mod_lia.
Qed.

(** The fall back computes [move_abs], from the state [s] the absorption
    left, in which the data of the block is what it was in [s0]. *)
Lemma move_abs_run lo s0 s pre b n rest fuel size o :
  state_ok s -> repr s (pre ++ b :: n :: rest) -> 0 <= lo ->
  ordered lo (heap_hi (s_reg s)) (pre ++ b :: n :: rest) ->
  clamp size + SIZEOF_HEADER < SIZE_HALF ->
  (length (pre ++ b :: n :: rest) < fuel)%nat -> (Z.to_nat (b_size b) < fuel)%nat ->
  (forall j, 0 <= j < b_size b ->
     load_byte (s_mem s) (b_addr b + SIZEOF_HEADER + j) =
     load_byte (s_mem s0) (b_addr b + SIZEOF_HEADER + j)) ->
  move_abs (s_reg s) size b (pre ++ b :: n :: rest) = Some o ->
  ends (realloc_move fuel (b_addr b + SIZEOF_HEADER) size (b_addr b) s) s0
    (b_addr b + SIZEOF_HEADER) (b_size b) o.
Proof.
  intros Hok Hr Hlo Ho Hhalf Hf Hf' Hd. unfold move_abs. case_decide as Hb; [|done].
  destruct (malloc_abs _ _ _) as [[p bs1|p bs1 hd r'|a]|] eqn:Habs; [..|done].
  - case_decide; [|done]. intros [= <-].
    destruct (realloc_move_fit lo s pre b n rest fuel size p bs1)
      as (s' & ? & ? & ? & ? & Hcp); [done..|].
    landed s'; [done..|]. intros j Hj. by rewrite Hcp, Hd.
  - case_decide; intros [= <-].
    + destruct (realloc_move_break lo s pre b n rest fuel size p bs1 hd r')
        as (s' & ? & ? & ? & ? & Hcp); [done..|].
      landed s'; [done..|]. intros j Hj. by rewrite Hcp, Hd.
    + apply (realloc_move_short lo s pre b n rest fuel size p bs1 hd r');
        [done|done|done|done|done|lia|done..].
  - intros [= <-]. apply (realloc_move_died s (pre ++ b :: n :: rest)); [done| |done..].
    by eapply ordered_sorted.
Qed.

(** The data of a block of a tiled list lies below its successor, and
    outside its own header. *)
Lemma data_below lo hi pre b n rest j :
  ordered lo hi (pre ++ b :: n :: rest) -> 0 <= j < b_size b ->
  ~ (b_addr b <= b_addr b + SIZEOF_HEADER + j < b_addr b + SIZEOF_HEADER \/
     b_addr n <= b_addr b + SIZEOF_HEADER + j).
Proof.
  intros (Ht%tiled_at & _ & _) Hj. unfold adjacent, b_end in Ht. mod_lia.
Qed.

(** The block [if((header->next)->free)] and what follows it compute
    [absorb_abs]. *)
Lemma absorb_abs_run lo s pre b n rest fuel size o :
  state_ok s -> repr s (pre ++ b :: n :: rest) -> 0 <= lo ->
  ordered lo (heap_hi (s_reg s)) (pre ++ b :: n :: rest) -> b_free n <> 0 ->
  clamp size + SIZEOF_HEADER < SIZE_HALF ->
  (length (pre ++ b :: n :: rest) < fuel)%nat -> (Z.to_nat (b_size b) < fuel)%nat ->
  absorb_abs (s_reg s) size pre b n rest = Some o ->
  ends (realloc fuel (b_addr b + SIZEOF_HEADER) size s) s (b_addr b + SIZEOF_HEADER) (b_size b) o.
Proof.
  intros Hok Hr Hlo Ho Hn Hhalf Hf Hf'. pose proof (ordered_sorted _ _ _ Ho) as Hs.
  pose proof (region_ok_bounds _ Hok). rewrite length_app in Hf. cbn [length] in Hf.
  rewrite (realloc_inner s pre b n rest fuel size Hok Hr). unfold absorb_abs.
  pose proof (absorb_length n rest) as Hlen.
  pose proof (absorb_ordered lo (heap_hi (s_reg s)) (pre ++ [b]) n rest Hlo) as Ho1.
  rewrite <- !app_assoc in Ho1. specialize (Ho1 ltac:(mod_lia) Ho).
  destruct (absorb n rest) as [n' rest'] eqn:E. cbn [fst snd] in *. destruct rest' as [|u rest'].
  { intros [= <-]. apply bind_fault.
    apply (realloc_absorb_lost s pre b n rest); [done..| |lia]. apply (absorb_all n). by rewrite E. }
  assert (Exists (fun x => b_free x = 0) rest) as Hex by (apply (absorb_some n _ u rest'); by rewrite E).
  case_decide as Hd; [case_decide as Hsp; [case_decide as Hg; [|done]|]|]; [intros [= <-]..|].
  - destruct Hg as [Hg1 Hg2].
    destruct (realloc_absorb_split s pre b n rest n' u rest' fuel (size_diff size (b_size b)))
      as (s' & E' & Hok' & Hr' & Hreg & _ & Hm); try done; try lia.
    rewrite (bind_ok _ _ _ _ _ E'). landed s'; [done..|].
    intros j Hj. apply Hm. by eapply data_below.
  - destruct (realloc_absorb_whole s pre b n rest n' u rest' fuel (size_diff size (b_size b)))
      as (s' & E' & Hok' & Hr' & Hreg & _ & Hm); try done; try lia.
    rewrite (bind_ok _ _ _ _ _ E'). landed s'; [done..|].
    intros j Hj. apply Hm. by eapply data_below.
  - destruct (realloc_absorb_short s pre b n rest n' u rest' fuel (size_diff size (b_size b)))
      as (s' & E' & Hok' & Hr' & Hreg & _ & Hm); try done; try lia.
    rewrite (bind_ok _ _ _ _ _ E'), <- Hreg. rewrite <- Hreg in Ho1. cbn [app] in Ho1.
    apply (move_abs_run lo s s'); [done..| |done|].
    + rewrite length_app. cbn [length] in *. lia.
    + intros j Hj. apply Hm. pose proof (data_below _ _ _ _ _ _ j Ho Hj). tauto.
Qed.

(** ** What the function keeps *)

Lemma vacate_sorted h l : sorted l -> sorted (vacate h l).
Proof. apply Sorted_fmap. intros x y. unfold before. case_decide; cbn; case_decide; cbn; done. Qed.

Lemma resized_sorted pre b size : sorted (pre ++ [b]) -> sorted (pre ++ [resized b size]).
Proof. by apply Sorted_snoc_change. Qed.

Lemma move_abs_sorted r size b bs o :
  sorted bs -> move_abs r size b bs = Some o -> sorted (remains o).
Proof.
  intros Hs. unfold move_abs. case_decide; [|done].
  destruct (malloc_abs r size bs) as [[p bs1|p bs1 hd r'|a]|] eqn:E; [..|done];
    pose proof (after_sorted _ _ _ _ Hs E) as Hs1; cbn [after] in Hs1;
    repeat case_decide; try done; intros [= <-]; cbn [remains];
    by (apply vacate_sorted || constructor).
Qed.

Lemma absorb_abs_sorted r size pre b n rest o :
  sorted (pre ++ b :: n :: rest) -> absorb_abs r size pre b n rest = Some o -> sorted (remains o).
Proof.
  intros Hs. unfold absorb_abs. pose proof (absorb_sorted (pre ++ [b]) n rest) as Hs1.
  rewrite <- !app_assoc in Hs1. specialize (Hs1 Hs).
  destruct (absorb n rest) as [n' rest']. cbn [fst snd app] in Hs1.
  destruct rest' as [|u rest']; [intros [= <-]; constructor|].
  repeat case_decide; try done; [intros [= <-]..|by apply move_abs_sorted]; cbn [remains].
  - destruct_and!. apply merge_abs_sorted. rewrite (cons_middle b), app_assoc.
    apply split_abs_sorted; [done..|]. by rewrite <- app_assoc.
  - by apply merge_abs_sorted.
Qed.

Lemma remains_sorted r address size bs o :
  sorted bs -> realloc_abs r address size bs = Some o -> sorted (remains o).
Proof.
  intros Hs. unfold realloc_abs. case_decide; [by intros [= <-]|].
  destruct (locate _ [] bs) as [[[pre b] rest]|] eqn:E; [|done].
  apply locate_spec in E as [Ebs _]. cbn [app] in Ebs. subst bs.
  destruct rest as [|n rest]; [|case_decide].
  - case_decide; [|done]. intros [= <-]. by apply resized_sorted.
  - by apply move_abs_sorted.
  - by apply absorb_abs_sorted.
Qed.

(** The fall back never returns the address it was given. *)
Lemma move_abs_leaves r size b bs bs' r' : move_abs r size b bs <> Some (Stayed bs' r').
Proof. unfold move_abs. repeat case_match; congruence. Qed.

(** In a sorted list a header address names one block. *)
Lemma locate_from acc pre c rest :
  Forall (fun x => b_addr x <> b_addr c) pre ->
  locate (b_addr c) acc (pre ++ c :: rest) = Some (acc ++ pre, c, rest).
Proof.
  revert acc. induction pre as [|x pre IH]; intros acc Hp; cbn [locate app].
  { by rewrite decide_True, app_nil_r. }
  apply Forall_cons in Hp as [Hx Hp]. rewrite decide_False, IH by done.
  by rewrite <- app_assoc.
Qed.

Lemma locate_at pre c rest :
  sorted (pre ++ c :: rest) -> locate (b_addr c) [] (pre ++ c :: rest) = Some (pre, c, rest).
Proof.
  intros Hs. apply (locate_from [] pre c rest).
  eapply Forall_impl; [exact (sorted_left _ _ _ Hs)|]. unfold before. intros x ?. mod_lia.
Qed.

(** ** The theorems *)

(** C4. The code computes [realloc_abs]: from a state whose directory is
    the list [bs] and meets the invariants, a call of [realloc] with more
    fuel than blocks and than bytes in a block ends the way [realloc_abs]
    says.  When it returns, the directory is the list of the outcome in
    the segment of the outcome, and the bytes the block held are at the
    address returned: the address given when the block was resized or grew
    into the free blocks behind it, the address [malloc] gave when it
    moved.  When the outcome is a fault, the call stops at that address:
    in the loop that absorbs free blocks when none in use follows, in the
    copy when a block that has a successor is made smaller and [malloc]
    extends the heap, in [malloc] when the system refuses. *)
Theorem realloc_refines lo s bs fuel address size o :
  state_ok s -> repr s bs -> 0 <= lo -> ordered lo (heap_hi (s_reg s)) bs ->
  is_size address -> is_size size -> clamp size + SIZEOF_HEADER < SIZE_HALF ->
  (length bs < fuel)%nat -> Forall (fun x => (Z.to_nat (b_size x) < fuel)%nat) bs ->
  realloc_abs (s_reg s) address size bs = Some o -> realloc_meets fuel address size s o.
Proof.
  intros Hok Hr Hlo Ho Ha Hsz Hhalf Hf Hfs. unfold realloc_abs. case_decide as Hn.
  { intros [= <-]. subst address. by apply realloc_null. }
  destruct (locate _ [] bs) as [[[pre b] rest]|] eqn:E; [|done].
  apply locate_spec in E as [Ebs E]. cbn [app] in Ebs. subst bs. unfold realloc_meets.
  rewrite (data_of_hdr s address (b_addr b)); [|done|apply (repr_at _ _ _ _ Hr)|done..].
  rewrite (old_size s pre b rest Hok Hr).
  assert (Z.to_nat (b_size b) < fuel)%nat as Hfb.
  { apply Forall_app in Hfs as [_ Hfs]. by apply Forall_cons in Hfs as [? _]. }
  destruct rest as [|n rest]; [|case_decide as Hu].
  - case_decide; [|done]. intros [= <-].
    by apply realloc_tail_any; [|eapply ordered_sorted|..].
  - intros Ho'. rewrite (realloc_to_move _ _ _ _ _ _ _ Hok Hr Hu).
    by apply (move_abs_run lo s s pre b n rest).
  - by apply (absorb_abs_run lo s pre b n rest).
Qed.

(** C27. No block but the last is made smaller in place.  The difference
    of the sizes is a [size_t], the test [size_diff < 0] never holds, and a
    request for fewer bytes than the block has is a difference no free
    block can supply: on a directory that meets the invariants [realloc_abs]
    never answers such a request on a block that has a successor by
    returning the address it was given. *)
Theorem realloc_shrink_leaves lo r address size bs pre b n rest bs' r' :
  0 <= lo -> heap_hi r < SIZE_HALF -> ordered lo (heap_hi r) bs -> address <> NULL ->
  locate (hdr_of address) [] bs = Some (pre, b, n :: rest) -> 0 <= size < b_size b ->
  realloc_abs r address size bs <> Some (Stayed bs' r').
Proof.
  intros Hlo Hhi Ho Hn E Hsz. unfold realloc_abs. rewrite decide_False, E by done.
  apply locate_spec in E as [Ebs _]. cbn [app] in Ebs. subst bs.
  case_decide; [apply move_abs_leaves|]. unfold absorb_abs.
  pose proof (absorb_ordered lo (heap_hi r) (pre ++ [b]) n rest Hlo) as Ho1.
  rewrite <- !app_assoc in Ho1. specialize (Ho1 ltac:(mod_lia) Ho).
  destruct (absorb n rest) as [n' rest']. cbn [fst snd app] in Ho1.
  destruct rest' as [|u rest']; [done|]. rewrite decide_False; [apply move_abs_leaves|].
  destruct Ho1 as (_ & _ & Hw). pose proof (within_at _ _ _ _ _ Hw) as Hb.
  rewrite (cons_middle b), app_assoc in Hw. pose proof (within_at _ _ _ _ _ Hw) as Hn'.
  unfold size_diff, b_end in *. mod_lia.
Qed.

(** C37. A block followed by free blocks only cannot be resized: the loop
    that gathers the free blocks behind the block merges them all, reads the
    free flag of the successor of the last one without checking that there
    is one, and [realloc] faults at the free flag of the null header. *)
Theorem realloc_free_run_lost s pre b n rest fuel size :
  state_ok s -> sorted (pre ++ b :: n :: rest) -> repr s (pre ++ b :: n :: rest) ->
  Forall (fun x => b_free x <> 0) (n :: rest) -> (length rest < fuel)%nat ->
  realloc_meets fuel (b_addr b + SIZEOF_HEADER) size s (Lost (NULL + OFF_FREE)).
Proof.
  intros Hok Hs Hr [Hn Hfr]%Forall_cons Hf. hnf.
  rewrite (realloc_inner s pre b n rest fuel size Hok Hr).
  apply bind_fault. by apply (realloc_absorb_lost s pre b n rest).
Qed.

(** The in-place paths grant the request: when [realloc_abs] answers
    with the address it was given, the list it leaves holds a block at that
    address whose size is not less than the size requested. *)
Theorem realloc_abs_grants lo r address size bs bs' r' :
  0 <= lo -> heap_hi r < SIZE_HALF -> ordered lo (heap_hi r) bs -> address <> NULL ->
  is_size size -> realloc_abs r address size bs = Some (Stayed bs' r') ->
  exists pre c rest, locate (hdr_of address) [] bs' = Some (pre, c, rest) /\ size <= b_size c.
Proof.
  intros Hlo Hhi Ho Hn Hsz Habs. pose proof (remains_sorted _ _ _ _ _ (ordered_sorted _ _ _ Ho) Habs) as Hs'.
  revert Habs Hs'. unfold realloc_abs. rewrite decide_False by done.
  destruct (locate _ [] bs) as [[[pre b] rest]|] eqn:E; [|done].
  apply locate_spec in E as [Ebs <-]. cbn [app] in Ebs. subst bs.
  destruct rest as [|n rest]; [|case_decide; [by intros ?%move_abs_leaves|]].
  - case_decide; [|done]. intros [= <- <-] Hs'. exists pre, (resized b size), [].
    split; [exact (locate_at pre (resized b size) [] Hs')|done].
  - unfold absorb_abs.
    pose proof (absorb_ordered lo (heap_hi r) (pre ++ [b]) n rest Hlo) as Ho1.
    rewrite <- !app_assoc in Ho1. specialize (Ho1 ltac:(mod_lia) Ho).
    destruct (absorb n rest) as [n' rest']. cbn [fst snd app] in Ho1.
    destruct rest' as [|u rest']; [done|]. destruct Ho1 as (_ & _ & Hw).
    pose proof (within_at _ _ _ _ _ Hw) as Hb. rewrite (cons_middle b), app_assoc in Hw.
    pose proof (within_at _ _ _ _ _ Hw) as Hn'.
    case_decide as Hd; [|by intros ?%move_abs_leaves].
    assert (size <= b_size (merge_abs b n')) as Hle
      by (unfold size_diff, b_end, merge_abs in *; cbn [b_size]; mod_lia).
    repeat case_decide; try done; intros [= <- <-] Hs'; eexists pre, (merge_abs b n'), _;
      (split; [exact (locate_at pre (merge_abs b n') _ Hs')|done]).
Qed.

End ResizeProofs.

(** ** The function at work *)

(** Growing a block of 40 bytes to 60 into the free block of 100 bytes
    behind it. *)
Lemma realloc_refines_witness :
  realloc_meets 200 4128 60 absorbable
    (Stayed [Block 4096 172 0; Block 4220 72 1; Block 4300 32 0] (s_reg absorbable)).
Proof.
  refine (realloc_refines 4096 absorbable [Block 4096 40 0; Block 4168 100 1; Block 4300 32 0]
            200 4128 60 _ _ _ _ _ _ _ _ _ _ _);
    try (apply (bool_decide_unpack _); by vm_compute); by vm_compute.
Defined.

(** Shrinking the first of three blocks in use. *)
Lemma realloc_shrink_leaves_witness :
  realloc_abs (s_reg busy) 4128 32 busy_blocks <> Some (Stayed busy_blocks (s_reg busy)).
Proof.
  refine (realloc_shrink_leaves 4096 (s_reg busy) 4128 32 busy_blocks [] (Block 4096 40 0)
            (Block 4168 100 0) [Block 4300 32 0] _ _ _ _ _ _ _ _);
    try (apply (bool_decide_unpack _); by vm_compute); by vm_compute.
Defined.

(** A block in use followed by two free blocks. *)
Lemma realloc_free_run_lost_witness :
  realloc_meets 3 4128 60
    (State (lay [Block 4096 40 0; Block 4168 100 1; Block 4300 32 1] ∅)
       (SimRegion 4096 4364 8192) 4096)
    (Lost (NULL + OFF_FREE)).
Proof.
  refine (realloc_free_run_lost _ [] (Block 4096 40 0) (Block 4168 100 1) [Block 4300 32 1]
            3 60 _ _ _ _ _); apply (bool_decide_unpack _); by vm_compute.
Defined.

Lemma realloc_abs_grants_witness :
  exists pre c rest,
    locate (hdr_of 4128) [] [Block 4096 172 0; Block 4220 72 1; Block 4300 32 0] =
      Some (pre, c, rest) /\ 60 <= b_size c.
Proof.
  refine (realloc_abs_grants 4096 (s_reg absorbable) 4128 60
            [Block 4096 40 0; Block 4168 100 1; Block 4300 32 0] _ _ _ _ _ _ _ _);
    try (apply (bool_decide_unpack _); by vm_compute); by vm_compute.
Defined.

(** The paths of [realloc_abs] on the lists of the examples: the last
    block grows with the break, a block moves into a free block of the
    list, a block moves to the break, a block that is made smaller is lost
    in the copy. *)
Example realloc_abs_paths :
  realloc_abs (s_reg busy) 4332 64 busy_blocks =
    Some (Stayed [Block 4096 40 0; Block 4168 100 0; Block 4300 64 0] (SimRegion 4096 4396 8192)) /\
  realloc_abs (s_reg roomy) 4128 60 roomy_blocks =
    Some (Moved 4332 [Block 4096 40 1; Block 4168 100 0; Block 4300 80 0] (s_reg roomy)) /\
  realloc_abs (s_reg busy) 4128 60 busy_blocks =
    Some (Moved 4396 [Block 4096 40 1; Block 4168 100 0; Block 4300 32 0]
            (SimRegion 4096 4456 8192)) /\
  realloc_abs (s_reg busy) 4200 10 busy_blocks = Some (Lost 4428).
Proof. by vm_compute. Qed.
