(* ===== verification/Invariants.v ===== *)
(** * Invariants of the allocator

    The properties of the state that every function of [src/dynalloc.c]
    and every store of a client keep, whatever the arguments: the class
    [Invariant] (what a property must satisfy, in terms of the two places
    that assign [first]), the typing of the state ([typed]: the segment is
    well formed, [first] is a pointer-sized value and memory holds bytes)
    and the anchoring of the list ([anchored]: [first] is [NULL] and the
    heap is empty, or [first] is the start of the heap).  The triples at
    the end say what the functions never return: [malloc] the null
    pointer, and [realloc] the null pointer for an address that is not
    null. *)

From Stdlib Require Import ZArith Lia.
From stdpp Require Import prelude sorting gmap.
From S2P Require Import Prelude.
From S2P Require Import Memory.
From S2P Require Import Region.
From S2P Require Import Machine.
From S2P Require Import Directory.
From S2P Require Import Alloc.
From S2P Require Import Dealloc.
From S2P Require Import Realloc.

#[local] Open Scope Z_scope.

Section Invariants.
Context `{HeapRegion R}.

(** A property that the stores, the system calls and the two places that
    assign [first] keep: every function of the interface keeps it. *)
Class Invariant (P : state R -> Prop) : Prop := {
  inv_stable :: Stable P;
  inv_extend size last : keeps P (malloc_extend size last);
  inv_release fuel header : keeps P (release_tail fuel header);
}.

(** The state is well typed: the segment is well formed, [first] fits a
    pointer and memory holds bytes. *)
Definition typed (s : state R) : Prop :=
  state_ok s /\ is_size (s_first s) /\ bytes (s_mem s).

(** The segment starts at [lo] and [first] is [f]. *)
Definition pinned (lo f : Z) (s : state R) : Prop := based lo s /\ s_first s = f.

(** [first] is the start of the heap. *)
Definition rooted (lo : Z) (s : state R) : Prop := pinned lo lo s.

(** There is no list and the heap is empty. *)
Definition vacant (lo : Z) (s : state R) : Prop :=
  pinned lo NULL s /\ heap_hi (s_reg s) = lo.

(** The list, when there is one, starts at the start of the heap. *)
Definition anchored (lo : Z) (s : state R) : Prop := vacant lo s \/ rooted lo s.

(** A property that the four functions of the interface keep, and the
    stores of their client. *)
Class Kept (P : state R -> Prop) : Prop := {
  kept_store n a v : keeps P (store n a v);
  kept_malloc fuel size : keeps P (malloc fuel size);
  kept_free fuel address : keeps P (free fuel address);
  kept_free_with_caution fuel address : keeps P (free_with_caution fuel address);
  kept_realloc fuel address size : keeps P (realloc fuel address size);
}.

End Invariants.

#[export] Hint Resolve inv_extend inv_release : keeps.
#[export] Hint Resolve kept_store kept_malloc kept_free kept_free_with_caution kept_realloc : keeps.

Section InvariantsProofs.
Context `{HeapRegion R}.
Implicit Types (s : state R) (P : state R -> Prop).

(** ** Every function of the interface keeps an invariant *)

Section Interface.
Context (P : state R -> Prop) `{!Invariant P}.

Lemma inv_malloc fuel size : keeps P (malloc fuel size).
Proof. apply keeps_malloc; [apply _|apply inv_extend]. Qed.

Lemma inv_free fuel address : keeps P (free fuel address).
Proof. apply keeps_free; [apply _|apply inv_release]. Qed.

Lemma inv_free_with_caution fuel address : keeps P (free_with_caution fuel address).
Proof. apply keeps_free_with_caution; [apply _|apply inv_release]. Qed.

Lemma inv_realloc fuel address size : keeps P (realloc fuel address size).
Proof. apply keeps_realloc; [apply _|apply inv_extend|apply inv_release]. Qed.

End Interface.

#[export] Instance invariant_kept P `{!Invariant P} : Kept P.
Proof.
  split; [apply stable_store|apply inv_malloc|apply inv_free|apply inv_free_with_caution|
          apply inv_realloc]; done.
Qed.

#[export] Instance based_invariant lo : Invariant (based lo).
Proof. split; [apply _|apply keeps_malloc_extend|apply keeps_release_tail]. Qed.

(** ** Typing *)

(** The value [sbrk] returns fits a pointer, also when it is the failure
    value. *)
Lemma sbrk_result_size incr (r : R) : region_ok r -> is_size (fst (sbrk incr r)).
Proof.
  intros Hok. pose proof (region_ok_bounds r Hok).
  destruct (sbrk_spec incr r Hok) as [->|(r' & -> & _)]; cbn; mod_lia.
Qed.

#[export] Instance typed_stable : Stable typed.
Proof.
  split.
  - intros n a v s x s' (Hok & Hf & Hm) [-> _]%store_inv.
    split_and!; [done..|]. by apply store_le_bytes.
  - intros incr s p s' (Hok & Hf & Hm) [_ ->]%sys_sbrk_inv. split_and!; [|done..]. by apply sbrk_ok.
  - intros a s p s' (Hok & Hf & Hm) [_ ->]%sys_brk_inv. split_and!; [|done..]. by apply brk_ok.
Qed.

Lemma typed_set_first v : is_size v -> keeps typed (set_first v).
Proof. intros Hv. apply keeps_modify. by intros s (? & ? & ?). Qed.

Lemma typed_malloc_extend size last : keeps typed (malloc_extend size last).
Proof.
  unfold malloc_extend. apply keeps_hoare.
  apply (hoare_bind _ (fun p s => typed s /\ is_size p)).
  - intros s p s' Ht E. split; [by eapply stable_sbrk|].
    apply sys_sbrk_inv in E as [-> _]. apply sbrk_result_size, Ht.
  - intros p. apply hoare_pure. intros Hp. apply keeps_hoare.
    pose proof (typed_set_first p Hp). keeps_tac.
Qed.

Lemma typed_release_tail fuel header : keeps typed (release_tail fuel header).
Proof.
  unfold release_tail. pose proof (keeps_free_walk typed).
  assert (keeps typed (set_first NULL)) by (by apply typed_set_first). keeps_tac.
Qed.

#[export] Instance typed_invariant : Invariant typed.
Proof. split; [apply _|apply typed_malloc_extend|apply typed_release_tail]. Qed.

(** ** The results are pointers *)

Lemma keeps_top {A} (c : M (state R) A) : keeps (fun _ => True) c.
Proof. done. Qed.

Lemma data_of_size h : is_size (data_of h).
Proof. apply wrap_is_size. Qed.

#[local] Hint Resolve keeps_top data_of_size : keeps.

Lemma malloc_scan_returns fuel size curr last :
  hoare (fun _ => True) (malloc_scan fuel size curr last) (fun p _ => is_size p).
Proof.
  revert curr last. induction fuel as [|f IH]; intros curr last; cbn [malloc_scan]; [done|].
  unfold malloc_extend, take_block. hoare_tac.
Qed.

(** [malloc] returns a pointer-sized value. *)
Lemma malloc_returns fuel size :
  hoare (fun _ => True) (malloc fuel size) (fun p _ => is_size p).
Proof. unfold malloc. pose proof malloc_scan_returns. hoare_tac. Qed.

Lemma realloc_move_returns fuel address size header :
  hoare (fun _ => True) (realloc_move fuel address size header) (fun p _ => is_size p).
Proof.
  unfold realloc_move. eapply hoare_bind_val; [apply malloc_returns|].
  intros p Hp. assert (is_size NULL) by done. hoare_tac.
Qed.

(** [realloc] returns the address it was given, [NULL] or the result of
    [malloc]. *)
Lemma realloc_returns fuel address size :
  is_size address -> hoare (fun _ => True) (realloc fuel address size) (fun p _ => is_size p).
Proof.
  intros Ha. unfold realloc. pose proof realloc_move_returns.
  assert (is_size NULL) by done. hoare_tac.
Qed.

(** ** The results are not null

    A block is handed out after its free flag was stored, so its header is
    in the heap and the address after it is not the null pointer: [malloc]
    has no way to report that the system refused, and the test
    [if(!new_address)] of [realloc] never holds. *)

Lemma set_free_stored lo h v :
  hoare (based lo) (set_free h v) (fun _ s => based lo s /\ data_of h <> NULL).
Proof.
  intros s x s' [Hok Hlo] E. unfold set_free in E. apply store_inv in E as [-> Hv].
  split; [done|]. pose proof (valid_bounds _ _ _ Hok Hv). mod_lia.
Qed.

(** What follows a block that returns [p] returns [p]. *)
Lemma hoare_result {A} P (c : M (state R) A) (p : Z) (Q : Z -> Prop) :
  Q p -> hoare P (c;; mret p) (fun q _ => Q q).
Proof. by intros HQ s q s' _ (x & s1 & _ & [= <- _])%bind_ok_inv. Qed.

Lemma take_block_not_null lo curr size :
  hoare (based lo) (take_block curr size) (fun p _ => p <> NULL).
Proof.
  unfold take_block. apply hoare_seq; [eauto with keeps|]. intros ?; cbv beta.
  eapply hoare_bind; [apply set_free_stored|]. intros ?; cbv beta. apply hoare_pure. intros Hh.
  by apply hoare_ret.
Qed.

Lemma malloc_extend_not_null lo size last :
  hoare (based lo) (malloc_extend size last) (fun p _ => p <> NULL).
Proof.
  unfold malloc_extend. apply hoare_seq; [eauto with keeps|]. intros nb.
  do 3 (apply hoare_seq; [autounfold with keeps; eauto with keeps|]; intros ?; cbv beta).
  eapply hoare_bind; [apply set_free_stored|]. intros ?; cbv beta. apply hoare_pure. intros Hh.
  eapply hoare_bind with (Q := fun _ _ => True); [done|]. intros f. by apply hoare_result.
Qed.

Lemma malloc_scan_not_null lo fuel size curr last :
  hoare (based lo) (malloc_scan fuel size curr last) (fun p _ => p <> NULL).
Proof.
  revert curr last. induction fuel as [|f IH]; intros curr last; cbn [malloc_scan]; [done|].
  pose proof (take_block_not_null lo). pose proof (malloc_extend_not_null lo).
  pose proof (keeps_merge_run (based lo)). hoare_tac.
Qed.

Lemma malloc_not_null lo fuel size :
  hoare (based lo) (malloc fuel size) (fun p s => based lo s /\ p <> NULL).
Proof.
  intros s p s' Hb E. split; [by eapply (kept_malloc (P := based lo))|].
  revert s p s' Hb E. unfold malloc. pose proof (malloc_scan_not_null lo). hoare_tac.
Qed.

Lemma realloc_move_not_null lo fuel address size header :
  hoare (based lo) (realloc_move fuel address size header) (fun p _ => p <> NULL).
Proof.
  unfold realloc_move. eapply hoare_bind; [apply malloc_not_null|]. intros p.
  apply hoare_pure. intros Hp. rewrite decide_False by done.
  eapply hoare_bind with (Q := fun _ _ => True); [done|]. intros ?; cbv beta. by apply hoare_result.
Qed.

Lemma realloc_not_null lo fuel address size :
  address <> NULL -> hoare (based lo) (realloc fuel address size) (fun p _ => p <> NULL).
Proof.
  intros Ha. unfold realloc. rewrite decide_False by done.
  pose proof (realloc_move_not_null lo). pose proof (keeps_realloc_absorb (based lo)).
  hoare_tac.
Qed.

(** ** Anchoring

    While [first] stays what it is, nothing that only loads, stores and
    moves the break changes it. *)

#[export] Instance pinned_stable lo f : Stable (pinned lo f).
Proof.
  split.
  - intros n a v s x s' [Hb Hf] E. split; [by eapply (stable_store (P := based lo))|].
    by apply store_inv in E as [-> _].
  - intros incr s p s' [Hb Hf] E. split; [by eapply (stable_sbrk (P := based lo))|].
    by apply sys_sbrk_inv in E as [_ ->].
  - intros a s p s' [Hb Hf] E. split; [by eapply (stable_brk (P := based lo))|].
    by apply sys_brk_inv in E as [_ ->].
Qed.

Lemma pinned_get_first lo f {A} (Q : A -> state R -> Prop) (k : Z -> M (state R) A) :
  hoare (pinned lo f) (k f) Q -> hoare (pinned lo f) (get_first ≫= k) Q.
Proof. intros Hk s a s' Hp E. rewrite run_get_first, (proj2 Hp) in E. by eapply Hk. Qed.

Lemma pinned_set_first lo f v : hoare (pinned lo f) (set_first v) (fun _ => pinned lo v).
Proof. by intros s x s' [Hb Hf] [= _ <-]. Qed.

(** The start of the heap is not [NULL]. *)
Lemma rooted_page lo {A} (Q : A -> state R -> Prop) (c : M (state R) A) :
  (lo <> NULL -> hoare (rooted lo) c Q) -> hoare (rooted lo) c Q.
Proof.
  intros Hc s a s' Hr. apply Hc; [|done]. destruct Hr as [[Hok <-] _].
  pose proof (region_ok_bounds _ Hok). mod_lia.
Qed.

Lemma rooted_anchored lo s : rooted lo s -> anchored lo s.
Proof. by right. Qed.

Lemma vacant_anchored lo s : vacant lo s -> anchored lo s.
Proof. by left. Qed.

#[local] Hint Resolve rooted_anchored vacant_anchored : keeps.

(** With a list, the extension does not assign [first]. *)
Lemma rooted_malloc_extend lo size last : keeps (rooted lo) (malloc_extend size last).
Proof.
  apply keeps_hoare, rooted_page. intros Hlo. unfold malloc_extend.
  do 5 (apply hoare_seq; [keeps_tac|intros ?]).
  apply pinned_get_first. rewrite decide_False by done. apply keeps_hoare. keeps_tac.
Qed.

Lemma rooted_malloc lo fuel size : keeps (rooted lo) (malloc fuel size).
Proof. apply keeps_malloc; [apply _|apply rooted_malloc_extend]. Qed.

(** With a list, [release_tail] resets [first] when the walk reached it,
    and then it moves the break to it: the heap is empty. *)
Lemma rooted_release_tail lo fuel header :
  hoare (rooted lo) (release_tail fuel header) (fun _ => anchored lo).
Proof.
  unfold release_tail. apply hoare_seq; [apply keeps_free_walk|intros curr].
  apply pinned_get_first. case_decide as Hc; [|by apply hoare_keeps; [keeps_tac|right]].
  subst curr. intros s a s' [[Hok Hlo] Hf] E. rewrite run_set_first in E.
  pose proof (region_ok_bounds _ Hok).
  destruct (brk_run (upd_first NULL s) lo) as (s1 & E1 & ? & ? & ? & _ & ? & _);
    [done|cbn; lia|]. rewrite E1 in E. injection E as _ <-. cbn in *. left. repeat split; congruence.
Qed.

Lemma rooted_free lo fuel address :
  hoare (rooted lo) (free fuel address) (fun _ => anchored lo).
Proof. unfold free. pose proof (rooted_release_tail lo). hoare_tac. Qed.

Lemma rooted_caution_scan lo wfuel fuel header curr :
  hoare (rooted lo) (caution_scan wfuel fuel header curr) (fun _ => anchored lo).
Proof.
  revert curr. induction fuel as [|f IH]; intros curr; cbn [caution_scan];
    [done|]. pose proof (rooted_release_tail lo). hoare_tac.
Qed.

Lemma rooted_free_with_caution lo fuel address :
  hoare (rooted lo) (free_with_caution fuel address) (fun _ => anchored lo).
Proof. unfold free_with_caution. pose proof (rooted_caution_scan lo). hoare_tac. Qed.

Lemma rooted_realloc lo fuel address size :
  hoare (rooted lo) (realloc fuel address size) (fun _ => anchored lo).
Proof.
  unfold realloc, realloc_move, copy_data.
  pose proof (rooted_malloc lo). pose proof (rooted_free lo).
  pose proof (keeps_realloc_absorb (rooted lo)). pose proof (keeps_copy_loop (rooted lo)).
  pose proof (keeps_split_block (rooted lo)). hoare_tac.
Qed.

(** Without a list the heap is empty: every access faults, and only
    [malloc] changes the state. *)
Lemma vacant_load lo s n a : vacant lo s -> is_ok (load (S n) a s) = false.
Proof.
  intros [[[Hok Hlo] Hf] Hhi]. rewrite load_fault; [done|].
  unfold valid. rewrite Hlo, Hhi. lia.
Qed.

Lemma vacant_store lo s n a v : vacant lo s -> is_ok (store (S n) a v s) = false.
Proof.
  intros [[[Hok Hlo] Hf] Hhi]. rewrite store_fault; [done|].
  unfold valid. rewrite Hlo, Hhi. lia.
Qed.

Lemma vacant_get_first lo {A} (Q : A -> state R -> Prop) (k : Z -> M (state R) A) :
  hoare (vacant lo) (k NULL) Q -> hoare (vacant lo) (get_first ≫= k) Q.
Proof. intros Hk s a s' Hv E. rewrite run_get_first, (proj2 (proj1 Hv)) in E. by eapply Hk. Qed.

Lemma vacant_free lo fuel address : keeps (vacant lo) (free fuel address).
Proof.
  unfold free. case_decide; [apply keeps_ret|]. apply keeps_hoare, hoare_stuck_bind.
  intros s. apply vacant_store.
Qed.

Lemma vacant_free_with_caution lo fuel address :
  keeps (vacant lo) (free_with_caution fuel address).
Proof.
  unfold free_with_caution. apply keeps_hoare, vacant_get_first, keeps_hoare.
  case_decide; [apply keeps_ret|]. destruct fuel as [|f]; [apply keeps_out_of_fuel|].
  cbn [caution_scan]. rewrite decide_True by done. apply keeps_ret.
Qed.

Lemma vacant_realloc lo fuel address size : keeps (vacant lo) (realloc fuel address size).
Proof.
  unfold realloc. case_decide; [apply keeps_ret|]. apply keeps_hoare, hoare_stuck_bind.
  intros s. apply vacant_load.
Qed.

(** On an empty heap [sbrk] returns the start of the heap, or fails and
    the first store faults: the new block becomes [first] at the start of
    the heap. *)
Lemma vacant_malloc_extend lo size last :
  hoare (vacant lo) (malloc_extend size last) (fun _ => rooted lo).
Proof.
  unfold malloc_extend.
  apply (hoare_bind _ (fun p s => pinned lo NULL s /\ (p = lo \/ p = SBRK_FAILED))).
  { intros s p s' [Hp Hhi] E. split; [by eapply (stable_sbrk (P := pinned lo NULL))|].
    apply sys_sbrk_inv in E as [-> _].
    destruct (sbrk_spec (signed (wrap (size + SIZEOF_HEADER))) _ (proj1 (proj1 Hp)))
      as [->|(r' & -> & _)]; [by right|by left]. }
  intros p. apply hoare_pure. intros Hp.
  apply (hoare_bind _ (fun _ s => pinned lo NULL s /\ p = lo)).
  { intros s x s' Hpin E. split; [by eapply (stable_store (P := pinned lo NULL))|].
    apply store_inv in E as [_ Hv]. destruct Hp as [?| ->]; [done|].
    pose proof (valid_bounds _ _ _ (proj1 (proj1 Hpin)) Hv). mod_lia. }
  intros _. apply hoare_pure. intros ->.
  do 3 (apply hoare_seq; [keeps_tac|intros ?]).
  apply pinned_get_first. rewrite decide_True by done.
  eapply hoare_bind; [apply pinned_set_first|]. intros ?. by apply hoare_ret.
Qed.

Lemma vacant_malloc lo fuel size : hoare (vacant lo) (malloc fuel size) (fun _ => rooted lo).
Proof.
  unfold malloc. apply vacant_get_first. destruct fuel as [|f]; [done|].
  cbn [malloc_scan]. rewrite decide_True by done. apply vacant_malloc_extend.
Qed.

(** A store changes neither the segment nor [first]. *)
Lemma vacant_kept_store lo n a v : keeps (vacant lo) (store n a v).
Proof. by intros s x s' Hv [-> _]%store_inv. Qed.

(** The four functions and the stores keep the list anchored. *)
#[export] Instance anchored_kept lo : Kept (anchored lo).
Proof.
  split; intros; apply keeps_hoare, hoare_or.
  - apply hoare_keeps; [apply vacant_kept_store|by left].
  - apply hoare_keeps; [apply stable_store|by right].
  - eapply hoare_conseq; [apply vacant_malloc|done|by right].
  - apply hoare_keeps; [apply rooted_malloc|by right].
  - apply hoare_keeps; [apply vacant_free|by left].
  - apply rooted_free.
  - apply hoare_keeps; [apply vacant_free_with_caution|by left].
  - apply rooted_free_with_caution.
  - apply hoare_keeps; [apply vacant_realloc|by left].
  - apply rooted_realloc.
Qed.

(** ** The theorems *)

(** C28. [malloc] never returns the null pointer: from a well-typed state,
    whatever the size and the fuel, a call that returns gives the address
    after a header of the heap.  When the system refuses to extend the
    heap the call does not return a failure indicator: it stores through
    the value [sbrk] returned. *)
Theorem malloc_never_null fuel size :
  hoare typed (malloc fuel size) (fun p _ => p <> NULL).
Proof.
  intros s p s' (Hok & _) E.
  by apply (malloc_not_null (heap_lo (s_reg s)) fuel size s p s').
Qed.

(** C40. [realloc] returns the null pointer for the null pointer only:
    on any other address, from any well-typed state and whatever the
    directory holds, a call that returns gives the address it was given or
    the result of [malloc], which is never null, so the test
    [if(!new_address)] never holds and a refused allocation is not
    reported. *)
Theorem realloc_never_null fuel address size :
  address <> NULL -> hoare typed (realloc fuel address size) (fun p _ => p <> NULL).
Proof.
  intros Ha s p s' (Hok & _) E.
  by apply (realloc_not_null (heap_lo (s_reg s)) fuel address size Ha s p s').
Qed.

End InvariantsProofs.

(** ** On the simulated segment *)

Lemma realloc_never_null_witness :
  hoare typed (realloc (R := sim_region) 200 4128 64) (fun p _ => p <> NULL).
Proof. apply (realloc_never_null 200 4128 64). apply (bool_decide_unpack _). by vm_compute. Defined.
