(* ===== verification/Scenarios.v ===== *)
(** * Programs that call the allocator

    The functions of [src/dynalloc.c] as a client sees them: a program is
    a sequence of calls and of stores to the memory handed out ([run]), the
    pointer arguments being results of earlier calls.  The file gives the invariants of every state a program
    can reach from the initial one, the behaviour of the shortest programs
    (allocate and free, allocate twice, allocate twice and free the first),
    and runs of concrete programs on the simulated segment. *)

From Stdlib Require Import ZArith Lia.
From stdpp Require Import prelude sorting gmap relations.
From S2P Require Import Prelude.
From S2P Require Import Memory.
From S2P Require Import Region.
From S2P Require Import Machine.
From S2P Require Import Directory.
From S2P Require Import Alloc.
From S2P Require Import Dealloc.
From S2P Require Import Realloc.
From S2P Require Import Invariants.

#[local] Open Scope Z_scope.

(** A call of the interface, or a use of the memory it handed out.  A
    pointer argument is the index of the call that returned it, among the
    calls that return a pointer; [Poke i off v] is the assignment
    [p[off] = v] of a [char] through the [i]-th pointer. *)
Inductive call : Type :=
| Malloc (size : Z)
| Free (i : nat)
| FreeWithCaution (i : nat)
| Realloc (i : nat) (size : Z)
| Poke (i : nat) (off v : Z).

(** The [i]-th pointer returned so far, [NULL] when there is none. *)
Definition ptr (ps : list Z) (i : nat) : Z := default NULL (ps !! i).

Section Scenarios.
Context `{HeapRegion R}.

Definition do_call (fuel : nat) (ps : list Z) (c : call) : M (state R) (list Z) :=
  match c with
  | Malloc size => p ← malloc fuel size; mret (ps ++ [p])
  | Free i => free fuel (ptr ps i);; mret ps
  | FreeWithCaution i => free_with_caution fuel (ptr ps i);; mret ps
  | Realloc i size => p ← realloc fuel (ptr ps i) size; mret (ps ++ [p])
  | Poke i off v => store 1 (wrap (ptr ps i + off)) v;; mret ps
  end.

(** Runs the calls in order, from the pointers [ps]. *)
Fixpoint run (fuel : nat) (cs : list call) (ps : list Z) : M (state R) (list Z) :=
  match cs with
  | [] => mret ps
  | c :: cs' => ps' ← do_call fuel ps c; run fuel cs' ps'
  end.

(** One call, or one store of the client, that returned. *)
Definition step (s s' : state R) : Prop :=
  exists fuel ps c ps', do_call fuel ps c s = Ok (ps', s').

(** The states a program can be in, from the initial state on the segment
    [r]. *)
Definition reachable (r : R) (s : state R) : Prop := rtc step (init r) s.

(** What a client can see of a run: the pointers returned, the break and
    the blocks of the directory, read with [walk]. *)
Definition observe (fuel : nat) (r : res (list Z * state R)) :
    res (list Z * Z * option (list block)) :=
  match r with
  | Ok (ps, s) => Ok (ps, heap_hi (s_reg s), walk fuel s (s_first s))
  | Fault a => Fault a
  | OutOfFuel => OutOfFuel
  end.

End Scenarios.

Section ScenariosProofs.
Context `{HeapRegion R}.
Implicit Types (s : state R) (ps : list Z) (cs : list call).

(** ** Invariants of programs *)

Section Kept.
Context (P : state R -> Prop) `{!Kept P}.

Lemma keeps_do_call fuel ps c : keeps P (do_call fuel ps c).
Proof. destruct c; cbn [do_call]; keeps_tac. Qed.

Lemma keeps_run fuel cs ps : keeps P (run fuel cs ps).
Proof.
  revert ps. induction cs as [|c cs IH]; intros ps; cbn [run];
    pose proof keeps_do_call; keeps_tac.
Qed.

Lemma step_kept s s' : step s s' -> P s -> P s'.
Proof. intros (fuel & ps & c & ps' & E) Hb. by eapply keeps_do_call. Qed.

(** A property the interface keeps holds in every state a program reaches
    from an initial state where it holds. *)
Lemma reachable_kept r s : P (init r) -> reachable r s -> P s.
Proof.
  intros HP Hr. unfold reachable in Hr. revert HP.
  induction Hr as [|s1 s2 s3 Hst _ IH]; [done|]. intros HP. by eapply IH, step_kept.
Qed.

End Kept.

(** ** The pointers of a program *)

Lemma ptr_size ps i : Forall is_size ps -> is_size (ptr ps i).
Proof.
  intros Hps. unfold ptr. destruct (ps !! i) as [p|] eqn:E; [|done].
  by eapply Forall_lookup_1.
Qed.

Lemma ptrs_snoc ps p : Forall is_size ps -> is_size p -> Forall is_size (ps ++ [p]).
Proof. intros. apply Forall_app. split; [done|]. by apply Forall_singleton. Qed.

(** Every pointer a program holds is a pointer-sized value. *)
Lemma do_call_returns fuel ps c :
  Forall is_size ps ->
  hoare (fun _ => True) (do_call fuel ps c) (fun ps' _ => Forall is_size ps').
Proof.
  intros Hps. pose proof (ptr_size ps) as Hp.
  destruct c as [size|i|i|i size|i off v]; cbn [do_call];
    try (apply hoare_seq; [done|]; intros _; by apply hoare_ret).
  - eapply hoare_bind_val; [apply malloc_returns|]. intros p ?.
    apply hoare_ret. intros _ _. by apply ptrs_snoc.
  - eapply hoare_bind_val; [apply realloc_returns; auto|]. intros p ?.
    apply hoare_ret. intros _ _. by apply ptrs_snoc.
Qed.

Lemma run_returns fuel cs ps :
  Forall is_size ps -> hoare (fun _ => True) (run fuel cs ps) (fun ps' _ => Forall is_size ps').
Proof.
  revert ps. induction cs as [|c cs IH]; intros ps Hps; cbn [run]; [by apply hoare_ret|].
  eapply hoare_bind_val; [by apply do_call_returns|]. auto.
Qed.

(** Running a program is taking steps. *)
Lemma run_steps fuel cs ps s ps' s' : run fuel cs ps s = Ok (ps', s') -> rtc step s s'.
Proof.
  revert ps s. induction cs as [|c cs IH]; intros ps s; cbn [run].
  { by intros [= _ <-]. }
  intros (ps1 & s1 & E1 & E2)%bind_ok_inv. eapply rtc_l; [|by eapply IH].
  by exists fuel, ps, c, ps1.
Qed.

(** ** Running one call *)

Lemma run_malloc fuel size cs ps s p s1 :
  malloc fuel size s = Ok (p, s1) ->
  run fuel (Malloc size :: cs) ps s = run fuel cs (ps ++ [p]) s1.
Proof. intros E. cbn [run do_call]. by rewrite bind_assoc_at, (bind_ok _ _ _ _ _ E). Qed.

Lemma run_free fuel i cs ps s s1 :
  free fuel (ptr ps i) s = Ok (tt, s1) ->
  run fuel (Free i :: cs) ps s = run fuel cs ps s1.
Proof. intros E. cbn [run do_call]. by rewrite bind_assoc_at, (bind_ok _ _ _ _ _ E). Qed.

(** A program in two parts: the second runs from the pointers and the
    state the first leaves. *)
Lemma run_app fuel cs1 cs2 ps s ps1 s1 :
  run fuel cs1 ps s = Ok (ps1, s1) -> run fuel (cs1 ++ cs2) ps s = run fuel cs2 ps1 s1.
Proof.
  revert ps s. induction cs1 as [|c cs1 IH]; intros ps s; cbn [run app].
  { by intros [= -> ->]. }
  intros (ps' & s' & E & Er)%bind_ok_inv. rewrite (bind_ok _ _ _ _ _ E). by apply IH.
Qed.

(** ** Two allocations *)

(** A block in use does not fit any request. *)
Lemma find_fit_in_use size b : b_free b = 0 -> find_fit size [b] = NoFit [b].
Proof. intros Hb. cbn. rewrite decide_False; [done|]. by intros [? _]. Qed.

(** The second allocation from the initial state: the first block is in
    use, so the heap is extended again, and the directory still holds the
    first block only. *)
Lemma two_mallocs s fuel n1 n2 :
  state_ok s -> s_first s = NULL -> (1 < fuel)%nat ->
  clamp n1 + SIZEOF_HEADER < SIZE_HALF -> clamp n2 + SIZEOF_HEADER < SIZE_HALF ->
  fst (sbrk (clamp n1 + SIZEOF_HEADER) (s_reg s)) <> SBRK_FAILED ->
  fst (sbrk (clamp n2 + SIZEOF_HEADER) (snd (sbrk (clamp n1 + SIZEOF_HEADER) (s_reg s))))
    <> SBRK_FAILED ->
  exists s1 s2,
    malloc fuel n1 s = Ok (heap_hi (s_reg s) + SIZEOF_HEADER, s1) /\
    malloc fuel n2 s1 =
      Ok (heap_hi (s_reg s) + (clamp n1 + SIZEOF_HEADER) + SIZEOF_HEADER, s2) /\
    state_ok s2 /\ repr s2 [Block (heap_hi (s_reg s)) (clamp n1) 0] /\
    hdr_at s2 (heap_hi (s_reg s) + (clamp n1 + SIZEOF_HEADER))
      (mkHeader NULL (heap_hi (s_reg s)) (clamp n2) 0).
Proof.
  intros Hok Hf Hfuel Hh1 Hh2 Hs1 Hs2.
  destruct (malloc_grow_empty s fuel n1) as (s1 & E1 & Hok1 & Hr1 & Hreg1); [done|done|lia|done..|].
  destruct (sbrk_success _ _ Hok Hs1) as [_ Hhi]. rewrite <- Hreg1 in Hhi, Hs2.
  set (b1 := Block (heap_hi (s_reg s)) (clamp n1) 0) in *.
  destruct (malloc_grow_list s1 [b1] [b1] fuel n2) as (s2 & E2 & Hok2 & Hr2 & Hh & _);
    [done|by repeat constructor|done|cbn; lia|done|by apply find_fit_in_use|done..|].
  exists s1, s2. rewrite Hhi in E2, Hh. done.
Qed.

(** Freeing the only block of the directory. *)
Lemma free_only s b fuel :
  state_ok s -> repr s [b] -> (0 < fuel)%nat ->
  exists s', free fuel (b_addr b + SIZEOF_HEADER) s = Ok (tt, s') /\
    state_ok s' /\ s_first s' = NULL /\ heap_hi (s_reg s') = b_addr b /\
    s_reg s' = snd (brk (b_addr b) (s_reg s)).
Proof.
  intros Hok Hr Hf.
  destruct (free_tail_list s [] [] b fuel) as (s' & ? & ? & _ & ? & ? & _ & ?);
    [done|by repeat constructor|done..|]. by exists s'.
Qed.

(** Freeing the last block after blocks in use, then allocating. *)
Lemma free_then_malloc s keep k b fuel size :
  state_ok s -> sorted ((keep ++ [k]) ++ [b]) -> repr s ((keep ++ [k]) ++ [b]) ->
  Forall (fun x => b_free x = 0) (keep ++ [k]) -> (length keep + 2 <= fuel)%nat ->
  exists s', free fuel (b_addr b + SIZEOF_HEADER) s = Ok (tt, s') /\
    malloc fuel size s' = Fault (b_addr b + OFF_FREE).
Proof.
  intros Hok Hs Hr Hu Hf. pose proof (proj1 (repr_at _ _ _ _ Hr)) as Hn.
  destruct (free_tail_list s (keep ++ [k]) [] b fuel) as (s' & E & _ & _ & Hhi & Hfst & Hseg & _);
    [done..|apply held_snoc; by apply Forall_app in Hu as [_ ?%Forall_inv]|cbn; lia|].
  cbn [app head_addr] in *. exists s'. split; [done|]. unfold malloc.
  rewrite run_get_first, Hfst, (head_addr_snoc _ _ NULL (b_addr b)).
  replace fuel with (length (keep ++ [k]) + (fuel - length (keep ++ [k])))%nat
    by (rewrite length_app; cbn; lia).
  rewrite (malloc_scan_in_use _ _ _ _ _ _ _ Hseg Hu).
  apply malloc_scan_fault; [done| |rewrite length_app; cbn; lia].
  unfold valid. rewrite Hhi. mod_lia.
Qed.

(** ** The properties of programs *)

(** Every state a program reaches from the initial state on a well
    formed segment has a well formed segment with the same start: no call
    that returns moves the start of the heap or the break below it. *)
Theorem reachable_based r s : region_ok r -> reachable r s -> based (heap_lo r) s.
Proof. intros Hok. by apply (reachable_kept (based (heap_lo r))). Qed.

(** C17. The list is anchored: in every state a program reaches from the
    initial state on an empty segment, either [first] is [NULL] and the
    heap is empty, or [first] is the start of the heap; the arguments of
    the calls, stale or foreign pointers included, and what the client
    stores in the heap, inside its blocks or outside, do not matter. *)
Theorem reachable_anchored r s :
  region_ok r -> heap_hi r = heap_lo r -> reachable r s -> anchored (heap_lo r) s.
Proof. intros Hok Hhi. apply (reachable_kept (anchored (heap_lo r))). by left. Qed.

(** Allocating and freeing from the initial state restores it: the
    call returns the address after a header at the break, and after [free]
    the directory is empty and the break is where it was. *)
Theorem malloc_free_restores s fuel size :
  state_ok s -> s_first s = NULL -> (0 < fuel)%nat ->
  clamp size + SIZEOF_HEADER < SIZE_HALF ->
  fst (sbrk (clamp size + SIZEOF_HEADER) (s_reg s)) <> SBRK_FAILED ->
  exists s', run fuel [Malloc size; Free 0] [] s = Ok ([heap_hi (s_reg s) + SIZEOF_HEADER], s') /\
    state_ok s' /\ s_first s' = NULL /\ heap_hi (s_reg s') = heap_hi (s_reg s).
Proof.
  intros Hok Hf Hfuel Hhalf Hsb.
  destruct (malloc_grow_empty s fuel size) as (s1 & E1 & Hok1 & Hr1 & _); [done..|].
  destruct (free_only s1 _ fuel Hok1 Hr1 Hfuel) as (s' & E2 & ? & ? & ? & _).
  exists s'. rewrite (run_malloc _ _ _ _ _ _ _ E1). cbn [app].
  by rewrite (run_free _ 0 [] [heap_hi (s_reg s) + SIZEOF_HEADER] _ _ E2).
Qed.

(** The second block is not linked: after two allocations from the
    initial state both calls returned a block at the break, the second
    header records the first as its [prev], but the directory holds the
    first block only. *)
Theorem second_block_unlinked s fuel n1 n2 :
  state_ok s -> s_first s = NULL -> (1 < fuel)%nat ->
  clamp n1 + SIZEOF_HEADER < SIZE_HALF -> clamp n2 + SIZEOF_HEADER < SIZE_HALF ->
  fst (sbrk (clamp n1 + SIZEOF_HEADER) (s_reg s)) <> SBRK_FAILED ->
  fst (sbrk (clamp n2 + SIZEOF_HEADER) (snd (sbrk (clamp n1 + SIZEOF_HEADER) (s_reg s))))
    <> SBRK_FAILED ->
  exists s2,
    run fuel [Malloc n1; Malloc n2] [] s =
      Ok ([heap_hi (s_reg s) + SIZEOF_HEADER;
           heap_hi (s_reg s) + (clamp n1 + SIZEOF_HEADER) + SIZEOF_HEADER], s2) /\
    repr s2 [Block (heap_hi (s_reg s)) (clamp n1) 0] /\
    hdr_at s2 (heap_hi (s_reg s) + (clamp n1 + SIZEOF_HEADER))
      (mkHeader NULL (heap_hi (s_reg s)) (clamp n2) 0).
Proof.
  intros Hok Hf Hfuel Hh1 Hh2 Hs1 Hs2.
  destruct (two_mallocs s fuel n1 n2) as (s1 & s2 & E1 & E2 & _ & ? & ?); [done..|].
  exists s2. by rewrite (run_malloc _ _ _ _ _ _ _ E1), (run_malloc _ _ _ _ _ _ _ E2).
Qed.

(** Freeing the first of two live blocks releases the second: the
    first block is the last of the directory, so [free] moves the break
    down to it and empties the directory, and the header of the second
    block, which was not freed, is outside the heap. *)
Theorem free_first_releases_second s fuel n1 n2 :
  state_ok s -> s_first s = NULL -> (1 < fuel)%nat ->
  clamp n1 + SIZEOF_HEADER < SIZE_HALF -> clamp n2 + SIZEOF_HEADER < SIZE_HALF ->
  fst (sbrk (clamp n1 + SIZEOF_HEADER) (s_reg s)) <> SBRK_FAILED ->
  fst (sbrk (clamp n2 + SIZEOF_HEADER) (snd (sbrk (clamp n1 + SIZEOF_HEADER) (s_reg s))))
    <> SBRK_FAILED ->
  exists s3 p1 p2,
    run fuel [Malloc n1; Malloc n2; Free 0] [] s = Ok ([p1; p2], s3) /\
    s_first s3 = NULL /\ heap_hi (s_reg s3) = heap_hi (s_reg s) /\
    heap_hi (s_reg s3) < p1 < hdr_of p2.
Proof.
  intros Hok Hf Hfuel Hh1 Hh2 Hs1 Hs2.
  destruct (two_mallocs s fuel n1 n2) as (s1 & s2 & E1 & E2 & Hok2 & Hr2 & Hh); [done..|].
  destruct (free_only s2 _ fuel Hok2 Hr2) as (s3 & E3 & _ & ? & Hhi & _); [lia|].
  destruct (hdr_of_data s2 _ Hok2 (proj1 Hh)) as [Ehdr _]. cbn [b_addr] in *.
  eexists s3, _, _.
  rewrite (run_malloc _ _ _ _ _ _ _ E1), (run_malloc _ _ _ _ _ _ _ E2). cbn [app].
  rewrite (run_free _ 0 [] [heap_hi (s_reg s) + SIZEOF_HEADER; _] _ _ E3).
  split_and!; [done..| |]; rewrite ?Ehdr, ?Hhi; pose proof (clamp_bounds n1); mod_lia.
Qed.

(** Memory given back is used again: allocate, free, allocate from
    the initial state returns the same address twice, when the system
    grants the second extension from the break that [free] restored. *)
Theorem malloc_free_malloc_reuses s fuel n1 n2 :
  state_ok s -> s_first s = NULL -> (0 < fuel)%nat ->
  clamp n1 + SIZEOF_HEADER < SIZE_HALF -> clamp n2 + SIZEOF_HEADER < SIZE_HALF ->
  fst (sbrk (clamp n1 + SIZEOF_HEADER) (s_reg s)) <> SBRK_FAILED ->
  fst (sbrk (clamp n2 + SIZEOF_HEADER)
         (snd (brk (heap_hi (s_reg s)) (snd (sbrk (clamp n1 + SIZEOF_HEADER) (s_reg s))))))
    <> SBRK_FAILED ->
  exists s', run fuel [Malloc n1; Free 0; Malloc n2] [] s =
               Ok ([heap_hi (s_reg s) + SIZEOF_HEADER; heap_hi (s_reg s) + SIZEOF_HEADER], s') /\
    repr s' [Block (heap_hi (s_reg s)) (clamp n2) 0].
Proof.
  intros Hok Hf Hfuel Hh1 Hh2 Hs1 Hs2.
  destruct (malloc_grow_empty s fuel n1) as (s1 & E1 & Hok1 & Hr1 & Hreg1); [done..|].
  destruct (free_only s1 _ fuel Hok1 Hr1 Hfuel) as (s2 & E2 & Hok2 & Hf2 & Hhi2 & Hreg2).
  cbn [b_addr] in *. rewrite <- Hreg1, <- Hreg2 in Hs2.
  destruct (malloc_grow_empty s2 fuel n2) as (s3 & E3 & _ & Hr3 & _); [done..|].
  rewrite Hhi2 in E3, Hr3. exists s3. rewrite (run_malloc _ _ _ _ _ _ _ E1). cbn [app].
  by rewrite (run_free _ 0 _ [heap_hi (s_reg s) + SIZEOF_HEADER] _ _ E2),
    (run_malloc _ _ _ _ _ _ _ E3).
Qed.

(** After [free] released the last block of a directory whose other
    blocks are in use, the next [malloc] faults: the scan follows the
    [next] field of the last block that stayed, which still holds the
    address of the released block, and reads the free flag there, above the
    break. *)
Theorem free_then_malloc_faults s keep k b fuel size :
  state_ok s -> sorted ((keep ++ [k]) ++ [b]) -> repr s ((keep ++ [k]) ++ [b]) ->
  Forall (fun x => b_free x = 0) (keep ++ [k]) -> (length keep + 2 <= fuel)%nat ->
  run fuel [Free 0; Malloc size] [b_addr b + SIZEOF_HEADER] s = Fault (b_addr b + OFF_FREE).
Proof.
  intros Hok Hs Hr Hu Hf.
  destruct (free_then_malloc s keep k b fuel size Hok Hs Hr Hu Hf) as (s' & E1 & E2).
  rewrite (run_free _ 0 _ [b_addr b + SIZEOF_HEADER] _ _ E1). cbn [run do_call].
  by do 2 apply bind_fault.
Qed.

End ScenariosProofs.

(** ** Programs on the simulated segment *)

Lemma fresh_ok : state_ok fresh.
Proof. apply (bool_decide_unpack _). by vm_compute. Qed.

Lemma reachable_anchored_witness :
  anchored 4096 (State (lay [Block 4096 40 0] ∅) (SimRegion 4096 4168 8192) 4096).
Proof.
  refine (reachable_anchored (sim_init 4096 4096) _ _ _ _);
    [apply (bool_decide_unpack _); by vm_compute|done|].
  apply (run_steps 1 [Malloc 40] [] fresh [4128]). by vm_compute.
Defined.

Lemma reachable_based_witness :
  based 4096 (State (lay [Block 4096 40 0] ∅) (SimRegion 4096 4168 8192) 4096).
Proof.
  refine (reachable_based (sim_init 4096 4096) _ _ _); [apply (bool_decide_unpack _); by vm_compute|].
  apply (run_steps 1 [Malloc 40] [] fresh [4128]). by vm_compute.
Defined.

Lemma malloc_free_restores_witness :
  exists s', run 1 [Malloc 40; Free 0] [] fresh = Ok ([4128], s') /\
    state_ok s' /\ s_first s' = NULL /\ heap_hi (s_reg s') = 4096.
Proof.
  refine (malloc_free_restores fresh 1 40 fresh_ok _ _ _ _);
    apply (bool_decide_unpack _); by vm_compute.
Defined.

Lemma second_block_unlinked_witness :
  exists s2, run 2 [Malloc 40; Malloc 10] [] fresh = Ok ([4128; 4200], s2) /\
    repr s2 [Block 4096 40 0] /\ hdr_at s2 4168 (mkHeader NULL 4096 32 0).
Proof.
  refine (second_block_unlinked fresh 2 40 10 fresh_ok _ _ _ _ _ _);
    apply (bool_decide_unpack _); by vm_compute.
Defined.

Lemma free_first_releases_second_witness :
  exists s3 p1 p2, run 2 [Malloc 40; Malloc 10; Free 0] [] fresh = Ok ([p1; p2], s3) /\
    s_first s3 = NULL /\ heap_hi (s_reg s3) = 4096 /\ heap_hi (s_reg s3) < p1 < hdr_of p2.
Proof.
  refine (free_first_releases_second fresh 2 40 10 fresh_ok _ _ _ _ _ _);
    apply (bool_decide_unpack _); by vm_compute.
Defined.

(** The scenario of the specification, allocate 40, allocate 10,
    free the first, free the second: the second [free] does not return.
    The first one released the second block with the first, and the store
    to the free flag of the second header, at 4168 + 24, is outside the
    heap. *)
Theorem spec_scenario_faults :
  run 8 [Malloc 40; Malloc 10; Free 0; Free 1] [] fresh = Fault 4192.
Proof. by vm_compute. Qed.

(** Allocate two blocks, free the first, allocate 100 bytes, free
    the second: the 100 bytes are handed out at the old address of the
    first block and span the stale header of the second; freeing the
    second moves the break to that header, into the block in use. *)
Theorem stale_free_truncates_live_block :
  observe 8 (run 8 [Malloc 40; Malloc 10; Free 0; Malloc 100; Free 1] [] fresh) =
  Ok ([4128; 4200; 4128], 4168, Some [Block 4096 100 0]).
Proof. by vm_compute. Qed.

(** [realloc] grows and shrinks the only block in place, moving the
    break; [realloc] of [NULL] returns [NULL] and allocates nothing. *)
Theorem realloc_sole_block :
  observe 8 (run 8 [Malloc 40; Realloc 0 100] [] fresh) =
    Ok ([4128; 4128], 4228, Some [Block 4096 100 0]) /\
  observe 8 (run 8 [Malloc 100; Realloc 0 40] [] fresh) =
    Ok ([4128; 4128], 4168, Some [Block 4096 40 0]) /\
  observe 8 (run 8 [Realloc 0 16] [] fresh) = Ok ([NULL], 4096, Some []).
Proof. by vm_compute. Qed.

Lemma free_then_malloc_faults_witness : run 3 [Free 0; Malloc 40] [4332] busy = Fault 4324.
Proof.
  refine (free_then_malloc_faults busy [Block 4096 40 0] (Block 4168 100 0) (Block 4300 32 0) 3 40
            busy_ok busy_sorted busy_repr _ _); apply (bool_decide_unpack _); by vm_compute.
Defined.

Lemma malloc_free_malloc_reuses_witness :
  exists s', run 1 [Malloc 40; Free 0; Malloc 16] [] fresh = Ok ([4128; 4128], s') /\
    repr s' [Block 4096 32 0].
Proof.
  refine (malloc_free_malloc_reuses fresh 1 40 16 fresh_ok _ _ _ _ _ _);
    apply (bool_decide_unpack _); by vm_compute.
Defined.
