(* ===== verification/Stack.v ===== *)
(** * The allocator as a stack

    [malloc] of [src/dynalloc.c] never links the block it creates at the
    break to the list from [first], so from the initial state the heap is a
    pile of blocks of which only the bottom one is in the list.  This file
    gives the abstract machine that describes it, a stack of block sizes
    with the break on top and the bytes the client stored in the blocks
    ([top], [cut], [owns], [track]), the relations [stacked] and [holds]
    between a state of the allocator and a stack with its bytes, and the
    simulation: every call of [malloc], [free], [free_with_caution] and
    [realloc] and every store of the client that the abstract machine
    accepts returns in the allocator, with the result and the stack the
    machine computes, and the bytes stored in the blocks that stay are in
    memory.  [free] of a block below the top releases every block above
    it; the programs that run on the machine are in [Clients.v]. *)

From Stdlib Require Import ZArith Lia.
From stdpp Require Import prelude sorting gmap relations.
From S2P Require Import Prelude.
From S2P Require Import Memory.
From S2P Require Import Region.
From S2P Require Import Machine.
From S2P Require Import Directory.
From S2P Require Import Alloc.
From S2P Require Import Dealloc.
From S2P Require Import Realloc.
From S2P Require Import Scenarios.

#[local] Open Scope Z_scope.

(** ** The abstract machine *)

(** The break above the blocks of sizes [st], top first, piled from [lo]:
    each block is a header and its data. *)
Fixpoint top (lo : Z) (st : list Z) : Z :=
  match st with
  | [] => lo
  | sz :: st' => top lo st' + SIZEOF_HEADER + sz
  end.

(** The header of each block, with its address: no block has a [next], the
    bottom block has no [prev] and is the [prev] of every other block, the
    block visited last by the scan of [malloc]. *)
Fixpoint headers (lo : Z) (st : list Z) : list (Z * Header) :=
  match st with
  | [] => []
  | sz :: st' =>
      (top lo st', mkHeader NULL (if decide (st' = []) then NULL else lo) sz 0)
        :: headers lo st'
  end.

(** The addresses the client holds, top first. *)
Definition pointers (lo : Z) (st : list Z) : list Z :=
  (fun c => c.1 + SIZEOF_HEADER) <$> headers lo st.

(** [free] of the block whose data is at [p]: the block and every block
    above it leave the stack. *)
Fixpoint cut (lo p : Z) (st : list Z) : option (list Z) :=
  match st with
  | [] => None
  | sz :: st' => if decide (p = top lo st' + SIZEOF_HEADER) then Some st' else cut lo p st'
  end.

(** The addresses of the data of the blocks. *)
Fixpoint in_data (lo : Z) (st : list Z) (a : Z) : Prop :=
  match st with
  | [] => False
  | sz :: st' =>
      top lo st' + SIZEOF_HEADER <= a < top lo st' + SIZEOF_HEADER + sz \/ in_data lo st' a
  end.

(** The client owns the byte at offset [off] from [p]: [p] is the data
    address of a block of the stack, and [off] is within its size. *)
Fixpoint owns (lo : Z) (st : list Z) (p off : Z) : Prop :=
  match st with
  | [] => False
  | sz :: st' => (p = top lo st' + SIZEOF_HEADER /\ 0 <= off < sz) \/ owns lo st' p off
  end.

#[export] Instance in_data_dec lo st a : Decision (in_data lo st a).
Proof. induction st; apply _. Defined.

#[export] Instance owns_dec lo st p off : Decision (owns lo st p off).
Proof. induction st; apply _. Defined.

(** Of the bytes [d] that the client stored, those below the address [t]. *)
Definition cutoff (t : Z) (d : gmap Z Z) : gmap Z Z := filter (fun av => av.1 < t) d.

(** What a call does to the pointers returned so far, to the stack and to
    the bytes the client stored in its blocks, on a segment that may grow to
    [limit]; [None] when the machine does not describe the call. *)
Definition track_call (lo limit : Z) (ps st : list Z) (d : gmap Z Z) (c : call) :
    option (list Z * list Z * gmap Z Z) :=
  match c with
  | Malloc size =>
      if decide (top lo st + SIZEOF_HEADER + clamp size <= limit)
      then Some (ps ++ [top lo st + SIZEOF_HEADER], clamp size :: st, d)
      else None
  | Free i =>
      if decide (ptr ps i = NULL) then Some (ps, st, d)
      else st' ← cut lo (ptr ps i) st; Some (ps, st', cutoff (top lo st') d)
  | FreeWithCaution i =>
      if decide (ptr ps i = lo + SIZEOF_HEADER /\ st <> []) then Some (ps, [], cutoff lo d)
      else Some (ps, st, d)
  | Realloc i size =>
      if decide (ptr ps i = NULL) then Some (ps ++ [NULL], st, d)
      else
        match st with
        | sz :: st' =>
            if decide (ptr ps i = top lo st' + SIZEOF_HEADER /\
                       0 <= size /\ top lo st' + SIZEOF_HEADER + size <= limit)
            then Some (ps ++ [ptr ps i], size :: st', cutoff (top lo (size :: st')) d)
            else None
        | [] => None
        end
  | Poke i off v =>
      if decide (owns lo st (ptr ps i) off)
      then Some (ps, st, <[ptr ps i + off := v mod 256]> d)
      else None
  end.

Fixpoint track (lo limit : Z) (cs : list call) (ps st : list Z) (d : gmap Z Z) :
    option (list Z * list Z * gmap Z Z) :=
  match cs with
  | [] => Some (ps, st, d)
  | c :: cs' =>
      '(ps', st', d') ← track_call lo limit ps st d c; track lo limit cs' ps' st' d'
  end.

Section Stack.
Context `{Bounded R}.

(** The state [s] holds the stack [st]: the break is on top of it, the
    bottom block is [first], and every header is in memory. *)
Definition stacked (lo limit : Z) (s : state R) (st : list Z) : Prop :=
  based lo s /\ heap_max (s_reg s) = limit /\
  heap_hi (s_reg s) = top lo st /\
  s_first s = (if decide (st = []) then NULL else lo) /\
  Forall (fun c => hdr_at s c.1 c.2) (headers lo st).

(** The data of the blocks of [st] is in [s'] what it is in [s]. *)
Definition same_data (lo : Z) (st : list Z) (s s' : state R) : Prop :=
  forall a, in_data lo st a -> load_byte (s_mem s') a = load_byte (s_mem s) a.

(** The bytes [d] are in the data of the blocks, and in memory. *)
Definition holds (lo : Z) (s : state R) (st : list Z) (d : gmap Z Z) : Prop :=
  map_Forall (fun a v => in_data lo st a /\ load_byte (s_mem s) a = v) d.

End Stack.

#[export] Instance stacked_dec lo limit (s : state sim_region) st :
  Decision (stacked lo limit s st).
Proof. unfold stacked, based, state_ok. apply _. Defined.

#[export] Instance holds_dec lo (s : state sim_region) st d : Decision (holds lo s st d).
Proof. unfold holds. apply _. Defined.

(** ** Stacks to run on *)

(** The state that holds the stack [st] on a simulated segment from [lo]
    that may grow to [limit]. *)
Definition pile (lo limit : Z) (st : list Z) : state sim_region :=
  State (foldr (fun c => put_header c.1 c.2) ∅ (headers lo st))
        (SimRegion lo (top lo st) limit)
        (if decide (st = []) then NULL else lo).

(** Three blocks of 40, 32 and 100 bytes, allocated in this order. *)
Definition three : state sim_region := pile 4096 8192 [100; 32; 40].

(** ** The machine *)

Lemma top_app lo above below : top lo (above ++ below) = top (top lo below) above.
Proof. induction above as [|sz above IH]; cbn; [done|]. by rewrite IH. Qed.

Lemma top_ge lo st : Forall (fun sz => 0 <= sz) st -> lo <= top lo st.
Proof. induction 1; cbn; mod_lia. Qed.

(** A stack that is not empty has a whole header below its top. *)
Lemma top_header lo st : Forall (fun sz => 0 <= sz) st -> st <> [] -> lo + SIZEOF_HEADER <= top lo st.
Proof. intros Hst Hne. destruct Hst as [|sz st ? Hst]; [done|]. apply (top_ge lo) in Hst. cbn. lia. Qed.

(** The headers are between [lo] and the top. *)
Lemma headers_bounds lo st :
  Forall (fun sz => 0 <= sz) st ->
  Forall (fun c => lo <= c.1 /\ c.1 + SIZEOF_HEADER <= top lo st) (headers lo st).
Proof.
  induction 1 as [|sz st Hsz Hst IH]; cbn [headers top]; constructor.
  - apply (top_ge lo) in Hst. cbn. lia.
  - eapply Forall_impl; [exact IH|]. cbn. intros c ?. mod_lia.
Qed.

(** The headers of the lower blocks do not depend on the blocks above. *)
Lemma headers_suffix (P : Z * Header -> Prop) lo above below :
  Forall P (headers lo (above ++ below)) -> Forall P (headers lo below).
Proof. induction above as [|sz above IH]; [done|]. cbn. intros [_ ?]%Forall_cons. auto. Qed.

(** The blocks below a cut are a suffix of the stack. *)
Lemma cut_suffix lo p st st' :
  cut lo p st = Some st' ->
  exists above sz, st = above ++ sz :: st' /\ p = top lo st' + SIZEOF_HEADER.
Proof.
  induction st as [|sz st IH]; [done|]. cbn [cut]. case_decide as Hp.
  - intros [= <-]. by exists [], sz.
  - intros (above & sz' & -> & ?)%IH. by exists (sz :: above), sz'.
Qed.

(** The machine accepts [free] on exactly the addresses the client holds
    to blocks of the stack. *)
Lemma cut_pointers lo p st : is_Some (cut lo p st) <-> p ∈ pointers lo st.
Proof.
  unfold pointers. induction st as [|sz st IH]; cbn.
  { rewrite is_Some_alt. split; [done|]. by intros ?%elem_of_nil. }
  rewrite elem_of_cons, <- IH.
  case_decide as Hp; [split; [by left|by eexists]|]. split; [by right|by intros [?|?]].
Qed.

(** The data of the blocks is between the first header and the top. *)
Lemma in_data_bounds lo st a :
  Forall (fun sz => 0 <= sz) st -> in_data lo st a -> lo + SIZEOF_HEADER <= a < top lo st.
Proof.
  induction 1 as [|sz st Hsz Hst IH]; cbn [in_data top]; [done|].
  pose proof (top_ge lo st Hst). intros [?|?%IH]; mod_lia.
Qed.

(** An address below the pointer of a block is in the data of no block
    above it. *)
Lemma in_data_below lo above below a :
  Forall (fun sz => 0 <= sz) above -> in_data lo (above ++ below) a ->
  a < top lo below + SIZEOF_HEADER -> in_data lo below a.
Proof.
  induction 1 as [|sz above Hsz Ha IH]; cbn [app in_data]; [done|].
  intros [Hin|Hin] Hlt; [|auto]. apply (top_ge (top lo below)) in Ha.
  rewrite top_app in Hin. mod_lia.
Qed.

Lemma owns_in_data lo st p off : owns lo st p off -> in_data lo st (p + off).
Proof. induction st as [|sz st IH]; cbn; [done|]. intros [[-> ?]|?]; [left; lia|auto]. Qed.

(** The data of the blocks meets no header. *)
Lemma in_data_headers lo st a :
  Forall (fun sz => 0 <= sz) st -> in_data lo st a ->
  Forall (fun c => ~ c.1 <= a < c.1 + SIZEOF_HEADER) (headers lo st).
Proof.
  induction 1 as [|sz st Hsz Hst IH]; cbn [headers in_data]; [done|]. intros Hin.
  pose proof (headers_bounds lo st Hst) as Hb. constructor.
  - cbn. destruct Hin as [?|?%in_data_bounds]; [mod_lia|mod_lia|done].
  - destruct Hin as [Hin|Hin]; [|auto]. eapply Forall_impl; [exact Hb|]. cbn. mod_lia.
Qed.

(** The bottom block is at [lo] and has no [prev]. *)
Lemma headers_bottom lo st :
  st <> [] -> exists sz, (lo, mkHeader NULL NULL sz 0) ∈ headers lo st.
Proof.
  induction st as [|sz [|sz' st] IH]; [done| |]; intros _.
  - exists sz. cbn. rewrite decide_True by done. apply list_elem_of_here.
  - destruct IH as [szb ?]; [done|]. exists szb. by apply list_elem_of_further.
Qed.

Section StackProofs.
Context `{Bounded R}.
Implicit Types (s : state R) (st above below : list Z).

(** ** States that hold a stack *)

Lemma stacked_sizes lo limit s st : stacked lo limit s st -> Forall (fun sz => 0 <= sz) st.
Proof.
  intros (_ & _ & _ & _ & Hh). induction st as [|sz st IH]; [done|].
  cbn [headers] in Hh. apply Forall_cons in Hh as [Hb Hh]. constructor; [|auto].
  by apply hdr_at_sizes in Hb as (_ & _ & [] & _).
Qed.

(** The initial state on an empty segment holds the empty stack. *)
Lemma stacked_init r :
  region_ok r -> heap_hi r = heap_lo r -> stacked (heap_lo r) (heap_max r) (init r) [].
Proof. intros Hok Hhi. by repeat split. Qed.

(** The headers of a stack survive a change that keeps their bytes and
    leaves them in the heap. *)
Lemma headers_move lo s s' (P : Z -> Prop) st :
  same_bytes P (s_mem s) (s_mem s') ->
  heap_lo (s_reg s') = lo -> top lo st <= heap_hi (s_reg s') ->
  (forall a, lo <= a < top lo st -> ~ P a) -> Forall (fun sz => 0 <= sz) st ->
  Forall (fun c => hdr_at s c.1 c.2) (headers lo st) ->
  Forall (fun c => hdr_at s' c.1 c.2) (headers lo st).
Proof.
  intros Hm Hlo Hhi HP Hsz Hh. pose proof (headers_bounds lo st Hsz) as Hb.
  rewrite Forall_forall in *. intros c Hc. specialize (Hb c Hc).
  eapply (hdr_at_move s s' P); [done|unfold valid; lia| |auto]. intros a Ha. apply HP. lia.
Qed.

(** The bottom block of a stack in memory is a list of one block in use. *)
Lemma stacked_bottom lo limit s st :
  stacked lo limit s st -> st <> [] ->
  exists sz, hdr_at s lo (mkHeader NULL NULL sz 0) /\ seg s NULL [Block lo sz 0] NULL.
Proof.
  intros ([Hok Hlo] & _ & _ & _ & Hh) Hne. destruct (headers_bottom lo st Hne) as [sz Hin].
  rewrite Forall_forall in Hh. specialize (Hh _ Hin). exists sz. split; [done|].
  pose proof (region_ok_bounds _ Hok). apply seg_cons. split_and!; [cbn; mod_lia|done|apply seg_nil].
Qed.

(** ** The bytes of the client *)

Lemma holds_empty lo s st : holds lo s st ∅.
Proof. apply map_Forall_empty. Qed.

(** The bytes stay in memory over a change that leaves the data of the
    blocks as it is, and in the data of the blocks when these stay. *)
Lemma holds_keep lo s s' st st' d :
  holds lo s st d -> same_data lo st s s' ->
  (forall a, in_data lo st a -> in_data lo st' a) -> holds lo s' st' d.
Proof. intros Hd Hm Hin a v [? <-]%Hd. auto. Qed.

(** When blocks go, the bytes below [t] stay, provided they stay in the
    data of a block that is left as it is. *)
Lemma holds_cutoff lo s s' st st' t d :
  holds lo s st d -> same_data lo st' s s' ->
  (forall a, in_data lo st a -> a < t -> in_data lo st' a) ->
  holds lo s' st' (cutoff t d).
Proof.
  intros Hd Hm Hin a v [[? <-]%Hd Hlt]%map_lookup_filter_Some. cbn in Hlt. auto.
Qed.

(** A store to a byte the client owns: the byte is in the heap, away from
    the headers, and the stack stays as it is. *)
Lemma poke_stacked lo limit s st d p off v :
  stacked lo limit s st -> holds lo s st d -> owns lo st p off ->
  exists s', store 1 (wrap (p + off)) v s = Ok (tt, s') /\
    stacked lo limit s' st /\ holds lo s' st (<[p + off := v mod 256]> d).
Proof.
  intros Hst Hd Hin%owns_in_data. pose proof (stacked_sizes _ _ _ _ Hst) as Hsz.
  pose proof (in_data_bounds _ _ _ Hsz Hin). pose proof (in_data_headers _ _ _ Hsz Hin) as Hnh.
  destruct Hst as ([Hok Hlo] & Hmax & Hhi & Hfst & Hh). pose proof (region_ok_bounds _ Hok).
  rewrite wrap_small by mod_lia. rewrite store_ok by (unfold valid; mod_lia).
  eexists. split; [done|]. split.
  - repeat split; [done..|]. rewrite Forall_forall in *. intros c Hc.
    eapply (hdr_at_move s _ (fun a => a = p + off)); [|apply (Hh c Hc)|by intros ? ? ->; apply (Hnh c Hc)|auto].
    intros a Ha. by apply load_store_byte_ne.
  - intros a w [[<- <-]|[Hne [? <-]%Hd]]%lookup_insert_Some; (split; [done|]); cbn.
    + apply load_store_byte_eq.
    + by apply load_store_byte_ne.
Qed.

(** ** [malloc] pushes *)

(** With a stack in memory the scan finds no free block: it passes the
    bottom block, when there is one, and extends the heap. *)
Lemma malloc_stacked lo limit s st fuel size :
  stacked lo limit s st -> (1 < fuel)%nat ->
  malloc fuel size s = malloc_extend (clamp size) (if decide (st = []) then NULL else lo) s.
Proof.
  intros Hst Hf. pose proof Hst as (_ & _ & _ & Hfst & _).
  unfold malloc. rewrite run_get_first, Hfst. destruct fuel as [|[|f]]; [lia..|].
  case_decide as Hne; [cbn [malloc_scan]; by rewrite decide_True|].
  destruct (stacked_bottom _ _ _ _ Hst Hne) as (sz & _ & Hseg).
  pose proof (malloc_scan_in_use s NULL [Block lo sz 0] NULL (S f) (clamp size) NULL Hseg) as E.
  cbn [length head_addr last_addr b_addr Nat.add foldl] in E. rewrite E by by repeat constructor.
  cbn [malloc_scan]. by rewrite decide_True.
Qed.

Lemma malloc_push lo limit s st fuel size :
  stacked lo limit s st -> (1 < fuel)%nat ->
  top lo st + SIZEOF_HEADER + clamp size <= limit ->
  exists s', malloc fuel size s = Ok (top lo st + SIZEOF_HEADER, s') /\
    stacked lo limit s' (clamp size :: st) /\ same_data lo st s s'.
Proof.
  intros Hst Hf Hroom. rewrite (malloc_stacked _ _ _ _ _ _ Hst Hf).
  pose proof (stacked_sizes _ _ _ _ Hst) as Hsz.
  destruct Hst as ([Hok Hlo] & Hmax & Hhi & Hfst & Hh). pose proof (clamp_bounds size).
  pose proof (heap_max_bound _ Hok). pose proof (region_ok_bounds _ Hok).
  destruct (malloc_extend_run s (clamp size) (if decide (st = []) then NULL else lo))
    as (s' & Hrun & Hreg & Hok' & Hlo' & Hhi' & Hf' & Hh' & Hm);
    [done|mod_lia|mod_lia|case_decide; mod_lia|apply sbrk_granted; [done|mod_lia..]|].
  rewrite Hhi in *. exists s'. split; [done|].
  assert (same_data lo st s s') by (intros a ?%in_data_bounds; [apply Hm; lia|done]).
  split; [|done].
  split; [split; [done|congruence]|]. split_and!; [by rewrite Hreg, sbrk_max|cbn; lia| |].
  - rewrite Hf', Hfst. rewrite (decide_False (P := _ :: _ = [])) by done.
    case_decide; [by subst st|]. rewrite decide_False; [done|mod_lia].
  - cbn [headers]. constructor; [done|].
    eapply headers_move; [done|congruence|mod_lia| |done..]. intros a Ha. cbn beta. lia.
Qed.

(** ** [free] cuts *)

(** [free] of a block of the stack: its header has no [next], so it looks
    like the last block of the list; the break moves to it, and the blocks
    above it are released with it. *)
Lemma free_cut lo limit s above sz below fuel :
  stacked lo limit s (above ++ sz :: below) -> (0 < fuel)%nat ->
  exists s', free fuel (top lo below + SIZEOF_HEADER) s = Ok (tt, s') /\
    stacked lo limit s' below /\ same_data lo below s s'.
Proof.
  intros Hst Hf. pose proof (stacked_sizes _ _ _ _ Hst) as Hsz.
  apply Forall_app in Hsz as [_ [Hsz0 Hsz]%Forall_cons].
  destruct (stacked_bottom _ _ _ _ Hst) as (szb & Hbot & Hseg); [by destruct above|].
  destruct Hst as ([Hok Hlo] & Hmax & Hhi & Hfst & Hh).
  apply headers_suffix in Hh. cbn [headers] in Hh. apply Forall_cons in Hh as [Hb Hh].
  rewrite decide_False in Hfst by (by destruct above). cbn [fst snd] in Hb.
  destruct (decide (below = [])) as [->|Hne]; cbn [top] in *.
  - destruct (free_only s (Block lo szb 0) fuel) as (s' & E & Hok' & Hf' & Hhi' & Hreg);
      [done..|]. exists s'. split; [done|]. cbn [b_addr] in *.
    split; [|by intros a []]. by repeat split; rewrite ?Hhi', ?Hreg, ?brk_lo, ?brk_max.
  - pose proof (top_header lo below Hsz Hne).
    destruct (free_unlinked_run s (top lo below) _ (mkHeader NULL NULL szb 0) fuel Hok Hb)
      as (s' & E & Hok' & Hreg & Hhi' & Hf' & Hm); [done|mod_lia|done|done|cbn; lia|done|].
    exists s'. split; [done|]. assert (heap_lo (s_reg s') = lo) by (by rewrite Hreg, brk_lo).
    split; [|intros a ?%in_data_bounds; [apply Hm; mod_lia|done]].
    split; [done|]. split_and!; [by rewrite Hreg, brk_max|done|by rewrite decide_False, Hf'|].
    eapply headers_move; [done|done|lia| |done..]. intros a Ha. mod_lia.
Qed.

(** ** [realloc] resizes *)

(** Every header of the stack has no [next]: [realloc] takes any block for
    the last one, moves the break by the difference of the sizes and
    records the new size. *)
Lemma realloc_stacked lo limit s above sz below fuel size :
  stacked lo limit s (above ++ sz :: below) -> 0 <= size ->
  top lo below + SIZEOF_HEADER <= top lo (above ++ sz :: below) + (size - sz) <= limit ->
  exists s', realloc fuel (top lo below + SIZEOF_HEADER) size s =
               Ok (top lo below + SIZEOF_HEADER, s') /\
    based lo s' /\ heap_max (s_reg s') = limit /\
    heap_hi (s_reg s') = top lo (above ++ sz :: below) + (size - sz) /\
    s_first s' = lo /\
    hdr_at s' (top lo below) (mkHeader NULL (if decide (below = []) then NULL else lo) size 0) /\
    same_bytes (fun a => top lo below + OFF_SIZE <= a < top lo below + OFF_FREE)
      (s_mem s) (s_mem s').
Proof.
  intros Hst Hsize Hroom. pose proof (stacked_sizes _ _ _ _ Hst) as Hsz.
  apply Forall_app in Hsz as [Ha [Hsz0 Hsz]%Forall_cons]. apply (top_ge lo) in Hsz.
  apply (top_ge (top lo (sz :: below))) in Ha. rewrite <- top_app in Ha. cbn [top] in Ha.
  destruct Hst as ([Hok Hlo] & Hmax & Hhi & Hfst & Hh).
  apply headers_suffix in Hh. cbn [headers] in Hh. apply Forall_cons in Hh as [Hb _].
  rewrite decide_False in Hfst by (by destruct above). cbn [fst snd] in Hb.
  pose proof (heap_max_bound _ Hok). pose proof (region_ok_bounds _ Hok).
  pose proof (valid_bounds _ _ _ Hok (proj1 Hb)). rewrite <- Hhi in Hroom.
  destruct (realloc_resize_run s _ _ fuel size Hok Hb)
    as (s' & E & Hok' & Hreg & Hf' & Hhi' & Hb' & Hm); cbn [h_next h_size]; [done|mod_lia..| |].
  { destruct (decide (0 <= size - sz)); [apply sbrk_granted|apply sbrk_released]; (done || mod_lia). }
  exists s'. rewrite Hhi in *. cbn [h_prev h_free h_size] in *. split; [done|].
  split; [split; [done|by rewrite Hreg, sbrk_lo]|]. split; [by rewrite Hreg, sbrk_max|].
  by rewrite Hf'.
Qed.

(** The top block is resized in place. *)
Lemma realloc_top lo limit s sz st fuel size :
  stacked lo limit s (sz :: st) -> 0 <= size -> top lo st + SIZEOF_HEADER + size <= limit ->
  exists s', realloc fuel (top lo st + SIZEOF_HEADER) size s = Ok (top lo st + SIZEOF_HEADER, s') /\
    stacked lo limit s' (size :: st) /\ same_data lo (Z.min sz size :: st) s s'.
Proof.
  intros Hst Hsize Hroom. pose proof (stacked_sizes _ _ _ _ Hst) as [_ Hsz]%Forall_cons.
  destruct (realloc_stacked lo limit s [] sz st fuel size Hst Hsize)
    as (s' & E & [Hok' Hlo'] & Hmax' & Hhi' & Hf' & Hb' & Hm); [cbn; lia|].
  destruct Hst as (_ & _ & _ & _ & [_ Hh]%Forall_cons). cbn [app top] in Hhi'.
  exists s'. split; [done|].
  split; [|intros a [?|?%in_data_bounds]; [apply Hm; mod_lia..|done]]. split; [done|].
  split_and!; [done|cbn; lia|by rewrite decide_False|]. constructor; [done|].
  eapply headers_move; [done|done|mod_lia| |done..]. intros a Ha. mod_lia.
Qed.

(** ** [free_with_caution] sees the bottom block only *)

(** The list from [first] is the bottom block: [free_with_caution] finds
    it and runs the code of [free], which empties the stack. *)
Lemma free_with_caution_bottom lo limit s st fuel :
  stacked lo limit s st -> st <> [] -> (0 < fuel)%nat ->
  exists s', free_with_caution fuel (lo + SIZEOF_HEADER) s = Ok (tt, s') /\
    stacked lo limit s' [] /\ same_data lo [] s s'.
Proof.
  intros Hst Hne Hf. destruct (stacked_bottom _ _ _ _ Hst Hne) as (szb & _ & Hseg).
  pose proof Hst as ([Hok _] & _ & _ & Hfst & _). rewrite decide_False in Hfst by done.
  rewrite (free_with_caution_found s [] (Block lo szb 0) [] fuel);
    [|done|by repeat constructor|done|done].
  destruct st as [|sz st _] using rev_ind; [done|]. by apply (free_cut lo limit s st sz []).
Qed.

(** Any other address is not in the list: nothing happens, and the block,
    when it is one, stays allocated. *)
Lemma free_with_caution_other lo limit s st fuel p :
  stacked lo limit s st -> is_size p -> st = [] \/ p <> lo + SIZEOF_HEADER ->
  (1 < fuel)%nat -> free_with_caution fuel p s = Ok (tt, s).
Proof.
  intros Hst Hp Hor Hf. pose proof Hst as ([Hok Hlo] & _ & _ & Hfst & _).
  destruct (decide (st = [])) as [->|Hne].
  { by apply (free_with_caution_skip s []); [apply repr_nil|constructor|cbn; lia]. }
  destruct (stacked_bottom _ _ _ _ Hst Hne) as (szb & _ & Hseg). destruct Hor as [|Hor]; [done|].
  apply (free_with_caution_skip s [Block lo szb 0]); [done| |cbn; lia].
  pose proof (region_ok_bounds _ Hok). repeat constructor. unfold hdr_of. cbn. mod_lia.
Qed.

(** ** Programs *)

(** The top of a stack in memory is an address. *)
Lemma stacked_top_size lo limit s st : stacked lo limit s st -> is_size (top lo st + SIZEOF_HEADER).
Proof.
  intros ([Hok _] & Hmax & Hhi & _). pose proof (heap_max_bound _ Hok).
  pose proof (region_ok_bounds _ Hok). rewrite Hhi in *. mod_lia.
Qed.

(** One call: the allocator returns what the machine computes, and the
    bytes of the client are in memory. *)
Lemma track_call_sound lo limit fuel ps st d c ps' st' d' s :
  stacked lo limit s st -> holds lo s st d -> Forall is_size ps -> (1 < fuel)%nat ->
  track_call lo limit ps st d c = Some (ps', st', d') ->
  exists s', do_call fuel ps c s = Ok (ps', s') /\
    stacked lo limit s' st' /\ holds lo s' st' d' /\ Forall is_size ps'.
Proof.
  intros Hst Hd Hps Hf. pose proof (ptr_size ps) as Hp. pose proof (stacked_top_size _ _ _ _ Hst).
  pose proof (stacked_sizes _ _ _ _ Hst) as Hsz.
  destruct c as [size|i|i|i size|i off v]; cbn [track_call do_call].
  - case_decide; [|done]. intros [= <- <- <-].
    destruct (malloc_push lo limit s st fuel size) as (s' & E & Hst' & Hm); [done..|].
    exists s'. rewrite (bind_ok _ _ _ _ _ E).
    split_and!; [done..|eapply holds_keep; [done..|by right]|by apply ptrs_snoc].
  - case_decide as Hn.
    { intros [= <- <- <-]. exists s. unfold free. by rewrite Hn, decide_True. }
    destruct (cut lo (ptr ps i) st) as [st1|] eqn:Ec; [|done]. intros [= <- <- <-].
    apply cut_suffix in Ec as (above & sz & -> & ->).
    destruct (free_cut lo limit s above sz st1 fuel) as (s' & E & Hst' & Hm); [done|lia|].
    exists s'. rewrite (bind_ok _ _ _ _ _ E). split_and!; [done..| |done].
    eapply holds_cutoff; [done..|]. intros a Ha ?. rewrite (cons_middle sz), app_assoc in Ha, Hsz.
    apply (in_data_below lo (above ++ [sz])); [by apply Forall_app in Hsz as [? _]|done|mod_lia].
  - case_decide as Hb; intros [= <- <- <-].
    + destruct Hb as [-> ?].
      destruct (free_with_caution_bottom lo limit s st fuel) as (s' & E & Hst' & Hm);
        [done|done|lia|].
      exists s'. rewrite (bind_ok _ _ _ _ _ E). split_and!; [done..| |done].
      eapply holds_cutoff; [done..|]. intros a ?%in_data_bounds; [mod_lia|done].
    + assert (st = [] \/ ptr ps i <> lo + SIZEOF_HEADER) as Hor.
      { destruct (decide (st = [])); [by left|right]. naive_solver. }
      exists s. by rewrite (bind_ok _ _ _ _ _
        (free_with_caution_other lo limit s st fuel _ Hst (Hp i Hps) Hor Hf)).
  - case_decide as Hn.
    { intros [= <- <- <-]. exists s. unfold realloc. rewrite Hn, decide_True by done.
      split_and!; [done..|]. by apply ptrs_snoc. }
    destruct st as [|sz st]; [done|]. case_decide as Hc; [|done]. intros [= <- <- <-].
    destruct Hc as (Ep & ? & ?). pose proof (Hp i Hps) as Hpi. rewrite Ep in *.
    destruct (realloc_top lo limit s sz st fuel size) as (s' & E & Hst' & Hm); [done..|].
    exists s'. rewrite (bind_ok _ _ _ _ _ E). split_and!; [done..| |by apply ptrs_snoc].
    apply (holds_keep lo s s' (Z.min sz size :: st)); [|done|intros a [?|?]; [left; lia|by right]].
    apply (holds_cutoff lo s s (sz :: st)); [done..|]. cbn [top]. intros a [?|?] ?; [left; lia|by right].
  - case_decide as Ho; [|done]. intros [= <- <- <-].
    destruct (poke_stacked lo limit s st d _ _ v Hst Hd Ho) as (s' & E & Hst' & Hd').
    exists s'. by rewrite (bind_ok _ _ _ _ _ E).
Qed.

(** A program: the allocator returns the pointers and ends in a state that
    holds the stack and the bytes the machine computes. *)
Lemma track_sound lo limit fuel cs ps st d ps' st' d' s :
  stacked lo limit s st -> holds lo s st d -> Forall is_size ps -> (1 < fuel)%nat ->
  track lo limit cs ps st d = Some (ps', st', d') ->
  exists s', run fuel cs ps s = Ok (ps', s') /\ stacked lo limit s' st' /\ holds lo s' st' d'.
Proof.
  intros Hst Hd Hps Hf. revert ps st d s Hst Hd Hps.
  induction cs as [|c cs IH]; intros ps st d s Hst Hd Hps; cbn [track run].
  { intros [= <- <- <-]. by exists s. }
  destruct (track_call lo limit ps st d c) as [[[ps1 st1] d1]|] eqn:Ec; [|done]. cbn.
  destruct (track_call_sound _ _ _ _ _ _ _ _ _ _ _ Hst Hd Hps Hf Ec)
    as (s1 & E1 & Hst1 & Hd1 & Hps1).
  intros Et. destruct (IH _ _ _ _ Hst1 Hd1 Hps1 Et) as (s' & E & Hst').
  exists s'. by rewrite (bind_ok _ _ _ _ _ E1).
Qed.

(** ** The allocator simulates the machine *)

(** [malloc] pushes: with a stack in memory and room below the limit
    of the segment, the call returns the address after a header at the
    break, the state holds the stack with a block of the requested size, at
    least [MIN_BLOCK_SIZE], on top, and the data of the blocks that were
    there is unchanged. *)
Theorem malloc_pushes lo limit s st fuel size :
  stacked lo limit s st -> (1 < fuel)%nat ->
  top lo st + SIZEOF_HEADER + clamp size <= limit ->
  exists s', malloc fuel size s = Ok (top lo st + SIZEOF_HEADER, s') /\
    stacked lo limit s' (clamp size :: st) /\ same_data lo st s s'.
Proof. apply malloc_push. Qed.

(** C15. [free] cuts: freeing a block of the stack releases it and every
    block above it, allocated later and not freed; the state holds the
    blocks below, with their data unchanged.  Freeing the top block pops it,
    so a client that frees in the reverse order of its allocations loses
    nothing. *)
Theorem free_cuts_stack lo limit s above sz below fuel :
  stacked lo limit s (above ++ sz :: below) -> (0 < fuel)%nat ->
  exists s', free fuel (top lo below + SIZEOF_HEADER) s = Ok (tt, s') /\
    stacked lo limit s' below /\ same_data lo below s s'.
Proof. apply free_cut. Qed.

(** C31. [realloc] resizes the top block in place, to any size the
    segment has room for, smaller sizes included: the address returned is
    the one given, the break moves with the end of the block, and the data
    of the block, up to the smaller of the two sizes, and of the blocks
    below is unchanged. *)
Theorem realloc_top_resizes lo limit s sz st fuel size :
  stacked lo limit s (sz :: st) -> 0 <= size -> top lo st + SIZEOF_HEADER + size <= limit ->
  exists s', realloc fuel (top lo st + SIZEOF_HEADER) size s = Ok (top lo st + SIZEOF_HEADER, s') /\
    stacked lo limit s' (size :: st) /\ same_data lo (Z.min sz size :: st) s s'.
Proof. apply realloc_top. Qed.

(** C14. The allocator simulates the stack machine: a program the
    machine accepts, of calls of the four functions and of stores of the
    client to bytes of its blocks, run from a state that holds a stack and
    the bytes stored so far, returns the pointers the machine computes and
    ends in a state that holds the stack the machine computes, and in
    memory every byte the client stored in a block that is still
    allocated. *)
Theorem run_tracks lo limit fuel cs ps st d ps' st' d' s :
  stacked lo limit s st -> holds lo s st d -> Forall is_size ps -> (1 < fuel)%nat ->
  track lo limit cs ps st d = Some (ps', st', d') ->
  exists s', run fuel cs ps s = Ok (ps', s') /\ stacked lo limit s' st' /\ holds lo s' st' d'.
Proof. apply track_sound. Qed.

(** C32. Growing a block below the top makes it overlap the block above:
    its header has no [next] either, so [realloc] extends the break
    instead of moving the block, and the data of the resized block covers
    the header of the block above, which is still in use. *)
Theorem realloc_buried_overlaps lo limit s above up sz below fuel size :
  stacked lo limit s (above ++ up :: sz :: below) -> sz < size ->
  top lo (above ++ up :: sz :: below) + (size - sz) <= limit ->
  exists s', realloc fuel (top lo below + SIZEOF_HEADER) size s =
               Ok (top lo below + SIZEOF_HEADER, s') /\
    hdr_at s' (top lo below) (mkHeader NULL (if decide (below = []) then NULL else lo) size 0) /\
    hdr_at s' (top lo (sz :: below)) (mkHeader NULL lo up 0) /\
    top lo (sz :: below) < top lo below + SIZEOF_HEADER + size.
Proof.
  intros Hst Hlt Hroom. rewrite (cons_middle up), app_assoc in Hst, Hroom.
  pose proof (stacked_sizes _ _ _ _ Hst) as [Ha [Hsz0 Hsz]%Forall_cons]%Forall_app.
  pose proof (top_ge lo below Hsz). apply (top_ge (top lo (sz :: below))) in Ha.
  rewrite <- top_app in Ha. cbn [top] in Ha.
  destruct (realloc_stacked lo limit s (above ++ [up]) sz below fuel size Hst)
    as (s' & E & [Hok' Hlo'] & _ & Hhi' & _ & Hb' & Hm); [lia|mod_lia|].
  destruct Hst as (_ & _ & Hhi & _ & Hh). rewrite <- app_assoc in Hh.
  apply headers_suffix in Hh. cbn [app headers] in Hh. apply Forall_inv in Hh.
  rewrite decide_False in Hh by done. cbn [fst snd] in Hh.
  exists s'. split_and!; [done..| |cbn; lia].
  pose proof (proj1 Hh). eapply hdr_at_move; [done| |intros a Hx; cbn in *; mod_lia|done].
  unfold valid in *. rewrite Hhi', Hlo'. rewrite Hhi in *. cbn [top] in *. mod_lia.
Qed.

(** C33. [free_with_caution] frees the bottom block only: for every other
    block of the stack the scan of the list from [first] does not meet the
    header, and the call returns without a change; the block stays
    allocated. *)
Theorem free_with_caution_keeps_upper lo limit s above sz below fuel :
  stacked lo limit s (above ++ sz :: below) -> below <> [] -> (1 < fuel)%nat ->
  free_with_caution fuel (top lo below + SIZEOF_HEADER) s = Ok (tt, s).
Proof.
  intros Hst Hne Hf. pose proof (stacked_sizes _ _ _ _ Hst) as [_ [_ Hsz]%Forall_cons]%Forall_app.
  pose proof (top_header lo below Hsz Hne). pose proof Hst as ([Hok _] & _ & _ & _ & Hh).
  apply headers_suffix, Forall_inv in Hh. pose proof (valid_bounds _ _ _ Hok (proj1 Hh)).
  eapply free_with_caution_other; [done|cbn in *; mod_lia|right; mod_lia|done].
Qed.

End StackProofs.

(** ** Stacks on the simulated segment *)

Lemma fresh_stacked : stacked 4096 8192 fresh [].
Proof. apply (bool_decide_unpack _). by vm_compute. Qed.

Lemma three_stacked : stacked 4096 8192 three [100; 32; 40].
Proof. apply (bool_decide_unpack _). by vm_compute. Qed.

Lemma malloc_pushes_witness :
  exists s', malloc 2 16 three = Ok (4396, s') /\ stacked 4096 8192 s' [32; 100; 32; 40] /\
    same_data 4096 [100; 32; 40] three s'.
Proof.
  refine (malloc_pushes 4096 8192 three [100; 32; 40] 2 16 three_stacked _ _);
    apply (bool_decide_unpack _); by vm_compute.
Defined.

Lemma free_cuts_stack_witness :
  exists s', free 1 4200 three = Ok (tt, s') /\ stacked 4096 8192 s' [40] /\
    same_data 4096 [40] three s'.
Proof.
  refine (free_cuts_stack 4096 8192 three [100] 32 [40] 1 three_stacked _);
    apply (bool_decide_unpack _); by vm_compute.
Defined.

Lemma realloc_top_resizes_witness :
  exists s', realloc 1 4264 8 three = Ok (4264, s') /\ stacked 4096 8192 s' [8; 32; 40] /\
    same_data 4096 [8; 32; 40] three s'.
Proof.
  refine (realloc_top_resizes 4096 8192 three 100 [32; 40] 1 8 three_stacked _ _);
    apply (bool_decide_unpack _); by vm_compute.
Defined.

Lemma run_tracks_witness :
  exists s', run 2 [Malloc 40; Poke 0 3 65; Malloc 10; Poke 1 0 66; Malloc 100; Free 2;
                    Realloc 1 64; Poke 1 63 67] [] fresh =
               Ok ([4128; 4200; 4264; 4200], s') /\
    stacked 4096 8192 s' [64; 40] /\
    holds 4096 s' [64; 40] {[4131 := 65; 4200 := 66; 4263 := 67]}.
Proof.
  refine (run_tracks 4096 8192 2 _ [] [] ∅ _ _ _ fresh fresh_stacked _ _ _ _);
    [apply holds_empty|by constructor|lia|by vm_compute].
Defined.

Lemma realloc_buried_overlaps_witness :
  exists s', realloc 1 4200 64 three = Ok (4200, s') /\
    hdr_at s' 4168 (mkHeader NULL 4096 64 0) /\ hdr_at s' 4232 (mkHeader NULL 4096 100 0) /\
    4232 < 4168 + SIZEOF_HEADER + 64.
Proof.
  refine (realloc_buried_overlaps 4096 8192 three [] 100 32 [40] 1 64 three_stacked _ _);
    apply (bool_decide_unpack _); by vm_compute.
Defined.

Lemma free_with_caution_keeps_upper_witness : free_with_caution 2 4200 three = Ok (tt, three).
Proof.
  refine (free_with_caution_keeps_upper 4096 8192 three [100] 32 [40] 2 three_stacked _ _);
    apply (bool_decide_unpack _); by vm_compute.
Defined.
