(* ===== verification/Clients.v ===== *)
(** * Clients of the allocator

    Programs that use the four functions of [src/dynalloc.c] the way a
    client is entitled to, on the heap as a stack of blocks: a run of
    allocations, [lifo], which allocates and frees in the reverse order,
    [reuse], which frees its first block while it holds a second one and
    allocates again, and [scenario], the example of the specification,
    which frees both blocks in the order of their allocation.  The file
    evaluates
    them on the abstract machine and transfers the result to the allocator
    by the simulation: a client that frees last in, first out holds
    disjoint blocks and gets the heap back as it was; a client that does
    not is handed memory it still holds.  The last theorems are on the
    alignment of what [malloc] returns, which follows the sizes the client
    asks for. *)

From Stdlib Require Import ZArith Lia.
From stdpp Require Import prelude sorting gmap relations.
From S2P Require Import Prelude.
From S2P Require Import Memory.
From S2P Require Import Region.
From S2P Require Import Machine.
From S2P Require Import Directory.
From S2P Require Import Alloc.
From S2P Require Import Dealloc.
From S2P Require Import Realloc.
From S2P Require Import Scenarios.
From S2P Require Import Stack.

#[local] Open Scope Z_scope.

(** ** Programs and what the client holds *)

(** The addresses returned by allocating blocks of the [sizes], in order,
    on top of [st]. *)
Fixpoint pushes (lo : Z) (st : list Z) (sizes : list Z) : list Z :=
  match sizes with
  | [] => []
  | size :: sizes' => (top lo st + SIZEOF_HEADER) :: pushes lo (clamp size :: st) sizes'
  end.

(** The program that allocates blocks of the [sizes] and frees them in the
    reverse order. *)
Definition lifo (sizes : list Z) : list call :=
  (Malloc <$> sizes) ++ (Free <$> reverse (seq 0 (length sizes))).

(** The program that allocates two blocks, frees the first and allocates
    a third, of [n1], [n2] and [n3] bytes. *)
Definition reuse (n1 n2 n3 : Z) : list call := [Malloc n1; Malloc n2; Free 0; Malloc n3].

(** The scenario of the specification: allocate two blocks, free the
    first, free the second, allocate a third. *)
Definition scenario (n1 n2 n3 : Z) : list call :=
  [Malloc n1; Malloc n2; Free 0; Free 1; Malloc n3].

(** The blocks of a stack as the client holds them: the address of the
    data and the size, top first. *)
Fixpoint blocks (lo : Z) (st : list Z) : list (Z * Z) :=
  match st with
  | [] => []
  | sz :: st' => (top lo st' + SIZEOF_HEADER, sz) :: blocks lo st'
  end.

(** Two blocks have no byte in common. *)
Definition apart (b b' : Z * Z) : Prop := b.1 + b.2 <= b'.1 \/ b'.1 + b'.2 <= b.1.

#[export] Instance apart_dec b b' : Decision (apart b b').
Proof. unfold apart. apply _. Defined.

(** An address at which a pointer or a [size_t] is read without a
    misaligned access: a multiple of their size. *)
Definition aligned (a : Z) : Prop := a mod SIZEOF_PTR = 0.

#[export] Instance aligned_dec a : Decision (aligned a).
Proof. unfold aligned. apply _. Defined.

(** ** Programs of the machine *)

Lemma track_app lo limit cs1 cs2 ps st d :
  track lo limit (cs1 ++ cs2) ps st d =
  '(ps1, st1, d1) ← track lo limit cs1 ps st d; track lo limit cs2 ps1 st1 d1.
Proof.
  revert ps st d. induction cs1 as [|c cs1 IH]; intros ps st d; cbn [app track]; [done|].
  destruct (track_call lo limit ps st d c) as [[[ps1 st1] d1]|]; cbn; [apply IH|done].
Qed.

Lemma clamps_pos sizes : Forall (fun sz => 0 <= sz) (reverse (clamp <$> sizes)).
Proof.
  apply Forall_reverse, Forall_fmap, Forall_true. intros size. cbn. pose proof (clamp_bounds size). mod_lia.
Qed.

Lemma pushes_snoc lo st sizes size :
  pushes lo st (sizes ++ [size]) =
  pushes lo st sizes ++ [top lo (reverse (clamp <$> sizes) ++ st) + SIZEOF_HEADER].
Proof.
  revert st. induction sizes as [|sz sizes IH]; intros st; cbn [app pushes fmap list_fmap]; [done|].
  by rewrite IH, reverse_cons, <- app_assoc.
Qed.

Lemma length_pushes lo st sizes : length (pushes lo st sizes) = length sizes.
Proof. revert st. induction sizes as [|sz sizes IH]; intros st; cbn; [done|]. by rewrite IH. Qed.

Lemma track_mallocs lo limit sizes ps st d :
  top lo (reverse (clamp <$> sizes) ++ st) <= limit ->
  track lo limit (Malloc <$> sizes) ps st d =
  Some (ps ++ pushes lo st sizes, reverse (clamp <$> sizes) ++ st, d).
Proof.
  revert ps st. induction sizes as [|size sizes IH]; intros ps st Hroom;
    cbn [fmap list_fmap track pushes].
  { by rewrite app_nil_r. }
  rewrite fmap_cons, reverse_cons, <- app_assoc in Hroom. cbn [app] in Hroom.
  cbn [track_call]. rewrite decide_True.
  - cbn [mbind option_bind]. rewrite IH by done. by rewrite reverse_cons, <- !app_assoc.
  - pose proof (top_ge (top lo (clamp size :: st)) _ (clamps_pos sizes)).
    rewrite <- top_app in *. cbn [top] in *. lia.
Qed.

Lemma ptr_middle ps p extra i : length ps = i -> ptr (ps ++ p :: extra) i = p.
Proof. intros <-. unfold ptr. by rewrite list_lookup_middle. Qed.

Lemma track_frees lo limit sizes st extra d :
  0 <= lo -> Forall (fun sz => 0 <= sz) st ->
  exists d', track lo limit (Free <$> reverse (seq 0 (length sizes)))
               (pushes lo st sizes ++ extra) (reverse (clamp <$> sizes) ++ st) d =
             Some (pushes lo st sizes ++ extra, st, d').
Proof.
  intros Hlo Hst. revert extra d.
  induction sizes as [|size sizes IH] using rev_ind; intros extra d; [by exists d|].
  rewrite length_app, Nat.add_1_r, seq_S, reverse_snoc, fmap_cons. cbn [track track_call Nat.add].
  rewrite pushes_snoc, <- app_assoc, fmap_app, reverse_app. cbn [fmap list_fmap reverse app].
  change (reverse [clamp size]) with [clamp size]. cbn [app].
  rewrite (ptr_middle (pushes lo st sizes)) by apply length_pushes.
  pose proof (top_ge lo (reverse (clamp <$> sizes) ++ st)) as Hge.
  rewrite decide_False.
  - cbn [cut]. rewrite decide_True by done. cbn [mbind option_bind]. apply IH.
  - assert (Forall (fun sz => 0 <= sz) (reverse (clamp <$> sizes) ++ st))
      by (apply Forall_app; split; [apply clamps_pos|done]). mod_lia.
Qed.

(** The machine accepts the program [lifo] and ends with the stack it
    started from. *)
Lemma lifo_tracked lo limit sizes st d :
  0 <= lo -> Forall (fun sz => 0 <= sz) st ->
  top lo (reverse (clamp <$> sizes) ++ st) <= limit ->
  exists d', track lo limit (lifo sizes) [] st d = Some (pushes lo st sizes, st, d').
Proof.
  intros Hlo Hst Hroom. unfold lifo. rewrite track_app, track_mallocs by done.
  cbn [mbind option_bind app]. destruct (track_frees lo limit sizes st [] d Hlo Hst) as [d' E].
  exists d'. by rewrite app_nil_r in E.
Qed.

(** The machine accepts two allocations and the release of the first:
    both blocks leave the stack. *)
Lemma two_then_free_tracked lo limit st d n1 n2 :
  0 <= lo -> Forall (fun sz => 0 <= sz) st -> top lo (clamp n2 :: clamp n1 :: st) <= limit ->
  track lo limit [Malloc n1; Malloc n2; Free 0] [] st d =
  Some ([top lo st + SIZEOF_HEADER; top lo (clamp n1 :: st) + SIZEOF_HEADER], st,
        cutoff (top lo st) d).
Proof.
  intros Hlo Hst H12. pose proof (top_ge lo st Hst).
  pose proof (clamp_bounds n1). pose proof (clamp_bounds n2). cbn [top] in *.
  cbn [track track_call top app]. rewrite decide_True by mod_lia. cbn [mbind option_bind app top].
  rewrite decide_True by mod_lia. cbn [mbind option_bind app ptr lookup list_lookup default from_option id].
  rewrite decide_False by mod_lia. cbn [cut top].
  rewrite decide_False by mod_lia. by rewrite decide_True by done.
Qed.

(** The machine accepts the program [reuse]: the third block is pushed
    where the first was. *)
Lemma reuse_tracked lo limit st d n1 n2 n3 :
  0 <= lo -> Forall (fun sz => 0 <= sz) st ->
  top lo (clamp n2 :: clamp n1 :: st) <= limit -> top lo (clamp n3 :: st) <= limit ->
  track lo limit (reuse n1 n2 n3) [] st d =
  Some ([top lo st + SIZEOF_HEADER; top lo (clamp n1 :: st) + SIZEOF_HEADER;
         top lo st + SIZEOF_HEADER], clamp n3 :: st, cutoff (top lo st) d).
Proof.
  intros Hlo Hst H12 H3. pose proof (top_ge lo st Hst).
  pose proof (clamp_bounds n1). pose proof (clamp_bounds n2). cbn [top] in *.
  unfold reuse. cbn [track track_call top app]. rewrite decide_True by mod_lia. cbn [mbind option_bind app top].
  rewrite decide_True by mod_lia. cbn [mbind option_bind app ptr lookup list_lookup default from_option id].
  rewrite decide_False by mod_lia. cbn [cut top].
  rewrite decide_False by mod_lia. rewrite decide_True by done. cbn [mbind option_bind].
  by rewrite decide_True by mod_lia.
Qed.

(** ** The blocks of a stack *)

(** The blocks lie between the first header and the top. *)
Lemma blocks_bounds lo st :
  Forall (fun sz => 0 <= sz) st ->
  Forall (fun b => lo + SIZEOF_HEADER <= b.1 /\ b.1 + b.2 <= top lo st) (blocks lo st).
Proof.
  induction 1 as [|sz st Hsz Hst IH]; cbn [blocks top]; constructor.
  - apply (top_ge lo) in Hst. cbn. mod_lia.
  - eapply Forall_impl; [exact IH|]. cbn. intros b ?. mod_lia.
Qed.

(** No two blocks of a stack have a byte in common. *)
Lemma blocks_apart lo st :
  Forall (fun sz => 0 <= sz) st -> ForallOrdPairs apart (blocks lo st).
Proof.
  induction 1 as [|sz st Hsz Hst IH]; cbn [blocks]; constructor; [|done].
  eapply Forall_impl; [exact (blocks_bounds lo st Hst)|]. intros b [_ ?]. right. cbn. mod_lia.
Qed.

(** A block granted on top of [st] starts after a header above the
    stack and ends below the break, with the size that was asked for. *)
Lemma granted_bounds lo st sizes :
  Forall (fun sz => 0 <= sz) st ->
  Forall (fun b => top lo st + SIZEOF_HEADER <= b.1 /\
                   b.1 + b.2 <= top lo (reverse (clamp <$> sizes) ++ st))
    (zip (pushes lo st sizes) sizes).
Proof.
  revert st. induction sizes as [|size sizes IH]; intros st Hst; [constructor|].
  pose proof (clamp_bounds size). cbn [pushes zip zip_with fmap list_fmap].
  rewrite reverse_cons, <- app_assoc. cbn [app].
  assert (Forall (fun sz => 0 <= sz) (clamp size :: st)) as Hst' by (constructor; [mod_lia|done]).
  constructor; cbn [fst snd].
  - split; [done|]. rewrite top_app.
    pose proof (top_ge (top lo (clamp size :: st)) _ (clamps_pos sizes)). cbn [top] in *. mod_lia.
  - eapply Forall_impl; [exact (IH _ Hst')|]. cbn [top]. intros b ?. mod_lia.
Qed.

(** The blocks granted by a run of allocations are pairwise disjoint. *)
Lemma granted_apart lo st sizes :
  Forall (fun sz => 0 <= sz) st -> ForallOrdPairs apart (zip (pushes lo st sizes) sizes).
Proof.
  revert st. induction sizes as [|size sizes IH]; intros st Hst; [constructor|].
  pose proof (clamp_bounds size). cbn [pushes zip zip_with].
  assert (Forall (fun sz => 0 <= sz) (clamp size :: st)) as Hst' by (constructor; [mod_lia|done]).
  constructor; [|by apply IH].
  eapply Forall_impl; [exact (granted_bounds lo _ sizes Hst')|].
  intros b [? _]. left. cbn [top fst snd] in *. mod_lia.
Qed.

(** The header of each block granted is in the state that holds the
    stack, in use and with a size that is at least the request. *)
Lemma granted_headers `{Bounded R} lo limit (s : state R) st sizes :
  stacked lo limit s (reverse (clamp <$> sizes) ++ st) ->
  Forall2 (fun p size => exists pv sz,
             hdr_at s (p - SIZEOF_HEADER) (mkHeader NULL pv sz 0) /\ size <= sz)
    (pushes lo st sizes) sizes.
Proof.
  revert st. induction sizes as [|size sizes IH]; intros st Hst; [constructor|].
  cbn [pushes fmap list_fmap] in *. rewrite reverse_cons, <- app_assoc in Hst. cbn [app] in Hst.
  constructor; [|by apply IH].
  destruct Hst as (_ & _ & _ & _ & Hh). apply headers_suffix in Hh.
  cbn [headers] in Hh. apply Forall_cons in Hh as [Hh _]. cbn [fst snd] in Hh.
  replace (top lo st + SIZEOF_HEADER - SIZEOF_HEADER) with (top lo st) by lia.
  eexists _, _. split; [exact Hh|]. pose proof (clamp_bounds size). mod_lia.
Qed.

(** The break is aligned when the heap starts aligned and every size is a
    multiple of the word. *)
Lemma top_aligned lo st : aligned lo -> Forall aligned st -> aligned (top lo st).
Proof.
  unfold aligned. intros Hlo Hst. induction Hst as [|sz st Hsz _ IH]; [done|].
  cbn [top]. mod_lia.
Qed.

Section ClientsProofs.
Context `{Bounded R}.
Implicit Types (s : state R) (st : list Z).

(** C20. Last in, first out: allocating blocks of any sizes the segment
    has room for and freeing them in the reverse order returns consecutive
    blocks, each after a header at the break, and leaves the heap as it was:
    the state holds the stack it held before, with the break where it
    was. *)
Theorem lifo_round_trip lo limit s st sizes fuel :
  stacked lo limit s st -> (1 < fuel)%nat ->
  top lo (reverse (clamp <$> sizes) ++ st) <= limit ->
  exists s', run fuel (lifo sizes) [] s = Ok (pushes lo st sizes, s') /\ stacked lo limit s' st.
Proof.
  intros Hst Hf Hroom. pose proof (stacked_sizes _ _ _ _ Hst) as Hsz.
  pose proof Hst as ([Hok Hlo] & _). pose proof (region_ok_bounds _ Hok).
  destruct (lifo_tracked lo limit sizes st ∅) as [d' E]; [mod_lia|done..|].
  destruct (track_sound lo limit fuel _ [] st ∅ _ _ _ s Hst (holds_empty _ _ _) (Forall_nil_2 _) Hf E)
    as (s' & E' & Hst' & _). by exists s'.
Qed.

(** C21. Blocks that are only allocated are disjoint and large enough.
    A program that allocates blocks of any sizes the segment has room for
    returns, and the blocks it was given, each taken with the size that was
    asked for, have no byte in common with one another or with the blocks
    the stack held before, and end below the break; the header before each
    of them is in memory, in use, and records at least the size asked
    for. *)
Theorem mallocs_apart lo limit s st sizes fuel :
  stacked lo limit s st -> (1 < fuel)%nat ->
  top lo (reverse (clamp <$> sizes) ++ st) <= limit ->
  exists s' ps, run fuel (Malloc <$> sizes) [] s = Ok (ps, s') /\
    ForallOrdPairs apart (zip ps sizes) /\
    Forall (fun b => Forall (apart b) (blocks lo st) /\ b.1 + b.2 <= heap_hi (s_reg s'))
      (zip ps sizes) /\
    Forall2 (fun p size => exists pv sz,
               hdr_at s' (p - SIZEOF_HEADER) (mkHeader NULL pv sz 0) /\ size <= sz) ps sizes.
Proof.
  intros Hst Hf Hroom. pose proof (stacked_sizes _ _ _ _ Hst) as Hsz.
  pose proof (track_mallocs lo limit sizes [] st ∅ Hroom) as E.
  destruct (track_sound lo limit fuel _ [] st ∅ _ _ _ s Hst (holds_empty _ _ _) (Forall_nil_2 _) Hf E)
    as (s' & E' & Hst' & _). cbn [app] in E'.
  exists s', (pushes lo st sizes). split_and!; [done|by apply granted_apart| |by eapply granted_headers].
  pose proof Hst' as (_ & _ & -> & _).
  eapply Forall_impl; [exact (granted_bounds lo st sizes Hsz)|]. intros b [Hlo Hhi]. split; [|done].
  eapply Forall_impl; [exact (blocks_bounds lo st Hsz)|]. intros b' [_ ?]. right. mod_lia.
Qed.

(** C36. The scenario of the specification does not complete.  From any
    state that holds a stack, for any sizes: the two allocations return,
    freeing the first block releases the second with it, and the call that
    frees the second block stores to the free flag of its header, which is
    above the break: the program stops there, before the last
    allocation. *)
Theorem spec_scenario_stops lo limit s st n1 n2 n3 fuel :
  stacked lo limit s st -> (1 < fuel)%nat -> top lo (clamp n2 :: clamp n1 :: st) <= limit ->
  run fuel (scenario n1 n2 n3) [] s = Fault (top lo (clamp n1 :: st) + OFF_FREE).
Proof.
  intros Hst Hf Hroom. pose proof (stacked_sizes _ _ _ _ Hst) as Hsz.
  pose proof Hst as ([Hok Hlo] & _). pose proof (region_ok_bounds _ Hok).
  pose proof (two_then_free_tracked lo limit st ∅ n1 n2 ltac:(mod_lia) Hsz Hroom) as E.
  destruct (track_sound lo limit fuel _ [] st ∅ _ _ _ s Hst (holds_empty _ _ _) (Forall_nil_2 _) Hf E)
    as (s' & E' & Hst' & _).
  change (scenario n1 n2 n3) with ([Malloc n1; Malloc n2; Free 0] ++ [Free 1; Malloc n3]).
  rewrite (run_app _ _ _ _ _ _ _ E'). cbn [run do_call]. apply bind_fault, bind_fault.
  change (ptr _ 1) with (top lo (clamp n1 :: st) + SIZEOF_HEADER).
  pose proof (top_ge lo st Hsz). pose proof (clamp_bounds n1). pose proof (clamp_bounds n2).
  destruct Hst' as ([Hok' _] & Hmax & Hhi & _). pose proof (region_ok_bounds _ Hok').
  pose proof (heap_max_bound _ Hok'). cbn [top] in *.
  replace (top lo st + SIZEOF_HEADER + clamp n1 + OFF_FREE)
    with (hdr_of (top lo st + SIZEOF_HEADER + clamp n1 + SIZEOF_HEADER) + OFF_FREE)
    by (unfold hdr_of; mod_lia).
  apply free_above_break; [mod_lia|]. unfold valid, hdr_of. rewrite Hhi. mod_lia.
Qed.

(** C18. A block that is in use is handed out again.  The client allocates
    two blocks, frees the first and allocates a third, larger than the first
    and its header: every call is one it is entitled to, and the second
    block is never freed.  [free] releases both blocks, so the third block
    is laid at the address of the first, and the address of the second
    block is among the bytes of the third. *)
Theorem live_block_given_twice lo limit s st n1 n2 n3 fuel :
  stacked lo limit s st -> (1 < fuel)%nat ->
  top lo (clamp n2 :: clamp n1 :: st) <= limit -> top lo (clamp n3 :: st) <= limit ->
  clamp n1 + SIZEOF_HEADER < n3 ->
  exists s' p1 p2 p3, run fuel (reuse n1 n2 n3) [] s = Ok ([p1; p2; p3], s') /\
    stacked lo limit s' (clamp n3 :: st) /\ p3 = p1 /\ p3 <= p2 < p3 + n3.
Proof.
  intros Hst Hf H12 H3 Hlt. pose proof (stacked_sizes _ _ _ _ Hst) as Hsz.
  pose proof Hst as ([Hok Hlo] & _). pose proof (region_ok_bounds _ Hok).
  pose proof (reuse_tracked lo limit st ∅ n1 n2 n3) as E.
  destruct (track_sound lo limit fuel _ [] st ∅ _ _ _ s Hst (holds_empty _ _ _) (Forall_nil_2 _) Hf
              (E ltac:(mod_lia) Hsz H12 H3)) as (s' & E' & Hst' & _).
  pose proof (clamp_bounds n1). exists s'. eexists _, _, _.
  split_and!; [done..| |]; cbn [top]; mod_lia.
Qed.

(** Alignment is left to the client.  On a heap that starts at a multiple
    of the word, with blocks whose sizes are multiples of it, [malloc]
    returns an aligned address after an aligned header. *)
Theorem rounded_sizes_aligned lo limit s st fuel size :
  stacked lo limit s st -> (1 < fuel)%nat -> top lo (clamp size :: st) <= limit ->
  aligned lo -> Forall aligned st ->
  exists s' p, malloc fuel size s = Ok (p, s') /\ aligned (p - SIZEOF_HEADER) /\ aligned p.
Proof.
  intros Hst Hf Hroom Hlo Hsz. cbn [top] in Hroom.
  destruct (malloc_push lo limit s st fuel size Hst Hf Hroom) as (s' & E & _).
  pose proof (top_aligned lo st Hlo Hsz). exists s', (top lo st + SIZEOF_HEADER).
  unfold aligned in *. split_and!; [done|mod_lia..].
Qed.

(** C39. [malloc] does not round the size up: after a request whose
    clamped size is not a multiple of the word, made when the break is
    aligned, the next block starts at an address that is not a multiple of
    the word either, its header, which holds two pointers and a [size_t],
    included. *)
Theorem odd_size_misaligns lo limit s st fuel size size' :
  stacked lo limit s st -> (1 < fuel)%nat -> top lo (clamp size' :: clamp size :: st) <= limit ->
  aligned (top lo st) -> ~ aligned (clamp size) ->
  exists s1 s' p q, malloc fuel size s = Ok (p, s1) /\ malloc fuel size' s1 = Ok (q, s') /\
    q = p + clamp size + SIZEOF_HEADER /\
    aligned p /\ ~ aligned (q - SIZEOF_HEADER) /\ ~ aligned q.
Proof.
  intros Hst Hf Hroom Ht Hodd. cbn [top] in Hroom. pose proof (clamp_bounds size').
  destruct (malloc_push lo limit s st fuel size Hst Hf) as (s1 & E1 & Hst1 & _); [mod_lia|].
  destruct (malloc_push lo limit s1 _ fuel size' Hst1 Hf) as (s' & E' & _); [cbn [top]; mod_lia|].
  exists s1, s', (top lo st + SIZEOF_HEADER), (top lo (clamp size :: st) + SIZEOF_HEADER).
  cbn [top]. unfold aligned in *. split_and!; [done|done|lia|mod_lia..].
Qed.

End ClientsProofs.

(** ** On the simulated segment *)

Lemma lifo_round_trip_witness :
  exists s', run 2 (lifo [40; 10; 100]) [] fresh = Ok ([4128; 4200; 4264], s') /\
    stacked 4096 8192 s' [].
Proof.
  refine (lifo_round_trip 4096 8192 fresh [] [40; 10; 100] 2 fresh_stacked _ _);
    [lia|by vm_compute].
Defined.

Lemma live_block_given_twice_witness :
  exists s' p1 p2 p3, run 2 (reuse 40 10 100) [] fresh = Ok ([p1; p2; p3], s') /\
    stacked 4096 8192 s' [100] /\ p3 = p1 /\ p3 <= p2 < p3 + 100.
Proof.
  refine (live_block_given_twice 4096 8192 fresh [] 40 10 100 2 fresh_stacked _ _ _ _);
    apply (bool_decide_unpack _); by vm_compute.
Defined.

Lemma rounded_sizes_aligned_witness :
  exists s' p, malloc 2 64 fresh = Ok (p, s') /\ aligned (p - SIZEOF_HEADER) /\ aligned p.
Proof.
  refine (rounded_sizes_aligned 4096 8192 fresh [] 2 64 fresh_stacked _ _ _ _);
    try (apply (bool_decide_unpack _); by vm_compute); by vm_compute.
Defined.

(** A request for 33 bytes on the empty heap: the second block is at 4193. *)
Lemma odd_size_misaligns_witness :
  exists s1 s' p q, malloc 2 33 fresh = Ok (p, s1) /\ malloc 2 8 s1 = Ok (q, s') /\
    q = p + clamp 33 + SIZEOF_HEADER /\
    aligned p /\ ~ aligned (q - SIZEOF_HEADER) /\ ~ aligned q.
Proof.
  refine (odd_size_misaligns 4096 8192 fresh [] 2 33 8 fresh_stacked _ _ _ _);
    try (apply (bool_decide_unpack _); by vm_compute); by vm_compute.
Defined.

(** Three allocations on the empty heap. *)
Lemma mallocs_apart_witness :
  exists s' ps, run 2 (Malloc <$> [40; 10; 100]) [] fresh = Ok (ps, s') /\
    ForallOrdPairs apart (zip ps [40; 10; 100]) /\
    Forall (fun b => Forall (apart b) (blocks 4096 []) /\ b.1 + b.2 <= heap_hi (s_reg s'))
      (zip ps [40; 10; 100]) /\
    Forall2 (fun p size => exists pv sz,
               hdr_at s' (p - SIZEOF_HEADER) (mkHeader NULL pv sz 0) /\ size <= sz)
      ps [40; 10; 100].
Proof.
  refine (mallocs_apart 4096 8192 fresh [] [40; 10; 100] 2 fresh_stacked _ _); [lia|by vm_compute].
Defined.

(** Allocate 40, allocate 10, free the first, free the second: the store
    to the free flag of the second header, at 4168 + 24, is outside the
    heap. *)
Lemma spec_scenario_stops_witness : run 2 (scenario 40 10 16) [] fresh = Fault 4192.
Proof.
  refine (spec_scenario_stops 4096 8192 fresh [] 40 10 16 2 fresh_stacked _ _); [lia|by vm_compute].
Defined.
